(** * confetti: the linked list and the array list, embedded and verified

    The two containers of confetti ([src/list.c], [src/linked_list.c]) are
    translated function by function into a small state-and-error monad over
    an explicit heap.  Container structs, elements, nodes and iterators live
    in the heap and are reached through addresses, as in the C code, so that
    aliasing, dangling pointers and element identity are visible. *)

From Stdlib Require Import ZArith List Lia Bool Sorted.
From stdpp Require Import base option list gmap.

Local Open Scope Z_scope.

(** ** Outcomes of running C code *)

(** A C function either returns, or runs into undefined behaviour (a
    dereference of a null, dangling or indeterminate pointer, a read past the
    end of a buffer), or never returns (a traversal of a cyclic chain, which
    the model detects by exhausting its fuel). *)
Inductive exec (A : Type) : Type :=
| Ret (a : A)
| Undef
| OutOfFuel.
Arguments Ret {A} a.
Arguments Undef {A}.
Arguments OutOfFuel {A}.

(** State and error monad: a computation over a state [S]. *)
Definition M (S A : Type) : Type := S → exec (A * S).

Definition M_ret {S A} (a : A) : M S A := λ s, Ret (a, s).

Definition M_bind {S A B} (k : A → M S B) (c : M S A) : M S B :=
  λ s, match c s with
       | Ret (a, s') => k a s'
       | Undef => Undef
       | OutOfFuel => OutOfFuel
       end.

#[global] Instance M_mret S : MRet (M S) := @M_ret S.
#[global] Instance M_mbind S : MBind (M S) := @M_bind S.

Definition undef {S A} : M S A := λ _, Undef.
Definition out_of_fuel {S A} : M S A := λ _, OutOfFuel.
Definition lift {S A} (e : exec A) : M S A :=
  λ s, match e with Ret a => Ret (a, s) | Undef => Undef | OutOfFuel => OutOfFuel end.

(** Loops.  [for_loop n i step acc body] runs at most [n] iterations of
    [body], the loop variable starting at [i] and moving by [step]; the body
    receives the loop-carried variables [acc] and either continues with their
    new values ([inl]) or leaves the enclosing function with a result
    ([inr], a [return] inside the loop). *)
Fixpoint for_loop {S A R} (n : nat) (i step : Z) (acc : A)
    (body : Z → A → M S (A + R)) : M S (A + R) :=
  match n with
  | O => mret (inl acc)
  | S n' =>
      r ← body i acc;
      match r with
      | inl acc' => for_loop n' (i + step) step acc' body
      | inr x => mret (inr x)
      end
  end.

(** [for (i = lo; i < hi; i++)] *)
Definition for_up {S A R} (lo hi : Z) (acc : A) (body : Z → A → M S (A + R)) :=
  for_loop (Z.to_nat (hi - lo)) lo 1 acc body.

(** [for (i = hi; i >= lo; i--)] *)
Definition for_down {S A R} (hi lo : Z) (acc : A) (body : Z → A → M S (A + R)) :=
  for_loop (Z.to_nat (hi - lo + 1)) hi (-1) acc body.

(** A loop without [return] in its body: the loop-carried variables at exit. *)
Definition loop_end {S A} (c : M S (A + Empty_set)) : M S A :=
  M_bind (λ r : A + Empty_set,
            match r with inl acc => mret acc | inr e => match e with end end) c.

(** ** Machine integers *)

Definition wrap_unsigned (w z : Z) : Z := z mod 2 ^ w.
Definition wrap_signed (w z : Z) : Z := (z + 2 ^ (w - 1)) mod 2 ^ w - 2 ^ (w - 1).

Definition int8 : Z → Z := wrap_signed 8.
Definition int32 : Z → Z := wrap_signed 32.
Definition int64 : Z → Z := wrap_signed 64.
Definition uint64 : Z → Z := wrap_unsigned 64.

(** ** Bytes and the libc routines the containers call *)

Definition bytes := list Byte.byte.

Definition byte_val (b : Byte.byte) : Z := Z.of_N (Byte.to_N b).

(** [memcmp]: C fixes only the sign of the result.  The model is the
    reference implementation (the difference of the first two bytes that
    differ, read as [unsigned char]), which is what the common C libraries
    return.  Reading past the end of either buffer is undefined. *)
Fixpoint memcmp (a b : bytes) (n : Z) {struct a} : exec Z :=
  if n <=? 0 then Ret 0 else
  match a, b with
  | x :: a', y :: b' =>
      if Byte.eqb x y then memcmp a' b' (n - 1)
      else Ret (byte_val x - byte_val y)
  | _, _ => Undef
  end.

(** [memcpy(dst, src, n)] into a buffer of [n] bytes: the bytes written.
    A null source and a source shorter than [n] bytes are undefined. *)
Definition memcpy (src : option bytes) (n : Z) : exec bytes :=
  match src with
  | None => Undef
  | Some s =>
      if (0 <=? n) && (n <=? Z.of_nat (length s)) then Ret (take (Z.to_nat n) s)
      else Undef
  end.

(** ** The heap *)

Definition addr := positive.

(** [alloc_ok k] tells whether the [k]-th allocation request of the run is
    satisfied: the allocator is an arbitrary sequence of outcomes. *)
Record mem (O : Type) : Type := Mem {
  heap : gmap addr O;
  brk : addr;
  alloc_count : nat;
  alloc_ok : nat → bool
}.
Arguments Mem {O} _ _ _ _.
Arguments heap {O} _.
Arguments brk {O} _.
Arguments alloc_count {O} _.
Arguments alloc_ok {O} _.

Section Heap.
Context {O : Type}.

(** One request to [malloc], [calloc] or [realloc]: does it succeed? *)
Definition malloc : M (mem O) bool :=
  λ m, Ret (alloc_ok m (alloc_count m),
            Mem (heap m) (brk m) (S (alloc_count m)) (alloc_ok m)).

(** The object a successful allocation ends up holding. *)
Definition new (o : O) : M (mem O) addr :=
  λ m, Ret (brk m,
            Mem (<[brk m := o]> (heap m)) (Pos.succ (brk m)) (alloc_count m) (alloc_ok m)).

Definition load (p : addr) : M (mem O) O :=
  λ m, match heap m !! p with Some o => Ret (o, m) | None => Undef end.

Definition store (p : addr) (o : O) : M (mem O) unit :=
  λ m, match heap m !! p with
       | Some _ => Ret (tt, Mem (<[p := o]> (heap m)) (brk m) (alloc_count m) (alloc_ok m))
       | None => Undef
       end.

Definition free (p : addr) : M (mem O) unit :=
  λ m, match heap m !! p with
       | Some _ => Ret (tt, Mem (delete p (heap m)) (brk m) (alloc_count m) (alloc_ok m))
       | None => Undef
       end.

End Heap.

(** A function pointer field: set, or never initialised. *)
Inductive fnptr (A : Type) : Type :=
| Fn (f : A)
| Unset.
Arguments Fn {A} f.
Arguments Unset {A}.

(** * The array list ([src/list.c]) *)

Module ArrayList.

Definition DEFAULT_LIST_CAPACITY : Z := 8.

Inductive list_result_t : Type :=
| LIST_SUCCESS
| LIST_INDEX_OUT_OF_RANGE_ERROR
| LIST_ELEMENT_NOT_FOUND_ERROR
| LIST_NULL_ERROR
| LIST_INVALID_PARAMS_ERROR
| LIST_ALLOCATION_FAILURE.

#[global] Instance list_result_eq_dec : EqDecision list_result_t.
Proof. solve_decision. Defined.

Definition is_success (r : list_result_t) : bool :=
  match r with LIST_SUCCESS => true | _ => false end.

(** [list_custom_equality_function_t]: the two values and the size. *)
Definition list_custom_equality_function_t : Type :=
  option bytes → option bytes → Z → exec Z.

(** [list->sortingFunction]: the built-in [default_sort], or the caller's
    routine, named by its address. *)
Inductive list_custom_sorting_function_t : Type :=
| SortDefault
| SortCustom (id : positive).

(** A [list_element_t*] as it sits in [items] or in a local variable: null,
    the address of an element, or an indeterminate value (memory that was
    never written). *)
Inductive pointer : Type :=
| NULL
| Ptr (a : addr)
| Wild.

#[global] Instance pointer_eq_dec : EqDecision pointer.
Proof. solve_decision. Defined.

(** [list_element_t]; the [value] buffer is owned by the element alone and is
    kept inline: [None] is the null [value] pointer. *)
Record list_element_t : Type := {
  el_size : Z;
  el_value : option bytes
}.

(** [list_t]; [items] is the allocated array ([[]] for a null [items]). *)
Record list_t : Type := {
  size : Z;
  capacity : Z;
  items : list pointer;
  equalityFunction : fnptr list_custom_equality_function_t;
  sortingFunction : fnptr list_custom_sorting_function_t
}.

Record list_iterator_t : Type := {
  it_list : option addr;
  index : Z;
  element : pointer
}.

Inductive object : Type :=
| OList (l : list_t)
| OElement (e : list_element_t)
| OIterator (it : list_iterator_t).

Definition memory : Type := mem object.
Abbreviation C := (M memory).

Definition set_size (l : list_t) (n : Z) : list_t :=
  {| size := n; capacity := capacity l; items := items l;
     equalityFunction := equalityFunction l; sortingFunction := sortingFunction l |}.
Definition set_capacity (l : list_t) (n : Z) : list_t :=
  {| size := size l; capacity := n; items := items l;
     equalityFunction := equalityFunction l; sortingFunction := sortingFunction l |}.
Definition set_items (l : list_t) (a : list pointer) : list_t :=
  {| size := size l; capacity := capacity l; items := a;
     equalityFunction := equalityFunction l; sortingFunction := sortingFunction l |}.

(** *** Typed access to the heap *)

Definition load_list (list : addr) : C list_t :=
  o ← load list; match o with OList l => mret l | _ => undef end.

Definition load_element (p : pointer) : C list_element_t :=
  match p with
  | Ptr a => o ← load a; match o with OElement e => mret e | _ => undef end
  | NULL | Wild => undef
  end.

Definition load_iterator (iterator : addr) : C list_iterator_t :=
  o ← load iterator; match o with OIterator it => mret it | _ => undef end.

Definition in_bounds (a : list pointer) (i : Z) : bool :=
  (0 <=? i) && (i <? Z.of_nat (length a)).

(** [list->items[i]] *)
Definition get_item (list : addr) (i : Z) : C pointer :=
  l ← load_list list;
  if in_bounds (items l) i then
    match items l !! Z.to_nat i with Some p => mret p | None => undef end
  else undef.

(** [list->items[i] = p] *)
Definition set_item (list : addr) (i : Z) (p : pointer) : C unit :=
  l ← load_list list;
  if in_bounds (items l) i then
    store list (OList (set_items l (<[Z.to_nat i := p]> (items l))))
  else undef.

(** [list->size = n] *)
Definition write_size (list : addr) (n : Z) : C unit :=
  l ← load_list list; store list (OList (set_size l n)).

(** The function [list->equalityFunction] points to. *)
Definition equality_of (list : addr) : C list_custom_equality_function_t :=
  l ← load_list list;
  match equalityFunction l with Fn f => mret f | Unset => undef end.

(** A local [list_element_t*] that was declared without initialiser and
    handed to a function as output parameter. *)
Definition local (out : option addr) : pointer :=
  match out with Some a => Ptr a | None => Wild end.

(** *** Private functions *)

(** [elementOut] is returned next to the result code; [None] when the
    function did not write it. *)
Definition list_element_create (value : option bytes) (size : Z)
    : C (list_result_t * option addr) :=
  ok ← malloc;
  if negb ok then mret (LIST_ALLOCATION_FAILURE, None) else
  match value with
  | None =>
      element ← new (OElement {| el_size := size; el_value := None |});
      mret (LIST_SUCCESS, Some element)
  | Some _ =>
      ok' ← malloc;
      if negb ok' then mret (LIST_ALLOCATION_FAILURE, None) else
      data ← lift (memcpy value size);
      element ← new (OElement {| el_size := size; el_value := Some data |});
      mret (LIST_SUCCESS, Some element)
  end.

Definition list_element_set (element : pointer) (value : option bytes) (size : Z)
    : C list_result_t :=
  e ← load_element element;
  match element with
  | Ptr a =>
      if negb (size =? el_size e) then
        ok ← malloc;
        if negb ok then
          store a (OElement {| el_size := size; el_value := None |});;
          mret LIST_ALLOCATION_FAILURE
        else
          data ← lift (memcpy value size);
          store a (OElement {| el_size := size; el_value := Some data |});;
          mret LIST_SUCCESS
      else
        match el_value e with
        | None => undef
        | Some _ =>
            data ← lift (memcpy value size);
            store a (OElement {| el_size := size; el_value := Some data |});;
            mret LIST_SUCCESS
        end
  | NULL | Wild => undef
  end.

Definition list_element_clone (element : pointer) : C (list_result_t * option addr) :=
  ok ← malloc;
  if negb ok then mret (LIST_ALLOCATION_FAILURE, None) else
  e ← load_element element;
  match el_value e with
  | None =>
      elementClone ← new (OElement {| el_size := el_size e; el_value := None |});
      mret (LIST_SUCCESS, Some elementClone)
  | Some _ =>
      ok' ← malloc;
      if negb ok' then mret (LIST_ALLOCATION_FAILURE, None) else
      data ← lift (memcpy (el_value e) (el_size e));
      elementClone ← new (OElement {| el_size := el_size e; el_value := Some data |});
      mret (LIST_SUCCESS, Some elementClone)
  end.

(** [list_element_free(&p)]: the result and the new value of [p].  The C code
    frees the element and only then sets its [value] to null and its [size]
    to 0: the two writes go through the element that has just been freed. *)
Definition list_element_free (element : pointer) : C (list_result_t * pointer) :=
  match element with
  | NULL => mret (LIST_INVALID_PARAMS_ERROR, NULL)
  | Ptr a =>
      load_element element;;
      free a;;
      e ← load_element element;
      store a (OElement {| el_size := el_size e; el_value := None |});;
      e ← load_element element;
      store a (OElement {| el_size := 0; el_value := el_value e |});;
      mret (LIST_SUCCESS, NULL)
  | Wild => undef
  end.

(** [realloc(items, sizeof(list_element_t* ) * capacity)]: the first slots
    keep their contents, new slots are indeterminate.  The block has
    [capacity] slots: the byte count, which the C code computes in [size_t],
    is taken as it is for a capacity below 2^61, where it does not wrap. *)
Definition realloc_items (a : list pointer) (capacity : Z) : list pointer :=
  take (Z.to_nat capacity) (a ++ replicate (Z.to_nat capacity - length a)%nat Wild).

Definition list_realloc_capacity (list : addr) (capacity : Z) : C list_result_t :=
  if capacity <? 1 then mret LIST_INVALID_PARAMS_ERROR else
  l ← load_list list;
  let oldCapacity := ArrayList.capacity l in
  if capacity =? oldCapacity then mret LIST_SUCCESS else
  (if capacity <? oldCapacity then
     loop_end (for_down (oldCapacity - 1) capacity tt (λ i _,
       p ← get_item list i;
       match p with
       | NULL => mret tt
       | _ => list_element_free p;; mret tt
       end;;
       set_item list i NULL;;
       mret (inl tt)));;
     l ← load_list list;
     if size l >? capacity then write_size list capacity else mret tt
   else mret tt);;
  l ← load_list list;
  store list (OList (set_capacity l capacity));;
  ok ← malloc;
  l ← load_list list;
  if negb ok then
    store list (OList (set_items l []));;
    mret LIST_ALLOCATION_FAILURE
  else
    store list (OList (set_items l (realloc_items (items l) capacity)));;
    (if capacity >? oldCapacity then
       loop_end (for_up oldCapacity (capacity - 1) tt (λ i _,
         set_item list i NULL;; mret (inl tt)))
     else mret tt);;
    mret LIST_SUCCESS.

Definition default_equals (data1 data2 : option bytes) (size : Z) : exec Z :=
  match data1, data2 with
  | None, Some _ => Ret (-1)
  | Some _, None => Ret 1
  | None, None => Ret 0
  | Some a, Some b => memcmp a b size
  end.

Definition list_swap (list : option addr) (index1 index2 : Z) : C list_result_t :=
  match list with
  | None => mret LIST_NULL_ERROR
  | Some list =>
      l ← load_list list;
      if (index1 >=? size l) || (index1 <? 0) then mret LIST_INDEX_OUT_OF_RANGE_ERROR
      else if (index2 >=? size l) || (index2 <? 0) then mret LIST_INDEX_OUT_OF_RANGE_ERROR
      else if index1 =? index2 then mret LIST_SUCCESS
      else
        temp ← get_item list index1;
        p2 ← get_item list index2;
        set_item list index1 p2;;
        set_item list index2 temp;;
        mret LIST_SUCCESS
  end.

(** [list->equalityFunction(list->items[a]->value, list->items[b]->value,
    list->items[a]->size)] *)
Definition compare_items (list : addr) (a b : Z) : C Z :=
  f ← equality_of list;
  pa ← get_item list a; ea ← load_element pa;
  pb ← get_item list b; eb ← load_element pb;
  lift (f (el_value ea) (el_value eb) (el_size ea)).

Definition partition (list : addr) (low high : Z) (ascending : bool) : C Z :=
  (if high - low + 1 >=? 3 then
     let mid := low + Z.quot (high - low) 2 in
     let out_of_order (c : Z) : bool := if ascending then c >? 0 else c <? 0 in
     c ← compare_items list low mid;
     (if out_of_order c then list_swap (Some list) low mid;; mret tt else mret tt);;
     c ← compare_items list low high;
     (if out_of_order c then list_swap (Some list) low high;; mret tt else mret tt);;
     c ← compare_items list mid high;
     (if out_of_order c then list_swap (Some list) mid high;; mret tt else mret tt);;
     list_swap (Some list) mid (high - 1);;
     mret tt
   else mret tt);;
  pivot_element ← get_item list (high - 1);
  pivot ← load_element pivot_element;
  let pivot_value := el_value pivot in
  let pivot_size := el_size pivot in
  i ← loop_end (for_up low (high - 1) (low - 1) (λ j i,
        f ← equality_of list;
        pj ← get_item list j; ej ← load_element pj;
        comparison_result ← lift (f (el_value ej) pivot_value pivot_size);
        let condition : bool :=
          if ascending then comparison_result <=? 0 else comparison_result >=? 0 in
        if condition then
          list_swap (Some list) (i + 1) j;;
          mret (inl (i + 1))
        else mret (inl i)));
  list_swap (Some list) (i + 1) (high - 1);;
  mret (i + 1).

(** The recursion of [quicksort] is on ranges that shrink; [fuel] bounds its
    depth and is never exhausted when it starts at the length of the range. *)
Fixpoint quicksort (fuel : nat) (list : addr) (low high : Z) (ascending : bool) : C unit :=
  if low <? high then
    match fuel with
    | O => out_of_fuel
    | S fuel' =>
        p ← partition list low high ascending;
        let p := int32 p in
        quicksort fuel' list low (p - 1) ascending;;
        quicksort fuel' list (p + 1) high ascending
    end
  else mret tt.

Definition default_sort (list : addr) (ascending : bool) : C list_result_t :=
  l ← load_list list;
  quicksort (Z.to_nat (size l)) list 0 (size l - 1) ascending;;
  mret LIST_SUCCESS.

(** *** Public functions *)

(** Output parameters ([listOut], [elementOut], [indexOut], [iteratorOut])
    are returned next to the result code; [None] when the function left the
    parameter unwritten. *)

Definition list_create (capacity : Z)
    (customEqualityFunction : option list_custom_equality_function_t)
    (customSortingFunction : option positive) : C (list_result_t * option addr) :=
  ok ← malloc;
  if negb ok then mret (LIST_ALLOCATION_FAILURE, None) else
  let capacity := if capacity <? 1 then DEFAULT_LIST_CAPACITY else capacity in
  ok' ← malloc;
  if negb ok' then mret (LIST_ALLOCATION_FAILURE, None) else
  list ← new (OList {|
    size := 0;
    capacity := capacity;
    items := replicate (Z.to_nat capacity) NULL;
    equalityFunction :=
      Fn (match customEqualityFunction with None => default_equals | Some f => f end);
    sortingFunction :=
      Fn (match customSortingFunction with None => SortDefault | Some f => SortCustom f end)
  |});
  mret (LIST_SUCCESS, Some list).

Definition list_free (list : option addr) : C (list_result_t * option addr) :=
  match list with
  | None => mret (LIST_NULL_ERROR, None)
  | Some list =>
      l ← load_list list;
      loop_end (for_up 0 (size l) tt (λ i _,
        element ← get_item list i;
        match element with
        | NULL => mret (inl tt)
        | Ptr a => load_element element;; free a;; set_item list i NULL;; mret (inl tt)
        | Wild => undef
        end));;
      free list;;
      mret (LIST_SUCCESS, None)
  end.

Definition list_resize (list : option addr) (capacity : Z) : C list_result_t :=
  match list with
  | None => mret LIST_NULL_ERROR
  | Some list =>
      if capacity <? 1 then mret LIST_INVALID_PARAMS_ERROR else
      l ← load_list list;
      if capacity =? ArrayList.capacity l then mret LIST_SUCCESS else
      result ← list_realloc_capacity list capacity;
      if negb (is_success result) then mret result else mret LIST_SUCCESS
  end.

Definition list_prepend (list : option addr) (value : option bytes) (size : Z)
    : C list_result_t :=
  match list with
  | None => mret LIST_NULL_ERROR
  | Some list =>
      l ← load_list list;
      result ← (if ArrayList.size l =? capacity l
                then list_realloc_capacity list (int64 (capacity l * 2))
                else mret LIST_SUCCESS);
      if negb (is_success result) then mret result else
      l ← load_list list;
      loop_end (for_down (ArrayList.size l - 1) 0 tt (λ i _,
        p ← get_item list i; set_item list (i + 1) p;; mret (inl tt)));;
      malloc;;
      '(result, element) ← list_element_create value size;
      if negb (is_success result) then mret result else
      set_item list 0 (local element);;
      l ← load_list list;
      write_size list (int64 (ArrayList.size l + 1));;
      mret LIST_SUCCESS
  end.

Definition list_append (list : option addr) (value : option bytes) (size : Z)
    : C list_result_t :=
  match list with
  | None => mret LIST_NULL_ERROR
  | Some list =>
      l ← load_list list;
      result ← (if ArrayList.size l =? capacity l
                then list_realloc_capacity list (int64 (capacity l * 2))
                else mret LIST_SUCCESS);
      if negb (is_success result) then mret result else
      '(result, element) ← list_element_create value size;
      if negb (is_success result) then mret result else
      l ← load_list list;
      write_size list (int64 (ArrayList.size l + 1));;
      set_item list (ArrayList.size l) (local element);;
      mret LIST_SUCCESS
  end.

Definition list_insert (list : option addr) (index : Z) (value : option bytes) (size : Z)
    : C list_result_t :=
  match list with
  | None => mret LIST_NULL_ERROR
  | Some list =>
      l ← load_list list;
      if (index >? ArrayList.size l) || (index <? 0) then mret LIST_INDEX_OUT_OF_RANGE_ERROR else
      result ← (if ArrayList.size l =? capacity l
                then list_realloc_capacity list (int64 (capacity l * 2))
                else mret LIST_SUCCESS);
      if negb (is_success result) then mret result else
      l ← load_list list;
      loop_end (for_down (int32 (ArrayList.size l - 1)) index tt (λ i _,
        p ← get_item list i; set_item list (i + 1) p;; mret (inl tt)));;
      '(createResult, element) ← list_element_create value size;
      match element with
      | Some a => set_item list index (Ptr a)
      | None => mret tt
      end;;
      l ← load_list list;
      write_size list (int64 (ArrayList.size l + 1));;
      mret LIST_SUCCESS
  end.

Definition list_get (list : option addr) (index : Z) : C (list_result_t * option pointer) :=
  match list with
  | None => mret (LIST_NULL_ERROR, None)
  | Some list =>
      l ← load_list list;
      if (index >=? size l) || (index <? 0) then mret (LIST_INDEX_OUT_OF_RANGE_ERROR, None) else
      p ← get_item list index;
      '(result, element) ← list_element_clone p;
      if negb (is_success result) then mret (result, Some NULL) else
      mret (LIST_SUCCESS, Some (local element))
  end.

Definition list_set (list : option addr) (index : Z) (value : option bytes) (size : Z)
    : C list_result_t :=
  match list with
  | None => mret LIST_NULL_ERROR
  | Some list =>
      l ← load_list list;
      if (index >=? ArrayList.size l) || (index <? 0) then mret LIST_INDEX_OUT_OF_RANGE_ERROR
      else if size =? 0 then mret LIST_INVALID_PARAMS_ERROR
      else
        p ← get_item list index;
        match p with
        | NULL =>
            '(result, element) ← list_element_create value size;
            if is_success result then set_item list index (local element);; mret LIST_SUCCESS
            else mret result
        | Ptr _ =>
            result ← list_element_set p value size;
            if negb (is_success result) then mret result else mret LIST_SUCCESS
        | Wild => undef
        end
  end.

Definition list_remove (list : option addr) (index : Z) : C list_result_t :=
  match list with
  | None => mret LIST_NULL_ERROR
  | Some list =>
      l ← load_list list;
      if (index >=? capacity l) || (index <? 0) then mret LIST_INDEX_OUT_OF_RANGE_ERROR else
      p ← get_item list index;
      '(freeResult, p') ← list_element_free p;
      set_item list index p';;
      if negb (is_success freeResult) then mret freeResult else
      l ← load_list list;
      loop_end (for_up index (size l - 1) tt (λ i _,
        q ← get_item list (i + 1); set_item list i q;; mret (inl tt)));;
      write_size list (int64 (size l - 1));;
      mret LIST_SUCCESS
  end.

Definition list_pop (list : option addr) (index : Z) : C (list_result_t * option pointer) :=
  match list with
  | None => mret (LIST_NULL_ERROR, None)
  | Some list =>
      l ← load_list list;
      if (index >=? capacity l) || (index <? 0) then mret (LIST_INDEX_OUT_OF_RANGE_ERROR, None) else
      p ← get_item list index;
      '(cloneResult, element) ← list_element_clone p;
      let elementOut := Ptr <$> element in
      if negb (is_success cloneResult) then mret (cloneResult, elementOut) else
      '(freeResult, p') ← list_element_free p;
      set_item list index p';;
      if negb (is_success freeResult) then mret (freeResult, elementOut) else
      l ← load_list list;
      loop_end (for_up index (size l - 1) tt (λ i _,
        q ← get_item list (i + 1); set_item list i q;; mret (inl tt)));;
      write_size list (int64 (size l - 1));;
      mret (LIST_SUCCESS, elementOut)
  end.

Definition list_reverse (list : option addr) : C list_result_t :=
  match list with
  | None => mret LIST_NULL_ERROR
  | Some list =>
      l ← load_list list;
      let mid := Z.quot (size l) 2 in
      loop_end (for_up 0 mid tt (λ i _,
        leftElement ← get_item list i;
        rightElement ← get_item list (size l - 1 - i);
        set_item list i rightElement;;
        set_item list (size l - 1 - i) leftElement;;
        mret (inl tt)));;
      mret LIST_SUCCESS
  end.

(** [list_clone] tests [list], not [listClone], after its [malloc], and
    leaves the two function pointers of the clone unset. *)
Definition list_clone (list : option addr) : C (list_result_t * option addr) :=
  match list with
  | None => mret (LIST_NULL_ERROR, None)
  | Some list =>
      ok ← malloc;
      if negb ok then undef else
      l ← load_list list;
      ok' ← malloc;
      if negb ok' then mret (LIST_ALLOCATION_FAILURE, None) else
      listClone ← new (OList {|
        size := size l;
        capacity := capacity l;
        items := replicate (Z.to_nat (capacity l)) NULL;
        equalityFunction := Unset;
        sortingFunction := Unset
      |});
      loop_end (for_up 0 (size l) tt (λ i _,
        p ← get_item list i;
        '(result, elementClone) ← list_element_clone p;
        set_item listClone i (local elementClone);;
        mret (inl tt)));;
      mret (LIST_SUCCESS, Some listClone)
  end.

Definition list_clear (list : option addr) : C list_result_t :=
  match list with
  | None => mret LIST_NULL_ERROR
  | Some list =>
      l ← load_list list;
      loop_end (for_up 0 (size l) tt (λ i _,
        p ← get_item list i;
        '(_, p') ← list_element_free p;
        set_item list i p';;
        mret (inl tt)));;
      write_size list 0;;
      mret LIST_SUCCESS
  end.

Definition list_join (list1 list2 : option addr) : C (list_result_t * option addr) :=
  match list1, list2 with
  | None, _ => mret (LIST_NULL_ERROR, None)
  | _, None => mret (LIST_NULL_ERROR, None)
  | Some list1, Some list2 =>
      l1 ← load_list list1;
      l2 ← load_list list2;
      '(result, joinList) ← list_create (int64 (size l1 + size l2)) None None;
      match joinList with
      | None => mret (result, None)
      | Some joinList =>
          loop_end (for_up 0 (size l1) tt (λ i _,
            p ← get_item list1 i;
            '(_, element) ← list_element_clone p;
            set_item joinList i (local element);;
            mret (inl tt)));;
          loop_end (for_up 0 (size l2) tt (λ i _,
            p ← get_item list2 i;
            '(_, element) ← list_element_clone p;
            set_item joinList (size l1 + i) (local element);;
            mret (inl tt)));;
          j ← load_list joinList;
          write_size joinList (capacity j);;
          mret (LIST_SUCCESS, Some joinList)
      end
  end.

Definition list_includes (list : option addr) (value : option bytes) (size : Z)
    : C list_result_t :=
  match list with
  | None => mret LIST_NULL_ERROR
  | Some list =>
      l ← load_list list;
      r ← for_up 0 (ArrayList.size l) tt (λ i _,
            p ← get_item list i; e ← load_element p;
            if negb (el_size e =? size) then mret (inl tt) else
            f ← equality_of list;
            c ← lift (f (el_value e) value (el_size e));
            if c =? 0 then mret (inr LIST_SUCCESS) else mret (inl tt));
      match r with
      | inr result => mret result
      | inl _ => mret LIST_ELEMENT_NOT_FOUND_ERROR
      end
  end.

Definition list_find_first (list : option addr) (startIndex : Z)
    (value : option bytes) (size : Z) : C (list_result_t * option Z) :=
  match list with
  | None => mret (LIST_NULL_ERROR, Some (-1))
  | Some list =>
      l ← load_list list;
      if (startIndex >=? ArrayList.size l) || (startIndex <? 0)
      then mret (LIST_INVALID_PARAMS_ERROR, Some (-1))
      else if size <=? 0 then mret (LIST_INVALID_PARAMS_ERROR, Some (-1))
      else
        let index := if startIndex >? 0 then startIndex else 0 in
        r ← for_up index (ArrayList.size l) tt (λ i _,
              p ← get_item list i; e ← load_element p;
              if negb (el_size e =? size) then mret (inl tt) else
              f ← equality_of list;
              c ← lift (f (el_value e) value (el_size e));
              if c =? 0 then mret (inr (LIST_SUCCESS, Some i)) else mret (inl tt));
        match r with
        | inr x => mret x
        | inl _ => mret (LIST_ELEMENT_NOT_FOUND_ERROR, Some (-1))
        end
  end.

Definition list_find_last (list : option addr) (startIndex : Z)
    (value : option bytes) (size : Z) : C (list_result_t * option Z) :=
  match list with
  | None => mret (LIST_NULL_ERROR, Some (-1))
  | Some list =>
      l ← load_list list;
      if (startIndex >=? ArrayList.size l) || (startIndex <? 0)
      then mret (LIST_INDEX_OUT_OF_RANGE_ERROR, Some (-1))
      else if size <=? 0 then mret (LIST_INVALID_PARAMS_ERROR, Some (-1))
      else
        index ← loop_end (for_up startIndex (ArrayList.size l) (-1) (λ i index,
              p ← get_item list i; e ← load_element p;
              if negb (el_size e =? size) then mret (inl index) else
              f ← equality_of list;
              c ← lift (f (el_value e) value (el_size e));
              if c =? 0 then mret (inl i) else mret (inl index)));
        mret (if index =? -1 then LIST_ELEMENT_NOT_FOUND_ERROR else LIST_SUCCESS, Some index)
  end.

Section Sort.
(** The caller's sorting routines, by address. *)
Variable custom_sort : positive → addr → bool → C list_result_t.

Definition list_sort (list : option addr) (ascending : bool) : C list_result_t :=
  match list with
  | None => mret LIST_NULL_ERROR
  | Some list =>
      l ← load_list list;
      if (size l =? 0) || (size l =? 1) then mret LIST_SUCCESS else
      match sortingFunction l with
      | Fn SortDefault => default_sort list ascending
      | Fn (SortCustom f) => custom_sort f list ascending
      | Unset => undef
      end
  end.

End Sort.

Definition list_fill (list : option addr) (value : option bytes) (size : Z)
    : C list_result_t :=
  match list with
  | None => mret LIST_NULL_ERROR
  | Some list =>
      l ← load_list list;
      r ← for_up (ArrayList.size l) (capacity l) tt (λ i _,
            '(result, element) ← list_element_create value size;
            if negb (is_success result) then mret (inr result) else
            set_item list i (local element);; mret (inl tt));
      match r with
      | inr result => mret result
      | inl _ => write_size list (capacity l);; mret LIST_SUCCESS
      end
  end.

(** [list_iterator_create] does not test its [malloc]. *)
Definition list_iterator_create (list : option addr) : C (list_result_t * option addr) :=
  match list with
  | None => mret (LIST_NULL_ERROR, None)
  | Some list =>
      ok ← malloc;
      if negb ok then undef else
      iterator ← new (OIterator {| it_list := Some list; index := -1; element := NULL |});
      mret (LIST_SUCCESS, Some iterator)
  end.

Definition list_iterator_next (iterator : option addr) : C list_result_t :=
  match iterator with
  | None => mret LIST_INVALID_PARAMS_ERROR
  | Some iterator =>
      it ← load_iterator iterator;
      match it_list it with
      | None => undef
      | Some list =>
          if index it =? -1 then
            p ← get_item list 0;
            store iterator (OIterator {| it_list := it_list it; index := 0; element := p |});;
            mret LIST_SUCCESS
          else
            l ← load_list list;
            if index it + 1 >=? size l then
              store iterator (OIterator {| it_list := it_list it; index := -1; element := NULL |});;
              mret LIST_INDEX_OUT_OF_RANGE_ERROR
            else
              p ← get_item list (index it + 1);
              store iterator
                (OIterator {| it_list := it_list it; index := index it + 1; element := p |});;
              mret LIST_SUCCESS
      end
  end.

Definition list_iterator_rewind (iterator : option addr) : C list_result_t :=
  match iterator with
  | None => mret LIST_INVALID_PARAMS_ERROR
  | Some iterator =>
      it ← load_iterator iterator;
      store iterator (OIterator {| it_list := it_list it; index := -1; element := NULL |});;
      mret LIST_SUCCESS
  end.

(** [list_iterator_free(&iterator)]; the emptiness test of the C code is on
    the address of the variable, which is never null. *)
Definition list_iterator_free (iterator : option addr) : C (list_result_t * option addr) :=
  match iterator with
  | None => undef
  | Some iterator =>
      load_iterator iterator;; free iterator;; mret (LIST_SUCCESS, None)
  end.

(** *** The contents of a list *)

(** The element a slot points to, when it points to one. *)
Definition element_at (h : gmap addr object) (p : pointer) : option list_element_t :=
  match p with
  | Ptr a => match h !! a with Some (OElement e) => Some e | _ => None end
  | NULL | Wild => None
  end.

(** What holds of every element: a data buffer, when there is one, has as
    many bytes as the element says. *)
Definition element_ok (e : list_element_t) : Prop :=
  ∀ data, el_value e = Some data → Z.of_nat (length data) = el_size e.

Definition object_ok (o : object) : Prop :=
  match o with
  | OElement e => element_ok e
  | OList _ | OIterator _ => True
  end.

Definition elements_ok (m : memory) : Prop :=
  ∀ a o, heap m !! a = Some o → object_ok o.

(** The slots below [size], and the elements behind them. *)
Definition live_items (l : list_t) : list pointer := take (Z.to_nat (size l)) (items l).

Definition elements (h : gmap addr object) (l : list_t) : list (option list_element_t) :=
  element_at h <$> live_items l.

(** *** The interface as data *)

(** A call of a public function, and its result code.  The functions that
    work on a list take the handle [run] is given; the others carry their
    own arguments. *)
Inductive call : Type :=
| Create (capacity : Z) (customEqualityFunction : option list_custom_equality_function_t)
    (customSortingFunction : option positive)
| Free
| ElementFree (element : pointer)
| IteratorCreate
| IteratorNext (iterator : option addr)
| IteratorRewind (iterator : option addr)
| IteratorFree (iterator : option addr)
| Resize (capacity : Z)
| Prepend (value : option bytes) (size : Z)
| Append (value : option bytes) (size : Z)
| Insert (index : Z) (value : option bytes) (size : Z)
| Get (index : Z)
| Set_ (index : Z) (value : option bytes) (size : Z)
| Remove (index : Z)
| Pop (index : Z)
| Reverse
| Clone
| Clear
| Join (list2 : option addr)
| Includes (value : option bytes) (size : Z)
| FindFirst (startIndex : Z) (value : option bytes) (size : Z)
| FindLast (startIndex : Z) (value : option bytes) (size : Z)
| Sort (ascending : bool)
| Fill (value : option bytes) (size : Z)
| Swap (index1 index2 : Z).

Definition result_only {A} (c : C (list_result_t * A)) : C list_result_t :=
  '(result, _) ← c; mret result.

Definition run (custom_sort : positive → addr → bool → C list_result_t)
    (list : option addr) (c : call) : C list_result_t :=
  match c with
  | Create capacity customEqualityFunction customSortingFunction =>
      result_only (list_create capacity customEqualityFunction customSortingFunction)
  | Free => result_only (list_free list)
  | ElementFree element => result_only (list_element_free element)
  | IteratorCreate => result_only (list_iterator_create list)
  | IteratorNext iterator => list_iterator_next iterator
  | IteratorRewind iterator => list_iterator_rewind iterator
  | IteratorFree iterator => result_only (list_iterator_free iterator)
  | Resize capacity => list_resize list capacity
  | Prepend value size => list_prepend list value size
  | Append value size => list_append list value size
  | Insert index value size => list_insert list index value size
  | Get index => result_only (list_get list index)
  | Set_ index value size => list_set list index value size
  | Remove index => list_remove list index
  | Pop index => result_only (list_pop list index)
  | Reverse => list_reverse list
  | Clone => result_only (list_clone list)
  | Clear => list_clear list
  | Join list2 => result_only (list_join list list2)
  | Includes value size => list_includes list value size
  | FindFirst startIndex value size => result_only (list_find_first list startIndex value size)
  | FindLast startIndex value size => result_only (list_find_last list startIndex value size)
  | Sort ascending => list_sort custom_sort list ascending
  | Fill value size => list_fill list value size
  | Swap index1 index2 => list_swap list index1 index2
  end.

(** The calls that take an index, with an index outside the domain the
    function checks: [[0, size]] for [list_insert], [[0, capacity)] for
    [list_remove] and [list_pop], [[0, size)] for the others. *)
Definition out_of_range (l : list_t) (c : call) : Prop :=
  match c with
  | Insert index _ _ => index < 0 ∨ index > size l
  | Get index | Set_ index _ _ | FindFirst index _ _ | FindLast index _ _ =>
      index < 0 ∨ index >= size l
  | Remove index | Pop index => index < 0 ∨ index >= capacity l
  | Swap index1 index2 =>
      (index1 < 0 ∨ index1 >= size l) ∨ (index2 < 0 ∨ index2 >= size l)
  | _ => False
  end.

(** The code the function answers such a call with. *)
Definition range_error (c : call) : list_result_t :=
  match c with
  | FindFirst _ _ _ => LIST_INVALID_PARAMS_ERROR
  | _ => LIST_INDEX_OUT_OF_RANGE_ERROR
  end.

End ArrayList.

(** * The linked list ([src/linked_list.c]) *)

Module LinkedList.

Inductive linked_list_result_t : Type :=
| LINKED_LIST_SUCCESS
| LINKED_LIST_INDEX_OUT_OF_RANGE_ERROR
| LINKED_LIST_ELEMENT_NOT_FOUND_ERROR
| LINKED_LIST_NULL_ERROR
| LINKED_LIST_INVALID_PARAMS_ERROR
| LINKED_LIST_ALLOCATION_FAILURE.

#[global] Instance linked_list_result_eq_dec : EqDecision linked_list_result_t.
Proof. solve_decision. Defined.

Definition is_success (r : linked_list_result_t) : bool :=
  match r with LINKED_LIST_SUCCESS => true | _ => false end.

Definition linked_list_custom_equality_function_t : Type :=
  option bytes → option bytes → Z → exec Z.

Inductive linked_list_custom_sorting_function_t : Type :=
| SortDefault
| SortCustom (id : positive).

(** Pointers to nodes, elements and lists are [option addr]: [None] is the
    null pointer. *)
Record linked_list_element_t : Type := {
  value : option bytes;
  size : Z
}.

Record linked_list_node_t : Type := {
  next : option addr;
  element : option addr
}.

Record linked_list_t : Type := {
  head : option addr;
  tail : option addr;
  count : Z;
  equalityFunction : fnptr linked_list_custom_equality_function_t;
  sortingFunction : fnptr linked_list_custom_sorting_function_t
}.

Record linked_list_iterator_t : Type := {
  it_list : option addr;
  index : Z;
  node : option addr
}.

Inductive object : Type :=
| OList (l : linked_list_t)
| ONode (n : linked_list_node_t)
| OElement (e : linked_list_element_t)
| OIterator (it : linked_list_iterator_t).

Definition memory : Type := mem object.
Abbreviation C := (M memory).

Definition set_head (l : linked_list_t) (p : option addr) : linked_list_t :=
  {| head := p; tail := tail l; count := count l;
     equalityFunction := equalityFunction l; sortingFunction := sortingFunction l |}.
Definition set_tail (l : linked_list_t) (p : option addr) : linked_list_t :=
  {| head := head l; tail := p; count := count l;
     equalityFunction := equalityFunction l; sortingFunction := sortingFunction l |}.
Definition set_count (l : linked_list_t) (n : Z) : linked_list_t :=
  {| head := head l; tail := tail l; count := n;
     equalityFunction := equalityFunction l; sortingFunction := sortingFunction l |}.

(** *** Typed access to the heap *)

Definition load_list (list : addr) : C linked_list_t :=
  o ← load list; match o with OList l => mret l | _ => undef end.

(** [*p] for a node pointer, an element pointer. *)
Definition load_node (p : option addr) : C linked_list_node_t :=
  match p with
  | Some a => o ← load a; match o with ONode n => mret n | _ => undef end
  | None => undef
  end.

Definition load_element (p : option addr) : C linked_list_element_t :=
  match p with
  | Some a => o ← load a; match o with OElement e => mret e | _ => undef end
  | None => undef
  end.

Definition load_iterator (iterator : addr) : C linked_list_iterator_t :=
  o ← load iterator; match o with OIterator it => mret it | _ => undef end.

(** [linkedList->head = p], [linkedList->tail = p], [linkedList->size = n];
    the field [size] of the list is [count] here, [size] being the field of
    the element. *)
Definition write_head (list : addr) (p : option addr) : C unit :=
  l ← load_list list; store list (OList (set_head l p)).
Definition write_tail (list : addr) (p : option addr) : C unit :=
  l ← load_list list; store list (OList (set_tail l p)).
Definition write_count (list : addr) (n : Z) : C unit :=
  l ← load_list list; store list (OList (set_count l n)).

(** [p->next = q] *)
Definition write_next (p q : option addr) : C unit :=
  n ← load_node p;
  match p with
  | Some a => store a (ONode {| next := q; element := element n |})
  | None => undef
  end.

(** [p->element = q] *)
Definition store_element_field (p q : option addr) : C unit :=
  n ← load_node p;
  match p with
  | Some a => store a (ONode {| next := next n; element := q |})
  | None => undef
  end.

(** [free(p)] for a node pointer; freeing the null pointer does nothing. *)
Definition free_node (p : option addr) : C unit :=
  match p with
  | Some a => load_node p;; free a
  | None => mret tt
  end.

(** The number of objects in the heap: no chain of distinct nodes is longer. *)
Definition heap_size : C nat := λ m, Ret (stdpp.base.size (heap m), m).

(** [for (node = start; node != NULL; node = node->next) body].  The body
    gets the node and the loop-carried variables; it continues with the new
    value of the variable [node] and of the others ([inl]), or returns from
    the enclosing function ([inr]). *)
Fixpoint walk {A R} (fuel : nat) (node : option addr) (acc : A)
    (body : addr → A → C (option addr * A + R)) : C (A + R) :=
  match node with
  | None => mret (inl acc)
  | Some a =>
      match fuel with
      | O => out_of_fuel
      | S fuel' =>
          r ← body a acc;
          match r with
          | inr x => mret (inr x)
          | inl (node', acc') =>
              n ← load_node node';
              walk fuel' (next n) acc' body
          end
      end
  end.

Definition for_nodes {A R} (start : option addr) (acc : A)
    (body : addr → A → C (option addr * A + R)) : C (A + R) :=
  fuel ← heap_size; walk (S fuel) start acc body.

(** *** Private functions *)

Definition linked_list_node_create (value : option bytes) (size : Z) (next : option addr)
    : C (linked_list_result_t * option addr) :=
  ok ← malloc;
  if negb ok then mret (LINKED_LIST_ALLOCATION_FAILURE, None) else
  data ← match value with
         | None => mret (Some None)
         | Some _ =>
             ok' ← malloc;
             if negb ok' then mret None else
             d ← lift (memcpy value size); mret (Some (Some d))
         end;
  match data with
  | None => mret (LINKED_LIST_ALLOCATION_FAILURE, None)
  | Some data =>
      ok'' ← malloc;
      if negb ok'' then mret (LINKED_LIST_ALLOCATION_FAILURE, None) else
      element ← new (OElement {| value := data; size := size |});
      node ← new (ONode {| next := next; element := Some element |});
      mret (LINKED_LIST_SUCCESS, Some node)
  end.

(** [linked_list_element_free(&p)]: the result and the new value of [p]. *)
Definition linked_list_element_free (element : option addr)
    : C (linked_list_result_t * option addr) :=
  match element with
  | None => mret (LINKED_LIST_INVALID_PARAMS_ERROR, None)
  | Some a => load_element element;; free a;; mret (LINKED_LIST_SUCCESS, None)
  end.

(** [linked_list_node_free(&p)]: the result and the new value of [p]. *)
Definition linked_list_node_free (node : option addr)
    : C (linked_list_result_t * option addr) :=
  match node with
  | None => mret (LINKED_LIST_INVALID_PARAMS_ERROR, None)
  | Some a =>
      n ← load_node node;
      linked_list_element_free (element n);;
      free a;;
      mret (LINKED_LIST_SUCCESS, None)
  end.

Definition linked_list_element_clone (element : option addr)
    : C (linked_list_result_t * option addr) :=
  ok ← malloc;
  if negb ok then mret (LINKED_LIST_ALLOCATION_FAILURE, None) else
  e ← load_element element;
  match value e with
  | None =>
      elementClone ← new (OElement {| value := None; size := size e |});
      mret (LINKED_LIST_SUCCESS, Some elementClone)
  | Some _ =>
      ok' ← malloc;
      if negb ok' then mret (LINKED_LIST_ALLOCATION_FAILURE, None) else
      data ← lift (memcpy (value e) (size e));
      elementClone ← new (OElement {| value := Some data; size := size e |});
      mret (LINKED_LIST_SUCCESS, Some elementClone)
  end.

Definition linked_list_element_set (element : option addr) (value : option bytes) (size : Z)
    : C linked_list_result_t :=
  e ← load_element element;
  match element with
  | Some a =>
      if negb (size =? LinkedList.size e) then
        ok ← malloc;
        if negb ok then
          store a (OElement {| value := None; size := size |});;
          mret LINKED_LIST_ALLOCATION_FAILURE
        else
          data ← lift (memcpy value size);
          store a (OElement {| value := Some data; size := size |});;
          mret LINKED_LIST_SUCCESS
      else
        match LinkedList.value e with
        | None => undef
        | Some _ =>
            data ← lift (memcpy value size);
            store a (OElement {| value := Some data; size := size |});;
            mret LINKED_LIST_SUCCESS
        end
  | None => undef
  end.

(** [linked_list_node_get] has no [return] after its loop: leaving the loop
    without having met the index is undefined. *)
Definition linked_list_node_get (linkedList : option addr) (index : Z)
    : C (linked_list_result_t * option addr) :=
  match linkedList with
  | None => mret (LINKED_LIST_NULL_ERROR, None)
  | Some list =>
      l ← load_list list;
      if (index >=? count l) || (index <? 0)
      then mret (LINKED_LIST_INDEX_OUT_OF_RANGE_ERROR, None) else
      r ← for_nodes (head l) 0 (λ node currentIndex,
            if currentIndex =? index then mret (inr (LINKED_LIST_SUCCESS, Some node))
            else mret (inl (Some node, currentIndex + 1)));
      match r with
      | inr x => mret x
      | inl _ => undef
      end
  end.

Definition linked_list_node_clone (node : option addr)
    : C (linked_list_result_t * option addr) :=
  match node with
  | None => mret (LINKED_LIST_INVALID_PARAMS_ERROR, None)
  | Some _ =>
      ok ← malloc;
      if negb ok then mret (LINKED_LIST_ALLOCATION_FAILURE, None) else
      n ← load_node node;
      '(elementCloneResult, elementClone) ← linked_list_element_clone (element n);
      if negb (is_success elementCloneResult) then mret (elementCloneResult, None) else
      nodeClone ← new (ONode {| next := None; element := elementClone |});
      mret (LINKED_LIST_SUCCESS, Some nodeClone)
  end.

Definition default_equals (data1 data2 : option bytes) (size : Z) : exec Z :=
  match data1, data2 with
  | None, Some _ => Ret (-1)
  | Some _, None => Ret 1
  | None, None => Ret 0
  | Some a, Some b => memcmp a b size
  end.

(** [while (current != NULL && current->next != NULL) current = current->next] *)
Fixpoint last_node (fuel : nat) (current : option addr) : C (option addr) :=
  match current with
  | None => mret None
  | Some _ =>
      n ← load_node current;
      match next n with
      | None => mret current
      | Some _ =>
          match fuel with
          | O => out_of_fuel
          | S fuel' => last_node fuel' (next n)
          end
      end
  end.

(** [int8_t equality = equalityFunction(firstHalf->element->value,
    secondHalf->element->value, firstHalf->element->size)] and the choice
    made from it: the result of the comparison is narrowed to eight bits. *)
Definition take_from_first_half (equalityFunction : linked_list_custom_equality_function_t)
    (ascending : bool) (firstHalf secondHalf : option addr) : C bool :=
  n1 ← load_node firstHalf; e1 ← load_element (element n1);
  n2 ← load_node secondHalf; e2 ← load_element (element n2);
  c ← lift (equalityFunction (value e1) (value e2) (size e1));
  let equality := int8 c in
  mret (if ascending then equality <=? 0 else equality >=? 0).

(** The main loop of [merge]: the three variables when it ends. *)
Fixpoint merge_loop (fuel : nat)
    (equalityFunction : linked_list_custom_equality_function_t) (ascending : bool)
    (firstHalf secondHalf lastMergedNode : option addr)
    : C (option addr * option addr * option addr) :=
  match firstHalf, secondHalf with
  | Some _, Some _ =>
      match fuel with
      | O => out_of_fuel
      | S fuel' =>
          takeFromFirstHalf ← take_from_first_half equalityFunction ascending firstHalf secondHalf;
          if takeFromFirstHalf : bool then
            write_next lastMergedNode firstHalf;;
            n ← load_node firstHalf;
            l ← load_node lastMergedNode;
            merge_loop fuel' equalityFunction ascending (next n) secondHalf (next l)
          else
            write_next lastMergedNode secondHalf;;
            n ← load_node secondHalf;
            l ← load_node lastMergedNode;
            merge_loop fuel' equalityFunction ascending firstHalf (next n) (next l)
      end
  | _, _ => mret (firstHalf, secondHalf, lastMergedNode)
  end.

(** [merge]: the new head and [*tailOut]. *)
Definition merge (fuel : nat) (firstHalf secondHalf : option addr) (ascending : bool)
    (equalityFunction : linked_list_custom_equality_function_t)
    : C (option addr * option addr) :=
  match firstHalf, secondHalf with
  | None, _ => current ← last_node fuel secondHalf; mret (secondHalf, current)
  | _, None => current ← last_node fuel firstHalf; mret (firstHalf, current)
  | Some _, Some _ =>
      takeFromFirstHalf ← take_from_first_half equalityFunction ascending firstHalf secondHalf;
      '(newHead, firstHalf, secondHalf) ←
        (if takeFromFirstHalf : bool then
           n ← load_node firstHalf; mret (firstHalf, next n, secondHalf)
         else
           n ← load_node secondHalf; mret (secondHalf, firstHalf, next n));
      '(firstHalf, secondHalf, lastMergedNode) ←
        merge_loop fuel equalityFunction ascending firstHalf secondHalf newHead;
      match firstHalf, secondHalf with
      | None, _ => write_next lastMergedNode secondHalf
      | _, None => write_next lastMergedNode firstHalf
      | _, _ => mret tt
      end;;
      lastMergedNode ← last_node fuel lastMergedNode;
      mret (newHead, lastMergedNode)
  end.

(** The loop of [merge_split]: [singleStep] when it ends. *)
Fixpoint merge_split_loop (fuel : nat) (singleStep doubleStep : option addr)
    : C (option addr) :=
  match doubleStep with
  | None => mret singleStep
  | Some _ =>
      d ← load_node doubleStep;
      match next d with
      | None => mret singleStep
      | Some _ =>
          match fuel with
          | O => out_of_fuel
          | S fuel' =>
              s ← load_node singleStep;
              d' ← load_node (next d);
              merge_split_loop fuel' (next s) (next d')
          end
      end
  end.

(** [merge_split]: [*firstHalfOut] and [*secondHalfOut]. *)
Definition merge_split (fuel : nat) (source : option addr)
    : C (option addr * option addr) :=
  match source with
  | None => mret (source, None)
  | Some _ =>
      n ← load_node source;
      match next n with
      | None => mret (source, None)
      | Some _ =>
          singleStep ← merge_split_loop fuel source (next n);
          s ← load_node singleStep;
          write_next singleStep None;;
          mret (source, next s)
      end
  end.

(** [merge_sort]: the new head and [*tailOut].  [fuel] bounds the depth of
    the recursion and the length of every traversal. *)
Fixpoint merge_sort (fuel : nat) (head : option addr) (ascending : bool)
    (equalityFunction : linked_list_custom_equality_function_t)
    : C (option addr * option addr) :=
  match head with
  | None => mret (head, head)
  | Some _ =>
      n ← load_node head;
      match next n with
      | None => mret (head, head)
      | Some _ =>
          match fuel with
          | O => out_of_fuel
          | S fuel' =>
              '(firstHalf, secondHalf) ← merge_split fuel head;
              '(firstHalf, firstHalfTail) ← merge_sort fuel' firstHalf ascending equalityFunction;
              '(secondHalf, secondHalfTail) ← merge_sort fuel' secondHalf ascending equalityFunction;
              merge fuel firstHalf secondHalf ascending equalityFunction
          end
      end
  end.

(** The equality function is handed over as a pointer and dereferenced only
    when the list has two nodes to compare. *)
Definition default_sort (linkedList : addr) (ascending : bool) : C linked_list_result_t :=
  l ← load_list linkedList;
  fuel ← heap_size;
  '(newHead, newTail) ←
    match equalityFunction l with
    | Fn f => merge_sort (S fuel) (head l) ascending f
    | Unset => merge_sort (S fuel) (head l) ascending (λ _ _ _, Undef)
    end;
  write_head linkedList newHead;;
  write_tail linkedList newTail;;
  mret LINKED_LIST_SUCCESS.

(** *** Public functions *)

Definition linked_list_create
    (customEqualityFunction : option linked_list_custom_equality_function_t)
    (customSortingFunction : option positive) : C (linked_list_result_t * option addr) :=
  ok ← malloc;
  if negb ok then mret (LINKED_LIST_ALLOCATION_FAILURE, None) else
  linkedList ← new (OList {|
    head := None;
    tail := None;
    count := 0;
    equalityFunction :=
      Fn (match customEqualityFunction with None => default_equals | Some f => f end);
    sortingFunction :=
      Fn (match customSortingFunction with None => SortDefault | Some f => SortCustom f end)
  |});
  mret (LINKED_LIST_SUCCESS, Some linkedList).

(** The loop shared by [linked_list_free] and [linked_list_clear]: each
    round frees the node met in the round before. *)
Definition free_previous_nodes (start : option addr)
    : C (option addr + linked_list_result_t) :=
  for_nodes start None (λ node previousNode,
    match previousNode with
    | Some _ =>
        '(nodeFreeResult, _) ← linked_list_node_free previousNode;
        if negb (is_success nodeFreeResult) then mret (inr nodeFreeResult)
        else mret (inl (Some node, Some node))
    | None => mret (inl (Some node, Some node))
    end).

Definition linked_list_free (linkedList : option addr)
    : C (linked_list_result_t * option addr) :=
  match linkedList with
  | None => mret (LINKED_LIST_NULL_ERROR, None)
  | Some list =>
      l ← load_list list;
      r ← free_previous_nodes (head l);
      match r with
      | inr result => mret (result, linkedList)
      | inl _ => free list;; mret (LINKED_LIST_SUCCESS, None)
      end
  end.

(** [linked_list_get] has no [return] after its loop. *)
Definition linked_list_get (linkedList : option addr) (index : Z)
    : C (linked_list_result_t * option addr) :=
  match linkedList with
  | None => mret (LINKED_LIST_NULL_ERROR, None)
  | Some list =>
      l ← load_list list;
      if (index >=? count l) || (index <? 0)
      then mret (LINKED_LIST_INDEX_OUT_OF_RANGE_ERROR, None) else
      r ← for_nodes (head l) 0 (λ node currentIndex,
            if currentIndex =? index then
              n ← load_node (Some node);
              '(cloneResult, elementClone) ← linked_list_element_clone (element n);
              if negb (is_success cloneResult) then mret (inr (cloneResult, None))
              else mret (inr (LINKED_LIST_SUCCESS, elementClone))
            else mret (inl (Some node, currentIndex + 1)));
      match r with
      | inr x => mret x
      | inl _ => undef
      end
  end.

Definition linked_list_set (linkedList : option addr) (index : Z)
    (value : option bytes) (size : Z) : C linked_list_result_t :=
  match linkedList with
  | None => mret LINKED_LIST_NULL_ERROR
  | Some list =>
      l ← load_list list;
      if (index >=? count l) || (index <? 0)
      then mret LINKED_LIST_INDEX_OUT_OF_RANGE_ERROR else
      r ← for_nodes (head l) 0 (λ node currentIndex,
            if currentIndex =? index then
              n ← load_node (Some node);
              setResult ← linked_list_element_set (element n) value size;
              mret (inr (if is_success setResult then LINKED_LIST_SUCCESS else setResult))
            else mret (inl (Some node, currentIndex + 1)));
      match r with
      | inr x => mret x
      | inl _ => mret LINKED_LIST_SUCCESS
      end
  end.

Definition linked_list_prepend (linkedList : option addr) (value : option bytes) (size : Z)
    : C linked_list_result_t :=
  match linkedList with
  | None => mret LINKED_LIST_NULL_ERROR
  | Some list =>
      l ← load_list list;
      '(nodeCreateResult, node) ← linked_list_node_create value size (head l);
      if negb (is_success nodeCreateResult) then mret nodeCreateResult else
      match head l with
      | None => write_head list node;; write_tail list node
      | Some _ => write_head list node
      end;;
      l ← load_list list;
      write_count list (int64 (count l + 1));;
      mret LINKED_LIST_SUCCESS
  end.

Definition linked_list_append (linkedList : option addr) (value : option bytes) (size : Z)
    : C linked_list_result_t :=
  match linkedList with
  | None => mret LINKED_LIST_NULL_ERROR
  | Some list =>
      '(nodeCreateResult, node) ← linked_list_node_create value size None;
      if negb (is_success nodeCreateResult) then mret nodeCreateResult else
      l ← load_list list;
      match head l with
      | None => write_head list node;; write_tail list node
      | Some _ => write_next (tail l) node;; write_tail list node
      end;;
      l ← load_list list;
      write_count list (int64 (count l + 1));;
      mret LINKED_LIST_SUCCESS
  end.

Definition linked_list_insert (linkedList : option addr) (index : Z)
    (value : option bytes) (size : Z) : C linked_list_result_t :=
  match linkedList with
  | None => mret LINKED_LIST_NULL_ERROR
  | Some list =>
      l ← load_list list;
      if (index >? count l) || (index <? 0)
      then mret LINKED_LIST_INDEX_OUT_OF_RANGE_ERROR else
      '(nodeCreateResult, newNode) ← linked_list_node_create value size None;
      if negb (is_success nodeCreateResult) then mret nodeCreateResult else
      l ← load_list list;
      match head l with
      | None =>
          write_head list newNode;; write_tail list newNode;;
          l ← load_list list;
          write_count list (int64 (count l + 1));;
          mret LINKED_LIST_SUCCESS
      | Some _ =>
          if index =? 0 then
            write_next newNode (head l);;
            write_head list newNode;;
            l ← load_list list;
            write_count list (int64 (count l + 1));;
            mret LINKED_LIST_SUCCESS
          else if index =? count l then
            write_next (tail l) newNode;;
            write_tail list newNode;;
            l ← load_list list;
            write_count list (int64 (count l + 1));;
            mret LINKED_LIST_SUCCESS
          else
            '(getNodeResult, previousNode) ← linked_list_node_get linkedList (index - 1);
            if negb (is_success getNodeResult) then mret getNodeResult else
            p ← load_node previousNode;
            write_next newNode (next p);;
            write_next previousNode newNode;;
            l ← load_list list;
            write_count list (int64 (count l + 1));;
            mret LINKED_LIST_SUCCESS
      end
  end.

(** [index] is a [uint64_t] in [linked_list_remove] and [linked_list_pop]:
    the argument is converted at the call, and the comparisons with the
    signed [size] of the list are made on unsigned values. *)
Definition linked_list_remove (linkedList : option addr) (index : Z)
    : C linked_list_result_t :=
  let index := uint64 index in
  match linkedList with
  | None => mret LINKED_LIST_NULL_ERROR
  | Some list =>
      l ← load_list list;
      if index >=? uint64 (count l) then mret LINKED_LIST_INDEX_OUT_OF_RANGE_ERROR else
      if count l =? 1 then
        '(freeResult, head') ← linked_list_node_free (head l);
        write_head list head';;
        if negb (is_success freeResult) then mret freeResult else
        l ← load_list list;
        write_count list (int64 (count l - 1));;
        write_head list None;;
        write_tail list None;;
        mret LINKED_LIST_SUCCESS
      else if index =? 0 then
        let previousHead := head l in
        n ← load_node previousHead;
        write_head list (next n);;
        write_count list (int64 (count l - 1));;
        '(freeResult, _) ← linked_list_node_free previousHead;
        if negb (is_success freeResult) then mret freeResult else
        mret LINKED_LIST_SUCCESS
      else if index =? uint64 (count l - 1) then
        let previousTail := tail l in
        '(getResult, newTail) ← linked_list_node_get linkedList (int64 (index - 1));
        if negb (is_success getResult) then mret getResult else
        write_next newTail None;;
        write_tail list newTail;;
        write_count list (int64 (count l - 1));;
        '(freeResult, _) ← linked_list_node_free previousTail;
        if negb (is_success freeResult) then mret freeResult else
        mret LINKED_LIST_SUCCESS
      else
        r ← for_nodes (head l) (0, None) (λ current '(currentIndex, lastNode),
              if uint64 currentIndex =? index then
                c ← load_node (Some current);
                write_next lastNode (next c);;
                l ← load_list list;
                write_count list (int64 (count l - 1));;
                '(freeResult, _) ← linked_list_node_free (Some current);
                if negb (is_success freeResult) then mret (inr freeResult) else
                mret (inr LINKED_LIST_SUCCESS)
              else mret (inl (Some current, (currentIndex + 1, Some current))));
        match r with
        | inr x => mret x
        | inl _ => undef
        end
  end.

Definition linked_list_pop (linkedList : option addr) (index : Z)
    : C (linked_list_result_t * option addr) :=
  let index := uint64 index in
  match linkedList with
  | None => mret (LINKED_LIST_NULL_ERROR, None)
  | Some list =>
      l ← load_list list;
      if index >=? uint64 (count l) then mret (LINKED_LIST_INDEX_OUT_OF_RANGE_ERROR, None) else
      if count l =? 1 then
        h ← load_node (head l);
        '(cloneResult, elementClone) ← linked_list_element_clone (element h);
        if negb (is_success cloneResult) then mret (cloneResult, None) else
        '(freeResult, element') ← linked_list_element_free (element h);
        store_element_field (head l) element';;
        if negb (is_success freeResult) then mret (freeResult, None) else
        free_node (head l);;
        write_count list (int64 (count l - 1));;
        write_head list None;;
        write_tail list None;;
        mret (LINKED_LIST_SUCCESS, elementClone)
      else if index =? 0 then
        h ← load_node (head l);
        '(cloneResult, elementClone) ← linked_list_element_clone (element h);
        if negb (is_success cloneResult) then mret (cloneResult, None) else
        let previousHead := head l in
        write_head list (next h);;
        write_count list (int64 (count l - 1));;
        '(freeResult, element') ← linked_list_element_free (element h);
        store_element_field previousHead element';;
        if negb (is_success freeResult) then mret (freeResult, None) else
        free_node previousHead;;
        mret (LINKED_LIST_SUCCESS, elementClone)
      else if index =? uint64 (count l - 1) then
        t ← load_node (tail l);
        '(cloneResult, elementClone) ← linked_list_element_clone (element t);
        if negb (is_success cloneResult) then mret (cloneResult, None) else
        let previousTail := tail l in
        '(getResult, newTail) ← linked_list_node_get linkedList (int64 (index - 1));
        if negb (is_success getResult) then mret (getResult, None) else
        write_next newTail None;;
        write_tail list newTail;;
        write_count list (int64 (count l - 1));;
        t ← load_node previousTail;
        '(freeResult, element') ← linked_list_element_free (element t);
        store_element_field previousTail element';;
        if negb (is_success freeResult) then mret (freeResult, None) else
        free_node previousTail;;
        mret (LINKED_LIST_SUCCESS, elementClone)
      else
        r ← for_nodes (head l) (0, None) (λ current '(currentIndex, lastNode),
              if uint64 currentIndex =? index then
                c ← load_node (Some current);
                '(cloneResult, elementClone) ← linked_list_element_clone (element c);
                if negb (is_success cloneResult) then mret (inr (cloneResult, None)) else
                write_next lastNode (next c);;
                l ← load_list list;
                write_count list (int64 (count l - 1));;
                '(freeResult, element') ← linked_list_element_free (element c);
                store_element_field (Some current) element';;
                if negb (is_success freeResult) then mret (inr (freeResult, None)) else
                free_node (Some current);;
                mret (inr (LINKED_LIST_SUCCESS, elementClone))
              else mret (inl (Some current, (currentIndex + 1, Some current))));
        match r with
        | inr x => mret x
        | inl _ => undef
        end
  end.

Definition linked_list_clear (linkedList : option addr) : C linked_list_result_t :=
  match linkedList with
  | None => mret LINKED_LIST_NULL_ERROR
  | Some list =>
      l ← load_list list;
      r ← free_previous_nodes (head l);
      match r with
      | inr result => mret result
      | inl _ =>
          write_head list None;;
          write_tail list None;;
          write_count list 0;;
          mret LINKED_LIST_SUCCESS
      end
  end.

(** The loop shared by [linked_list_clone] and [linked_list_join]: clone the
    nodes from [start] on and chain the clones behind [previousNodeClone]. *)
Definition clone_nodes (linkedListClone : addr) (start previousNodeClone : option addr)
    : C (option addr + linked_list_result_t) :=
  for_nodes start previousNodeClone (λ node previousNodeClone,
    '(nodeCloneResult, nodeClone) ← linked_list_node_clone (Some node);
    if negb (is_success nodeCloneResult) then mret (inr nodeCloneResult) else
    c ← load_list linkedListClone;
    match head c with
    | None => write_head linkedListClone nodeClone
    | Some _ => write_next previousNodeClone nodeClone
    end;;
    mret (inl (Some node, nodeClone))).

(** Neither [linked_list_clone] nor [linked_list_join] sets the two function
    pointers of the list it creates. *)
Definition linked_list_clone (linkedList : option addr)
    : C (linked_list_result_t * option addr) :=
  match linkedList with
  | None => mret (LINKED_LIST_NULL_ERROR, None)
  | Some list =>
      ok ← malloc;
      if negb ok then mret (LINKED_LIST_ALLOCATION_FAILURE, None) else
      l ← load_list list;
      linkedListClone ← new (OList {|
        head := None; tail := None; count := count l;
        equalityFunction := Unset; sortingFunction := Unset |});
      if count l >? 0 then
        r ← clone_nodes linkedListClone (head l) None;
        match r with
        | inr result => mret (result, None)
        | inl previousNodeClone =>
            write_tail linkedListClone previousNodeClone;;
            mret (LINKED_LIST_SUCCESS, Some linkedListClone)
        end
      else mret (LINKED_LIST_SUCCESS, Some linkedListClone)
  end.

Definition linked_list_join (linkedList1 linkedList2 : option addr)
    : C (linked_list_result_t * option addr) :=
  match linkedList1, linkedList2 with
  | Some list1, Some list2 =>
      ok ← malloc;
      if negb ok then mret (LINKED_LIST_ALLOCATION_FAILURE, None) else
      l1 ← load_list list1;
      l2 ← load_list list2;
      linkedListClone ← new (OList {|
        head := None; tail := None; count := int64 (count l1 + count l2);
        equalityFunction := Unset; sortingFunction := Unset |});
      r ← clone_nodes linkedListClone (head l1) None;
      match r with
      | inr result => mret (result, None)
      | inl previousNodeClone =>
          l2 ← load_list list2;
          r ← clone_nodes linkedListClone (head l2) previousNodeClone;
          match r with
          | inr result => mret (result, None)
          | inl previousNodeClone =>
              write_tail linkedListClone previousNodeClone;;
              mret (LINKED_LIST_SUCCESS, Some linkedListClone)
          end
      end
  | _, _ => mret (LINKED_LIST_NULL_ERROR, None)
  end.

(** The loop of the shrinking branches of [linked_list_resize]: it frees the
    node it stands on, which sets the loop variable to null, and then steps
    to the successor of that variable. *)
Definition free_nodes_from (start : option addr)
    : C (option addr + linked_list_result_t) :=
  for_nodes start None (λ node previousNode,
    match previousNode with
    | Some _ =>
        '(nodeFreeResult, node') ← linked_list_node_free (Some node);
        if negb (is_success nodeFreeResult) then mret (inr nodeFreeResult)
        else mret (inl (node', node'))
    | None => mret (inl (Some node, Some node))
    end).

(** [size] is a [uint64_t]; the comparisons with the signed size of the list
    are made on unsigned values.  [sizeof(NULL)] and [sizeof(void* )] are 8. *)
Definition linked_list_resize (linkedList : option addr) (size : Z) : C linked_list_result_t :=
  let size := uint64 size in
  match linkedList with
  | None => mret LINKED_LIST_NULL_ERROR
  | Some list =>
      l ← load_list list;
      if size =? uint64 (count l) then mret LINKED_LIST_SUCCESS else
      r ← (if size =? 0 then
             r ← free_nodes_from (head l);
             match r with
             | inr result => mret (Some result)
             | inl _ => write_head list None;; write_tail list None;; mret None
             end
           else if size >? uint64 (count l) then
             match head l with
             | None =>
                 '(nodeCreateResult, node) ← linked_list_node_create None 8 None;
                 write_head list node;; write_tail list node
             | Some _ => mret tt
             end;;
             l ← load_list list;
             r ← for_up 0 (uint64 (size - count l)) (tail l) (λ i previousNode,
                   '(nodeCreateResult, node) ← linked_list_node_create None 8 None;
                   if negb (is_success nodeCreateResult) then mret (inr nodeCreateResult) else
                   write_next previousNode node;;
                   mret (inl node));
             match r with
             | inr result => mret (Some result)
             | inl previousNode => write_tail list previousNode;; mret None
             end
           else
             '(getNodeResult, startingNode) ← linked_list_node_get linkedList (int64 (size - 1));
             if negb (is_success getNodeResult) then mret (Some getNodeResult) else
             s ← load_node startingNode;
             r ← free_nodes_from (next s);
             match r with
             | inr result => mret (Some result)
             | inl _ => write_next startingNode None;; mret None
             end);
      match r with
      | Some result => mret result
      | None => write_count list (int64 size);; mret LINKED_LIST_SUCCESS
      end
  end.

(** The loop of [linked_list_reverse]: [previousNode] when it ends. *)
Fixpoint reverse_loop (fuel : nat) (previousNode currentNode : option addr)
    : C (option addr) :=
  match currentNode with
  | None => mret previousNode
  | Some _ =>
      match fuel with
      | O => out_of_fuel
      | S fuel' =>
          c ← load_node currentNode;
          write_next currentNode previousNode;;
          reverse_loop fuel' currentNode (next c)
      end
  end.

Definition linked_list_reverse (linkedList : option addr) : C linked_list_result_t :=
  match linkedList with
  | None => mret LINKED_LIST_NULL_ERROR
  | Some list =>
      l ← load_list list;
      match head l with
      | None => mret LINKED_LIST_SUCCESS
      | Some _ =>
          fuel ← heap_size;
          previousNode ← reverse_loop (S fuel) None (head l);
          write_tail list (head l);;
          write_head list previousNode;;
          mret LINKED_LIST_SUCCESS
      end
  end.

(** [linkedList->equalityFunction(node->element->value, value, size) == 0] *)
Definition node_equals (list : addr) (node : addr) (value : option bytes) (size : Z)
    : C bool :=
  l ← load_list list;
  n ← load_node (Some node);
  e ← load_element (element n);
  match equalityFunction l with
  | Fn f => c ← lift (f (LinkedList.value e) value size); mret (c =? 0)
  | Unset => undef
  end.

Definition linked_list_includes (linkedList : option addr) (value : option bytes) (size : Z)
    : C linked_list_result_t :=
  match linkedList with
  | None => mret LINKED_LIST_NULL_ERROR
  | Some list =>
      l ← load_list list;
      r ← for_nodes (head l) tt (λ node _,
            eq ← node_equals list node value size;
            if eq : bool then mret (inr LINKED_LIST_SUCCESS) else mret (inl (Some node, tt)));
      match r with
      | inr x => mret x
      | inl _ => mret LINKED_LIST_ELEMENT_NOT_FOUND_ERROR
      end
  end.

Definition linked_list_find_first (linkedList : option addr) (startFromIndex : Z)
    (value : option bytes) (size : Z) : C (linked_list_result_t * option Z) :=
  match linkedList with
  | None => mret (LINKED_LIST_NULL_ERROR, None)
  | Some list =>
      l ← load_list list;
      if (startFromIndex >=? count l) || (startFromIndex <? 0)
      then mret (LINKED_LIST_INDEX_OUT_OF_RANGE_ERROR, None) else
      r ← for_nodes (head l) 0 (λ node index,
            if index <? startFromIndex then mret (inl (Some node, index + 1)) else
            eq ← node_equals list node value size;
            if eq : bool then mret (inr (LINKED_LIST_SUCCESS, Some index))
            else mret (inl (Some node, index + 1)));
      match r with
      | inr x => mret x
      | inl _ => mret (LINKED_LIST_ELEMENT_NOT_FOUND_ERROR, Some (-1))
      end
  end.

Definition linked_list_find_last (linkedList : option addr) (startFromIndex : Z)
    (value : option bytes) (size : Z) : C (linked_list_result_t * option Z) :=
  match linkedList with
  | None => mret (LINKED_LIST_NULL_ERROR, None)
  | Some list =>
      l ← load_list list;
      if (startFromIndex >=? count l) || (startFromIndex <? 0)
      then mret (LINKED_LIST_INDEX_OUT_OF_RANGE_ERROR, None) else
      '(lastFoundIndex, _) ← loop_end (for_nodes (head l) (-1, 0) (λ node '(lastFoundIndex, index),
            if index <? startFromIndex then mret (inl (Some node, (lastFoundIndex, index + 1))) else
            eq ← node_equals list node value size;
            mret (inl (Some node, (if eq : bool then index else lastFoundIndex, index + 1)))));
      mret (if lastFoundIndex =? -1 then LINKED_LIST_ELEMENT_NOT_FOUND_ERROR
            else LINKED_LIST_SUCCESS, Some lastFoundIndex)
  end.

Section Sort.
(** The caller's sorting routines, by address. *)
Variable custom_sort : positive → addr → bool → C linked_list_result_t.

Definition linked_list_sort (linkedList : option addr) (ascending : bool)
    : C linked_list_result_t :=
  match linkedList with
  | None => mret LINKED_LIST_NULL_ERROR
  | Some list =>
      l ← load_list list;
      if (count l =? 0) || (count l =? 1) then mret LINKED_LIST_SUCCESS else
      match sortingFunction l with
      | Fn SortDefault => default_sort list ascending
      | Fn (SortCustom f) => custom_sort f list ascending
      | Unset => undef
      end
  end.

End Sort.

(** The two loops of [linked_list_swap] that walk to an index: the node and
    its predecessor. *)
Definition node_and_previous (start : option addr) (index : Z)
    : C (option addr * option addr) :=
  loop_end (for_up 0 index (None, start) (λ i '(nodePrevious, node),
    n ← load_node node;
    mret (inl (node, next n)))).

Definition linked_list_swap (linkedList : option addr) (index1 index2 : Z)
    : C linked_list_result_t :=
  match linkedList with
  | None => mret LINKED_LIST_NULL_ERROR
  | Some list =>
      l ← load_list list;
      if (index1 >=? count l) || (index1 <? 0) then mret LINKED_LIST_INDEX_OUT_OF_RANGE_ERROR
      else if (index2 >=? count l) || (index2 <? 0) then mret LINKED_LIST_INDEX_OUT_OF_RANGE_ERROR
      else if index1 =? index2 then mret LINKED_LIST_SUCCESS
      else
        '(node1Previous, node1) ← node_and_previous (head l) index1;
        '(node2Previous, node2) ← node_and_previous (head l) index2;
        match node1Previous with
        | Some _ => write_next node1Previous node2
        | None => write_head list node2
        end;;
        match node2Previous with
        | Some _ => write_next node2Previous node1
        | None => write_head list node1
        end;;
        n2 ← load_node node2;
        let temp := next n2 in
        n1 ← load_node node1;
        write_next node2 (next n1);;
        write_next node1 temp;;
        l ← load_list list;
        (if decide (node1 = tail l) then write_tail list node2
         else if decide (node2 = tail l) then write_tail list node1
         else mret tt);;
        mret LINKED_LIST_SUCCESS
  end.

(** [linked_list_iterator_create] does not test its [malloc]. *)
Definition linked_list_iterator_create (list : option addr)
    : C (linked_list_result_t * option addr) :=
  match list with
  | None => mret (LINKED_LIST_NULL_ERROR, None)
  | Some _ =>
      ok ← malloc;
      if negb ok then undef else
      iterator ← new (OIterator {| it_list := list; node := None; index := -1 |});
      mret (LINKED_LIST_SUCCESS, Some iterator)
  end.

Definition linked_list_iterator_next (iterator : option addr) : C linked_list_result_t :=
  match iterator with
  | None => mret LINKED_LIST_INVALID_PARAMS_ERROR
  | Some iterator =>
      it ← load_iterator iterator;
      match node it with
      | None =>
          match it_list it with
          | None => undef
          | Some list =>
              l ← load_list list;
              store iterator (OIterator {| it_list := it_list it; node := head l; index := 0 |});;
              mret LINKED_LIST_SUCCESS
          end
      | Some _ =>
          n ← load_node (node it);
          match next n with
          | None =>
              store iterator (OIterator {| it_list := it_list it; node := None; index := -1 |});;
              mret LINKED_LIST_INDEX_OUT_OF_RANGE_ERROR
          | Some _ =>
              store iterator
                (OIterator {| it_list := it_list it; node := next n; index := int64 (index it + 1) |});;
              mret LINKED_LIST_SUCCESS
          end
      end
  end.

Definition linked_list_iterator_rewind (iterator : option addr) : C linked_list_result_t :=
  match iterator with
  | None => mret LINKED_LIST_INVALID_PARAMS_ERROR
  | Some iterator =>
      it ← load_iterator iterator;
      store iterator (OIterator {| it_list := it_list it; node := None; index := -1 |});;
      mret LINKED_LIST_SUCCESS
  end.

(** [linked_list_iterator_free(&iterator)]; the emptiness test of the C code
    is on the address of the variable, which is never null. *)
Definition linked_list_iterator_free (iterator : option addr)
    : C (linked_list_result_t * option addr) :=
  match iterator with
  | None => undef
  | Some iterator =>
      load_iterator iterator;; free iterator;; mret (LINKED_LIST_SUCCESS, None)
  end.

(** *** The contents of a list *)

(** [chain h p ns]: following [next] from [p] meets the nodes [ns], in this
    order, and then the null pointer. *)
Inductive chain (h : gmap addr object) : option addr → list addr → Prop :=
| chain_nil : chain h None []
| chain_cons (a : addr) (n : linked_list_node_t) (ns : list addr) :
    h !! a = Some (ONode n) →
    chain h (next n) ns →
    chain h (Some a) (a :: ns).

(** What holds of every element: a data buffer, when there is one, has as
    many bytes as the element says. *)
Definition element_ok (e : linked_list_element_t) : Prop :=
  ∀ data, value e = Some data → Z.of_nat (length data) = size e.

Definition object_ok (o : object) : Prop :=
  match o with
  | OElement e => element_ok e
  | OList _ | ONode _ | OIterator _ => True
  end.

Definition elements_ok (m : memory) : Prop :=
  ∀ a o, heap m !! a = Some o → object_ok o.

(** The element of the node at an address, when there is one. *)
Definition element_at (h : gmap addr object) (a : addr) : option linked_list_element_t :=
  match h !! a with
  | Some (ONode n) =>
      match element n with
      | Some e => match h !! e with Some (OElement x) => Some x | _ => None end
      | None => None
      end
  | _ => None
  end.

(** *** The interface as data *)

Inductive call : Type :=
| Create (customEqualityFunction : option linked_list_custom_equality_function_t)
    (customSortingFunction : option positive)
| Free
| ElementFree (element : option addr)
| IteratorCreate
| IteratorNext (iterator : option addr)
| IteratorRewind (iterator : option addr)
| IteratorFree (iterator : option addr)
| Get (index : Z)
| Set_ (index : Z) (value : option bytes) (size : Z)
| Prepend (value : option bytes) (size : Z)
| Append (value : option bytes) (size : Z)
| Insert (index : Z) (value : option bytes) (size : Z)
| Remove (index : Z)
| Pop (index : Z)
| Clear
| Clone
| Join (linkedList2 : option addr)
| Resize (size : Z)
| Reverse
| Includes (value : option bytes) (size : Z)
| FindFirst (startFromIndex : Z) (value : option bytes) (size : Z)
| FindLast (startFromIndex : Z) (value : option bytes) (size : Z)
| Sort (ascending : bool)
| Swap (index1 index2 : Z).

Definition result_only {A} (c : C (linked_list_result_t * A)) : C linked_list_result_t :=
  '(result, _) ← c; mret result.

Definition run (custom_sort : positive → addr → bool → C linked_list_result_t)
    (linkedList : option addr) (c : call) : C linked_list_result_t :=
  match c with
  | Create customEqualityFunction customSortingFunction =>
      result_only (linked_list_create customEqualityFunction customSortingFunction)
  | Free => result_only (linked_list_free linkedList)
  | ElementFree element => result_only (linked_list_element_free element)
  | IteratorCreate => result_only (linked_list_iterator_create linkedList)
  | IteratorNext iterator => linked_list_iterator_next iterator
  | IteratorRewind iterator => linked_list_iterator_rewind iterator
  | IteratorFree iterator => result_only (linked_list_iterator_free iterator)
  | Get index => result_only (linked_list_get linkedList index)
  | Set_ index value size => linked_list_set linkedList index value size
  | Prepend value size => linked_list_prepend linkedList value size
  | Append value size => linked_list_append linkedList value size
  | Insert index value size => linked_list_insert linkedList index value size
  | Remove index => linked_list_remove linkedList index
  | Pop index => result_only (linked_list_pop linkedList index)
  | Clear => linked_list_clear linkedList
  | Clone => result_only (linked_list_clone linkedList)
  | Join linkedList2 => result_only (linked_list_join linkedList linkedList2)
  | Resize size => linked_list_resize linkedList size
  | Reverse => linked_list_reverse linkedList
  | Includes value size => linked_list_includes linkedList value size
  | FindFirst startFromIndex value size =>
      result_only (linked_list_find_first linkedList startFromIndex value size)
  | FindLast startFromIndex value size =>
      result_only (linked_list_find_last linkedList startFromIndex value size)
  | Sort ascending => linked_list_sort custom_sort linkedList ascending
  | Swap index1 index2 => linked_list_swap linkedList index1 index2
  end.

(** The calls that take an index, with an index outside the domain the
    function checks: [[0, size]] for [linked_list_insert], [[0, size)] for
    the others. *)
Definition out_of_range (l : linked_list_t) (c : call) : Prop :=
  match c with
  | Insert index _ _ => index < 0 ∨ index > count l
  | Get index | Set_ index _ _ | Remove index | Pop index
  | FindFirst index _ _ | FindLast index _ _ => index < 0 ∨ index >= count l
  | Swap index1 index2 =>
      (index1 < 0 ∨ index1 >= count l) ∨ (index2 < 0 ∨ index2 >= count l)
  | _ => False
  end.

(** The arguments of a call that are 64-bit integers in C hold values of
    their type. *)
Definition int64_range (z : Z) : Prop := - 2 ^ 63 <= z < 2 ^ 63.

Definition indices_in_range (c : call) : Prop :=
  match c with
  | Remove index | Pop index => int64_range index
  | _ => True
  end.

End LinkedList.

(** * Reasoning about monadic code *)

Section Monad.
Context {S : Type}.

Lemma bind_eq {A B} (c : M S A) (k : A → M S B) (m : S) :
  (c ≫= k) m = match c m with
               | Ret (a, m') => k a m'
               | Undef => Undef
               | OutOfFuel => OutOfFuel
               end.
Proof. reflexivity. Qed.

Lemma bind_Ret {A B} (c : M S A) (k : A → M S B) (m m1 : S) (a : A) :
  c m = Ret (a, m1) → (c ≫= k) m = k a m1.
Proof. intros H. rewrite bind_eq, H. reflexivity. Qed.

Lemma bind_inv {A B} (c : M S A) (k : A → M S B) (m m' : S) (b : B) :
  (c ≫= k) m = Ret (b, m') → ∃ a m1, c m = Ret (a, m1) ∧ k a m1 = Ret (b, m').
Proof.
  rewrite bind_eq. destruct (c m) as [[a m1]| |]; try discriminate.
  intros H. eauto.
Qed.

Lemma ret_eq {A} (a : A) (m : S) : (mret a : M S A) m = Ret (a, m).
Proof. reflexivity. Qed.

End Monad.

(** Split a run [(c ≫= k) m = Ret _] into the run of [c] and the run of [k]. *)
Ltac inv_bind H :=
  lazymatch type of H with
  | (_ ≫= _) _ = Ret _ =>
      let a := fresh "a" in let m1 := fresh "m" in let H1 := fresh H in
      apply bind_inv in H as (a & m1 & H1 & H)
  end.

(** The result of running a program, without the final memory. *)
Definition result_of {S A} (e : exec (A * S)) : exec A :=
  match e with
  | Ret (a, _) => Ret a
  | Undef => Undef
  | OutOfFuel => OutOfFuel
  end.

(** The state a program leaves when it returns (the initial state otherwise). *)
Definition state_after {S A} (c : M S A) (m : S) : S :=
  match c m with Ret (_, m') => m' | _ => m end.

(** A heap with nothing in it and an allocator that never fails. *)
Definition empty_memory {O} : mem O := Mem ∅ 1%positive 0 (λ _, true).

(** * The array list: bounds checks *)

Module ArrayListFacts.
Import ArrayList.

Lemma load_list_eq (m : memory) (list : addr) (l : list_t) :
  heap m !! list = Some (OList l) → load_list list m = Ret (l, m).
Proof. intros H. unfold load_list. rewrite bind_eq. unfold load. rewrite H. reflexivity. Qed.

Lemma load_list_inv (m m' : memory) (list : addr) (l : list_t) :
  load_list list m = Ret (l, m') → heap m !! list = Some (OList l) ∧ m' = m.
Proof.
  unfold load_list. rewrite bind_eq. unfold load.
  destruct (heap m !! list) as [[]|]; try discriminate.
  intros H. inversion H. auto.
Qed.

Lemma list_element_free_result (p p' : pointer) (m m' : memory) (r : list_result_t) :
  list_element_free p m = Ret ((r, p'), m') →
  r = LIST_INVALID_PARAMS_ERROR ∨ r = LIST_SUCCESS.
Proof.
  destruct p; simpl; intros H.
  - inversion H. auto.
  - repeat inv_bind H. inversion H. auto.
  - discriminate.
Qed.

(** The element that [list_element_free] writes to is the one it has just
    freed: on a pointer that is not null the call has no defined result. *)
Lemma list_element_free_of_a_pointer (a : addr) (m : memory) :
  list_element_free (Ptr a) m = Undef.
Proof.
  unfold list_element_free. rewrite bind_eq.
  unfold load_element at 1. rewrite bind_eq. unfold load at 1.
  destruct (heap m !! a) as [[l|e|it]|] eqn:Ha; try reflexivity.
  rewrite ret_eq, bind_eq. unfold free. rewrite Ha.
  rewrite bind_eq. unfold load_element, load. rewrite bind_eq. cbn [heap].
  rewrite lookup_delete_eq. reflexivity.
Qed.

Lemma list_element_clone_result (p : pointer) (out : option addr) (m m' : memory)
    (r : list_result_t) :
  list_element_clone p m = Ret ((r, out), m') →
  r = LIST_ALLOCATION_FAILURE ∨ r = LIST_SUCCESS.
Proof.
  unfold list_element_clone. intros H.
  inv_bind H. destruct a.
  2:{ inversion H; auto. }
  simpl in H. inv_bind H. destruct (el_value a).
  - inv_bind H. destruct a0; simpl in H.
    + repeat inv_bind H. inversion H. auto.
    + inversion H; auto.
  - inv_bind H. inversion H; auto.
Qed.

(** A call with an index outside the checked domain is answered with the
    range error of the function and changes nothing. *)
Lemma out_of_range_error (custom_sort : positive → addr → bool → C list_result_t)
    (m : memory) (list : addr) (l : list_t) (c : call) :
  heap m !! list = Some (OList l) →
  out_of_range l c →
  run custom_sort (Some list) c m = Ret (range_error c, m).
Proof.
  intros Hl Ho. pose proof (load_list_eq _ _ _ Hl) as Hload.
  destruct c; simpl in Ho; try contradiction; unfold run; cbv beta iota;
    unfold result_only, list_get, list_set, list_insert,
      list_remove, list_pop, list_find_first, list_find_last, list_swap;
    rewrite ?bind_eq, Hload; cbv beta iota.
  all: try (destruct ((_ >=? size l) || (_ <? 0)) eqn:E; [reflexivity | lia]).
  all: try (destruct ((_ >=? capacity l) || (_ <? 0)) eqn:E; [reflexivity | lia]).
  - destruct ((_ >? size l) || (_ <? 0)) eqn:E; [reflexivity | lia].
  - destruct ((index1 >=? size l) || (index1 <? 0)) eqn:E1; [reflexivity |].
    destruct ((index2 >=? size l) || (index2 <? 0)) eqn:E2; [reflexivity | lia].
Qed.

(** A list of capacity 8 that holds nothing, at address 1. *)
Definition empty_list : list_t :=
  {| size := 0; capacity := 8; items := replicate 8 NULL;
     equalityFunction := Fn default_equals; sortingFunction := Fn SortDefault |}.

Definition one_empty_list : memory :=
  Mem {[ 1%positive := OList empty_list ]} 2%positive 0 (λ _, true).

Definition no_custom_sort : positive → addr → bool → C list_result_t :=
  λ _ _ _, mret LIST_SUCCESS.

End ArrayListFacts.

(** * The linked list: bounds checks *)

Module LinkedListFacts.
Import LinkedList.

Lemma load_linked_list_eq (m : memory) (list : addr) (l : linked_list_t) :
  heap m !! list = Some (OList l) → load_list list m = Ret (l, m).
Proof. intros H. unfold load_list. rewrite bind_eq. unfold load. rewrite H. reflexivity. Qed.

Lemma uint64_small (z : Z) : 0 <= z < 2 ^ 64 → uint64 z = z.
Proof. intros H. unfold uint64, wrap_unsigned. apply Z.mod_small. lia. Qed.

Lemma uint64_negative (z : Z) : - 2 ^ 64 <= z < 0 → uint64 z = z + 2 ^ 64.
Proof.
  intros H. unfold uint64, wrap_unsigned.
  symmetry. apply (Z.mod_unique_pos _ _ (-1)); lia.
Qed.

Lemma uint64_out_of_range (index n : Z) :
  0 <= n < 2 ^ 63 → int64_range index → index < 0 ∨ index >= n →
  (uint64 index >=? uint64 n) = true.
Proof.
  unfold int64_range. intros Hn Hi Ho.
  rewrite (uint64_small n) by lia.
  apply Z.geb_le.
  destruct (Z_lt_dec index 0).
  - rewrite uint64_negative by lia. lia.
  - rewrite uint64_small by lia. lia.
Qed.

Lemma linked_out_of_range_error (custom_sort : positive → addr → bool → C linked_list_result_t)
    (m : memory) (list : addr) (l : linked_list_t) (c : call) :
  heap m !! list = Some (OList l) →
  0 <= count l < 2 ^ 63 →
  indices_in_range c →
  out_of_range l c →
  run custom_sort (Some list) c m = Ret (LINKED_LIST_INDEX_OUT_OF_RANGE_ERROR, m).
Proof.
  intros Hl Hn Hi Ho. pose proof (load_linked_list_eq _ _ _ Hl) as Hload.
  destruct c; simpl in Ho, Hi; try contradiction; unfold run; cbv beta iota;
    unfold result_only, linked_list_get, linked_list_set, linked_list_insert,
      linked_list_remove, linked_list_pop, linked_list_find_first, linked_list_find_last,
      linked_list_swap;
    rewrite ?bind_eq, Hload; cbv beta iota zeta;
    try rewrite (uint64_out_of_range _ _ Hn Hi Ho).
  all: try reflexivity.
  all: try (destruct ((_ >=? count l) || (_ <? 0)) eqn:E; [reflexivity | lia]).
  - destruct ((_ >? count l) || (_ <? 0)) eqn:E; [reflexivity | lia].
  - destruct ((index1 >=? count l) || (index1 <? 0)) eqn:E1; [reflexivity |].
    destruct ((index2 >=? count l) || (index2 <? 0)) eqn:E2; [reflexivity | lia].
Qed.

(** A list that holds nothing, at address 1. *)
Definition empty_list : linked_list_t :=
  {| head := None; tail := None; count := 0;
     equalityFunction := Fn default_equals; sortingFunction := Fn SortDefault |}.

Definition one_empty_list : memory :=
  Mem {[ 1%positive := OList empty_list ]} 2%positive 0 (λ _, true).

Definition no_custom_sort : positive → addr → bool → C linked_list_result_t :=
  λ _ _ _, mret LINKED_LIST_SUCCESS.

End LinkedListFacts.

(** * Claims about the bounds checks *)

(** C4. [list_remove] and [list_pop] on a non-null array list answer
    [LIST_INDEX_OUT_OF_RANGE_ERROR] exactly when [index < 0] or
    [index >= capacity]: the check is against the capacity, so an index with
    [size <= index < capacity] passes it. *)
Theorem C4_remove_pop_check_capacity
    (m : ArrayList.memory) (list : addr) (l : ArrayList.list_t) (index : Z) :
  heap m !! list = Some (ArrayList.OList l) →
  ((∃ m', ArrayList.list_remove (Some list) index m
            = Ret (ArrayList.LIST_INDEX_OUT_OF_RANGE_ERROR, m'))
   ↔ (index < 0 ∨ index >= ArrayList.capacity l))
  ∧ ((∃ out m', ArrayList.list_pop (Some list) index m
                  = Ret ((ArrayList.LIST_INDEX_OUT_OF_RANGE_ERROR, out), m'))
     ↔ (index < 0 ∨ index >= ArrayList.capacity l)).
Proof.
  intros Hl. pose proof (ArrayListFacts.load_list_eq _ _ _ Hl) as Hload.
  split; split.
  - intros [m' H]. unfold ArrayList.list_remove in H.
    rewrite (bind_Ret _ _ _ _ _ Hload) in H.
    destruct ((index >=? ArrayList.capacity l) || (index <? 0)) eqn:E; [lia|].
    exfalso. do 2 inv_bind H. destruct a0 as [freeResult p'].
    apply ArrayListFacts.list_element_free_result in H1. inv_bind H.
    destruct H1 as [-> | ->]; simpl in H.
    + inversion H.
    + repeat inv_bind H. inversion H.
  - intros Hi. exists m. unfold ArrayList.list_remove.
    rewrite (bind_Ret _ _ _ _ _ Hload).
    destruct ((index >=? ArrayList.capacity l) || (index <? 0)) eqn:E; [reflexivity|lia].
  - intros (out & m' & H). unfold ArrayList.list_pop in H.
    rewrite (bind_Ret _ _ _ _ _ Hload) in H.
    destruct ((index >=? ArrayList.capacity l) || (index <? 0)) eqn:E; [lia|].
    exfalso. do 2 inv_bind H. destruct a0 as [cloneResult element].
    apply ArrayListFacts.list_element_clone_result in H1.
    destruct H1 as [-> | ->]; simpl in H.
    + inversion H.
    + inv_bind H. destruct a0 as [freeResult p'].
      apply ArrayListFacts.list_element_free_result in H1.
      inv_bind H.
      destruct H1 as [-> | ->]; simpl in H.
      * inversion H.
      * repeat inv_bind H. inversion H.
  - intros Hi. exists None, m. unfold ArrayList.list_pop.
    rewrite (bind_Ret _ _ _ _ _ Hload).
    destruct ((index >=? ArrayList.capacity l) || (index <? 0)) eqn:E; [reflexivity|lia].
Qed.

(** C4 at the empty list of capacity 8, with index 3: in reach of the
    capacity, out of reach of the size. *)
Lemma C4_witness :
  ((∃ m', ArrayList.list_remove (Some 1%positive) 3 ArrayListFacts.one_empty_list
            = Ret (ArrayList.LIST_INDEX_OUT_OF_RANGE_ERROR, m'))
   ↔ (3 < 0 ∨ 3 >= ArrayList.capacity ArrayListFacts.empty_list))
  ∧ ((∃ out m', ArrayList.list_pop (Some 1%positive) 3 ArrayListFacts.one_empty_list
                  = Ret ((ArrayList.LIST_INDEX_OUT_OF_RANGE_ERROR, out), m'))
     ↔ (3 < 0 ∨ 3 >= ArrayList.capacity ArrayListFacts.empty_list)).
Proof.
  apply (C4_remove_pop_check_capacity ArrayListFacts.one_empty_list 1%positive).
  reflexivity.
Defined.

(** C5, as the code has it.  A call of a function that takes an index, made
    on a non-null list with the index outside the domain the function checks,
    changes nothing and returns the index-out-of-range code of its container;
    the one exception is [list_find_first] of the array list, which returns
    [LIST_INVALID_PARAMS_ERROR], as its header says. *)
Theorem C5_out_of_range_calls
    (sortA : positive → addr → bool → ArrayList.C ArrayList.list_result_t)
    (mA : ArrayList.memory) (listA : addr) (lA : ArrayList.list_t) (cA : ArrayList.call)
    (sortL : positive → addr → bool → LinkedList.C LinkedList.linked_list_result_t)
    (mL : LinkedList.memory) (listL : addr) (lL : LinkedList.linked_list_t)
    (cL : LinkedList.call) :
  heap mA !! listA = Some (ArrayList.OList lA) →
  ArrayList.out_of_range lA cA →
  heap mL !! listL = Some (LinkedList.OList lL) →
  0 <= LinkedList.count lL < 2 ^ 63 →
  LinkedList.indices_in_range cL →
  LinkedList.out_of_range lL cL →
  ArrayList.run sortA (Some listA) cA mA = Ret (ArrayList.range_error cA, mA)
  ∧ LinkedList.run sortL (Some listL) cL mL
    = Ret (LinkedList.LINKED_LIST_INDEX_OUT_OF_RANGE_ERROR, mL).
Proof.
  intros HA HoA HL Hn Hi HoL. split.
  - exact (ArrayListFacts.out_of_range_error sortA mA listA lA cA HA HoA).
  - exact (LinkedListFacts.linked_out_of_range_error sortL mL listL lL cL HL Hn Hi HoL).
Qed.

(** C5 at [list_get] of index 0 on an empty array list and
    [linked_list_remove] of index -1 on an empty linked list. *)
Lemma C5_witness :
  ArrayList.run ArrayListFacts.no_custom_sort (Some 1%positive) (ArrayList.Get 0)
      ArrayListFacts.one_empty_list
    = Ret (ArrayList.LIST_INDEX_OUT_OF_RANGE_ERROR, ArrayListFacts.one_empty_list)
  ∧ LinkedList.run LinkedListFacts.no_custom_sort (Some 1%positive) (LinkedList.Remove (-1))
      LinkedListFacts.one_empty_list
    = Ret (LinkedList.LINKED_LIST_INDEX_OUT_OF_RANGE_ERROR, LinkedListFacts.one_empty_list).
Proof.
  apply (C5_out_of_range_calls
           ArrayListFacts.no_custom_sort ArrayListFacts.one_empty_list 1%positive
           ArrayListFacts.empty_list (ArrayList.Get 0)
           LinkedListFacts.no_custom_sort LinkedListFacts.one_empty_list 1%positive
           LinkedListFacts.empty_list (LinkedList.Remove (-1))).
  - reflexivity.
  - simpl. lia.
  - reflexivity.
  - simpl. lia.
  - simpl. unfold LinkedList.int64_range. lia.
  - simpl. lia.
Defined.

(** The claim as the specification words it fails at [list_find_first]: a
    start index out of range is answered with [LIST_INVALID_PARAMS_ERROR]. *)
Lemma C5_counterexample :
  result_of (ArrayList.list_find_first (Some 1%positive) 0 (Some [Byte.x01]) 1
               ArrayListFacts.one_empty_list)
  = Ret (ArrayList.LIST_INVALID_PARAMS_ERROR, Some (-1))
  ∧ ArrayList.LIST_INVALID_PARAMS_ERROR ≠ ArrayList.LIST_INDEX_OUT_OF_RANGE_ERROR.
Proof. split; [reflexivity | discriminate]. Qed.


(** * The array list: removal from an empty slot, insertion at the end *)

Module ArrayListSlots.
Import ArrayList ArrayListFacts.

Lemma get_item_eq (m : memory) (list : addr) (l : list_t) (i : Z) (p : pointer) :
  heap m !! list = Some (OList l) →
  0 <= i →
  items l !! Z.to_nat i = Some p →
  get_item list i m = Ret (p, m).
Proof.
  intros Hl Hi Hp. unfold get_item.
  rewrite (bind_Ret _ _ _ _ _ (load_list_eq _ _ _ Hl)).
  apply lookup_lt_Some in Hp as Hlt.
  unfold in_bounds.
  replace (0 <=? i) with true by (symmetry; apply Z.leb_le; lia).
  replace (i <? Z.of_nat (length (items l))) with true by (symmetry; apply Z.ltb_lt; lia).
  simpl. rewrite Hp. reflexivity.
Qed.

(** Writing back what a slot holds changes nothing. *)
Lemma set_item_same (m : memory) (list : addr) (l : list_t) (i : Z) (p : pointer) :
  heap m !! list = Some (OList l) →
  0 <= i →
  items l !! Z.to_nat i = Some p →
  set_item list i p m = Ret (tt, m).
Proof.
  intros Hl Hi Hp. unfold set_item.
  rewrite (bind_Ret _ _ _ _ _ (load_list_eq _ _ _ Hl)).
  apply lookup_lt_Some in Hp as Hlt.
  unfold in_bounds.
  replace (0 <=? i) with true by (symmetry; apply Z.leb_le; lia).
  replace (i <? Z.of_nat (length (items l))) with true by (symmetry; apply Z.ltb_lt; lia).
  simpl. unfold store. rewrite Hl. rewrite list_insert_id by exact Hp.
  replace (set_items l (items l)) with l by (destruct l; reflexivity).
  rewrite insert_id by exact Hl. destruct m; reflexivity.
Qed.

End ArrayListSlots.

(** C10, as the code has it.  On a slot that holds no element, [list_remove]
    passes the bounds check, returns [LIST_INVALID_PARAMS_ERROR] and changes
    nothing.  [list_pop] does not get that far: it clones the slot first,
    and [list_element_clone] reads the size of the element through the null
    pointer.  It never returns [LIST_INVALID_PARAMS_ERROR]. *)
Theorem C10_remove_and_pop_of_an_empty_slot
    (m : ArrayList.memory) (list : addr) (l : ArrayList.list_t) (index : Z) :
  heap m !! list = Some (ArrayList.OList l) →
  ArrayList.size l <= index < ArrayList.capacity l →
  0 <= index →
  ArrayList.items l !! Z.to_nat index = Some ArrayList.NULL →
  ArrayList.list_remove (Some list) index m = Ret (ArrayList.LIST_INVALID_PARAMS_ERROR, m)
  ∧ (alloc_ok m (alloc_count m) = true → ArrayList.list_pop (Some list) index m = Undef)
  ∧ (∀ out m', ArrayList.list_pop (Some list) index m
               ≠ Ret ((ArrayList.LIST_INVALID_PARAMS_ERROR, out), m')).
Proof.
  intros Hl Hi H0 Hp.
  pose proof (ArrayListFacts.load_list_eq _ _ _ Hl) as Hload.
  pose proof (ArrayListSlots.get_item_eq _ _ _ _ _ Hl H0 Hp) as Hget.
  assert (Hb : (index >=? ArrayList.capacity l) || (index <? 0) = false).
  { destruct ((index >=? ArrayList.capacity l) || (index <? 0)) eqn:E; [lia | reflexivity]. }
  assert (Hpop : ArrayList.list_pop (Some list) index m
                 = if alloc_ok m (alloc_count m) then Undef
                   else Ret ((ArrayList.LIST_ALLOCATION_FAILURE, None),
                             Mem (heap m) (brk m) (S (alloc_count m)) (alloc_ok m))).
  { unfold ArrayList.list_pop.
    rewrite (bind_Ret _ _ _ _ _ Hload), Hb.
    rewrite (bind_Ret _ _ _ _ _ Hget).
    unfold ArrayList.list_element_clone. rewrite !bind_eq. unfold malloc.
    destruct (alloc_ok m (alloc_count m)); reflexivity. }
  split; [|split].
  - unfold ArrayList.list_remove.
    rewrite (bind_Ret _ _ _ _ _ Hload), Hb.
    rewrite (bind_Ret _ _ _ _ _ Hget).
    rewrite bind_eq. simpl.
    rewrite (bind_Ret _ _ _ _ _ (ArrayListSlots.set_item_same _ _ _ _ _ Hl H0 Hp)).
    reflexivity.
  - intros Hok. rewrite Hpop, Hok. reflexivity.
  - intros out m'. rewrite Hpop. destruct (alloc_ok m (alloc_count m)); discriminate.
Qed.

(** C10 at slot 3 of the empty list of capacity 8. *)
Lemma C10_witness :
  ArrayList.list_remove (Some 1%positive) 3 ArrayListFacts.one_empty_list
    = Ret (ArrayList.LIST_INVALID_PARAMS_ERROR, ArrayListFacts.one_empty_list)
  ∧ (alloc_ok ArrayListFacts.one_empty_list (alloc_count ArrayListFacts.one_empty_list) = true →
     ArrayList.list_pop (Some 1%positive) 3 ArrayListFacts.one_empty_list = Undef)
  ∧ (∀ out m', ArrayList.list_pop (Some 1%positive) 3 ArrayListFacts.one_empty_list
               ≠ Ret ((ArrayList.LIST_INVALID_PARAMS_ERROR, out), m')).
Proof.
  apply (C10_remove_and_pop_of_an_empty_slot
           ArrayListFacts.one_empty_list 1%positive ArrayListFacts.empty_list 3).
  - reflexivity.
  - simpl. lia.
  - lia.
  - reflexivity.
Defined.

(** * The array list: insertion at the end against [list_append] *)

Lemma int32_le (z : Z) : - 2 ^ 31 <= z → int32 z <= z.
Proof.
  intros H. unfold int32, wrap_signed.
  pose proof (Z.mod_pos_bound (z + 2 ^ (32 - 1)) (2 ^ 32) ltac:(lia)) as Hb.
  pose proof (Z.div_mod (z + 2 ^ (32 - 1)) (2 ^ 32) ltac:(lia)) as Hd.
  assert (0 <= (z + 2 ^ (32 - 1)) / 2 ^ 32) by (apply Z.div_pos; lia).
  change (2 ^ (32 - 1)) with 2147483648 in *. change (2 ^ 32) with 4294967296 in *.
  change (2 ^ 31) with 2147483648 in *.
  lia.
Qed.

(** C9, as the code has it.  [list_insert] does not look at the result of
    [list_element_create]: when the allocation of the element fails,
    [list_append] returns [LIST_ALLOCATION_FAILURE] and leaves the list as it
    was, while [list_insert] at index [size] returns [LIST_SUCCESS] and counts
    one element more, with nothing written to the slot. *)
Theorem C9_insert_at_size_ignores_failed_allocation
    (m : ArrayList.memory) (list : addr) (l : ArrayList.list_t)
    (value : option bytes) (size : Z) :
  heap m !! list = Some (ArrayList.OList l) →
  0 <= ArrayList.size l →
  ArrayList.size l ≠ ArrayList.capacity l →
  alloc_ok m (alloc_count m) = false →
  ArrayList.list_append (Some list) value size m
    = Ret (ArrayList.LIST_ALLOCATION_FAILURE,
           Mem (heap m) (brk m) (S (alloc_count m)) (alloc_ok m))
  ∧ ArrayList.list_insert (Some list) (ArrayList.size l) value size m
    = Ret (ArrayList.LIST_SUCCESS,
           Mem (<[list := ArrayList.OList
                            (ArrayList.set_size l (int64 (ArrayList.size l + 1)))]> (heap m))
               (brk m) (S (alloc_count m)) (alloc_ok m)).
Proof.
  intros Hl Hn Hc Hfail.
  pose proof (ArrayListFacts.load_list_eq _ _ _ Hl) as Hload.
  assert (Hcap : (ArrayList.size l =? ArrayList.capacity l) = false) by (apply Z.eqb_neq; exact Hc).
  assert (Hcreate : ArrayList.list_element_create value size m
                    = Ret ((ArrayList.LIST_ALLOCATION_FAILURE, None),
                           Mem (heap m) (brk m) (S (alloc_count m)) (alloc_ok m))).
  { unfold ArrayList.list_element_create. rewrite bind_eq. unfold malloc.
    rewrite Hfail. reflexivity. }
  split.
  - unfold ArrayList.list_append.
    rewrite (bind_Ret _ _ _ _ _ Hload), Hcap.
    rewrite bind_eq, ret_eq. cbn [ArrayList.is_success negb].
    rewrite (bind_Ret _ _ _ _ _ Hcreate). reflexivity.
  - unfold ArrayList.list_insert.
    rewrite (bind_Ret _ _ _ _ _ Hload).
    destruct ((ArrayList.size l >? ArrayList.size l) || (ArrayList.size l <? 0)) eqn:E; [lia|].
    rewrite Hcap.
    rewrite bind_eq, ret_eq. cbn [ArrayList.is_success negb].
    rewrite (bind_Ret _ _ _ _ _ Hload).
    assert (Hl' : heap (Mem (heap m) (brk m) (S (alloc_count m)) (alloc_ok m)) !! list
                  = Some (ArrayList.OList l)) by exact Hl.
    unfold for_down.
    pose proof (int32_le (ArrayList.size l - 1) ltac:(lia)) as H32.
    replace (Z.to_nat (int32 (ArrayList.size l - 1) - ArrayList.size l + 1)) with O by lia.
    cbn [for_loop].
    unfold ArrayList.write_size, loop_end, mbind, M_mbind, M_bind, mret, M_mret, M_ret.
    rewrite Hcreate.
    rewrite (ArrayListFacts.load_list_eq _ _ _ Hl'), !(ArrayListFacts.load_list_eq _ _ _ Hl').
    unfold store. cbn [heap brk alloc_count alloc_ok]. rewrite Hl. reflexivity.
Qed.

Module ArrayListSamples.
Import ArrayList.

(** The empty list of capacity 8 at address 1, with an allocator that has
    nothing left to give. *)
Definition one_empty_list_no_memory : memory :=
  Mem {[ 1%positive := OList ArrayListFacts.empty_list ]} 2%positive 0 (λ _, false).

End ArrayListSamples.

(** C9 at the empty list of capacity 8, the allocator failing. *)
Lemma C9_witness :
  ArrayList.list_append (Some 1%positive) (Some [Byte.x01]) 1
      ArrayListSamples.one_empty_list_no_memory
    = Ret (ArrayList.LIST_ALLOCATION_FAILURE,
           Mem (heap ArrayListSamples.one_empty_list_no_memory) 2%positive 1%nat (λ _, false))
  ∧ ArrayList.list_insert (Some 1%positive) 0 (Some [Byte.x01]) 1
      ArrayListSamples.one_empty_list_no_memory
    = Ret (ArrayList.LIST_SUCCESS,
           Mem (<[1%positive := ArrayList.OList
                    (ArrayList.set_size ArrayListFacts.empty_list (int64 (0 + 1)))]>
                  (heap ArrayListSamples.one_empty_list_no_memory))
               2%positive 1%nat (λ _, false)).
Proof.
  apply (C9_insert_at_size_ignores_failed_allocation
           ArrayListSamples.one_empty_list_no_memory 1%positive ArrayListFacts.empty_list
           (Some [Byte.x01]) 1).
  - reflexivity.
  - simpl. lia.
  - simpl. lia.
  - reflexivity.
Defined.

(** * The array list: [list_join] of two empty lists *)

(** C7, as the code has it.  [list_create] replaces a capacity below 1 by the
    default capacity 8, and [list_join] then sets the size of the new list
    to its capacity: joining two empty lists gives a list of size 8, all of
    whose slots are null. *)
Theorem C7_join_of_two_empty_lists
    (m : ArrayList.memory) (list1 list2 : addr) (l1 l2 : ArrayList.list_t) :
  heap m !! list1 = Some (ArrayList.OList l1) →
  heap m !! list2 = Some (ArrayList.OList l2) →
  ArrayList.size l1 = 0 →
  ArrayList.size l2 = 0 →
  alloc_ok m (alloc_count m) = true →
  alloc_ok m (S (alloc_count m)) = true →
  ∃ (m' : ArrayList.memory) (joined : ArrayList.list_t),
    ArrayList.list_join (Some list1) (Some list2) m
      = Ret ((ArrayList.LIST_SUCCESS, Some (brk m)), m')
    ∧ heap m' !! brk m = Some (ArrayList.OList joined)
    ∧ ArrayList.size joined = 8
    ∧ ArrayList.capacity joined = 8
    ∧ ArrayList.items joined = replicate 8 ArrayList.NULL
    ∧ ArrayList.size joined ≠ ArrayList.size l1 + ArrayList.size l2.
Proof.
  intros H1 H2 Hs1 Hs2 Hok1 Hok2.
  eexists _, _. split; [|split; [|split; [|split; [|split]]]].
  - unfold ArrayList.list_join.
    rewrite (bind_Ret _ _ _ _ _ (ArrayListFacts.load_list_eq _ _ _ H1)).
    rewrite (bind_Ret _ _ _ _ _ (ArrayListFacts.load_list_eq _ _ _ H2)).
    rewrite Hs1, Hs2. change (int64 (0 + 0)) with 0.
    unfold ArrayList.list_create, for_up. change (Z.to_nat (0 - 0)) with O.
    cbn [for_loop].
    unfold ArrayList.write_size, ArrayList.load_list, loop_end, load, store, new, malloc,
      mbind, M_mbind, M_bind, mret, M_mret, M_ret.
    rewrite Hok1. cbn [negb heap brk alloc_count alloc_ok]. rewrite Hok2.
    repeat first [ progress cbn [negb heap brk alloc_count alloc_ok]
                 | rewrite lookup_insert_eq ].
    reflexivity.
  - cbn [heap]. rewrite lookup_insert_eq. reflexivity.
  - reflexivity.
  - reflexivity.
  - reflexivity.
  - rewrite Hs1, Hs2. discriminate.
Qed.

(** C7 at the empty list of capacity 8, joined with itself. *)
Lemma C7_witness :
  ∃ (m' : ArrayList.memory) (joined : ArrayList.list_t),
    ArrayList.list_join (Some 1%positive) (Some 1%positive) ArrayListFacts.one_empty_list
      = Ret ((ArrayList.LIST_SUCCESS, Some (brk ArrayListFacts.one_empty_list)), m')
    ∧ heap m' !! brk ArrayListFacts.one_empty_list = Some (ArrayList.OList joined)
    ∧ ArrayList.size joined = 8
    ∧ ArrayList.capacity joined = 8
    ∧ ArrayList.items joined = replicate 8 ArrayList.NULL
    ∧ ArrayList.size joined
      ≠ ArrayList.size ArrayListFacts.empty_list + ArrayList.size ArrayListFacts.empty_list.
Proof.
  apply (C7_join_of_two_empty_lists
           ArrayListFacts.one_empty_list 1%positive 1%positive
           ArrayListFacts.empty_list ArrayListFacts.empty_list);
    reflexivity.
Defined.


(** * The iterators on an empty container *)

(** C2, as the code has it.  Neither [next] function looks at the size of
    the container when the iterator is rewound.  On an array list the step
    from the rewound state always succeeds and loads slot 0; on an empty
    linked list the step succeeds and leaves the iterator without a node, so
    that every later step succeeds in the same way.  Neither signals
    [LIST_INDEX_OUT_OF_RANGE_ERROR] on the first step over an empty
    container. *)
Theorem C2_next_on_an_empty_container
    (mA : ArrayList.memory) (itA listA : addr) (lA : ArrayList.list_t)
    (eA p : ArrayList.pointer)
    (mL : LinkedList.memory) (itL listL : addr) (lL : LinkedList.linked_list_t) (i : Z) :
  heap mA !! itA
    = Some (ArrayList.OIterator
              {| ArrayList.it_list := Some listA; ArrayList.index := -1;
                 ArrayList.element := eA |}) →
  heap mA !! listA = Some (ArrayList.OList lA) →
  ArrayList.size lA = 0 →
  ArrayList.items lA !! 0%nat = Some p →
  heap mL !! itL
    = Some (LinkedList.OIterator
              {| LinkedList.it_list := Some listL; LinkedList.index := i;
                 LinkedList.node := None |}) →
  heap mL !! listL = Some (LinkedList.OList lL) →
  LinkedList.head lL = None →
  ArrayList.list_iterator_next (Some itA) mA
    = Ret (ArrayList.LIST_SUCCESS,
           Mem (<[itA := ArrayList.OIterator
                          {| ArrayList.it_list := Some listA; ArrayList.index := 0;
                             ArrayList.element := p |}]> (heap mA))
               (brk mA) (alloc_count mA) (alloc_ok mA))
  ∧ LinkedList.linked_list_iterator_next (Some itL) mL
    = Ret (LinkedList.LINKED_LIST_SUCCESS,
           Mem (<[itL := LinkedList.OIterator
                          {| LinkedList.it_list := Some listL; LinkedList.index := 0;
                             LinkedList.node := None |}]> (heap mL))
               (brk mL) (alloc_count mL) (alloc_ok mL)).
Proof.
  intros HitA HlA _ Hp HitL HlL Hhead. split.
  - unfold ArrayList.list_iterator_next, ArrayList.load_iterator.
    rewrite !bind_eq. unfold load at 1. rewrite HitA, ret_eq.
    cbn [ArrayList.it_list ArrayList.index]. change (-1 =? -1) with true. cbv iota.
    rewrite (bind_Ret _ _ _ _ _ (ArrayListSlots.get_item_eq _ _ _ 0 _ HlA ltac:(lia) Hp)).
    rewrite bind_eq. unfold store. rewrite HitA. reflexivity.
  - unfold LinkedList.linked_list_iterator_next, LinkedList.load_iterator.
    rewrite !bind_eq. unfold load at 1. rewrite HitL, ret_eq.
    cbn [LinkedList.it_list LinkedList.node].
    rewrite (bind_Ret _ _ _ _ _ (LinkedListFacts.load_linked_list_eq _ _ _ HlL)).
    rewrite bind_eq. unfold store. rewrite HitL, Hhead. reflexivity.
Qed.

Module IteratorSamples.

(** An empty array list at address 1 and a rewound iterator over it at
    address 2. *)
Definition array_list_iterator : ArrayList.memory :=
  Mem (<[ 2%positive := ArrayList.OIterator
            {| ArrayList.it_list := Some 1%positive; ArrayList.index := -1;
               ArrayList.element := ArrayList.NULL |} ]>
         {[ 1%positive := ArrayList.OList ArrayListFacts.empty_list ]})
      3%positive 0 (λ _, true).

(** The same with a linked list. *)
Definition linked_list_iterator : LinkedList.memory :=
  Mem (<[ 2%positive := LinkedList.OIterator
            {| LinkedList.it_list := Some 1%positive; LinkedList.index := -1;
               LinkedList.node := None |} ]>
         {[ 1%positive := LinkedList.OList LinkedListFacts.empty_list ]})
      3%positive 0 (λ _, true).

(** Both are what [list_iterator_create] and [linked_list_iterator_create]
    make of the empty list. *)
Lemma array_list_iterator_created :
  ArrayList.list_iterator_create (Some 1%positive) ArrayListFacts.one_empty_list
  = Ret ((ArrayList.LIST_SUCCESS, Some 2%positive), Mem (heap array_list_iterator) 3%positive 1%nat (λ _, true)).
Proof. reflexivity. Qed.

Lemma linked_list_iterator_created :
  LinkedList.linked_list_iterator_create (Some 1%positive) LinkedListFacts.one_empty_list
  = Ret ((LinkedList.LINKED_LIST_SUCCESS, Some 2%positive), Mem (heap linked_list_iterator) 3%positive 1%nat (λ _, true)).
Proof. reflexivity. Qed.

End IteratorSamples.

(** C2 at fresh iterators over empty containers. *)
Lemma C2_witness :
  ArrayList.list_iterator_next (Some 2%positive) IteratorSamples.array_list_iterator
    = Ret (ArrayList.LIST_SUCCESS,
           Mem (<[2%positive := ArrayList.OIterator
                          {| ArrayList.it_list := Some 1%positive; ArrayList.index := 0;
                             ArrayList.element := ArrayList.NULL |}]>
                  (heap IteratorSamples.array_list_iterator))
               3%positive 0%nat (λ _, true))
  ∧ LinkedList.linked_list_iterator_next (Some 2%positive) IteratorSamples.linked_list_iterator
    = Ret (LinkedList.LINKED_LIST_SUCCESS,
           Mem (<[2%positive := LinkedList.OIterator
                          {| LinkedList.it_list := Some 1%positive; LinkedList.index := 0;
                             LinkedList.node := None |}]>
                  (heap IteratorSamples.linked_list_iterator))
               3%positive 0%nat (λ _, true)).
Proof.
  apply (C2_next_on_an_empty_container
           IteratorSamples.array_list_iterator 2%positive 1%positive
           ArrayListFacts.empty_list ArrayList.NULL ArrayList.NULL
           IteratorSamples.linked_list_iterator 2%positive 1%positive
           LinkedListFacts.empty_list (-1));
    reflexivity.
Defined.

(** * [linked_list_resize] *)

Module LinkedListSamples.
Import LinkedList.

(** [linked_list_create] with the default functions, then one
    [linked_list_append] for each value. *)
Fixpoint append_all (linkedList : option addr) (values : list bytes) : C unit :=
  match values with
  | [] => mret tt
  | v :: values' =>
      linked_list_append linkedList (Some v) (Z.of_nat (length v));;
      append_all linkedList values'
  end.

Definition build (values : list bytes) : C (option addr) :=
  '(_, linkedList) ← linked_list_create None None;
  append_all linkedList values;;
  mret linkedList.

End LinkedListSamples.

Ltac chain_by_computation :=
  repeat (eapply LinkedList.chain_cons; [vm_compute; reflexivity | cbn [LinkedList.next]]);
  apply LinkedList.chain_nil.

(** C6, as the code has it.  Growing an empty list first makes a head node
    and then appends as many nodes as the list is to grow by, one more than
    the size it stores: after [linked_list_resize(list, 3)] the empty list
    has four nodes and size 3.  Shrinking a list by two nodes or more, or
    resizing a list of two nodes or more to 0, frees the node the loop
    stands on and then reads its [next] field through the pointer that the
    free has set to null. *)
Theorem C6_resize_of_an_empty_list_and_shrinking :
  (∃ (m' : LinkedList.memory) (l' : LinkedList.linked_list_t) (ns : list addr),
     LinkedList.linked_list_resize (Some 1%positive) 3 LinkedListFacts.one_empty_list
       = Ret (LinkedList.LINKED_LIST_SUCCESS, m')
     ∧ heap m' !! 1%positive = Some (LinkedList.OList l')
     ∧ LinkedList.count l' = 3
     ∧ LinkedList.chain (heap m') (LinkedList.head l') ns
     ∧ length ns = 4%nat)
  ∧ result_of ((list ← LinkedListSamples.build [[Byte.x01]; [Byte.x02]; [Byte.x03]];
                LinkedList.linked_list_resize list 1) empty_memory) = Undef
  ∧ result_of ((list ← LinkedListSamples.build [[Byte.x01]; [Byte.x02]];
                LinkedList.linked_list_resize list 0) empty_memory) = Undef.
Proof.
  split; [|split].
  - eexists _, _, _. split; [vm_compute; reflexivity|].
    split; [vm_compute; reflexivity|].
    split; [reflexivity|].
    split; [cbn [LinkedList.head]; chain_by_computation | reflexivity].
  - vm_compute. reflexivity.
  - vm_compute. reflexivity.
Qed.

(** * The default sort of the array list on two elements *)

Module ArrayListSamples2.
Import ArrayList.

Fixpoint append_all (list_ : option addr) (values : list bytes) : C unit :=
  match values with
  | [] => mret tt
  | v :: values' =>
      list_append list_ (Some v) (Z.of_nat (length v));;
      append_all list_ values'
  end.

(** [list_create] with the default capacity and functions, then one
    [list_append] for each value. *)
Definition build (values : list bytes) : C (option addr) :=
  '(_, list_) ← list_create 0 None None;
  append_all list_ values;;
  mret list_.

(** The list made by appending the bytes 02 and 01. *)
Definition two_then_one : memory := state_after (build [[Byte.x02]; [Byte.x01]]) empty_memory.

End ArrayListSamples2.

(** C1, as the code has it.  [partition] takes the element before the last
    of its range as pivot and compares the elements from [low] to [high - 2]
    with it; on a range of two elements there is nothing to compare, the
    pivot stays where it is, and [quicksort] goes on with two ranges of at
    most one element.  The default sort therefore returns [LIST_SUCCESS] on
    a list of two elements without touching it, in either direction and
    whatever the order of the two. *)
Theorem C1_default_sort_leaves_two_elements_in_place
    (custom_sort : positive → addr → bool → ArrayList.C ArrayList.list_result_t)
    (m : ArrayList.memory) (list : addr) (l : ArrayList.list_t)
    (a : addr) (e : ArrayList.list_element_t) (ascending : bool) :
  heap m !! list = Some (ArrayList.OList l) →
  ArrayList.size l = 2 →
  ArrayList.sortingFunction l = Fn ArrayList.SortDefault →
  ArrayList.items l !! 0%nat = Some (ArrayList.Ptr a) →
  heap m !! a = Some (ArrayList.OElement e) →
  ArrayList.list_sort custom_sort (Some list) ascending m = Ret (ArrayList.LIST_SUCCESS, m).
Proof.
  intros Hl Hs Hf Hp He.
  pose proof (ArrayListFacts.load_list_eq _ _ _ Hl) as Hload.
  pose proof (ArrayListSlots.get_item_eq _ _ _ 0 _ Hl ltac:(lia) Hp) as Hget.
  assert (Hswap : ArrayList.list_swap (Some list) 0 0 m = Ret (ArrayList.LIST_SUCCESS, m)).
  { unfold ArrayList.list_swap. rewrite (bind_Ret _ _ _ _ _ Hload), Hs. reflexivity. }
  assert (Hpart : ArrayList.partition list 0 1 ascending m = Ret (0, m)).
  { unfold ArrayList.partition. change (1 - 0 + 1 >=? 3) with false. cbv iota.
    rewrite bind_eq, ret_eq. change (1 - 1) with 0.
    rewrite (bind_Ret _ _ _ _ _ Hget).
    unfold ArrayList.load_element. rewrite !bind_eq. unfold load at 1. rewrite He, ret_eq.
    unfold for_up. change (Z.to_nat (0 - 0)) with O. cbn [for_loop].
    unfold loop_end, mbind, M_mbind, M_bind, mret, M_mret, M_ret.
    change (0 - 1 + 1) with 0. rewrite Hswap. reflexivity. }
  unfold ArrayList.list_sort.
  rewrite (bind_Ret _ _ _ _ _ Hload), Hs, Hf. change ((2 =? 0) || (2 =? 1)) with false.
  cbv iota. unfold ArrayList.default_sort.
  rewrite (bind_Ret _ _ _ _ _ Hload), Hs. change (Z.to_nat 2) with 2%nat. change (2 - 1) with 1.
  cbn [ArrayList.quicksort]. change (0 <? 1) with true. cbv iota.
  rewrite bind_eq, (bind_Ret _ _ _ _ _ Hpart).
  change (int32 0) with 0. cbv zeta.
  change (0 <? 0 - 1) with false. change (0 + 1 <? 1) with false. cbv iota.
  reflexivity.
Qed.

(** C1 at the list made by appending the bytes 02 and 01, sorted upwards:
    it stays as it is, the larger value first. *)
Lemma C1_witness :
  ArrayList.list_sort ArrayListFacts.no_custom_sort (Some 1%positive) true
    ArrayListSamples2.two_then_one
  = Ret (ArrayList.LIST_SUCCESS, ArrayListSamples2.two_then_one).
Proof.
  apply (C1_default_sort_leaves_two_elements_in_place
           ArrayListFacts.no_custom_sort ArrayListSamples2.two_then_one 1%positive
           {| ArrayList.size := 2; ArrayList.capacity := 8;
              ArrayList.items :=
                [ArrayList.Ptr 2%positive; ArrayList.Ptr 3%positive; ArrayList.NULL;
                 ArrayList.NULL; ArrayList.NULL; ArrayList.NULL; ArrayList.NULL;
                 ArrayList.NULL];
              ArrayList.equalityFunction := Fn ArrayList.default_equals;
              ArrayList.sortingFunction := Fn ArrayList.SortDefault |}
           2%positive {| ArrayList.el_size := 1; ArrayList.el_value := Some [Byte.x02] |} true).
  - vm_compute. reflexivity.
  - reflexivity.
  - reflexivity.
  - reflexivity.
  - vm_compute. reflexivity.
Defined.

(** What the list of the witness holds, and how its two values compare. *)
Lemma two_then_one_is_out_of_order :
  ∃ l : ArrayList.list_t,
    heap ArrayListSamples2.two_then_one !! 1%positive = Some (ArrayList.OList l)
    ∧ ArrayList.elements (heap ArrayListSamples2.two_then_one) l
      = [Some {| ArrayList.el_size := 1; ArrayList.el_value := Some [Byte.x02] |};
         Some {| ArrayList.el_size := 1; ArrayList.el_value := Some [Byte.x01] |}]
    ∧ ArrayList.default_equals (Some [Byte.x02]) (Some [Byte.x01]) 1 = Ret 1.
Proof.
  eexists. split; [vm_compute; reflexivity|]. split; reflexivity.
Qed.

(** The default sort of the linked list narrows the result of the equality
    function to eight bits: the bytes 00 and C8 compare as -200, which is 56
    once narrowed, and the sort upwards puts C8 first. *)
Lemma linked_list_sort_of_00_C8 :
  ∃ (m' : LinkedList.memory) (l' : LinkedList.linked_list_t) (a b : addr),
    (list ← LinkedListSamples.build [[Byte.x00]; [Byte.xc8]];
     LinkedList.linked_list_sort LinkedListFacts.no_custom_sort list true) empty_memory
      = Ret (LinkedList.LINKED_LIST_SUCCESS, m')
    ∧ heap m' !! 1%positive = Some (LinkedList.OList l')
    ∧ LinkedList.chain (heap m') (LinkedList.head l') [a; b]
    ∧ LinkedList.element_at (heap m') a
      = Some {| LinkedList.value := Some [Byte.xc8]; LinkedList.size := 1 |}
    ∧ LinkedList.element_at (heap m') b
      = Some {| LinkedList.value := Some [Byte.x00]; LinkedList.size := 1 |}
    ∧ LinkedList.default_equals (Some [Byte.xc8]) (Some [Byte.x00]) 1 = Ret 200.
Proof.
  eexists _, _, _, _. split; [vm_compute; reflexivity|].
  split; [vm_compute; reflexivity|].
  split; [cbn [LinkedList.head]; chain_by_computation|].
  split; [vm_compute; reflexivity|].
  split; [vm_compute; reflexivity|reflexivity].
Qed.


(** * Invariants of the heap *)

(** [all_ok ok m]: every object of the heap satisfies [ok]. *)
Definition all_ok {O} (ok : O → Prop) (m : mem O) : Prop :=
  ∀ a o, heap m !! a = Some o → ok o.

Section Invariant.
Context {O : Type} (ok : O → Prop).

Lemma malloc_ok (m m' : mem O) (b : bool) :
  all_ok ok m → malloc m = Ret (b, m') → all_ok ok m'.
Proof. intros HP H. inversion H. subst. exact HP. Qed.

Lemma new_ok (o : O) (m m' : mem O) (a : addr) :
  all_ok ok m → ok o → new o m = Ret (a, m') → all_ok ok m'.
Proof.
  intros HP Ho H. inversion H. subst. intros a' o'. cbn [heap].
  rewrite lookup_insert. case_decide.
  - intros [= <-]. exact Ho.
  - apply HP.
Qed.

Lemma load_ok (p : addr) (m m' : mem O) (o : O) :
  all_ok ok m → load p m = Ret (o, m') → m' = m ∧ ok o.
Proof.
  intros HP H. unfold load in H. destruct (heap m !! p) eqn:E; [|discriminate].
  inversion H. subst. split; [reflexivity | exact (HP _ _ E)].
Qed.

Lemma store_ok (p : addr) (o : O) (m m' : mem O) (u : unit) :
  all_ok ok m → ok o → store p o m = Ret (u, m') → all_ok ok m'.
Proof.
  intros HP Ho H. unfold store in H. destruct (heap m !! p) eqn:E; [|discriminate].
  inversion H. subst. intros a' o'. cbn [heap].
  rewrite lookup_insert. case_decide.
  - intros [= <-]. exact Ho.
  - apply HP.
Qed.

Lemma free_ok (p : addr) (m m' : mem O) (u : unit) :
  all_ok ok m → free p m = Ret (u, m') → all_ok ok m'.
Proof.
  intros HP H. unfold free in H. destruct (heap m !! p) eqn:E; [|discriminate].
  inversion H. subst. intros a' o'. cbn [heap].
  rewrite lookup_delete. case_decide; [discriminate | apply HP].
Qed.

Lemma lift_inv {A} (e : exec A) (m m' : mem O) (a : A) :
  lift e m = Ret (a, m') → m' = m ∧ e = Ret a.
Proof. unfold lift. destruct e; intros H; inversion H. auto. Qed.

Lemma ret_inv {A} (a b : A) (m m' : mem O) :
  (mret a : M (mem O) A) m = Ret (b, m') → b = a ∧ m' = m.
Proof. intros H. inversion H. auto. Qed.

(** A loop keeps what its body keeps. *)
Lemma for_loop_ok {A R} (n : nat) (i step : Z) (acc : A)
    (body : Z → A → M (mem O) (A + R)) (m m' : mem O) (r : A + R) :
  (∀ i acc m r m', all_ok ok m → body i acc m = Ret (r, m') → all_ok ok m') →
  all_ok ok m →
  for_loop n i step acc body m = Ret (r, m') →
  all_ok ok m'.
Proof.
  intros Hbody. revert i acc m. induction n as [|n IH]; intros i acc m HP H.
  - inversion H. subst. exact HP.
  - cbn [for_loop] in H. apply bind_inv in H as (x & m1 & H1 & H).
    apply Hbody in H1; [|exact HP].
    destruct x as [acc'|x].
    + exact (IH _ _ _ H1 H).
    + inversion H. subst. exact H1.
Qed.

Lemma loop_end_inv {A} (c : M (mem O) (A + Empty_set)) (m m' : mem O) (a : A) :
  loop_end c m = Ret (a, m') → c m = Ret (inl a, m').
Proof.
  unfold loop_end, M_bind. destruct (c m) as [[[x|[]] m1]| |]; try discriminate.
  intros H. inversion H. reflexivity.
Qed.

End Invariant.

Lemma memcpy_length (src : option bytes) (n : Z) (data : bytes) :
  memcpy src n = Ret data → Z.of_nat (length data) = n.
Proof.
  unfold memcpy. destruct src as [s|]; [|discriminate].
  destruct ((0 <=? n) && (n <=? Z.of_nat (length s))) eqn:E; [|discriminate].
  intros [= <-]. rewrite length_take. lia.
Qed.

(** Runs a program symbolically for an invariant of the heap: from
    [all_ok ok m] and a run that starts in [m], to [all_ok ok] of the state
    the run ends in.  The lemmas about the functions a program calls come
    from the hint database [pres]. *)
Create HintDb pres.

Ltac pres_step :=
  match goal with
  | H : Undef = Ret _ |- _ => discriminate H
  | H : OutOfFuel = Ret _ |- _ => discriminate H
  | H : undef _ = Ret _ |- _ => discriminate H
  | H : out_of_fuel _ = Ret _ |- _ => discriminate H
  | HP : all_ok _ ?m, H : (_ ≫= _) ?m = Ret _ |- _ => inv_bind H; cbv beta in H
  | HP : all_ok _ ?m, H : M_bind _ _ ?m = Ret _ |- _ =>
      let a := fresh "a" in let m1 := fresh "m" in let H1 := fresh H in
      apply bind_inv in H as (a & m1 & H1 & H); cbv beta in H
  | HP : all_ok _ ?m, H : mret _ ?m = Ret _ |- _ =>
      apply ret_inv in H; destruct H; subst
  | HP : all_ok _ ?m, H : lift _ ?m = Ret _ |- _ =>
      apply lift_inv in H; destruct H; subst
  | HP : all_ok _ ?m, H : loop_end _ ?m = Ret _ |- _ => apply loop_end_inv in H
  | HP : all_ok _ ?m, H : for_up _ _ _ _ ?m = Ret _ |- _ => unfold for_up in H
  | HP : all_ok _ ?m, H : for_down _ _ _ _ ?m = Ret _ |- _ => unfold for_down in H
  | HP : all_ok ?ok ?m, H : for_loop _ _ _ _ _ ?m = Ret (_, ?m') |- _ =>
      let HP' := fresh "HP" in
      assert (HP' : all_ok ok m')
        by (eapply (for_loop_ok ok); [ | exact HP | exact H ];
            clear; intros; cbv beta in *; repeat pres_step; assumption);
      clear H HP
  | HP : all_ok _ ?m, H : load _ ?m = Ret _ |- _ =>
      let Ho := fresh "Hok" in
      apply (load_ok _ _ _ _ _ HP) in H as [? Ho]; subst
  | HP : all_ok ?ok ?m, H : malloc ?m = Ret (_, ?m') |- _ =>
      let HP' := fresh "HP" in
      assert (HP' : all_ok ok m') by exact (malloc_ok ok _ _ _ HP H); clear H HP
  | HP : all_ok ?ok ?m, H : free _ ?m = Ret (_, ?m') |- _ =>
      let HP' := fresh "HP" in
      assert (HP' : all_ok ok m') by exact (free_ok ok _ _ _ _ HP H); clear H HP
  | HP : all_ok ?ok ?m, H : new ?o ?m = Ret (_, ?m') |- _ =>
      let HP' := fresh "HP" in
      assert (HP' : all_ok ok m')
        by (refine (new_ok ok _ _ _ _ HP _ H); pres_object);
      clear H HP
  | HP : all_ok ?ok ?m, H : store _ ?o ?m = Ret (_, ?m') |- _ =>
      let HP' := fresh "HP" in
      assert (HP' : all_ok ok m')
        by (refine (store_ok ok _ _ _ _ _ HP _ H); pres_object);
      clear H HP
  | HP : all_ok _ ?m, H : (if ?b then _ else _) ?m = Ret _ |- _ => destruct b eqn:?
  | HP : all_ok _ ?m, H : (match ?x with _ => _ end) ?m = Ret _ |- _ => destruct x eqn:?
  | HP : all_ok ?ok ?m, H : _ ?m = Ret (_, ?m') |- _ =>
      let HP' := fresh "HP" in
      assert (HP' : all_ok ok m') by (eauto 3 with pres); clear H HP
  end
with pres_object :=
  first
    [ exact I
    | assumption
    | (* an element written with the bytes a memcpy has just delivered *)
      cbn; intros ? [= <-]; eapply memcpy_length; eassumption
    | cbn; intros ? [=] ].

Ltac pres := repeat pres_step; try assumption.

(** * The elements of the array list keep their invariant *)

Module ArrayListInvariant.
Import ArrayList.

Abbreviation inv := (all_ok object_ok).

Ltac start f := unfold f; intros; pres.

Lemma load_list_ok list m l m' : inv m → load_list list m = Ret (l, m') → inv m'.
Proof. start load_list. Qed.
Lemma load_element_ok p m e m' : inv m → load_element p m = Ret (e, m') → inv m'.
Proof. start load_element. Qed.
Lemma load_iterator_ok p m e m' : inv m → load_iterator p m = Ret (e, m') → inv m'.
Proof. start load_iterator. Qed.
#[export] Hint Resolve load_list_ok load_element_ok load_iterator_ok : pres.

Lemma get_item_ok list i m p m' : inv m → get_item list i m = Ret (p, m') → inv m'.
Proof. start get_item. Qed.
Lemma set_item_ok list i p m u m' : inv m → set_item list i p m = Ret (u, m') → inv m'.
Proof. start set_item. Qed.
Lemma write_size_ok list n m u m' : inv m → write_size list n m = Ret (u, m') → inv m'.
Proof. start write_size. Qed.
Lemma equality_of_ok list m f m' : inv m → equality_of list m = Ret (f, m') → inv m'.
Proof. start equality_of. Qed.
#[export] Hint Resolve get_item_ok set_item_ok write_size_ok equality_of_ok : pres.

Lemma list_element_create_ok value size m r m' :
  inv m → list_element_create value size m = Ret (r, m') → inv m'.
Proof. start list_element_create. Qed.
Lemma list_element_set_ok element value size m r m' :
  inv m → list_element_set element value size m = Ret (r, m') → inv m'.
Proof. start list_element_set. Qed.
Lemma list_element_clone_ok element m r m' :
  inv m → list_element_clone element m = Ret (r, m') → inv m'.
Proof. start list_element_clone. Qed.
Lemma list_element_free_ok element m r m' :
  inv m → list_element_free element m = Ret (r, m') → inv m'.
Proof.
  destruct element as [|a|]; [start list_element_free | | start list_element_free].
  rewrite ArrayListFacts.list_element_free_of_a_pointer. discriminate.
Qed.
#[export] Hint Resolve list_element_create_ok list_element_set_ok list_element_clone_ok
  list_element_free_ok : pres.

Lemma list_realloc_capacity_ok list capacity m r m' :
  inv m → list_realloc_capacity list capacity m = Ret (r, m') → inv m'.
Proof. start list_realloc_capacity. Qed.
Lemma list_swap_ok list index1 index2 m r m' :
  inv m → list_swap list index1 index2 m = Ret (r, m') → inv m'.
Proof. start list_swap. Qed.
#[export] Hint Resolve list_realloc_capacity_ok list_swap_ok : pres.

Lemma compare_items_ok list a b m r m' :
  inv m → compare_items list a b m = Ret (r, m') → inv m'.
Proof. start compare_items. Qed.
#[export] Hint Resolve compare_items_ok : pres.

Lemma partition_ok list low high ascending m r m' :
  inv m → partition list low high ascending m = Ret (r, m') → inv m'.
Proof. start partition. Qed.
#[export] Hint Resolve partition_ok : pres.

Lemma quicksort_ok fuel list low high ascending m r m' :
  inv m → quicksort fuel list low high ascending m = Ret (r, m') → inv m'.
Proof.
  revert low high m r m'. induction fuel as [|fuel IH]; intros low high m r m' HP H;
    cbn [quicksort] in H; pres.
Qed.
#[export] Hint Resolve quicksort_ok : pres.

Lemma default_sort_ok list ascending m r m' :
  inv m → default_sort list ascending m = Ret (r, m') → inv m'.
Proof. start default_sort. Qed.
#[export] Hint Resolve default_sort_ok : pres.

Lemma list_create_ok capacity f g m r m' :
  inv m → list_create capacity f g m = Ret (r, m') → inv m'.
Proof. start list_create. Qed.
Lemma list_free_ok list m r m' : inv m → list_free list m = Ret (r, m') → inv m'.
Proof. start list_free. Qed.
Lemma list_resize_ok list capacity m r m' :
  inv m → list_resize list capacity m = Ret (r, m') → inv m'.
Proof. start list_resize. Qed.
Lemma list_prepend_ok list value size m r m' :
  inv m → list_prepend list value size m = Ret (r, m') → inv m'.
Proof. start list_prepend. Qed.
Lemma list_append_ok list value size m r m' :
  inv m → list_append list value size m = Ret (r, m') → inv m'.
Proof. start list_append. Qed.
Lemma list_insert_ok list index value size m r m' :
  inv m → list_insert list index value size m = Ret (r, m') → inv m'.
Proof. start list_insert. Qed.
Lemma list_get_ok list index m r m' : inv m → list_get list index m = Ret (r, m') → inv m'.
Proof. start list_get. Qed.
Lemma list_set_ok list index value size m r m' :
  inv m → list_set list index value size m = Ret (r, m') → inv m'.
Proof. start list_set. Qed.
Lemma list_remove_ok list index m r m' :
  inv m → list_remove list index m = Ret (r, m') → inv m'.
Proof. start list_remove. Qed.
Lemma list_pop_ok list index m r m' : inv m → list_pop list index m = Ret (r, m') → inv m'.
Proof. start list_pop. Qed.
Lemma list_reverse_ok list m r m' : inv m → list_reverse list m = Ret (r, m') → inv m'.
Proof. start list_reverse. Qed.
Lemma list_clone_ok list m r m' : inv m → list_clone list m = Ret (r, m') → inv m'.
Proof. start list_clone. Qed.
Lemma list_clear_ok list m r m' : inv m → list_clear list m = Ret (r, m') → inv m'.
Proof. start list_clear. Qed.
#[export] Hint Resolve list_create_ok : pres.
Lemma list_join_ok list1 list2 m r m' :
  inv m → list_join list1 list2 m = Ret (r, m') → inv m'.
Proof. start list_join. Qed.
Lemma list_includes_ok list value size m r m' :
  inv m → list_includes list value size m = Ret (r, m') → inv m'.
Proof. start list_includes. Qed.
Lemma list_find_first_ok list start value size m r m' :
  inv m → list_find_first list start value size m = Ret (r, m') → inv m'.
Proof. start list_find_first. Qed.
Lemma list_find_last_ok list start value size m r m' :
  inv m → list_find_last list start value size m = Ret (r, m') → inv m'.
Proof. start list_find_last. Qed.
Lemma list_fill_ok list value size m r m' :
  inv m → list_fill list value size m = Ret (r, m') → inv m'.
Proof. start list_fill. Qed.
Lemma list_iterator_create_ok list m r m' :
  inv m → list_iterator_create list m = Ret (r, m') → inv m'.
Proof. start list_iterator_create. Qed.
Lemma list_iterator_next_ok it m r m' :
  inv m → list_iterator_next it m = Ret (r, m') → inv m'.
Proof. start list_iterator_next. Qed.
Lemma list_iterator_rewind_ok it m r m' :
  inv m → list_iterator_rewind it m = Ret (r, m') → inv m'.
Proof. start list_iterator_rewind. Qed.
Lemma list_iterator_free_ok it m r m' :
  inv m → list_iterator_free it m = Ret (r, m') → inv m'.
Proof. start list_iterator_free. Qed.

Section Sort.
Variable custom_sort : positive → addr → bool → C list_result_t.
Hypothesis custom_sort_ok :
  ∀ f list ascending m r m',
    inv m → custom_sort f list ascending m = Ret (r, m') → inv m'.

Lemma list_sort_ok list ascending m r m' :
  inv m → list_sort custom_sort list ascending m = Ret (r, m') → inv m'.
Proof using custom_sort_ok. start list_sort. Qed.

#[local] Hint Resolve list_free_ok list_resize_ok list_prepend_ok list_append_ok
  list_insert_ok list_get_ok list_set_ok list_remove_ok list_pop_ok list_reverse_ok
  list_clone_ok list_clear_ok list_join_ok list_includes_ok list_find_first_ok
  list_find_last_ok list_fill_ok list_iterator_create_ok list_iterator_next_ok
  list_iterator_rewind_ok list_iterator_free_ok list_sort_ok : pres.

(** Every call keeps the invariant of the elements. *)
Lemma run_ok list c m r m' :
  inv m → run custom_sort list c m = Ret (r, m') → inv m'.
Proof using custom_sort_ok.
  intros HP H. destruct c; unfold run, result_only in H; pres.
Qed.

End Sort.

(** What [list_element_create] makes: an element of the size it is given,
    with a data buffer exactly when it is given a value, and then one of
    that many bytes. *)
Lemma list_element_create_makes value size m element m' :
  list_element_create value size m = Ret ((LIST_SUCCESS, Some element), m') →
  ∃ e, heap m' !! element = Some (OElement e)
       ∧ el_size e = size
       ∧ (el_value e = None ↔ value = None)
       ∧ element_ok e.
Proof.
  unfold list_element_create. intros H.
  inv_bind H. destruct a; [|inversion H]. cbn [negb] in H.
  destruct value as [v|].
  - inv_bind H. destruct a; [|inversion H]. cbn [negb] in H.
    repeat inv_bind H. inversion H. subst.
    lazymatch goal with Hn : new _ _ = Ret _ |- _ => unfold new in Hn; inversion Hn; subst end.
    lazymatch goal with
    | Hm : lift _ _ = Ret _ |- _ => apply lift_inv in Hm as [_ Hm]
    end.
    eexists. cbn [heap]. rewrite lookup_insert_eq. split; [reflexivity|].
    split; [reflexivity|]. split; [split; discriminate|].
    intros data [= <-]. cbn [el_size]. eapply memcpy_length. eassumption.
  - repeat inv_bind H. inversion H. subst.
    lazymatch goal with Hn : new _ _ = Ret _ |- _ => unfold new in Hn; inversion Hn; subst end.
    eexists. cbn [heap]. rewrite lookup_insert_eq. split; [reflexivity|].
    split; [reflexivity|]. split; [split; reflexivity|].
    intros data [=].
Qed.

End ArrayListInvariant.

(** * The elements of the linked list keep their invariant *)

Module LinkedListInvariant.
Import LinkedList.

Abbreviation inv := (all_ok object_ok).

Ltac start f := unfold f; intros; pres.

Lemma load_linked_list_ok list m l m' : inv m → load_list list m = Ret (l, m') → inv m'.
Proof. start load_list. Qed.
Lemma load_node_ok p m e m' : inv m → load_node p m = Ret (e, m') → inv m'.
Proof. start load_node. Qed.
Lemma load_linked_element_ok p m e m' : inv m → load_element p m = Ret (e, m') → inv m'.
Proof. start load_element. Qed.
Lemma load_linked_iterator_ok p m e m' : inv m → load_iterator p m = Ret (e, m') → inv m'.
Proof. start load_iterator. Qed.
#[export] Hint Resolve load_linked_list_ok load_node_ok load_linked_element_ok
  load_linked_iterator_ok : pres.

Lemma write_head_ok list p m u m' : inv m → write_head list p m = Ret (u, m') → inv m'.
Proof. start write_head. Qed.
Lemma write_tail_ok list p m u m' : inv m → write_tail list p m = Ret (u, m') → inv m'.
Proof. start write_tail. Qed.
Lemma write_count_ok list n m u m' : inv m → write_count list n m = Ret (u, m') → inv m'.
Proof. start write_count. Qed.
Lemma write_next_ok p q m u m' : inv m → write_next p q m = Ret (u, m') → inv m'.
Proof. start write_next. Qed.
Lemma store_element_field_ok p q m u m' :
  inv m → store_element_field p q m = Ret (u, m') → inv m'.
Proof. start store_element_field. Qed.
Lemma free_node_ok p m u m' : inv m → free_node p m = Ret (u, m') → inv m'.
Proof. start free_node. Qed.
Lemma heap_size_ok m n m' : inv m → heap_size m = Ret (n, m') → inv m'.
Proof. intros HP H. inversion H. subst. exact HP. Qed.
#[export] Hint Resolve write_head_ok write_tail_ok write_count_ok write_next_ok
  store_element_field_ok free_node_ok heap_size_ok : pres.

(** A traversal keeps what its body keeps. *)
Lemma walk_ok {A R} (fuel : nat) (node : option addr) (acc : A)
    (body : addr → A → C (option addr * A + R)) (m m' : memory) (r : A + R) :
  (∀ a acc m r m', inv m → body a acc m = Ret (r, m') → inv m') →
  inv m →
  walk fuel node acc body m = Ret (r, m') →
  inv m'.
Proof.
  intros Hbody. revert node acc m. induction fuel as [|fuel IH]; intros node acc m HP H.
  - destruct node; cbn [walk] in H; pres.
  - destruct node as [a|]; cbn [walk] in H; [|pres].
    apply bind_inv in H as (x & m1 & H1 & H).
    apply Hbody in H1; [|exact HP].
    destruct x as [[node' acc']|x]; [|pres].
    apply bind_inv in H as (n & m2 & H2 & H).
    apply load_node_ok in H2; [|exact H1].
    exact (IH _ _ _ H2 H).
Qed.

Lemma for_nodes_ok {A R} (start : option addr) (acc : A)
    (body : addr → A → C (option addr * A + R)) (m m' : memory) (r : A + R) :
  (∀ a acc m r m', inv m → body a acc m = Ret (r, m') → inv m') →
  inv m →
  for_nodes start acc body m = Ret (r, m') →
  inv m'.
Proof.
  intros Hbody HP H. unfold for_nodes in H.
  apply bind_inv in H as (fuel & m1 & H1 & H). inversion H1. subst.
  exact (walk_ok _ _ _ _ _ _ _ Hbody HP H).
Qed.

Ltac nodes_step :=
  match goal with
  | HP : all_ok ?ok ?m, H : for_nodes _ _ _ ?m = Ret (_, ?m') |- _ =>
      let HP' := fresh "HP" in
      assert (HP' : all_ok ok m')
        by (eapply for_nodes_ok; [ | exact HP | exact H ];
            clear; intros; cbv beta in *; repeat nodes_step; assumption);
      clear H HP
  | _ => pres_step
  end.

Ltac pres_nodes := repeat nodes_step; try assumption.
Ltac start_nodes f := unfold f; intros; pres_nodes.

Lemma linked_list_node_create_ok value size next m r m' :
  inv m → linked_list_node_create value size next m = Ret (r, m') → inv m'.
Proof. start linked_list_node_create. Qed.
Lemma linked_list_element_free_ok element m r m' :
  inv m → linked_list_element_free element m = Ret (r, m') → inv m'.
Proof. start linked_list_element_free. Qed.
#[export] Hint Resolve linked_list_node_create_ok linked_list_element_free_ok : pres.
Lemma linked_list_node_free_ok node m r m' :
  inv m → linked_list_node_free node m = Ret (r, m') → inv m'.
Proof. start linked_list_node_free. Qed.
Lemma linked_list_element_clone_ok element m r m' :
  inv m → linked_list_element_clone element m = Ret (r, m') → inv m'.
Proof. start linked_list_element_clone. Qed.
Lemma linked_list_element_set_ok element value size m r m' :
  inv m → linked_list_element_set element value size m = Ret (r, m') → inv m'.
Proof. start linked_list_element_set. Qed.
#[export] Hint Resolve linked_list_node_free_ok linked_list_element_clone_ok
  linked_list_element_set_ok : pres.
Lemma linked_list_node_get_ok list index m r m' :
  inv m → linked_list_node_get list index m = Ret (r, m') → inv m'.
Proof. start_nodes linked_list_node_get. Qed.
Lemma linked_list_node_clone_ok node m r m' :
  inv m → linked_list_node_clone node m = Ret (r, m') → inv m'.
Proof. start linked_list_node_clone. Qed.
#[export] Hint Resolve linked_list_node_get_ok linked_list_node_clone_ok : pres.

Lemma last_node_ok fuel current m r m' :
  inv m → last_node fuel current m = Ret (r, m') → inv m'.
Proof.
  revert current m. induction fuel as [|fuel IH]; intros current m HP H;
    destruct current; cbn [last_node] in H; pres.
Qed.
Lemma take_from_first_half_ok f ascending p q m r m' :
  inv m → take_from_first_half f ascending p q m = Ret (r, m') → inv m'.
Proof. start take_from_first_half. Qed.
#[export] Hint Resolve last_node_ok take_from_first_half_ok : pres.

Lemma merge_loop_ok fuel f ascending p q l m r m' :
  inv m → merge_loop fuel f ascending p q l m = Ret (r, m') → inv m'.
Proof.
  revert p q l m. induction fuel as [|fuel IH]; intros p q l m HP H;
    destruct p, q; cbn [merge_loop] in H; pres.
Qed.
#[export] Hint Resolve merge_loop_ok : pres.

Lemma merge_ok fuel p q ascending f m r m' :
  inv m → merge fuel p q ascending f m = Ret (r, m') → inv m'.
Proof. start merge. Qed.

Lemma merge_split_loop_ok fuel p q m r m' :
  inv m → merge_split_loop fuel p q m = Ret (r, m') → inv m'.
Proof.
  revert p q m. induction fuel as [|fuel IH]; intros p q m HP H;
    destruct q; cbn [merge_split_loop] in H; pres.
Qed.
#[export] Hint Resolve merge_ok merge_split_loop_ok : pres.

Lemma merge_split_ok fuel source m r m' :
  inv m → merge_split fuel source m = Ret (r, m') → inv m'.
Proof. start merge_split. Qed.
#[export] Hint Resolve merge_split_ok : pres.

Lemma merge_sort_ok fuel head ascending f m r m' :
  inv m → merge_sort fuel head ascending f m = Ret (r, m') → inv m'.
Proof.
  revert head m r m'. induction fuel as [|fuel IH]; intros head m r m' HP H;
    destruct head; cbn [merge_sort] in H; pres.
Qed.
#[export] Hint Resolve merge_sort_ok : pres.

Lemma linked_default_sort_ok list ascending m r m' :
  inv m → default_sort list ascending m = Ret (r, m') → inv m'.
Proof. start default_sort. Qed.
#[export] Hint Resolve linked_default_sort_ok : pres.

Lemma linked_list_create_ok f g m r m' :
  inv m → linked_list_create f g m = Ret (r, m') → inv m'.
Proof. start linked_list_create. Qed.
Lemma free_previous_nodes_ok start m r m' :
  inv m → free_previous_nodes start m = Ret (r, m') → inv m'.
Proof. start_nodes free_previous_nodes. Qed.
Lemma clone_nodes_ok list start previous m r m' :
  inv m → clone_nodes list start previous m = Ret (r, m') → inv m'.
Proof. start_nodes clone_nodes. Qed.
Lemma free_nodes_from_ok start m r m' :
  inv m → free_nodes_from start m = Ret (r, m') → inv m'.
Proof. start_nodes free_nodes_from. Qed.
Lemma node_equals_ok list node value size m r m' :
  inv m → node_equals list node value size m = Ret (r, m') → inv m'.
Proof. start node_equals. Qed.
Lemma node_and_previous_ok start index m r m' :
  inv m → node_and_previous start index m = Ret (r, m') → inv m'.
Proof. start node_and_previous. Qed.
Lemma reverse_loop_ok fuel p q m r m' :
  inv m → reverse_loop fuel p q m = Ret (r, m') → inv m'.
Proof.
  revert p q m. induction fuel as [|fuel IH]; intros p q m HP H;
    destruct q; cbn [reverse_loop] in H; pres.
Qed.
#[export] Hint Resolve free_previous_nodes_ok clone_nodes_ok free_nodes_from_ok
  node_equals_ok node_and_previous_ok reverse_loop_ok : pres.

Lemma linked_list_free_ok list m r m' :
  inv m → linked_list_free list m = Ret (r, m') → inv m'.
Proof. start linked_list_free. Qed.
Lemma linked_list_get_ok list index m r m' :
  inv m → linked_list_get list index m = Ret (r, m') → inv m'.
Proof. start_nodes linked_list_get. Qed.
Lemma linked_list_set_ok list index value size m r m' :
  inv m → linked_list_set list index value size m = Ret (r, m') → inv m'.
Proof. start_nodes linked_list_set. Qed.
Lemma linked_list_prepend_ok list value size m r m' :
  inv m → linked_list_prepend list value size m = Ret (r, m') → inv m'.
Proof. start linked_list_prepend. Qed.
Lemma linked_list_append_ok list value size m r m' :
  inv m → linked_list_append list value size m = Ret (r, m') → inv m'.
Proof. start linked_list_append. Qed.
Lemma linked_list_insert_ok list index value size m r m' :
  inv m → linked_list_insert list index value size m = Ret (r, m') → inv m'.
Proof. start linked_list_insert. Qed.
Lemma linked_list_remove_ok list index m r m' :
  inv m → linked_list_remove list index m = Ret (r, m') → inv m'.
Proof. unfold linked_list_remove. cbv zeta. intros. pres_nodes. Qed.
Lemma linked_list_pop_ok list index m r m' :
  inv m → linked_list_pop list index m = Ret (r, m') → inv m'.
Proof. unfold linked_list_pop. cbv zeta. intros. pres_nodes. Qed.
Lemma linked_list_clear_ok list m r m' :
  inv m → linked_list_clear list m = Ret (r, m') → inv m'.
Proof. start linked_list_clear. Qed.
Lemma linked_list_clone_ok list m r m' :
  inv m → linked_list_clone list m = Ret (r, m') → inv m'.
Proof. start linked_list_clone. Qed.
Lemma linked_list_join_ok list1 list2 m r m' :
  inv m → linked_list_join list1 list2 m = Ret (r, m') → inv m'.
Proof. start linked_list_join. Qed.
Lemma linked_list_resize_ok list size m r m' :
  inv m → linked_list_resize list size m = Ret (r, m') → inv m'.
Proof. unfold linked_list_resize. cbv zeta. intros. pres. Qed.
Lemma linked_list_reverse_ok list m r m' :
  inv m → linked_list_reverse list m = Ret (r, m') → inv m'.
Proof. start linked_list_reverse. Qed.
Lemma linked_list_includes_ok list value size m r m' :
  inv m → linked_list_includes list value size m = Ret (r, m') → inv m'.
Proof. start_nodes linked_list_includes. Qed.
Lemma linked_list_find_first_ok list start value size m r m' :
  inv m → linked_list_find_first list start value size m = Ret (r, m') → inv m'.
Proof. start_nodes linked_list_find_first. Qed.
Lemma linked_list_find_last_ok list start value size m r m' :
  inv m → linked_list_find_last list start value size m = Ret (r, m') → inv m'.
Proof. start_nodes linked_list_find_last. Qed.
Lemma linked_list_swap_ok list index1 index2 m r m' :
  inv m → linked_list_swap list index1 index2 m = Ret (r, m') → inv m'.
Proof. start linked_list_swap. Qed.
Lemma linked_list_iterator_create_ok list m r m' :
  inv m → linked_list_iterator_create list m = Ret (r, m') → inv m'.
Proof. start linked_list_iterator_create. Qed.
Lemma linked_list_iterator_next_ok it m r m' :
  inv m → linked_list_iterator_next it m = Ret (r, m') → inv m'.
Proof. start linked_list_iterator_next. Qed.
Lemma linked_list_iterator_rewind_ok it m r m' :
  inv m → linked_list_iterator_rewind it m = Ret (r, m') → inv m'.
Proof. start linked_list_iterator_rewind. Qed.
Lemma linked_list_iterator_free_ok it m r m' :
  inv m → linked_list_iterator_free it m = Ret (r, m') → inv m'.
Proof. start linked_list_iterator_free. Qed.

Section Sort.
Variable custom_sort : positive → addr → bool → C linked_list_result_t.
Hypothesis custom_sort_ok :
  ∀ f list ascending m r m',
    inv m → custom_sort f list ascending m = Ret (r, m') → inv m'.

Lemma linked_list_sort_ok list ascending m r m' :
  inv m → linked_list_sort custom_sort list ascending m = Ret (r, m') → inv m'.
Proof using custom_sort_ok. start linked_list_sort. Qed.

#[local] Hint Resolve linked_list_create_ok linked_list_free_ok linked_list_get_ok
  linked_list_set_ok linked_list_prepend_ok linked_list_append_ok linked_list_insert_ok
  linked_list_remove_ok linked_list_pop_ok linked_list_clear_ok linked_list_clone_ok
  linked_list_join_ok linked_list_resize_ok linked_list_reverse_ok linked_list_includes_ok
  linked_list_find_first_ok linked_list_find_last_ok linked_list_swap_ok
  linked_list_iterator_create_ok linked_list_iterator_next_ok
  linked_list_iterator_rewind_ok linked_list_iterator_free_ok linked_list_sort_ok : pres.

(** Every call keeps the invariant of the elements. *)
Lemma linked_run_ok list c m r m' :
  inv m → run custom_sort list c m = Ret (r, m') → inv m'.
Proof using custom_sort_ok.
  intros HP H. destruct c; unfold run, result_only in H; pres.
Qed.

End Sort.

End LinkedListInvariant.

(** What [linked_list_node_create] makes: a node whose element has the size
    it is given, with a data buffer exactly when it is given a value, and
    then one of that many bytes. *)
Lemma linked_list_node_create_makes
    (value : option bytes) (size : Z) (next : option addr)
    (m m' : LinkedList.memory) (node : addr) :
  LinkedList.linked_list_node_create value size next m
    = Ret ((LinkedList.LINKED_LIST_SUCCESS, Some node), m') →
  ∃ e, LinkedList.element_at (heap m') node = Some e
       ∧ LinkedList.size e = size
       ∧ (LinkedList.value e = None ↔ value = None)
       ∧ LinkedList.element_ok e.
Proof.
  unfold LinkedList.linked_list_node_create. intros H.
  inv_bind H. destruct a; [|inversion H]. cbn [negb] in H.
  inv_bind H. destruct a as [data|]; [|inversion H].
  inv_bind H. destruct a; [|inversion H]. cbn [negb] in H.
  repeat inv_bind H. inversion H. subst.
  repeat lazymatch goal with
         | Hn : new _ _ = Ret _ |- _ => unfold new in Hn; inversion Hn; subst; clear Hn
         end.
  assert (Hd : (data = None ↔ value = None)
               ∧ ∀ d, data = Some d → Z.of_nat (length d) = size).
  { destruct value as [v|].
    - inv_bind H1. destruct a; cbn [negb] in H1; [|inversion H1].
      inv_bind H1. inversion H1. split; [split; discriminate|].
      intros d [= <-].
      lazymatch goal with
      | Hm : lift _ _ = Ret _ |- _ =>
          apply lift_inv in Hm as [_ Hm]; eapply memcpy_length; exact Hm
      end.
    - inversion H1. split; [split; reflexivity|]. intros d [=]. }
  destruct Hd as [Hd Hlen].
  eexists. unfold LinkedList.element_at. cbn [heap brk].
  rewrite lookup_insert_eq. cbn [LinkedList.element].
  rewrite lookup_insert_ne by lia. rewrite lookup_insert_eq.
  split; [reflexivity|]. split; [reflexivity|]. split; [exact Hd | exact Hlen].
Qed.

(** * Claim about the elements *)

(** C8, as the code has it.  What holds of every element is that its data
    buffer, when there is one, has exactly as many bytes as the stored
    length.  Every public function of both containers keeps this: when it
    holds of the elements in memory before a call, and when the sorting
    routines of the caller keep it, it holds after every call that returns.
    Creation establishes it: the element that [list_element_create] or
    [linked_list_node_create] makes stores the size it is given, whether or
    not it is given a value, has no data buffer exactly when it is given no
    value, and has a buffer of that many bytes otherwise. *)
Theorem C8_elements_hold_as_many_bytes_as_their_size
    (sortA : positive → addr → bool → ArrayList.C ArrayList.list_result_t)
    (listA : option addr) (cA : ArrayList.call) (mA mA' : ArrayList.memory)
    (rA : ArrayList.list_result_t)
    (sortL : positive → addr → bool → LinkedList.C LinkedList.linked_list_result_t)
    (listL : option addr) (cL : LinkedList.call) (mL mL' : LinkedList.memory)
    (rL : LinkedList.linked_list_result_t) :
  (∀ f list ascending m r m',
     ArrayList.elements_ok m → sortA f list ascending m = Ret (r, m') →
     ArrayList.elements_ok m') →
  ArrayList.elements_ok mA →
  ArrayList.run sortA listA cA mA = Ret (rA, mA') →
  (∀ f list ascending m r m',
     LinkedList.elements_ok m → sortL f list ascending m = Ret (r, m') →
     LinkedList.elements_ok m') →
  LinkedList.elements_ok mL →
  LinkedList.run sortL listL cL mL = Ret (rL, mL') →
  ArrayList.elements_ok mA'
  ∧ LinkedList.elements_ok mL'
  ∧ (∀ value size m m' element,
       ArrayList.list_element_create value size m
         = Ret ((ArrayList.LIST_SUCCESS, Some element), m') →
       ∃ e, heap m' !! element = Some (ArrayList.OElement e)
            ∧ ArrayList.el_size e = size
            ∧ (ArrayList.el_value e = None ↔ value = None)
            ∧ ArrayList.element_ok e)
  ∧ (∀ value size next m m' node,
       LinkedList.linked_list_node_create value size next m
         = Ret ((LinkedList.LINKED_LIST_SUCCESS, Some node), m') →
       ∃ e, LinkedList.element_at (heap m') node = Some e
            ∧ LinkedList.size e = size
            ∧ (LinkedList.value e = None ↔ value = None)
            ∧ LinkedList.element_ok e).
Proof.
  intros HsA HA HrA HsL HL HrL. split; [|split; [|split]].
  - exact (ArrayListInvariant.run_ok sortA HsA listA cA mA rA mA' HA HrA).
  - exact (LinkedListInvariant.linked_run_ok sortL HsL listL cL mL rL mL' HL HrL).
  - intros value size m m' element. apply ArrayListInvariant.list_element_create_makes.
  - intros value size next m m' node. apply linked_list_node_create_makes.
Qed.

Module ElementSamples.

Lemma array_list_elements_ok : ArrayList.elements_ok ArrayListFacts.one_empty_list.
Proof.
  intros a o H. unfold ArrayListFacts.one_empty_list in H. cbn [heap] in H.
  apply lookup_singleton_Some in H as [_ <-]. exact I.
Defined.

Lemma linked_list_elements_ok : LinkedList.elements_ok LinkedListFacts.one_empty_list.
Proof.
  intros a o H. unfold LinkedListFacts.one_empty_list in H. cbn [heap] in H.
  apply lookup_singleton_Some in H as [_ <-]. exact I.
Defined.

End ElementSamples.

(** C8 at the append of two bytes to an empty array list and at the growth
    of an empty linked list to two nodes. *)
Lemma C8_witness :
  ArrayList.elements_ok
    (state_after (ArrayList.list_append (Some 1%positive) (Some [Byte.x01; Byte.x02]) 2)
       ArrayListFacts.one_empty_list)
  ∧ LinkedList.elements_ok
      (state_after (LinkedList.linked_list_resize (Some 1%positive) 2)
         LinkedListFacts.one_empty_list)
  ∧ (∀ value size m m' element,
       ArrayList.list_element_create value size m
         = Ret ((ArrayList.LIST_SUCCESS, Some element), m') →
       ∃ e, heap m' !! element = Some (ArrayList.OElement e)
            ∧ ArrayList.el_size e = size
            ∧ (ArrayList.el_value e = None ↔ value = None)
            ∧ ArrayList.element_ok e)
  ∧ (∀ value size next m m' node,
       LinkedList.linked_list_node_create value size next m
         = Ret ((LinkedList.LINKED_LIST_SUCCESS, Some node), m') →
       ∃ e, LinkedList.element_at (heap m') node = Some e
            ∧ LinkedList.size e = size
            ∧ (LinkedList.value e = None ↔ value = None)
            ∧ LinkedList.element_ok e).
Proof.
  apply (C8_elements_hold_as_many_bytes_as_their_size
           ArrayListFacts.no_custom_sort (Some 1%positive)
           (ArrayList.Append (Some [Byte.x01; Byte.x02]) 2)
           ArrayListFacts.one_empty_list _ ArrayList.LIST_SUCCESS
           LinkedListFacts.no_custom_sort (Some 1%positive)
           (LinkedList.Resize 2)
           LinkedListFacts.one_empty_list _ LinkedList.LINKED_LIST_SUCCESS).
  - intros f list ascending m r m' HP H. inversion H. subst. exact HP.
  - exact ElementSamples.array_list_elements_ok.
  - vm_compute. reflexivity.
  - intros f list ascending m r m' HP H. inversion H. subst. exact HP.
  - exact ElementSamples.linked_list_elements_ok.
  - vm_compute. reflexivity.
Defined.

(** The invariant of the specification fails on an element made without a
    value: [list_append(list, NULL, 4)] stores an element of length 4 with
    no data, and the node [linked_list_resize] adds to an empty list has an
    element of length 8 and no data. *)
Lemma C8_counterexample :
  (∃ (m' : ArrayList.memory) (l : ArrayList.list_t) (e : ArrayList.list_element_t),
     ArrayList.list_append (Some 1%positive) None 4 ArrayListFacts.one_empty_list
       = Ret (ArrayList.LIST_SUCCESS, m')
     ∧ heap m' !! 1%positive = Some (ArrayList.OList l)
     ∧ ArrayList.elements (heap m') l = [Some e]
     ∧ ArrayList.el_size e = 4
     ∧ ArrayList.el_value e = None
     ∧ ¬ (ArrayList.el_size e = 0 ↔ ArrayList.el_value e = None))
  ∧ (∃ (m' : LinkedList.memory) (l : LinkedList.linked_list_t) (a : addr)
       (e : LinkedList.linked_list_element_t),
       LinkedList.linked_list_resize (Some 1%positive) 1 LinkedListFacts.one_empty_list
         = Ret (LinkedList.LINKED_LIST_SUCCESS, m')
       ∧ heap m' !! 1%positive = Some (LinkedList.OList l)
       ∧ LinkedList.head l = Some a
       ∧ LinkedList.element_at (heap m') a = Some e
       ∧ LinkedList.size e = 8
       ∧ LinkedList.value e = None
       ∧ ¬ (LinkedList.size e = 0 ↔ LinkedList.value e = None)).
Proof.
  split.
  - eexists _, _, _. split; [vm_compute; reflexivity|].
    split; [vm_compute; reflexivity|]. split; [vm_compute; reflexivity|].
    split; [reflexivity|]. split; [reflexivity|].
    cbn. intros [_ H]. specialize (H eq_refl). discriminate.
  - eexists _, _, _, _. split; [vm_compute; reflexivity|].
    split; [vm_compute; reflexivity|]. split; [reflexivity|].
    split; [vm_compute; reflexivity|].
    split; [reflexivity|]. split; [reflexivity|].
    cbn. intros [_ H]. specialize (H eq_refl). discriminate.
Qed.


(** * The merge sort of the linked list, on the list of its nodes *)

(** The sort relinks the nodes of the list and touches nothing else.  This
    module describes what it does to the sequence of the nodes, given the
    choice [takes_first a b] the merge makes between the node [a] of the
    first half and the node [b] of the second. *)
Module MergeModel.

(** [a] stands before [b] in a list. *)
Definition before (a b : addr) (l : list addr) : Prop :=
  ∃ l1 l2 l3, l = l1 ++ a :: l2 ++ b :: l3.

Lemma before_cons (a b c : addr) (l : list addr) : before a b l → before a b (c :: l).
Proof. intros (l1 & l2 & l3 & ->). exists (c :: l1), l2, l3. reflexivity. Qed.

Lemma before_head (a b : addr) (l : list addr) : b ∈ l → before a b (a :: l).
Proof.
  intros H. apply list_elem_of_split in H as (l2 & l3 & ->).
  exists [], l2, l3. reflexivity.
Qed.

Lemma before_cons_inv (a b c : addr) (l : list addr) :
  before a b (c :: l) → (a = c ∧ b ∈ l) ∨ before a b l.
Proof.
  intros (l1 & l2 & l3 & H). destruct l1 as [|c' l1]; simpl in H.
  - injection H as -> ->. left. split; [reflexivity|]. set_solver.
  - injection H as -> ->. right. exists l1, l2, l3. reflexivity.
Qed.

Lemma before_elem (a b : addr) (l : list addr) : before a b l → a ∈ l ∧ b ∈ l.
Proof. intros (l1 & l2 & l3 & ->). set_solver. Qed.

Lemma before_app_l (a b : addr) (xs ys : list addr) : before a b xs → before a b (xs ++ ys).
Proof.
  intros (l1 & l2 & l3 & ->). exists l1, l2, (l3 ++ ys).
  rewrite <- !app_assoc. simpl. rewrite <- app_assoc. reflexivity.
Qed.

Lemma before_app_r (a b : addr) (xs ys : list addr) : before a b ys → before a b (xs ++ ys).
Proof.
  intros (l1 & l2 & l3 & ->). exists (xs ++ l1), l2, l3.
  rewrite <- app_assoc. reflexivity.
Qed.

Lemma before_app_inv (a b : addr) (xs ys : list addr) :
  before a b (xs ++ ys) → before a b xs ∨ before a b ys ∨ (a ∈ xs ∧ b ∈ ys).
Proof.
  induction xs as [|x xs IH]; simpl; intros H.
  - right. left. exact H.
  - apply before_cons_inv in H as [[-> Hb] | H].
    + apply elem_of_app in Hb as [Hb | Hb].
      * left. apply before_head. exact Hb.
      * right. right. split; [set_solver | exact Hb].
    + destruct (IH H) as [H1 | [H2 | [Ha Hb]]].
      * left. apply before_cons. exact H1.
      * right. left. exact H2.
      * right. right. split; [set_solver | exact Hb].
Qed.

Section Model.
Variable takes_first : addr → addr → bool.

(** What [merge] makes of two chains. *)
Fixpoint merge_lists (xs ys : list addr) {struct xs} : list addr :=
  match xs with
  | [] => ys
  | x :: xs' =>
      (fix into (ys : list addr) : list addr :=
         match ys with
         | [] => xs
         | y :: ys' =>
             if takes_first x y then x :: merge_lists xs' ys
             else y :: into ys'
         end) ys
  end.

(** What [merge_split] makes of a chain: [ss] is the chain from
    [singleStep] on, [ds] the chain from [doubleStep] on. *)
Fixpoint split_list (ss ds : list addr) {struct ds} : list addr * list addr :=
  match ds with
  | _ :: _ :: ds' =>
      match ss with
      | s :: ss' => let '(xs, ys) := split_list ss' ds' in (s :: xs, ys)
      | [] => ([], [])
      end
  | _ =>
      match ss with
      | s :: ss' => ([s], ss')
      | [] => ([], [])
      end
  end.

(** What [merge_sort] makes of a chain; [fuel] bounds the depth. *)
Fixpoint merge_sort_list (fuel : nat) (ns : list addr) : list addr :=
  match ns with
  | [] => []
  | [a] => [a]
  | a :: rest =>
      match fuel with
      | O => ns
      | S fuel' =>
          let '(xs, ys) := split_list ns rest in
          merge_lists (merge_sort_list fuel' xs) (merge_sort_list fuel' ys)
      end
  end.

Definition le (a b : addr) : Prop := takes_first a b = true.

Lemma merge_lists_nil_r (xs : list addr) : merge_lists xs [] = xs.
Proof. destruct xs; reflexivity. Qed.

Lemma merge_lists_cons (x y : addr) (xs ys : list addr) :
  merge_lists (x :: xs) (y :: ys)
  = if takes_first x y then x :: merge_lists xs (y :: ys)
    else y :: merge_lists (x :: xs) ys.
Proof. reflexivity. Qed.

Lemma merge_lists_perm (xs ys : list addr) : merge_lists xs ys ≡ₚ xs ++ ys.
Proof.
  revert ys. induction xs as [|x xs IHx]; intros ys; [reflexivity|].
  induction ys as [|y ys IHy].
  - rewrite merge_lists_nil_r, app_nil_r. reflexivity.
  - rewrite merge_lists_cons. destruct (takes_first x y).
    + rewrite IHx. reflexivity.
    + rewrite IHy. rewrite <- Permutation_middle. reflexivity.
Qed.

(** The merge keeps the order inside each of its two arguments. *)
Lemma merge_lists_before_l (a b : addr) (xs ys : list addr) :
  before a b xs → before a b (merge_lists xs ys).
Proof.
  revert ys. induction xs as [|x xs IHx]; intros ys H.
  - destruct H as (l1 & l2 & l3 & H). destruct l1; discriminate.
  - induction ys as [|y ys IHy]; [rewrite merge_lists_nil_r; exact H|].
    rewrite merge_lists_cons. destruct (takes_first x y).
    + apply before_cons_inv in H as [[-> Hb] | H].
      * apply before_head. rewrite merge_lists_perm. set_solver.
      * apply before_cons. apply IHx. exact H.
    + apply before_cons. exact IHy.
Qed.

Lemma merge_lists_before_r (a b : addr) (xs ys : list addr) :
  before a b ys → before a b (merge_lists xs ys).
Proof.
  revert ys. induction xs as [|x xs IHx]; intros ys H; [exact H|].
  induction ys as [|y ys IHy].
  - destruct H as (l1 & l2 & l3 & H). destruct l1; discriminate.
  - rewrite merge_lists_cons. destruct (takes_first x y).
    + apply before_cons. apply IHx. exact H.
    + apply before_cons_inv in H as [[-> Hb] | H].
      * apply before_head. rewrite merge_lists_perm. set_solver.
      * apply before_cons. apply IHy. exact H.
Qed.

(** The nodes the comparison is known on: there it is total and
    transitive. *)
Variable nodes : list addr.
Hypothesis le_total : ∀ a b, a ∈ nodes → b ∈ nodes → le a b ∨ le b a.
Hypothesis le_trans : ∀ a b c, a ∈ nodes → b ∈ nodes → c ∈ nodes → le a b → le b c → le a c.

Lemma merge_lists_sorted (xs ys : list addr) :
  xs ⊆ nodes → ys ⊆ nodes →
  StronglySorted le xs → StronglySorted le ys →
  StronglySorted le (merge_lists xs ys).
Proof.
  revert ys. induction xs as [|x xs IHx]; intros ys Hxs Hys Sx Sy; [exact Sy|].
  induction ys as [|y ys IHy]; [rewrite merge_lists_nil_r; exact Sx|].
  apply StronglySorted_inv in Sx as Sx'. destruct Sx' as [Sx' Fx].
  apply StronglySorted_inv in Sy as Sy'. destruct Sy' as [Sy' Fy].
  assert (Hx : x ∈ nodes) by set_solver.
  assert (Hy : y ∈ nodes) by set_solver.
  rewrite merge_lists_cons. destruct (takes_first x y) eqn:E.
  - constructor.
    + apply IHx; [set_solver | exact Hys | exact Sx' | exact Sy].
    + rewrite merge_lists_perm. apply Forall_app. split; [exact Fx|].
      constructor; [exact E|].
      rewrite list.Forall_forall in Fy |- *. intros z Hz.
      apply (le_trans x y z); [exact Hx | exact Hy | | exact E | apply Fy; exact Hz].
      apply Hys. right. exact Hz.
  - assert (Hyx : le y x).
    { destruct (le_total x y Hx Hy) as [H | H]; [unfold le in H; congruence | exact H]. }
    constructor.
    + apply IHy; [set_solver | exact Sy'].
    + rewrite merge_lists_perm. apply Forall_app. split; [|exact Fy].
      constructor; [exact Hyx|].
      rewrite list.Forall_forall in Fx |- *. intros z Hz.
      apply (le_trans y x z); [exact Hy | exact Hx | | exact Hyx | apply Fx; exact Hz].
      apply Hxs. right. exact Hz.
Qed.

(** Across the two arguments: a node of the first that may go first stays
    before a node of the second. *)
Lemma merge_lists_before_across (a b : addr) (xs ys : list addr) :
  xs ⊆ nodes → ys ⊆ nodes →
  StronglySorted le xs →
  a ∈ xs → b ∈ ys → le a b →
  before a b (merge_lists xs ys).
Proof.
  revert ys. induction xs as [|x xs IHx]; intros ys Hxs Hys Sx Ha Hb Hab; [set_solver|].
  induction ys as [|y ys IHy]; [set_solver|].
  apply StronglySorted_inv in Sx as Sx'. destruct Sx' as [Sx' Fx].
  rewrite merge_lists_cons. destruct (takes_first x y) eqn:E.
  - apply elem_of_cons in Ha as [-> | Ha].
    + apply before_head. rewrite merge_lists_perm. set_solver.
    + apply before_cons. apply IHx; [set_solver | exact Hys | exact Sx' | exact Ha | exact Hb | exact Hab].
  - assert (Hne : b ≠ y).
    { intros ->. apply elem_of_cons in Ha as [-> | Ha].
      - unfold le in Hab. congruence.
      - assert (le x y); [|unfold le in *; congruence].
        apply (le_trans x a y); [set_solver | set_solver | set_solver | | exact Hab].
        rewrite list.Forall_forall in Fx. apply Fx. exact Ha. }
    apply before_cons. apply IHy; [set_solver | set_solver].
Qed.

(** The two halves [merge_split] makes of a chain of two nodes or more:
    none is empty, and together they are the chain. *)
Lemma list_ind_by_two {A} (P : list A → Prop) :
  P [] → (∀ x, P [x]) → (∀ x y l, P l → P (x :: y :: l)) → ∀ l, P l.
Proof.
  intros H0 H1 H2. fix IH 1. intros [|x [|y l]]; [exact H0 | apply H1 | apply H2, IH].
Qed.

Lemma split_list_spec (ds ss xs ys : list addr) :
  (length ds < length ss)%nat →
  split_list ss ds = (xs, ys) →
  xs ++ ys = ss ∧ length xs = S (length ds / 2).
Proof.
  revert ss xs ys. induction ds as [|d|d1 d2 ds IH] using list_ind_by_two;
    intros ss xs ys Hlen H.
  - destruct ss as [|s ss]; [simpl in Hlen; lia|]. injection H as <- <-. auto.
  - destruct ss as [|s ss]; [simpl in Hlen; lia|]. injection H as <- <-. auto.
  - destruct ss as [|s ss]; [simpl in Hlen; lia|]. cbn [split_list] in H.
    destruct (split_list ss ds) as [xs' ys'] eqn:E. injection H as <- <-.
    destruct (IH ss xs' ys' ltac:(simpl in Hlen; lia) E) as [Happ Hl].
    split; [simpl; rewrite Happ; reflexivity|].
    cbn [length]. rewrite Hl.
    change (S (S (length ds))) with (1 * 2 + length ds)%nat.
    rewrite Nat.div_add_l by lia. reflexivity.
Qed.

Lemma split_list_halves (a b : addr) (rest xs ys : list addr) :
  split_list (a :: b :: rest) (b :: rest) = (xs, ys) →
  xs ++ ys = a :: b :: rest
  ∧ (0 < length xs < length (a :: b :: rest))%nat
  ∧ (0 < length ys < length (a :: b :: rest))%nat.
Proof.
  intros H. apply split_list_spec in H as [Happ Hl]; [|simpl; lia].
  split; [exact Happ|].
  assert (Hlen : (length xs + length ys = length (a :: b :: rest))%nat)
    by (rewrite <- Happ, length_app; reflexivity).
  cbn [length] in *.
  assert (S (length rest) / 2 < S (length rest))%nat.
  { apply Nat.Div0.div_lt_upper_bound. lia. }
  lia.
Qed.

Lemma merge_sort_list_perm (fuel : nat) (ns : list addr) :
  merge_sort_list fuel ns ≡ₚ ns.
Proof.
  revert ns. induction fuel as [|fuel IH]; intros [|a [|b rest]]; try reflexivity.
  cbn [merge_sort_list].
  destruct (split_list (a :: b :: rest) (b :: rest)) as [xs ys] eqn:E.
  apply split_list_halves in E as (Happ & _ & _).
  rewrite merge_lists_perm, !IH, Happ. reflexivity.
Qed.

Lemma merge_sort_list_sorted (fuel : nat) (ns : list addr) :
  (length ns <= fuel)%nat →
  ns ⊆ nodes →
  StronglySorted le (merge_sort_list fuel ns).
Proof.
  revert ns. induction fuel as [|fuel IH]; intros [|a [|b rest]] Hlen Hns;
    try (simpl in Hlen; lia); try (cbn [merge_sort_list]; repeat constructor).
  cbn [merge_sort_list].
  destruct (split_list (a :: b :: rest) (b :: rest)) as [xs ys] eqn:E.
  apply split_list_halves in E as (Happ & Hx & Hy).
  assert (xs ⊆ nodes ∧ ys ⊆ nodes) as [Hxs Hys].
  { rewrite <- Happ in Hns. split; intros z Hz; apply Hns, elem_of_app; auto. }
  apply merge_lists_sorted.
  - intros z Hz. apply Hxs. rewrite <- (merge_sort_list_perm fuel xs). exact Hz.
  - intros z Hz. apply Hys. rewrite <- (merge_sort_list_perm fuel ys). exact Hz.
  - apply IH; [lia | exact Hxs].
  - apply IH; [lia | exact Hys].
Qed.

(** The sort keeps a node before every later node it may go before: it
    sorts, and it keeps the order of the nodes that compare equal. *)
Lemma merge_sort_list_before (fuel : nat) (ns : list addr) (a b : addr) :
  (length ns <= fuel)%nat →
  ns ⊆ nodes →
  before a b ns → le a b →
  before a b (merge_sort_list fuel ns).
Proof.
  revert ns. induction fuel as [|fuel IH]; intros [|x [|y rest]] Hlen Hns Hb Hab;
    try (simpl in Hlen; lia); try exact Hb.
  cbn [merge_sort_list].
  destruct (split_list (x :: y :: rest) (y :: rest)) as [xs ys] eqn:E.
  apply split_list_halves in E as (Happ & Hx & Hy).
  assert (xs ⊆ nodes ∧ ys ⊆ nodes) as [Hxs Hys].
  { rewrite <- Happ in Hns. split; intros z Hz; apply Hns, elem_of_app; auto. }
  rewrite <- Happ in Hb. apply before_app_inv in Hb as [Hb | [Hb | [Ha Hb]]].
  - apply merge_lists_before_l. apply IH; [lia | exact Hxs | exact Hb | exact Hab].
  - apply merge_lists_before_r. apply IH; [lia | exact Hys | exact Hb | exact Hab].
  - apply merge_lists_before_across.
    + intros z Hz. apply Hxs. rewrite <- (merge_sort_list_perm fuel xs). exact Hz.
    + intros z Hz. apply Hys. rewrite <- (merge_sort_list_perm fuel ys). exact Hz.
    + apply merge_sort_list_sorted; [lia | exact Hxs].
    + rewrite merge_sort_list_perm. exact Ha.
    + rewrite merge_sort_list_perm. exact Hb.
    + exact Hab.
Qed.

End Model.

End MergeModel.


(** * The merge sort of the linked list, on the heap *)

Module LinkedListSort.
Import LinkedList MergeModel.

(** The memory with another heap. *)
Definition with_heap (m : memory) (h : gmap addr object) : memory :=
  Mem h (brk m) (alloc_count m) (alloc_ok m).

(** [p->next = q] on a heap. *)
Definition relink (h : gmap addr object) (a : addr) (n : linked_list_node_t)
    (q : option addr) : gmap addr object :=
  <[a := ONode {| next := q; element := element n |}]> h.

Lemma with_heap_same (m : memory) : with_heap m (heap m) = m.
Proof. destruct m; reflexivity. Qed.

Lemma load_node_eq (m : memory) (a : addr) (n : linked_list_node_t) :
  heap m !! a = Some (ONode n) → load_node (Some a) m = Ret (n, m).
Proof. intros H. unfold load_node. rewrite bind_eq. unfold load. rewrite H. reflexivity. Qed.

Lemma load_element_eq (m : memory) (a : addr) (e : linked_list_element_t) :
  heap m !! a = Some (OElement e) → load_element (Some a) m = Ret (e, m).
Proof. intros H. unfold load_element. rewrite bind_eq. unfold load. rewrite H. reflexivity. Qed.

Lemma write_next_eq (m : memory) (a : addr) (n : linked_list_node_t) (q : option addr) :
  heap m !! a = Some (ONode n) →
  write_next (Some a) q m = Ret (tt, with_heap m (relink (heap m) a n q)).
Proof.
  intros H. unfold write_next. rewrite (bind_Ret _ _ _ _ _ (load_node_eq _ _ _ H)).
  unfold store. rewrite H. reflexivity.
Qed.

(** ** Chains *)

Lemma chain_head (h : gmap addr object) (p : option addr) (ns : list addr) :
  chain h p ns → p = hd_error ns.
Proof. intros []; reflexivity. Qed.

Lemma chain_det (h : gmap addr object) (p : option addr) (ns ns' : list addr) :
  chain h p ns → chain h p ns' → ns = ns'.
Proof.
  intros H. revert ns'. induction H as [|a n ns Ha _ IH]; intros ns' H'.
  - inversion H'. reflexivity.
  - inversion H' as [|a' n' ns'' Ha' Hc']; subst.
    rewrite Ha in Ha'. injection Ha' as <-. f_equal. apply IH, Hc'.
Qed.

Lemma chain_suffix (h : gmap addr object) (p : option addr) (l1 l2 : list addr) (a : addr) :
  chain h p (l1 ++ a :: l2) → chain h (Some a) (a :: l2).
Proof.
  revert p. induction l1 as [|x l1 IH]; intros p H.
  - inversion H; subst. exact H.
  - inversion H; subst. eapply IH; eassumption.
Qed.

Lemma chain_NoDup (h : gmap addr object) (p : option addr) (ns : list addr) :
  chain h p ns → NoDup ns.
Proof.
  induction 1 as [|a n ns Ha Hc IH]; constructor; [|exact IH].
  intros Hin. apply list_elem_of_split in Hin as (l1 & l2 & ->).
  pose proof (chain_suffix _ _ _ _ _ Hc) as Hs.
  pose proof (chain_det _ _ _ _ Hs (chain_cons _ _ _ _ Ha Hc)) as E.
  apply (f_equal length) in E. rewrite !length_cons, length_app, length_cons in E. lia.
Qed.

Lemma chain_nodes (h : gmap addr object) (p : option addr) (ns : list addr) (a : addr) :
  chain h p ns → a ∈ ns → ∃ n, h !! a = Some (ONode n).
Proof.
  induction 1 as [|x n ns Hx Hc IH]; intros Hin.
  - inversion Hin.
  - apply elem_of_cons in Hin as [->|Hin]; eauto.
Qed.

Lemma chain_unchanged (h h' : gmap addr object) (p : option addr) (ns : list addr) :
  chain h p ns → (∀ a, a ∈ ns → h' !! a = h !! a) → chain h' p ns.
Proof.
  induction 1 as [|a n ns Ha Hc IH]; intros Hsame; [constructor|].
  apply (chain_cons _ a n).
  - rewrite Hsame; [exact Ha | left].
  - apply IH. intros b Hb. apply Hsame. right. exact Hb.
Qed.

Lemma chain_relink (h : gmap addr object) (p : option addr) (ns : list addr)
    (a : addr) (n : linked_list_node_t) (q : option addr) :
  chain h p ns → a ∉ ns → chain (relink h a n q) p ns.
Proof.
  intros Hc Ha. apply (chain_unchanged h); [exact Hc|].
  intros b Hb. unfold relink. apply lookup_insert_ne. intros ->. contradiction.
Qed.

(** No chain of a heap is longer than the heap. *)
Lemma chain_length (h : gmap addr object) (p : option addr) (ns : list addr) :
  chain h p ns → (length ns <= stdpp.base.size h)%nat.
Proof.
  intros Hc. pose proof (chain_NoDup _ _ _ Hc) as Hnd.
  assert (Hsub : list_to_set ns ⊆ dom h).
  { intros a Ha. apply elem_of_list_to_set in Ha.
    destruct (chain_nodes _ _ _ _ Hc Ha) as [n Hn]. apply elem_of_dom. eauto. }
  apply subseteq_size in Hsub. rewrite size_list_to_set in Hsub by exact Hnd.
  rewrite size_dom in Hsub. exact Hsub.
Qed.

(** Cutting a chain after the node [s]: the chain up to [s], and the chain
    that followed it. *)
Lemma chain_after (h : gmap addr object) (p : option addr) (xs ys : list addr) (s : addr) :
  chain h p (xs ++ ys) → last xs = Some s →
  ∃ n, h !! s = Some (ONode n) ∧ chain h (next n) ys.
Proof.
  revert p. induction xs as [|x xs IH]; intros p Hc Hl; [discriminate|].
  inversion Hc as [|a n ns Ha Hc']; subst.
  destruct xs as [|x' xs].
  - injection Hl as <-. eauto.
  - apply (IH (next n)); [exact Hc' | exact Hl].
Qed.

Lemma chain_cut (h : gmap addr object) (p : option addr) (xs ys : list addr)
    (s : addr) (n : linked_list_node_t) :
  chain h p (xs ++ ys) → last xs = Some s → h !! s = Some (ONode n) →
  chain (relink h s n None) p xs.
Proof.
  intros Hc. pose proof (chain_NoDup _ _ _ Hc) as Hnd. revert p Hc Hnd.
  induction xs as [|x xs IH]; intros p Hc Hnd Hl Hs; [discriminate|].
  inversion Hc as [|a nx ns Ha Hc']; subst.
  change (NoDup (x :: (xs ++ ys))) in Hnd.
  apply NoDup_cons in Hnd as [Hx Hnd].
  destruct xs as [|x' xs].
  - injection Hl as <-. rewrite Ha in Hs. injection Hs as <-.
    apply (chain_cons _ x {| next := None; element := element nx |}).
    + apply lookup_insert_eq.
    + constructor.
  - assert (x ≠ s).
    { intros ->. apply Hx. apply elem_of_app. left.
      apply last_Some_elem_of. exact Hl. }
    apply (chain_cons _ x nx).
    + unfold relink. rewrite lookup_insert_ne by congruence. exact Ha.
    + apply IH; assumption.
Qed.

(** ** What the sort leaves alone *)

(** The sort writes the [next] field of nodes and nothing else. *)
Definition relinked (h h' : gmap addr object) : Prop :=
  ∀ a, h' !! a = h !! a
       ∨ ∃ n n', h !! a = Some (ONode n) ∧ h' !! a = Some (ONode n')
                 ∧ element n' = element n.

Definition unchanged_outside (ns : list addr) (h h' : gmap addr object) : Prop :=
  ∀ a, a ∉ ns → h' !! a = h !! a.

Lemma relinked_refl (h : gmap addr object) : relinked h h.
Proof. intros a. left. reflexivity. Qed.

Lemma relinked_trans (h1 h2 h3 : gmap addr object) :
  relinked h1 h2 → relinked h2 h3 → relinked h1 h3.
Proof.
  intros H12 H23 a.
  destruct (H12 a) as [E12 | (n & n' & Hn & Hn' & He)];
    destruct (H23 a) as [E23 | (k & k' & Hk & Hk' & Hke)].
  - left. congruence.
  - right. exists k, k'. repeat split; congruence.
  - right. exists n, n'. repeat split; congruence.
  - right. exists n, k'. repeat split; congruence.
Qed.

Lemma relinked_relink (h : gmap addr object) (a : addr) (n : linked_list_node_t)
    (q : option addr) :
  h !! a = Some (ONode n) → relinked h (relink h a n q).
Proof.
  intros Ha b. unfold relink. destruct (decide (a = b)) as [<-|Hne].
  - right. eexists n, _. rewrite lookup_insert_eq. repeat split. exact Ha.
  - left. apply lookup_insert_ne. exact Hne.
Qed.

Lemma unchanged_outside_refl (ns : list addr) (h : gmap addr object) :
  unchanged_outside ns h h.
Proof. intros a _. reflexivity. Qed.

Lemma unchanged_outside_trans (ns1 ns2 ns : list addr) (h1 h2 h3 : gmap addr object) :
  unchanged_outside ns1 h1 h2 → unchanged_outside ns2 h2 h3 →
  ns1 ⊆ ns → ns2 ⊆ ns →
  unchanged_outside ns h1 h3.
Proof.
  intros H12 H23 S1 S2 a Ha. rewrite H23, H12; [reflexivity| |];
    intros Hin; apply Ha; auto.
Qed.

Lemma unchanged_outside_relink (h : gmap addr object) (a : addr) (n : linked_list_node_t)
    (q : option addr) (ns : list addr) :
  a ∈ ns → unchanged_outside ns h (relink h a n q).
Proof.
  intros Ha b Hb. unfold relink. apply lookup_insert_ne. intros ->. contradiction.
Qed.

Lemma chain_outside (ns xs : list addr) (h h' : gmap addr object) (p : option addr) :
  unchanged_outside ns h h' → chain h p xs → (∀ a, a ∈ xs → a ∉ ns) → chain h' p xs.
Proof. intros Hu Hc Hd. apply (chain_unchanged h); [exact Hc|]. intros a Ha. apply Hu, Hd, Ha. Qed.

Lemma element_at_relinked (h h' : gmap addr object) (a : addr) (x : linked_list_element_t) :
  relinked h h' → element_at h a = Some x → element_at h' a = Some x.
Proof.
  intros Hr. unfold element_at.
  destruct (h !! a) as [[|n| |]|] eqn:Ha; try discriminate.
  destruct (element n) as [e|] eqn:He; try discriminate.
  destruct (h !! e) as [[| |y|]|] eqn:Hy; try discriminate.
  intros H.
  assert (Ha' : ∃ n', h' !! a = Some (ONode n') ∧ element n' = Some e).
  { destruct (Hr a) as [E | (k & k' & Hk & Hk' & Hke)].
    - exists n. rewrite E. auto.
    - exists k'. split; [exact Hk'|]. congruence. }
  destruct Ha' as (n' & -> & ->).
  destruct (Hr e) as [E | (k & k' & Hk & Hk' & Hke)]; [|congruence].
  rewrite E, Hy. exact H.
Qed.

(** ** The comparison the merge makes *)

(** [int8_t equality = equalityFunction(a->element->value,
    b->element->value, a->element->size)] for two nodes of a heap. *)
Definition equality_of_nodes (f : linked_list_custom_equality_function_t)
    (h : gmap addr object) (a b : addr) : option Z :=
  match element_at h a, element_at h b with
  | Some e1, Some e2 =>
      match f (value e1) (value e2) (size e1) with
      | Ret c => Some (int8 c)
      | _ => None
      end
  | _, _ => None
  end.

(** [ascending ? (equality <= 0) : (equality >= 0)] *)
Definition goes_first (ascending : bool) (equality : Z) : bool :=
  if ascending then equality <=? 0 else equality >=? 0.

Lemma equality_of_nodes_relinked f (h h' : gmap addr object) (a b : addr) (c : Z) :
  relinked h h' → equality_of_nodes f h a b = Some c → equality_of_nodes f h' a b = Some c.
Proof.
  intros Hr. unfold equality_of_nodes.
  destruct (element_at h a) as [e1|] eqn:E1; try discriminate.
  destruct (element_at h b) as [e2|] eqn:E2; try discriminate.
  rewrite (element_at_relinked _ _ _ _ Hr E1), (element_at_relinked _ _ _ _ Hr E2).
  auto.
Qed.

Lemma take_from_first_half_eq f (ascending : bool) (m : memory) (a b : addr) (c : Z) :
  equality_of_nodes f (heap m) a b = Some c →
  take_from_first_half f ascending (Some a) (Some b) m = Ret (goes_first ascending c, m).
Proof.
  unfold equality_of_nodes, element_at.
  destruct (heap m !! a) as [[|n1| |]|] eqn:Ha; try discriminate.
  destruct (element n1) as [p1|] eqn:Hp1; try discriminate.
  destruct (heap m !! p1) as [[| |e1|]|] eqn:He1; try discriminate.
  destruct (heap m !! b) as [[|n2| |]|] eqn:Hb; try discriminate.
  destruct (element n2) as [p2|] eqn:Hp2; try discriminate.
  destruct (heap m !! p2) as [[| |e2|]|] eqn:He2; try discriminate.
  destruct (f (value e1) (value e2) (size e1)) as [z| |] eqn:Hf; try discriminate.
  intros H. injection H as <-.
  unfold take_from_first_half.
  rewrite (bind_Ret _ _ _ _ _ (load_node_eq _ _ _ Ha)), Hp1.
  rewrite (bind_Ret _ _ _ _ _ (load_element_eq _ _ _ He1)).
  rewrite (bind_Ret _ _ _ _ _ (load_node_eq _ _ _ Hb)), Hp2.
  rewrite (bind_Ret _ _ _ _ _ (load_element_eq _ _ _ He2)).
  rewrite Hf. reflexivity.
Qed.

(** ** The traversals *)

Lemma last_node_spec (fuel : nat) (m : memory) (p : option addr) (ns : list addr) :
  chain (heap m) p ns → (length ns <= S fuel)%nat →
  last_node fuel p m = Ret (last ns, m).
Proof.
  revert p ns. induction fuel as [|fuel IH]; intros p ns Hc Hlen;
    (inversion Hc as [|a n ns' Ha Hc']; subst; [reflexivity|]);
    cbn [last_node]; rewrite (bind_Ret _ _ _ _ _ (load_node_eq _ _ _ Ha));
    revert Hc'; destruct (next n) as [b|]; intros Hc';
    try (inversion Hc'; subst; reflexivity).
  - inversion Hc'; subst. simpl in Hlen. lia.
  - rewrite (IH _ _ Hc') by (simpl in Hlen; lia).
    inversion Hc'; subst. reflexivity.
Qed.

Lemma merge_split_loop_spec (m : memory) (ds : list addr) :
  ∀ (ss : list addr) (fuel : nat) (p d : option addr),
  chain (heap m) p ss → chain (heap m) d ds →
  (length ds < length ss)%nat → (length ds <= S fuel)%nat →
  merge_split_loop fuel p d m = Ret (last (split_list ss ds).1, m).
Proof.
  induction ds as [|d1|d1 d2 ds IH] using list_ind_by_two;
    intros ss fuel p d Hs Hd Hlt Hfuel.
  - inversion Hd; subst. inversion Hs; subst; [simpl in Hlt; lia|].
    destruct fuel; reflexivity.
  - inversion Hd as [|a n1 ns' H1 Hd']; subst.
    inversion Hs; subst; [simpl in Hlt; lia|].
    revert Hd'. destruct fuel; cbn [merge_split_loop];
      rewrite (bind_Ret _ _ _ _ _ (load_node_eq _ _ _ H1));
      destruct (next n1); intros Hd'; inversion Hd'; reflexivity.
  - inversion Hd as [|a n1 ns' H1 Hd']; subst.
    inversion Hs as [|s n_s ss' H_s Hs']; subst; [simpl in Hlt; lia|].
    destruct fuel as [|fuel]; [simpl in Hfuel; lia|].
    cbn [merge_split_loop]. rewrite (bind_Ret _ _ _ _ _ (load_node_eq _ _ _ H1)).
    revert Hd'. destruct (next n1) as [d2'|]; intros Hd'; [|inversion Hd'].
    inversion Hd' as [|a n2 ns' H2 Hd'']; subst.
    rewrite (bind_Ret _ _ _ _ _ (load_node_eq _ _ _ H_s)).
    rewrite (bind_Ret _ _ _ _ _ (load_node_eq _ _ _ H2)).
    rewrite (IH ss' fuel _ _ Hs' Hd'') by (simpl in Hlt, Hfuel; lia).
    cbn [split_list].
    destruct (split_list ss' ds) as [xs' ys'] eqn:E.
    apply split_list_spec in E as [_ Hl]; [|simpl in Hlt; lia].
    destruct xs'; [discriminate|]. reflexivity.
Qed.

Lemma merge_split_spec (fuel : nat) (m : memory) (a b : addr) (rest xs ys : list addr) :
  chain (heap m) (Some a) (a :: b :: rest) →
  (length (a :: b :: rest) <= S (S fuel))%nat →
  split_list (a :: b :: rest) (b :: rest) = (xs, ys) →
  ∃ m', merge_split fuel (Some a) m = Ret ((hd_error xs, hd_error ys), m')
        ∧ chain (heap m') (hd_error xs) xs
        ∧ chain (heap m') (hd_error ys) ys
        ∧ relinked (heap m) (heap m')
        ∧ unchanged_outside (a :: b :: rest) (heap m) (heap m').
Proof.
  intros Hc Hfuel E.
  pose proof (chain_NoDup _ _ _ Hc) as Hnd.
  destruct (split_list_halves _ _ _ _ _ E) as (Happ & Hx & Hy).
  inversion Hc as [|a' na ns' Ha Hc']; subst a' ns'.
  unfold merge_split. rewrite (bind_Ret _ _ _ _ _ (load_node_eq _ _ _ Ha)).
  assert (Hloop : merge_split_loop fuel (Some a) (next na) m = Ret (last xs, m)).
  { rewrite (merge_split_loop_spec m (b :: rest) (a :: b :: rest) fuel _ _ Hc Hc')
      by (simpl in Hfuel |- *; lia).
    rewrite E. reflexivity. }
  destruct (next na) as [b'|] eqn:Hnext; [|inversion Hc'].
  rewrite (bind_Ret _ _ _ _ _ Hloop).
  destruct (last xs) as [s|] eqn:Hlast;
    [|apply last_None in Hlast; subst xs; simpl in Hx; lia].
  rewrite <- Happ in Hc, Hnd.
  destruct (chain_after _ _ _ _ _ Hc Hlast) as (n_s & H_s & Hys).
  rewrite (bind_Ret _ _ _ _ _ (load_node_eq _ _ _ H_s)).
  rewrite (bind_Ret _ _ _ _ _ (write_next_eq _ _ _ None H_s)).
  assert (Hs_in : s ∈ xs) by (apply last_Some_elem_of; exact Hlast).
  eexists. split; [|split; [|split; [|split]]].
  - rewrite ret_eq. do 2 f_equal. f_equal.
    + destruct xs; [discriminate|]. injection Happ as -> _. reflexivity.
    + apply (chain_head _ _ _ Hys).
  - cbn [heap with_heap].
    replace (hd_error xs) with (Some a)
      by (destruct xs; [discriminate | injection Happ as -> _; reflexivity]).
    apply (chain_cut _ _ _ ys); assumption.
  - cbn [heap with_heap]. rewrite <- (chain_head _ _ _ Hys).
    apply chain_relink; [exact Hys|].
    apply NoDup_app in Hnd as (_ & Hdis & _). apply Hdis, Hs_in.
  - cbn [heap with_heap]. apply relinked_relink, H_s.
  - cbn [heap with_heap]. apply unchanged_outside_relink.
    rewrite <- Happ. apply elem_of_app. left. exact Hs_in.
Qed.

(** ** The merge *)

Section Merge.
Variable f : linked_list_custom_equality_function_t.
Variable ascending : bool.

(** [tf a b] is the choice the merge makes between the nodes [a] and [b]
    of a heap, for all the nodes of [ns]. *)
Variable tf : addr → addr → bool.

Definition compares (h : gmap addr object) (ns : list addr) : Prop :=
  ∀ a b, a ∈ ns → b ∈ ns →
         ∃ c, equality_of_nodes f h a b = Some c ∧ tf a b = goes_first ascending c.

Lemma compares_relinked (h h' : gmap addr object) (ns ns' : list addr) :
  relinked h h' → compares h ns → ns' ⊆ ns → compares h' ns'.
Proof.
  intros Hr Hc Hsub a b Ha Hb.
  destruct (Hc a b (Hsub _ Ha) (Hsub _ Hb)) as (c & Hc1 & Hc2).
  exists c. split; [|exact Hc2]. apply (equality_of_nodes_relinked _ h); assumption.
Qed.

Lemma merge_loop_nil_l (fuel : nat) (sh l : option addr) (m : memory) :
  merge_loop fuel f ascending None sh l m = Ret ((None, sh, l), m).
Proof. destruct fuel; reflexivity. Qed.

Lemma merge_loop_nil_r (fuel : nat) (fh l : option addr) (m : memory) :
  merge_loop fuel f ascending fh None l m = Ret ((fh, None, l), m).
Proof. destruct fuel, fh; reflexivity. Qed.

(** The end of [merge]: the rest of a half is linked after the last merged
    node, and the tail is looked for from there. *)
Lemma merge_rest (fuel : nat) (m : memory) (l : addr) (nl : linked_list_node_t)
    (q : option addr) (zs : list addr) :
  chain (heap m) q zs → heap m !! l = Some (ONode nl) → l ∉ zs →
  (length zs <= fuel)%nat →
  ∃ m2, write_next (Some l) q m = Ret (tt, m2)
        ∧ last_node fuel (Some l) m2 = Ret (last (l :: zs), m2)
        ∧ chain (heap m2) (Some l) (l :: zs)
        ∧ relinked (heap m) (heap m2)
        ∧ ∀ ns, l ∈ ns → unchanged_outside ns (heap m) (heap m2).
Proof.
  intros Hc Hl Hnot Hlen. eexists. split; [apply (write_next_eq _ _ _ _ Hl)|].
  assert (Hc' : chain (relink (heap m) l nl q) (Some l) (l :: zs)).
  { apply (chain_cons _ l {| next := q; element := element nl |}).
    - apply lookup_insert_eq.
    - apply chain_relink; assumption. }
  split; [|split; [|split]].
  - apply last_node_spec; [exact Hc' | simpl; lia].
  - exact Hc'.
  - apply relinked_relink, Hl.
  - intros ns Hin. apply unchanged_outside_relink, Hin.
Qed.

Lemma merge_loop_spec (fuel1 : nat) :
  ∀ (fuel2 : nat) (xs ys : list addr) (m : memory) (fh sh : option addr)
    (l : addr) (nl : linked_list_node_t),
  chain (heap m) fh xs → chain (heap m) sh ys →
  heap m !! l = Some (ONode nl) →
  NoDup (l :: xs ++ ys) →
  compares (heap m) (xs ++ ys) →
  (length xs + length ys <= fuel1)%nat →
  (length xs + length ys <= fuel2)%nat →
  ∃ fh' sh' l' m1 m2,
    merge_loop fuel1 f ascending fh sh (Some l) m = Ret ((fh', sh', l'), m1)
    ∧ match fh', sh' with
      | None, _ => write_next l' sh'
      | _, None => write_next l' fh'
      | _, _ => mret tt
      end m1 = Ret (tt, m2)
    ∧ last_node fuel2 l' m2 = Ret (last (l :: merge_lists tf xs ys), m2)
    ∧ chain (heap m2) (Some l) (l :: merge_lists tf xs ys)
    ∧ relinked (heap m) (heap m2)
    ∧ unchanged_outside (l :: xs ++ ys) (heap m) (heap m2).
Proof.
  induction fuel1 as [|fuel1 IH];
    intros fuel2 xs ys m fh sh l nl Hfh Hsh Hl Hnd Hcmp Hlen1 Hlen2;
    apply NoDup_cons in Hnd as [Hl_out Hnd];
    (destruct xs as [|x xs]; [|destruct ys as [|y ys]]).
  1, 4: inversion Hfh; subst; rewrite merge_loop_nil_l;
    destruct (merge_rest fuel2 m l nl sh ys Hsh Hl Hl_out ltac:(simpl in Hlen2; lia))
      as (m2 & Hw & Hlast & Hc & Hr & Hu);
    exists None, sh, (Some l), m, m2; repeat split; try assumption;
    apply Hu; left.
  1, 3: inversion Hsh; subst; rewrite merge_loop_nil_r;
    rewrite app_nil_r in Hl_out;
    destruct (merge_rest fuel2 m l nl fh (x :: xs) Hfh Hl Hl_out
                ltac:(simpl in Hlen2 |- *; lia))
      as (m2 & Hw & Hlast & Hc & Hr & Hu);
    rewrite merge_lists_nil_r;
    exists fh, None, (Some l), m, m2; repeat split; try assumption;
    [inversion Hfh; subst; exact Hw | apply Hu; left].
  - simpl in Hlen1. lia.
  - inversion Hfh as [|x' nx xs' Hx Hxs]; subst x' xs' fh.
    inversion Hsh as [|y' ny ys' Hy Hys]; subst y' ys' sh.
    destruct (Hcmp x y) as (c & Hc & Htf); [set_solver | set_solver |].
    cbn [merge_loop].
    rewrite (bind_Ret _ _ _ _ _ (take_from_first_half_eq f ascending m x y c Hc)).
    rewrite <- Htf. rewrite merge_lists_cons.
    assert (Hlx : l ≠ x) by set_solver.
    assert (Hly : l ≠ y) by set_solver.
    destruct (tf x y).
    + rewrite (bind_Ret _ _ _ _ _ (write_next_eq m l nl (Some x) Hl)).
      set (h1 := relink (heap m) l nl (Some x)).
      assert (Hx1 : h1 !! x = Some (ONode nx))
        by (unfold h1, relink; rewrite lookup_insert_ne by exact Hlx; exact Hx).
      assert (Hl1 : h1 !! l = Some (ONode {| next := Some x; element := element nl |}))
        by apply lookup_insert_eq.
      rewrite (bind_Ret _ _ _ _ _ (load_node_eq (with_heap m h1) _ _ Hx1)).
      rewrite (bind_Ret _ _ _ _ _ (load_node_eq (with_heap m h1) _ _ Hl1)).
      cbn [next].
      destruct (IH fuel2 xs (y :: ys) (with_heap m h1) (next nx) (Some y) x nx)
        as (fh' & sh' & l' & m1 & m2 & Hloop & Hw & Hlast & Hchain & Hr & Hu).
      * apply chain_relink; [exact Hxs | set_solver].
      * apply chain_relink; [exact Hsh | set_solver].
      * exact Hx1.
      * exact Hnd.
      * apply (compares_relinked (heap m) _ ((x :: xs) ++ y :: ys));
          [apply relinked_relink, Hl | exact Hcmp | set_solver].
      * simpl in Hlen1 |- *. lia.
      * simpl in Hlen2 |- *. lia.
      * cbn [heap with_heap] in Hr, Hu.
        exists fh', sh', l', m1, m2. split; [exact Hloop|]. split; [exact Hw|].
        split; [exact Hlast|]. split; [|split].
        -- apply (chain_cons _ l {| next := Some x; element := element nl |});
             [|exact Hchain].
           rewrite Hu; [exact Hl1|]. set_solver.
        -- apply (relinked_trans _ h1); [apply relinked_relink, Hl | exact Hr].
        -- intros a Ha. rewrite Hu by set_solver.
           unfold h1, relink. apply lookup_insert_ne. set_solver.
    + rewrite (bind_Ret _ _ _ _ _ (write_next_eq m l nl (Some y) Hl)).
      set (h1 := relink (heap m) l nl (Some y)).
      assert (Hy1 : h1 !! y = Some (ONode ny))
        by (unfold h1, relink; rewrite lookup_insert_ne by exact Hly; exact Hy).
      assert (Hl1 : h1 !! l = Some (ONode {| next := Some y; element := element nl |}))
        by apply lookup_insert_eq.
      rewrite (bind_Ret _ _ _ _ _ (load_node_eq (with_heap m h1) _ _ Hy1)).
      rewrite (bind_Ret _ _ _ _ _ (load_node_eq (with_heap m h1) _ _ Hl1)).
      cbn [next].
      assert (Hnd' : NoDup (y :: (x :: xs) ++ ys)).
      { rewrite Permutation_middle. exact Hnd. }
      destruct (IH fuel2 (x :: xs) ys (with_heap m h1) (Some x) (next ny) y ny)
        as (fh' & sh' & l' & m1 & m2 & Hloop & Hw & Hlast & Hchain & Hr & Hu).
      * apply chain_relink; [exact Hfh | set_solver].
      * apply chain_relink; [exact Hys | set_solver].
      * exact Hy1.
      * exact Hnd'.
      * apply (compares_relinked (heap m) _ ((x :: xs) ++ y :: ys));
          [apply relinked_relink, Hl | exact Hcmp | set_solver].
      * simpl in Hlen1 |- *. lia.
      * simpl in Hlen2 |- *. lia.
      * cbn [heap with_heap] in Hr, Hu.
        exists fh', sh', l', m1, m2. split; [exact Hloop|]. split; [exact Hw|].
        split; [exact Hlast|]. split; [|split].
        -- apply (chain_cons _ l {| next := Some y; element := element nl |});
             [|exact Hchain].
           rewrite Hu; [exact Hl1|]. set_solver.
        -- apply (relinked_trans _ h1); [apply relinked_relink, Hl | exact Hr].
        -- intros a Ha. rewrite Hu by set_solver.
           unfold h1, relink. apply lookup_insert_ne. set_solver.
Qed.

Lemma merge_spec (fuel : nat) (m : memory) (fh sh : option addr) (xs ys : list addr) :
  chain (heap m) fh xs → chain (heap m) sh ys →
  NoDup (xs ++ ys) →
  compares (heap m) (xs ++ ys) →
  (length xs + length ys <= S fuel)%nat →
  ∃ m', merge fuel fh sh ascending f m
          = Ret ((hd_error (merge_lists tf xs ys), last (merge_lists tf xs ys)), m')
        ∧ chain (heap m') (hd_error (merge_lists tf xs ys)) (merge_lists tf xs ys)
        ∧ relinked (heap m) (heap m')
        ∧ unchanged_outside (xs ++ ys) (heap m) (heap m').
Proof.
  intros Hfh Hsh Hnd Hcmp Hlen.
  destruct xs as [|x xs]; [|destruct ys as [|y ys]].
  - inversion Hfh; subst. exists m. unfold merge.
    rewrite (bind_Ret _ _ _ _ _ (last_node_spec fuel m sh ys Hsh ltac:(simpl in Hlen; lia))).
    cbn [merge_lists]. rewrite <- (chain_head _ _ _ Hsh).
    split_and!; [reflexivity | exact Hsh | apply relinked_refl | apply unchanged_outside_refl].
  - inversion Hsh; subst. exists m. rewrite merge_lists_nil_r.
    pose proof (chain_head _ _ _ Hfh) as Hhd. cbn [hd_error] in Hhd. subst fh.
    unfold merge.
    rewrite (bind_Ret _ _ _ _ _ (last_node_spec fuel m _ _ Hfh ltac:(simpl in Hlen |- *; lia))).
    split_and!; [reflexivity | exact Hfh | apply relinked_refl | apply unchanged_outside_refl].
  - inversion Hfh as [|x' nx xs' Hx Hxs]; subst x' xs' fh.
    inversion Hsh as [|y' ny ys' Hy Hys]; subst y' ys' sh.
    destruct (Hcmp x y) as (c & Hc & Htf); [set_solver | set_solver |].
    unfold merge.
    rewrite (bind_Ret _ _ _ _ _ (take_from_first_half_eq f ascending m x y c Hc)).
    rewrite <- Htf. rewrite merge_lists_cons.
    destruct (tf x y).
    + rewrite (bind_Ret _ _ m m (Some x, next nx, Some y))
        by (rewrite (bind_Ret _ _ _ _ _ (load_node_eq _ _ _ Hx)); reflexivity).
      cbv beta iota.
      destruct (merge_loop_spec fuel fuel xs (y :: ys) m (next nx) (Some y) x nx)
        as (fh' & sh' & l' & m1 & m2 & Hloop & Hw & Hlast & Hchain & Hr & Hu);
        try assumption.
      * apply (compares_relinked (heap m) _ ((x :: xs) ++ y :: ys));
          [apply relinked_refl | exact Hcmp | set_solver].
      * simpl in Hlen |- *. lia.
      * simpl in Hlen |- *. lia.
      * exists m2. rewrite (bind_Ret _ _ _ _ _ Hloop). cbv beta iota.
        rewrite (bind_Ret _ _ _ _ _ Hw). rewrite (bind_Ret _ _ _ _ _ Hlast).
        split_and!; try assumption; reflexivity.
    + rewrite (bind_Ret _ _ m m (Some y, Some x, next ny))
        by (rewrite (bind_Ret _ _ _ _ _ (load_node_eq _ _ _ Hy)); reflexivity).
      cbv beta iota.
      assert (Hnd' : NoDup (y :: (x :: xs) ++ ys)).
      { rewrite Permutation_middle. exact Hnd. }
      destruct (merge_loop_spec fuel fuel (x :: xs) ys m (Some x) (next ny) y ny)
        as (fh' & sh' & l' & m1 & m2 & Hloop & Hw & Hlast & Hchain & Hr & Hu);
        try assumption.
      * apply (compares_relinked (heap m) _ ((x :: xs) ++ y :: ys));
          [apply relinked_refl | exact Hcmp | set_solver].
      * simpl in Hlen |- *. lia.
      * simpl in Hlen |- *. lia.
      * exists m2. rewrite (bind_Ret _ _ _ _ _ Hloop). cbv beta iota.
        rewrite (bind_Ret _ _ _ _ _ Hw). rewrite (bind_Ret _ _ _ _ _ Hlast).
        split_and!; try assumption; [reflexivity|].
        intros a Ha. apply Hu. set_solver.
Qed.

(** ** The sort *)

Lemma merge_sort_spec (fuel : nat) :
  ∀ (ns : list addr) (m : memory) (p : option addr),
  chain (heap m) p ns → (length ns <= fuel)%nat → compares (heap m) ns →
  ∃ m', merge_sort fuel p ascending f m
          = Ret ((hd_error (merge_sort_list tf fuel ns),
                  last (merge_sort_list tf fuel ns)), m')
        ∧ chain (heap m') (hd_error (merge_sort_list tf fuel ns)) (merge_sort_list tf fuel ns)
        ∧ relinked (heap m) (heap m')
        ∧ unchanged_outside ns (heap m) (heap m').
Proof.
  induction fuel as [|fuel IH]; intros ns m p Hc Hlen Hcmp;
    (destruct ns as [|a [|b rest]]; [| |try (simpl in Hlen; lia)]).
  1, 3: inversion Hc; subst; exists m;
    split_and!; [reflexivity | constructor | apply relinked_refl | apply unchanged_outside_refl].
  1, 2: inversion Hc as [|a' na ns' Ha Hc']; subst a' ns' p; exists m;
    cbn [merge_sort]; rewrite (bind_Ret _ _ _ _ _ (load_node_eq _ _ _ Ha));
    revert Hc'; destruct (next na); intros Hc'; inversion Hc'; subst;
    split_and!; [reflexivity | exact Hc | apply relinked_refl | apply unchanged_outside_refl].
  pose proof (chain_NoDup _ _ _ Hc) as Hnd.
  inversion Hc as [|a' na ns' Ha Hc']; subst a' ns' p.
  cbn [merge_sort merge_sort_list].
  rewrite (bind_Ret _ _ _ _ _ (load_node_eq _ _ _ Ha)).
  destruct (next na) as [b'|] eqn:Hnext; [|inversion Hc'].
  destruct (split_list (a :: b :: rest) (b :: rest)) as [xs ys] eqn:E.
  destruct (split_list_halves _ _ _ _ _ E) as (Happ & Hx & Hy).
  destruct (merge_split_spec (S fuel) m a b rest xs ys Hc ltac:(lia) E)
    as (m1 & Hsplit & Hxs & Hys & Hr1 & Hu1).
  rewrite (bind_Ret _ _ _ _ _ Hsplit). cbv beta iota.
  rewrite <- Happ in Hnd, Hcmp, Hlen, Hu1 |- *.
  clear Happ E Hc Hc' Ha Hnext.
  apply NoDup_app in Hnd as (Hndx & Hdis & Hndy).
  rewrite length_app in Hlen.
  destruct (IH xs m1 _ Hxs ltac:(lia)) as (m2 & Hs1 & Hc1 & Hr2 & Hu2).
  { apply (compares_relinked (heap m) _ (xs ++ ys)); [exact Hr1 | exact Hcmp | set_solver]. }
  rewrite (bind_Ret _ _ _ _ _ Hs1). cbv beta iota.
  assert (Hys2 : chain (heap m2) (hd_error ys) ys).
  { apply (chain_outside xs _ (heap m1)); [exact Hu2 | exact Hys |].
    intros z Hz Hz'. exact (Hdis z Hz' Hz). }
  destruct (IH ys m2 _ Hys2 ltac:(lia)) as (m3 & Hs2 & Hc2 & Hr3 & Hu3).
  { apply (compares_relinked (heap m) _ (xs ++ ys));
      [exact (relinked_trans _ _ _ Hr1 Hr2) | exact Hcmp | set_solver]. }
  rewrite (bind_Ret _ _ _ _ _ Hs2). cbv beta iota.
  pose proof (merge_sort_list_perm tf fuel xs) as Hp1.
  pose proof (merge_sort_list_perm tf fuel ys) as Hp2.
  set (r1 := merge_sort_list tf fuel xs) in *.
  set (r2 := merge_sort_list tf fuel ys) in *.
  assert (Hc13 : chain (heap m3) (hd_error r1) r1).
  { apply (chain_outside ys _ (heap m2)); [exact Hu3 | exact Hc1 |].
    intros z Hz. rewrite Hp1 in Hz. apply Hdis, Hz. }
  pose proof (relinked_trans _ _ _ (relinked_trans _ _ _ Hr1 Hr2) Hr3) as Hr13.
  destruct (merge_spec (S fuel) m3 _ _ r1 r2 Hc13 Hc2) as (m4 & Hm & Hc4 & Hr4 & Hu4).
  { rewrite Hp1, Hp2. apply NoDup_app. auto. }
  { apply (compares_relinked (heap m) _ (xs ++ ys)); [exact Hr13 | exact Hcmp |].
    intros z Hz. rewrite Hp1, Hp2 in Hz. exact Hz. }
  { rewrite Hp1, Hp2. lia. }
  exists m4. split; [exact Hm|]. split; [exact Hc4|]. split.
  - exact (relinked_trans _ _ _ Hr13 Hr4).
  - intros z Hz. rewrite Hu4, Hu3, Hu2, Hu1; [reflexivity | exact Hz | | |].
    + intros Hin. apply Hz, elem_of_app. left. exact Hin.
    + intros Hin. apply Hz, elem_of_app. right. exact Hin.
    + intros Hin. apply Hz. rewrite <- Hp1, <- Hp2. exact Hin.
Qed.

End Merge.

Lemma write_head_eq (m : memory) (list : addr) (l : linked_list_t) (p : option addr) :
  heap m !! list = Some (OList l) →
  write_head list p m = Ret (tt, with_heap m (<[list := OList (set_head l p)]> (heap m))).
Proof.
  intros H. unfold write_head. rewrite (bind_Ret _ _ _ _ _ (LinkedListFacts.load_linked_list_eq _ _ _ H)).
  unfold store. rewrite H. reflexivity.
Qed.

Lemma write_tail_eq (m : memory) (list : addr) (l : linked_list_t) (p : option addr) :
  heap m !! list = Some (OList l) →
  write_tail list p m = Ret (tt, with_heap m (<[list := OList (set_tail l p)]> (heap m))).
Proof.
  intros H. unfold write_tail. rewrite (bind_Ret _ _ _ _ _ (LinkedListFacts.load_linked_list_eq _ _ _ H)).
  unfold store. rewrite H. reflexivity.
Qed.

Lemma element_at_store_list (h : gmap addr object) (list : addr) (l0 l1 : linked_list_t)
    (a : addr) (x : linked_list_element_t) :
  h !! list = Some (OList l0) →
  element_at h a = Some x → element_at (<[list := OList l1]> h) a = Some x.
Proof.
  intros Hl. unfold element_at.
  destruct (h !! a) as [[|n| |]|] eqn:Ha; try discriminate.
  destruct (element n) as [e|] eqn:He; try discriminate.
  destruct (h !! e) as [[| |y|]|] eqn:Hy; try discriminate.
  intros H.
  rewrite lookup_insert_ne by congruence. rewrite Ha, He.
  rewrite lookup_insert_ne by congruence. rewrite Hy. exact H.
Qed.

(** The default sort of a list whose nodes are [ns]: the list then holds
    the nodes [merge_sort_list tf _ ns], with the elements they had. *)
Lemma default_sort_spec f (ascending : bool) (tf : addr → addr → bool)
    (m : memory) (linkedList : addr) (l : linked_list_t) (ns : list addr) :
  heap m !! linkedList = Some (OList l) →
  equalityFunction l = Fn f →
  chain (heap m) (head l) ns →
  compares f ascending tf (heap m) ns →
  let ns' := merge_sort_list tf (S (stdpp.base.size (heap m))) ns in
  ∃ m', default_sort linkedList ascending m = Ret (LINKED_LIST_SUCCESS, m')
        ∧ heap m' !! linkedList = Some (OList (set_tail (set_head l (hd_error ns')) (last ns')))
        ∧ chain (heap m') (hd_error ns') ns'
        ∧ ∀ a x, element_at (heap m) a = Some x → element_at (heap m') a = Some x.
Proof.
  intros Hl Hf Hc Hcmp ns'.
  pose proof (chain_length _ _ _ Hc) as Hlen.
  destruct (merge_sort_spec f ascending tf (S (stdpp.base.size (heap m))) ns m (head l)
              Hc ltac:(lia) Hcmp) as (m1 & Hs & Hc1 & Hr & Hu).
  fold ns' in Hs, Hc1.
  assert (Hout : ∀ a, a ∈ ns → a ≠ linkedList).
  { intros a Ha ->. destruct (chain_nodes _ _ _ _ Hc Ha) as [n Hn]. congruence. }
  assert (Hl1 : heap m1 !! linkedList = Some (OList l)).
  { rewrite Hu; [exact Hl|]. intros Hin. exact (Hout _ Hin eq_refl). }
  unfold default_sort.
  rewrite (bind_Ret _ _ _ _ _ (LinkedListFacts.load_linked_list_eq _ _ _ Hl)).
  rewrite (bind_Ret heap_size _ m m (stdpp.base.size (heap m))) by reflexivity.
  rewrite Hf. rewrite (bind_Ret _ _ _ _ _ Hs). cbv beta iota.
  rewrite (bind_Ret _ _ _ _ _ (write_head_eq m1 linkedList l _ Hl1)).
  rewrite (bind_Ret _ _ _ _ _
             (write_tail_eq
                (with_heap m1 (<[linkedList := OList (set_head l (hd_error ns'))]> (heap m1)))
                linkedList (set_head l (hd_error ns')) (last ns')
                (lookup_insert_eq _ _ _))).
  eexists. split; [reflexivity|]. cbn [heap with_heap]. split; [|split].
  - apply lookup_insert_eq.
  - apply (chain_unchanged (heap m1)); [exact Hc1|].
    intros a Ha.
    assert (a ≠ linkedList).
    { apply Hout. unfold ns' in Ha. rewrite merge_sort_list_perm in Ha. exact Ha. }
    rewrite !lookup_insert_ne by congruence. reflexivity.
  - intros a x Hx.
    apply (element_at_store_list _ linkedList (set_head l (hd_error ns'))); [apply lookup_insert_eq|].
    apply (element_at_store_list _ linkedList l); [exact Hl1|].
    apply (element_at_relinked (heap m)); assumption.
Qed.

(** The choice of the merge between two nodes: does the first go first? *)
Definition choice (f : linked_list_custom_equality_function_t) (ascending : bool)
    (h : gmap addr object) (a b : addr) : bool :=
  match equality_of_nodes f h a b with
  | Some c => goes_first ascending c
  | None => false
  end.

(** The result of the equality function on the elements of two nodes. *)
Definition compared (f : linked_list_custom_equality_function_t)
    (h : gmap addr object) (a b : addr) : option Z :=
  match element_at h a, element_at h b with
  | Some e1, Some e2 =>
      match f (value e1) (value e2) (size e1) with
      | Ret c => Some c
      | _ => None
      end
  | _, _ => None
  end.

(** For that result, may the first node stand before the second? *)
Definition in_order (f : linked_list_custom_equality_function_t) (ascending : bool)
    (h : gmap addr object) (a b : addr) : bool :=
  match compared f h a b with
  | Some c => goes_first ascending c
  | None => false
  end.

(** A result from -128 to 127 is the one [merge] works with. *)
Lemma equality_of_nodes_compared f (h : gmap addr object) (a b : addr) (c : Z) :
  compared f h a b = Some c → -128 <= c <= 127 → equality_of_nodes f h a b = Some c.
Proof.
  unfold compared, equality_of_nodes.
  destruct (element_at h a) as [e1|]; [|discriminate].
  destruct (element_at h b) as [e2|]; [|discriminate].
  destruct (f (value e1) (value e2) (size e1)) as [r| |]; try discriminate.
  intros [= ->] Hc. f_equal. unfold int8, wrap_signed.
  change (2 ^ (8 - 1)) with 128. change (2 ^ 8) with 256.
  rewrite Z.mod_small; lia.
Qed.

Lemma choice_in_order f (ascending : bool) (h : gmap addr object) (a b : addr) (c : Z) :
  compared f h a b = Some c → -128 <= c <= 127 →
  choice f ascending h a b = in_order f ascending h a b.
Proof.
  intros Hc Hr. unfold choice, in_order.
  rewrite (equality_of_nodes_compared f h a b c Hc Hr), Hc. reflexivity.
Qed.

End LinkedListSort.

(** The default sort of the linked list is a merge sort that takes the node
    of the first half whenever the comparison allows it.  Let the nodes of a
    list be a chain, and let the results that [merge] compares with
    ([equality_of_nodes]) be defined for every two elements of the list and
    order them totally and transitively in the direction of the sort.  Then
    [linked_list_sort] returns success; the list holds the same nodes with
    the same elements, in the order of the sort; and of two nodes that
    compare equal, the one that stood first still stands first. *)
Lemma linked_list_default_sort_is_stable
    (custom_sort : positive → addr → bool → LinkedList.C LinkedList.linked_list_result_t)
    (m : LinkedList.memory) (linkedList : addr) (l : LinkedList.linked_list_t)
    (f : LinkedList.linked_list_custom_equality_function_t) (ascending : bool)
    (ns : list addr) :
  heap m !! linkedList = Some (LinkedList.OList l) →
  LinkedList.sortingFunction l = Fn LinkedList.SortDefault →
  LinkedList.equalityFunction l = Fn f →
  LinkedList.chain (heap m) (LinkedList.head l) ns →
  LinkedList.count l = Z.of_nat (length ns) →
  (∀ a b, a ∈ ns → b ∈ ns → is_Some (LinkedListSort.equality_of_nodes f (heap m) a b)) →
  (∀ a b, a ∈ ns → b ∈ ns →
     LinkedListSort.choice f ascending (heap m) a b = true
     ∨ LinkedListSort.choice f ascending (heap m) b a = true) →
  (∀ a b c, a ∈ ns → b ∈ ns → c ∈ ns →
     LinkedListSort.choice f ascending (heap m) a b = true →
     LinkedListSort.choice f ascending (heap m) b c = true →
     LinkedListSort.choice f ascending (heap m) a c = true) →
  ∃ (m' : LinkedList.memory) (l' : LinkedList.linked_list_t) (ns' : list addr),
    LinkedList.linked_list_sort custom_sort (Some linkedList) ascending m
      = Ret (LinkedList.LINKED_LIST_SUCCESS, m')
    ∧ heap m' !! linkedList = Some (LinkedList.OList l')
    ∧ LinkedList.chain (heap m') (LinkedList.head l') ns'
    ∧ ns' ≡ₚ ns
    ∧ (∀ a, a ∈ ns → LinkedList.element_at (heap m') a = LinkedList.element_at (heap m) a)
    ∧ StronglySorted (λ a b, LinkedListSort.choice f ascending (heap m) a b = true) ns'
    ∧ (∀ a b, MergeModel.before a b ns →
              LinkedListSort.equality_of_nodes f (heap m) a b = Some 0 →
              MergeModel.before a b ns').
Proof.
  intros Hl Hsort Hf Hc Hcount Hdef Htotal Htrans.
  unfold LinkedList.linked_list_sort.
  rewrite (bind_Ret _ _ _ _ _ (LinkedListFacts.load_linked_list_eq _ _ _ Hl)).
  destruct ((LinkedList.count l =? 0) || (LinkedList.count l =? 1)) eqn:Hsmall.
  - exists m, l, ns. split_and!; try reflexivity; try assumption; [|auto].
    assert (Hlen : (length ns <= 1)%nat).
    { apply orb_true_iff in Hsmall as [H|H]; apply Z.eqb_eq in H; lia. }
    destruct ns as [|a [|b rest]]; [repeat constructor.. | simpl in Hlen; lia].
  - rewrite Hsort.
    set (tf := LinkedListSort.choice f ascending (heap m)).
    assert (Hcmp : LinkedListSort.compares f ascending tf (heap m) ns).
    { intros a b Ha Hb. destruct (Hdef a b Ha Hb) as [c Hab].
      exists c. split; [exact Hab|]. unfold tf, LinkedListSort.choice. rewrite Hab.
      reflexivity. }
    destruct (LinkedListSort.default_sort_spec f ascending tf m linkedList l ns
                Hl Hf Hc Hcmp) as (m' & Hrun & Hl' & Hc' & Hel).
    pose proof (LinkedListSort.chain_length _ _ _ Hc) as Hlen.
    eexists m', _, _. split; [exact Hrun|]. split; [exact Hl'|].
    split; [exact Hc'|]. split; [apply MergeModel.merge_sort_list_perm|].
    split; [|split].
    + intros a Ha. destruct (Hdef a a Ha Ha) as [c Haa].
      unfold LinkedListSort.equality_of_nodes in Haa.
      destruct (LinkedList.element_at (heap m) a) as [x|] eqn:Hx; [|discriminate].
      apply Hel. exact Hx.
    + apply (MergeModel.merge_sort_list_sorted tf ns Htotal Htrans); [lia | auto].
    + intros a b Hab Heq.
      destruct (MergeModel.before_elem _ _ _ Hab) as [Ha Hb].
      apply (MergeModel.merge_sort_list_before tf ns Htotal Htrans); [lia | auto | exact Hab |].
      unfold MergeModel.le, tf, LinkedListSort.choice. rewrite Heq.
      destruct ascending; reflexivity.
Qed.

(** C3, for the linked list.  Let the nodes of a list be a chain of as many
    nodes as the list counts, and let the equality function give, for every
    two elements of the list, a result from -128 to 127, these results
    ordering the elements totally and transitively in the direction of the
    sort.  Then [linked_list_sort] with the default sorting function returns
    success; the list holds the same nodes with the same elements, in the
    order of the sort; and of two nodes whose elements compare equal (the
    result is 0), the one that stood first still stands first. *)
Theorem C3_default_sort_of_the_linked_list_is_stable
    (custom_sort : positive → addr → bool → LinkedList.C LinkedList.linked_list_result_t)
    (m : LinkedList.memory) (linkedList : addr) (l : LinkedList.linked_list_t)
    (f : LinkedList.linked_list_custom_equality_function_t) (ascending : bool)
    (ns : list addr) :
  heap m !! linkedList = Some (LinkedList.OList l) →
  LinkedList.sortingFunction l = Fn LinkedList.SortDefault →
  LinkedList.equalityFunction l = Fn f →
  LinkedList.chain (heap m) (LinkedList.head l) ns →
  LinkedList.count l = Z.of_nat (length ns) →
  (∀ a b, a ∈ ns → b ∈ ns →
     ∃ c, LinkedListSort.compared f (heap m) a b = Some c ∧ -128 <= c <= 127) →
  (∀ a b, a ∈ ns → b ∈ ns →
     LinkedListSort.in_order f ascending (heap m) a b = true
     ∨ LinkedListSort.in_order f ascending (heap m) b a = true) →
  (∀ a b c, a ∈ ns → b ∈ ns → c ∈ ns →
     LinkedListSort.in_order f ascending (heap m) a b = true →
     LinkedListSort.in_order f ascending (heap m) b c = true →
     LinkedListSort.in_order f ascending (heap m) a c = true) →
  ∃ (m' : LinkedList.memory) (l' : LinkedList.linked_list_t) (ns' : list addr),
    LinkedList.linked_list_sort custom_sort (Some linkedList) ascending m
      = Ret (LinkedList.LINKED_LIST_SUCCESS, m')
    ∧ heap m' !! linkedList = Some (LinkedList.OList l')
    ∧ LinkedList.chain (heap m') (LinkedList.head l') ns'
    ∧ ns' ≡ₚ ns
    ∧ (∀ a, a ∈ ns → LinkedList.element_at (heap m') a = LinkedList.element_at (heap m) a)
    ∧ StronglySorted (λ a b, LinkedListSort.in_order f ascending (heap m) a b = true) ns'
    ∧ (∀ a b, MergeModel.before a b ns →
              LinkedListSort.compared f (heap m) a b = Some 0 →
              MergeModel.before a b ns').
Proof.
  intros Hl Hsort Hf Hc Hcount Hrange Htotal Htrans.
  assert (Hsame : ∀ a b, a ∈ ns → b ∈ ns →
            LinkedListSort.choice f ascending (heap m) a b
            = LinkedListSort.in_order f ascending (heap m) a b).
  { intros a b Ha Hb. destruct (Hrange a b Ha Hb) as (c & Hab & Hr).
    exact (LinkedListSort.choice_in_order f ascending (heap m) a b c Hab Hr). }
  destruct (linked_list_default_sort_is_stable custom_sort m linkedList l f ascending ns
              Hl Hsort Hf Hc Hcount)
    as (m' & l' & ns' & Hrun & Hl' & Hc' & Hperm & Hel & Hsorted & Hstable).
  - intros a b Ha Hb. destruct (Hrange a b Ha Hb) as (c & Hab & Hr).
    exists c. exact (LinkedListSort.equality_of_nodes_compared f (heap m) a b c Hab Hr).
  - intros a b Ha Hb. rewrite !Hsame by assumption. exact (Htotal a b Ha Hb).
  - intros a b c Ha Hb Hc0. rewrite !Hsame by assumption. exact (Htrans a b c Ha Hb Hc0).
  - exists m', l', ns'. split_and!; try assumption.
    + assert (Hin : ∀ a, a ∈ ns' → a ∈ ns) by (intros a Ha; rewrite <- Hperm; exact Ha).
      clear - Hsorted Hsame Hin.
      induction Hsorted as [|a rest Hrest IH Hall]; constructor.
      * apply IH. intros b Hb. apply Hin. right. exact Hb.
      * rewrite Forall_forall in Hall |- *. intros b Hb.
        rewrite <- Hsame; [apply Hall; exact Hb | apply Hin; left | apply Hin; right; exact Hb].
    + intros a b Hab Heq. apply Hstable; [exact Hab|].
      apply LinkedListSort.equality_of_nodes_compared; [exact Heq | lia].
Qed.

Module SortSamples.

(** An equality function of a caller: it compares the first bytes. *)
Definition first_byte_equals (data1 data2 : option bytes) (size : Z) : exec Z :=
  match data1, data2 with
  | Some (x :: _), Some (y :: _) => Ret (byte_val x - byte_val y)
  | _, _ => Undef
  end.

(** The linked list made with [first_byte_equals] and the default sort by
    appending 01 0A, 01 0B and 00 00: the list is at address 1, the nodes
    at 3, 5 and 7. *)
Definition linked_three : LinkedList.memory :=
  state_after
    ('(_, linkedList) ← LinkedList.linked_list_create (Some first_byte_equals) None;
     LinkedList.linked_list_append linkedList (Some [Byte.x01; Byte.x0a]) 2;;
     LinkedList.linked_list_append linkedList (Some [Byte.x01; Byte.x0b]) 2;;
     LinkedList.linked_list_append linkedList (Some [Byte.x00; Byte.x00]) 2)
    empty_memory.

Definition linked_three_list : LinkedList.linked_list_t :=
  {| LinkedList.head := Some 3%positive;
     LinkedList.tail := Some 7%positive;
     LinkedList.count := 3;
     LinkedList.equalityFunction := Fn first_byte_equals;
     LinkedList.sortingFunction := Fn LinkedList.SortDefault |}.

(** The array list made in the same way. *)
Definition array_three : ArrayList.memory :=
  state_after
    ('(_, list_) ← ArrayList.list_create 0 (Some first_byte_equals) None;
     ArrayList.list_append list_ (Some [Byte.x01; Byte.x0a]) 2;;
     ArrayList.list_append list_ (Some [Byte.x01; Byte.x0b]) 2;;
     ArrayList.list_append list_ (Some [Byte.x00; Byte.x00]) 2)
    empty_memory.

Definition two_bytes (x y : Byte.byte) : option ArrayList.list_element_t :=
  Some {| ArrayList.el_size := 2; ArrayList.el_value := Some [x; y] |}.

End SortSamples.

(** One case for each node of a list that is written out. *)
Ltac each_node :=
  repeat match goal with
         | H : _ ∈ _ :: _ |- _ => apply elem_of_cons in H as [->|H]
         | H : _ ∈ [] |- _ => apply elem_of_nil in H; destruct H
         end.

(** C3 at the linked list of 01 0A, 01 0B and 00 00 compared by their first
    bytes, sorted upwards. *)
Lemma C3_witness :
  ∃ (m' : LinkedList.memory) (l' : LinkedList.linked_list_t) (ns' : list addr),
    LinkedList.linked_list_sort LinkedListFacts.no_custom_sort (Some 1%positive) true
        SortSamples.linked_three
      = Ret (LinkedList.LINKED_LIST_SUCCESS, m')
    ∧ heap m' !! 1%positive = Some (LinkedList.OList l')
    ∧ LinkedList.chain (heap m') (LinkedList.head l') ns'
    ∧ ns' ≡ₚ [3; 5; 7]%positive
    ∧ (∀ a, a ∈ [3; 5; 7]%positive →
            LinkedList.element_at (heap m') a
            = LinkedList.element_at (heap SortSamples.linked_three) a)
    ∧ StronglySorted
        (λ a b, LinkedListSort.in_order SortSamples.first_byte_equals true
                  (heap SortSamples.linked_three) a b = true) ns'
    ∧ (∀ a b, MergeModel.before a b [3; 5; 7]%positive →
              LinkedListSort.compared SortSamples.first_byte_equals
                (heap SortSamples.linked_three) a b = Some 0 →
              MergeModel.before a b ns').
Proof.
  apply (C3_default_sort_of_the_linked_list_is_stable
           LinkedListFacts.no_custom_sort SortSamples.linked_three 1%positive
           SortSamples.linked_three_list SortSamples.first_byte_equals true
           [3; 5; 7]%positive).
  - vm_compute. reflexivity.
  - reflexivity.
  - reflexivity.
  - chain_by_computation.
  - reflexivity.
  - intros a b Ha Hb. each_node; eexists; (split; [vm_compute; reflexivity | lia]).
  - intros a b Ha Hb. each_node; vm_compute; auto.
  - intros a b c Ha Hb Hc H1 H2.
    each_node; vm_compute in H1, H2 |- *; first [reflexivity | discriminate].
Defined.

(** The claim fails for the array list: its quicksort moves the last of
    three elements to the front by a swap with the first, so that 01 0A,
    01 0B, 00 00, whose first two elements are equal for
    [first_byte_equals], becomes 00 00, 01 0B, 01 0A. *)
Lemma C3_counterexample :
  ∃ (l : ArrayList.list_t) (m' : ArrayList.memory) (l' : ArrayList.list_t),
    heap SortSamples.array_three !! 1%positive = Some (ArrayList.OList l)
    ∧ ArrayList.elements (heap SortSamples.array_three) l
      = [SortSamples.two_bytes Byte.x01 Byte.x0a;
         SortSamples.two_bytes Byte.x01 Byte.x0b;
         SortSamples.two_bytes Byte.x00 Byte.x00]
    ∧ ArrayList.sortingFunction l = Fn ArrayList.SortDefault
    ∧ SortSamples.first_byte_equals (Some [Byte.x01; Byte.x0a]) (Some [Byte.x01; Byte.x0b]) 2
      = Ret 0
    ∧ ArrayList.list_sort ArrayListFacts.no_custom_sort (Some 1%positive) true
          SortSamples.array_three
      = Ret (ArrayList.LIST_SUCCESS, m')
    ∧ heap m' !! 1%positive = Some (ArrayList.OList l')
    ∧ ArrayList.elements (heap m') l'
      = [SortSamples.two_bytes Byte.x00 Byte.x00;
         SortSamples.two_bytes Byte.x01 Byte.x0b;
         SortSamples.two_bytes Byte.x01 Byte.x0a].
Proof.
  eexists _, _, _. split_and!; try (vm_compute; reflexivity).
Qed.


(** * Loops that run to their end *)

Section Loops.
Context {S A R : Type}.

(** A loop whose body keeps an invariant, or leaves the function with a
    result that satisfies [Q], returns: with the invariant after [n] rounds,
    or with [Q] at the round that left. *)
Lemma for_loop_search (I : nat → A → S → Prop) (Q : nat → R → S → Prop)
    (n : nat) (i step : Z) (acc : A) (body : Z → A → M S (A + R)) (m : S) :
  I 0%nat acc m →
  (∀ k acc m, (k < n)%nat → I k acc m →
     ∃ r m', body (i + Z.of_nat k * step) acc m = Ret (r, m')
             ∧ match r with
               | inl acc' => I (Datatypes.S k) acc' m'
               | inr x => Q k x m'
               end) →
  ∃ r m', for_loop n i step acc body m = Ret (r, m')
          ∧ match r with
            | inl acc' => I n acc' m'
            | inr x => ∃ k, (k < n)%nat ∧ Q k x m'
            end.
Proof.
  revert I Q i acc m. induction n as [|n IH]; intros I Q i acc m H0 Hbody.
  - exists (inl acc), m. split; [reflexivity | exact H0].
  - destruct (Hbody 0%nat acc m ltac:(lia) H0) as (r & m1 & Hr & Hpost).
    replace (i + Z.of_nat 0 * step) with i in Hr by lia.
    cbn [for_loop]. rewrite (bind_Ret _ _ _ _ _ Hr).
    destruct r as [acc1|x].
    + destruct (IH (λ k, I (Datatypes.S k)) (λ k, Q (Datatypes.S k)) (i + step) acc1 m1 Hpost)
        as (r & m' & Hrun & Hfinal).
      * intros k acc' m2 Hk HI.
        destruct (Hbody (Datatypes.S k) acc' m2 ltac:(lia) HI) as (r & m' & Hr' & Hpost').
        exists r, m'. split; [|exact Hpost'].
        rewrite <- Hr'. f_equal. lia.
      * exists r, m'. split; [exact Hrun|].
        destruct r as [acc'|y]; [exact Hfinal|].
        destruct Hfinal as (k & Hk & HQ). exists (Datatypes.S k). split; [lia | exact HQ].
    + exists (inr x), m1. split; [reflexivity|]. exists 0%nat. split; [lia | exact Hpost].
Qed.

(** A loop whose body has no defined result in the round [k], after rounds
    that keep an invariant, has none either. *)
Lemma for_loop_undefined (I : nat → A → S → Prop) (k : nat) :
  ∀ (n : nat) (i step : Z) (acc : A) (body : Z → A → M S (A + R)) (m : S),
  (k < n)%nat →
  I 0%nat acc m →
  (∀ j acc m, (j < k)%nat → I j acc m →
     ∃ acc' m', body (i + Z.of_nat j * step) acc m = Ret (inl acc', m')
                ∧ I (Datatypes.S j) acc' m') →
  (∀ acc m, I k acc m → body (i + Z.of_nat k * step) acc m = Undef) →
  for_loop n i step acc body m = Undef.
Proof.
  revert I. induction k as [|k IH]; intros I n i step acc body m Hk H0 Hbody Hstuck.
  - destruct n as [|n]; [lia|]. cbn [for_loop]. rewrite bind_eq.
    specialize (Hstuck acc m H0). replace (i + Z.of_nat 0 * step) with i in Hstuck by lia.
    rewrite Hstuck. reflexivity.
  - destruct n as [|n]; [lia|]. cbn [for_loop].
    destruct (Hbody 0%nat acc m ltac:(lia) H0) as (acc1 & m1 & Hr & H1).
    replace (i + Z.of_nat 0 * step) with i in Hr by lia.
    rewrite (bind_Ret _ _ _ _ _ Hr).
    apply (IH (λ j, I (Datatypes.S j))); [lia | exact H1 | |].
    + intros j acc' m2 Hj HI.
      destruct (Hbody (Datatypes.S j) acc' m2 ltac:(lia) HI) as (acc2 & m3 & Hr' & HI').
      exists acc2, m3. split; [|exact HI']. rewrite <- Hr'. f_equal. lia.
    + intros acc' m2 HI. rewrite <- (Hstuck acc' m2 HI). f_equal. lia.
Qed.

End Loops.

Section LoopsToTheEnd.
Context {S A : Type}.

(** The same for a loop without [return]. *)
Lemma for_loop_run (I : nat → A → S → Prop)
    (n : nat) (i step : Z) (acc : A) (body : Z → A → M S (A + Empty_set)) (m : S) :
  I 0%nat acc m →
  (∀ k acc m, (k < n)%nat → I k acc m →
     ∃ acc' m', body (i + Z.of_nat k * step) acc m = Ret (inl acc', m')
                ∧ I (Datatypes.S k) acc' m') →
  ∃ acc' m', loop_end (for_loop n i step acc body) m = Ret (acc', m') ∧ I n acc' m'.
Proof.
  intros H0 Hbody.
  destruct (for_loop_search I (λ _ _ _, False) n i step acc body m H0)
    as (r & m' & Hrun & Hfinal).
  - intros k acc' m1 Hk HI. destruct (Hbody k acc' m1 Hk HI) as (acc1 & m2 & Hr & HI').
    exists (inl acc1), m2. split; assumption.
  - destruct r as [acc'|[]]. exists acc', m'. split; [|exact Hfinal].
    unfold loop_end, M_bind. rewrite Hrun. reflexivity.
Qed.

End LoopsToTheEnd.

Lemma int64_small (z : Z) : - 2 ^ 63 <= z < 2 ^ 63 → int64 z = z.
Proof.
  intros H. unfold int64, wrap_signed.
  change (2 ^ (64 - 1)) with (2 ^ 63). rewrite Z.mod_small; lia.
Qed.

Lemma int32_small (z : Z) : - 2 ^ 31 <= z < 2 ^ 31 → int32 z = z.
Proof.
  intros H. unfold int32, wrap_signed.
  change (2 ^ (32 - 1)) with (2 ^ 31). rewrite Z.mod_small; lia.
Qed.

(** * The array list: what the operations do to a list *)

Module ArrayListOps.
Import ArrayList ArrayListFacts ArrayListSlots.

(** The memory with another list object at [list]. *)
Definition store_list (m : memory) (list : addr) (l : list_t) : memory :=
  Mem (<[list := OList l]> (heap m)) (brk m) (alloc_count m) (alloc_ok m).

(** The fields of a list agree: [items] has [capacity] slots, of which the
    first [size] are in use. *)
Definition slots_ok (l : list_t) : Prop :=
  0 <= size l <= capacity l ∧ Z.of_nat (length (items l)) = capacity l.

Lemma store_list_lookup (m : memory) (list : addr) (l : list_t) :
  heap (store_list m list l) !! list = Some (OList l).
Proof. apply lookup_insert_eq. Qed.

Lemma store_list_twice (m : memory) (list : addr) (l1 l2 : list_t) :
  store_list (store_list m list l1) list l2 = store_list m list l2.
Proof. unfold store_list. cbn [heap brk alloc_count alloc_ok]. rewrite insert_insert_eq. reflexivity. Qed.

Lemma store_list_same (m : memory) (list : addr) (l : list_t) :
  heap m !! list = Some (OList l) → store_list m list l = m.
Proof. intros H. unfold store_list. rewrite insert_id by exact H. destruct m; reflexivity. Qed.

Lemma set_item_eq (m : memory) (list : addr) (l : list_t) (i : Z) (p : pointer) :
  heap m !! list = Some (OList l) →
  0 <= i < Z.of_nat (length (items l)) →
  set_item list i p m
  = Ret (tt, store_list m list (set_items l (<[Z.to_nat i := p]> (items l)))).
Proof.
  intros Hl Hi. unfold set_item.
  rewrite (bind_Ret _ _ _ _ _ (load_list_eq _ _ _ Hl)).
  unfold in_bounds.
  replace (0 <=? i) with true by (symmetry; apply Z.leb_le; lia).
  replace (i <? Z.of_nat (length (items l))) with true by (symmetry; apply Z.ltb_lt; lia).
  cbn [andb]. unfold store. rewrite Hl. reflexivity.
Qed.

Lemma write_size_eq (m : memory) (list : addr) (l : list_t) (n : Z) :
  heap m !! list = Some (OList l) →
  write_size list n m = Ret (tt, store_list m list (set_size l n)).
Proof.
  intros Hl. unfold write_size.
  rewrite (bind_Ret _ _ _ _ _ (load_list_eq _ _ _ Hl)).
  unfold store. rewrite Hl. reflexivity.
Qed.

Lemma item_lookup (l : list_t) (i : Z) :
  0 <= i < Z.of_nat (length (items l)) → ∃ p, items l !! Z.to_nat i = Some p.
Proof. intros H. apply lookup_lt_is_Some. lia. Qed.

(** [items] with the slots [i] and [j] exchanged. *)
Definition exchange (a : list pointer) (i j : nat) : list pointer :=
  match a !! i, a !! j with
  | Some x, Some y => <[j := x]> (<[i := y]> a)
  | _, _ => a
  end.

Lemma exchange_length (a : list pointer) (i j : nat) : length (exchange a i j) = length a.
Proof.
  unfold exchange. destruct (a !! i), (a !! j); try reflexivity.
  rewrite !length_insert. reflexivity.
Qed.

Lemma exchange_lookup (a : list pointer) (i j k : nat) :
  (i < length a)%nat → (j < length a)%nat →
  exchange a i j !! k
  = if decide (k = j) then a !! i else if decide (k = i) then a !! j else a !! k.
Proof.
  intros Hi Hj. unfold exchange.
  destruct (lookup_lt_is_Some_2 a i Hi) as [x Hx].
  destruct (lookup_lt_is_Some_2 a j Hj) as [y Hy].
  rewrite Hx, Hy.
  destruct (decide (k = j)) as [->|Hkj].
  - rewrite list_lookup_insert_eq by (rewrite length_insert; lia). reflexivity.
  - rewrite list_lookup_insert_ne by congruence.
    destruct (decide (k = i)) as [->|Hki].
    + rewrite list_lookup_insert_eq by lia. reflexivity.
    + rewrite list_lookup_insert_ne by congruence. reflexivity.
Qed.

Lemma exchange_twice (a : list pointer) (i j : nat) :
  (i < length a)%nat → (j < length a)%nat → exchange (exchange a i j) i j = a.
Proof.
  intros Hi Hj. apply list_eq. intros k.
  rewrite exchange_lookup by (rewrite exchange_length; lia).
  rewrite !exchange_lookup by lia.
  repeat case_decide; subst; try reflexivity; try congruence.
Qed.

Lemma exchange_same (a : list pointer) (i : nat) : exchange a i i = a.
Proof.
  unfold exchange. destruct (a !! i) as [x|] eqn:E; [|reflexivity].
  rewrite !(list_insert_id a i x E). reflexivity.
Qed.

Lemma set_items_same (l : list_t) : set_items l (items l) = l.
Proof. destruct l; reflexivity. Qed.

Lemma set_items_twice (l : list_t) (a b : list pointer) :
  set_items (set_items l a) b = set_items l b.
Proof. reflexivity. Qed.

Lemma list_swap_run (m : memory) (list_ : addr) (l : list_t) (index1 index2 : Z) :
  heap m !! list_ = Some (OList l) →
  slots_ok l →
  0 <= index1 < size l →
  0 <= index2 < size l →
  list_swap (Some list_) index1 index2 m
  = Ret (LIST_SUCCESS,
         store_list m list_
           (set_items l (exchange (items l) (Z.to_nat index1) (Z.to_nat index2)))).
Proof.
  intros Hl [Hsize Hlen] H1 H2. unfold list_swap.
  rewrite (bind_Ret _ _ _ _ _ (load_list_eq _ _ _ Hl)).
  replace ((index1 >=? size l) || (index1 <? 0)) with false by (symmetry; lia).
  replace ((index2 >=? size l) || (index2 <? 0)) with false by (symmetry; lia).
  destruct (index1 =? index2) eqn:E.
  - apply Z.eqb_eq in E. subst index2.
    rewrite exchange_same, set_items_same, (store_list_same _ _ _ Hl). reflexivity.
  - destruct (item_lookup l index1 ltac:(lia)) as [p1 Hp1].
    destruct (item_lookup l index2 ltac:(lia)) as [p2 Hp2].
    rewrite (bind_Ret _ _ _ _ _ (get_item_eq _ _ _ index1 _ Hl ltac:(lia) Hp1)).
    rewrite (bind_Ret _ _ _ _ _ (get_item_eq _ _ _ index2 _ Hl ltac:(lia) Hp2)).
    rewrite (bind_Ret _ _ _ _ _ (set_item_eq _ _ _ index1 p2 Hl ltac:(lia))).
    set (l1 := set_items l (<[Z.to_nat index1 := p2]> (items l))).
    assert (Hlen1 : 0 <= index2 < Z.of_nat (length (items l1)))
      by (unfold l1; cbn [items set_items]; rewrite length_insert; lia).
    rewrite (bind_Ret _ _ _ _ _
               (set_item_eq _ _ l1 index2 p1 (store_list_lookup _ _ _) Hlen1)).
    rewrite store_list_twice. unfold exchange. rewrite Hp1, Hp2. reflexivity.
Qed.

(** [items] after [k] rounds of [list_reverse] on a list of size [n]. *)
Fixpoint flip (k n : nat) (a : list pointer) : list pointer :=
  match k with
  | O => a
  | S k' => exchange (flip k' n a) k' (n - 1 - k')
  end.

Lemma flip_length (k n : nat) (a : list pointer) : length (flip k n a) = length a.
Proof. induction k as [|k IH]; [reflexivity|]. cbn [flip]. rewrite exchange_length. exact IH. Qed.

Lemma flip_lookup (k n : nat) (a : list pointer) (j : nat) :
  (2 * k <= n)%nat → (n <= length a)%nat →
  flip k n a !! j
  = if decide (j < k ∨ n - k <= j < n)%nat then a !! (n - 1 - j)%nat else a !! j.
Proof.
  intros Hk Hn. revert j. induction k as [|k IH]; intros j.
  - cbn [flip]. case_decide; [lia | reflexivity].
  - cbn [flip]. rewrite exchange_lookup by (rewrite flip_length; lia).
    rewrite !IH by lia.
    repeat case_decide; subst; try lia; try reflexivity; f_equal; lia.
Qed.

Lemma flip_half (n : nat) (a : list pointer) :
  (n <= length a)%nat → flip (n / 2) n a = reverse (take n a) ++ drop n a.
Proof.
  intros Hn. pose proof (Nat.Div0.mul_div_le n 2) as Hhalf.
  pose proof (Nat.mul_succ_div_gt n 2 ltac:(lia)) as Hhalf'.
  apply list_eq. intros j. rewrite flip_lookup by lia.
  destruct (decide (j < n)%nat) as [Hj|Hj].
  - rewrite lookup_app_l by (rewrite length_reverse, length_take; lia).
    rewrite reverse_lookup by (rewrite length_take; lia).
    rewrite length_take, lookup_take_lt by lia.
    case_decide; f_equal; lia.
  - rewrite lookup_app_r by (rewrite length_reverse, length_take; lia).
    rewrite length_reverse, length_take, lookup_drop.
    case_decide; [lia|]. f_equal. lia.
Qed.

Lemma list_reverse_run (m : memory) (list_ : addr) (l : list_t) :
  heap m !! list_ = Some (OList l) →
  slots_ok l →
  list_reverse (Some list_) m
  = Ret (LIST_SUCCESS,
         store_list m list_
           (set_items l (reverse (take (Z.to_nat (size l)) (items l))
                         ++ drop (Z.to_nat (size l)) (items l)))).
Proof.
  intros Hl [Hsize Hlen]. unfold list_reverse.
  rewrite (bind_Ret _ _ _ _ _ (load_list_eq _ _ _ Hl)). cbv zeta.
  set (n := Z.to_nat (size l)).
  assert (Hmid : Z.to_nat (Z.quot (size l) 2 - 0) = (n / 2)%nat).
  { rewrite Z.sub_0_r, Z.quot_div_nonneg by lia.
    rewrite Z2Nat.inj_div by lia. reflexivity. }
  pose proof (Nat.Div0.mul_div_le n 2) as Hhalf.
  assert (Hn : Z.of_nat n = size l) by (unfold n; lia).
  unfold for_up. rewrite Hmid. fold n. clearbody n. clear Hmid.
  destruct (for_loop_run
              (λ k (_ : unit) mk, mk = store_list m list_ (set_items l (flip k n (items l))))
              (n / 2) 0 1 tt
              (λ i _,
                 leftElement ← get_item list_ i;
                 rightElement ← get_item list_ (size l - 1 - i);
                 set_item list_ i rightElement;;
                 set_item list_ (size l - 1 - i) leftElement;;
                 mret (inl tt)) m) as ([] & m' & Hrun & ->).
  - cbn [flip]. rewrite set_items_same, (store_list_same _ _ _ Hl). reflexivity.
  - intros k [] mk Hk ->. exists tt. eexists. split; [|reflexivity].
    remember (set_items l (flip k n (items l))) as lk eqn:Elk.
    assert (Hlk : heap (store_list m list_ lk) !! list_ = Some (OList lk))
      by apply store_list_lookup.
    assert (Hlenk : length (items lk) = length (items l))
      by (rewrite Elk; cbn [items set_items]; apply flip_length).
    destruct (item_lookup lk (0 + Z.of_nat k * 1) ltac:(lia)) as [p1 Hp1].
    destruct (item_lookup lk (size l - 1 - (0 + Z.of_nat k * 1)) ltac:(lia)) as [p2 Hp2].
    rewrite (bind_Ret _ _ _ _ _
               (get_item_eq _ _ _ (0 + Z.of_nat k * 1) _ Hlk ltac:(lia) Hp1)).
    rewrite (bind_Ret _ _ _ _ _
               (get_item_eq _ _ _ (size l - 1 - (0 + Z.of_nat k * 1)) _ Hlk ltac:(lia) Hp2)).
    rewrite (bind_Ret _ _ _ _ _ (set_item_eq _ _ _ (0 + Z.of_nat k * 1) p2 Hlk ltac:(lia))).
    remember (set_items lk (<[Z.to_nat (0 + Z.of_nat k * 1) := p2]> (items lk))) as l1 eqn:El1.
    assert (Hlen1 : 0 <= size l - 1 - (0 + Z.of_nat k * 1) < Z.of_nat (length (items l1)))
      by (rewrite El1; cbn [items set_items]; rewrite length_insert; lia).
    rewrite (bind_Ret _ _ _ _ _
               (set_item_eq _ _ l1 _ p1 (store_list_lookup _ _ _) Hlen1)).
    rewrite !store_list_twice. rewrite ret_eq. do 3 f_equal.
    subst l1 lk. rewrite !set_items_twice.
    change (items (set_items l ?a)) with a in *.
    cbn [flip]. unfold exchange.
    replace (Z.to_nat (0 + Z.of_nat k * 1)) with k in * by lia.
    replace (Z.to_nat (size l - 1 - (0 + Z.of_nat k * 1))) with (n - 1 - k)%nat in * by lia.
    rewrite Hp1, Hp2. reflexivity.
  - rewrite (bind_Ret _ _ _ _ _ Hrun). rewrite flip_half by lia.
    replace (Z.to_nat (size l)) with n by lia. reflexivity.
Qed.

(** ** Allocation *)

(** The allocator grants every request. *)
Definition never_fails (m : memory) : Prop := ∀ k, alloc_ok m k = true.

(** Nothing lives at or above the address the next object gets. *)
Definition allocator_ok (m : memory) : Prop :=
  ∀ a, (brk m <= a)%positive → heap m !! a = None.

(** The memory after one request to the allocator. *)
Definition bump (m : memory) : memory :=
  Mem (heap m) (brk m) (S (alloc_count m)) (alloc_ok m).

Lemma malloc_eq (m : memory) : never_fails m → malloc m = Ret (true, bump m).
Proof. intros H. unfold malloc. rewrite H. reflexivity. Qed.

Lemma never_fails_bump (m : memory) : never_fails m → never_fails (bump m).
Proof. intros H. exact H. Qed.

Lemma never_fails_store_list (m : memory) (list_ : addr) (l : list_t) :
  never_fails m → never_fails (store_list m list_ l).
Proof. intros H. exact H. Qed.

Lemma set_capacity_items (l : list_t) (c : Z) (a : list pointer) :
  set_items (set_capacity l c) a
  = {| size := size l; capacity := c; items := a;
       equalityFunction := equalityFunction l; sortingFunction := sortingFunction l |}.
Proof. reflexivity. Qed.

(** ** Growing the array of slots *)

(** The list after [list_realloc_capacity] to a larger capacity: the new
    slots are set to null, except the last one, which the loop
    [for (i = oldCapacity; i < capacity - 1; i++)] does not reach. *)
Definition grown (l : list_t) (c : Z) : list_t :=
  {| size := size l;
     capacity := c;
     items := items l ++ replicate (Z.to_nat (c - capacity l - 1)) NULL ++ [Wild];
     equalityFunction := equalityFunction l;
     sortingFunction := sortingFunction l |}.

Lemma replicate_insert_next (k r : nat) (a : list pointer) :
  <[(length a + k)%nat := NULL]> (a ++ replicate k NULL ++ replicate (S r) Wild)
  = a ++ replicate (S k) NULL ++ replicate r Wild.
Proof.
  rewrite insert_app_r. f_equal.
  rewrite insert_app_r_alt by (rewrite length_replicate; lia).
  rewrite length_replicate, Nat.sub_diag.
  rewrite (replicate_S_end k), <- app_assoc. reflexivity.
Qed.

Lemma list_realloc_capacity_grows (m : memory) (list_ : addr) (l : list_t) (c : Z) :
  heap m !! list_ = Some (OList l) →
  slots_ok l →
  1 <= c →
  capacity l < c →
  never_fails m →
  list_realloc_capacity list_ c m = Ret (LIST_SUCCESS, store_list (bump m) list_ (grown l c)).
Proof.
  intros Hl [Hsize Hlen] Hc1 Hc Hnf. unfold list_realloc_capacity.
  replace (c <? 1) with false by (symmetry; lia).
  rewrite (bind_Ret _ _ _ _ _ (load_list_eq _ _ _ Hl)). cbv zeta.
  replace (c =? capacity l) with false by (symmetry; lia).
  replace (c <? capacity l) with false by (symmetry; lia).
  replace (c >? capacity l) with true by (symmetry; lia).
  rewrite bind_eq, ret_eq.
  rewrite (bind_Ret _ _ _ _ _ (load_list_eq _ _ _ Hl)).
  rewrite bind_eq. unfold store at 1. rewrite Hl.
  fold (store_list m list_ (set_capacity l c)).
  rewrite (bind_Ret _ _ _ _ _ (malloc_eq _ (never_fails_store_list _ _ _ Hnf))).
  change (bump (store_list m list_ (set_capacity l c)))
    with (store_list (bump m) list_ (set_capacity l c)).
  rewrite (bind_Ret _ _ _ _ _ (load_list_eq _ _ _ (store_list_lookup _ _ _))).
  cbn [negb]. rewrite bind_eq. unfold store at 1. rewrite store_list_lookup.
  match goal with |- context [Mem (<[list_ := OList ?x]> (heap ?mm)) _ _ _] =>
    change (Mem (<[list_ := OList x]> (heap mm)) (brk mm) (alloc_count mm) (alloc_ok mm))
      with (store_list mm list_ x)
  end.
  rewrite store_list_twice, set_capacity_items.
  remember (Z.to_nat (c - capacity l - 1)) as n eqn:En.
  assert (Hitems : realloc_items (items (set_capacity l c)) c
                   = items l ++ replicate 0 NULL ++ replicate (S n) Wild).
  { unfold realloc_items. change (items (set_capacity l c)) with (items l).
    rewrite take_ge by (rewrite length_app, length_replicate; lia).
    change (replicate 0 NULL ++ ?x) with x.
    f_equal. f_equal. lia. }
  rewrite Hitems. unfold for_up.
  replace (Z.to_nat (c - 1 - capacity l)) with n by lia.
  destruct (for_loop_run
              (λ k (_ : unit) mk,
                 mk = store_list (bump m) list_
                        {| size := size l; capacity := c;
                           items := items l ++ replicate k NULL ++ replicate (S n - k) Wild;
                           equalityFunction := equalityFunction l;
                           sortingFunction := sortingFunction l |})
              n (capacity l) 1 tt
              (λ i _, set_item list_ i NULL;; mret (inl tt))
              (store_list (bump m) list_
                 {| size := size l; capacity := c;
                    items := items l ++ replicate 0 NULL ++ replicate (S n) Wild;
                    equalityFunction := equalityFunction l;
                    sortingFunction := sortingFunction l |}))
    as ([] & m' & Hrun & ->).
  - rewrite Nat.sub_0_r. reflexivity.
  - intros k [] mk Hk ->. exists tt. eexists. split; [|reflexivity].
    match goal with |- context [store_list (bump m) list_ ?x] => remember x as lk eqn:Elk end.
    assert (Hb : 0 <= capacity l + Z.of_nat k * 1 < Z.of_nat (length (items lk)))
      by (rewrite Elk; cbn [items]; rewrite !length_app, !length_replicate; lia).
    rewrite (bind_Ret _ _ _ _ _
               (set_item_eq _ _ lk (capacity l + Z.of_nat k * 1) NULL
                  (store_list_lookup _ _ _) Hb)).
    rewrite store_list_twice, ret_eq. do 3 f_equal. subst lk.
    unfold set_items. cbn [size capacity items equalityFunction sortingFunction]. f_equal.
    replace (Z.to_nat (capacity l + Z.of_nat k * 1)) with (length (items l) + k)%nat by lia.
    replace (S n - k)%nat with (S (n - k)) by lia.
    rewrite replicate_insert_next. reflexivity.
  - rewrite (bind_Ret _ _ _ _ _ Hrun), ret_eq. do 3 f_equal. unfold grown. f_equal.
    replace (S n - n)%nat with 1%nat by lia. rewrite En. reflexivity.
Qed.

(** ** Elements *)

(** The memory after the allocation of one object, with [k] requests to the
    allocator. *)
Definition with_new (m : memory) (o : object) (k : nat) : memory :=
  Mem (<[brk m := o]> (heap m)) (Pos.succ (brk m)) (k + alloc_count m) (alloc_ok m).

(** What [memcpy] reads: [size] bytes of the value, when there is one. *)
Definition readable (value : option bytes) (size : Z) : Prop :=
  match value with
  | None => True
  | Some v => 0 <= size <= Z.of_nat (length v)
  end.

(** The buffer of an element made from [value] and [size]. *)
Definition copy_of (value : option bytes) (size : Z) : option bytes :=
  match value with
  | None => None
  | Some v => Some (take (Z.to_nat size) v)
  end.

Definition requests (value : option bytes) : nat :=
  match value with None => 1 | Some _ => 2 end.

Definition element_of (value : option bytes) (size : Z) : list_element_t :=
  {| el_size := size; el_value := copy_of value size |}.

Lemma memcpy_eq (v : bytes) (size : Z) :
  0 <= size <= Z.of_nat (length v) → memcpy (Some v) size = Ret (take (Z.to_nat size) v).
Proof.
  intros H. unfold memcpy.
  replace ((0 <=? size) && (size <=? Z.of_nat (length v))) with true by (symmetry; lia).
  reflexivity.
Qed.

Lemma list_element_create_eq (m : memory) (value : option bytes) (size : Z) :
  never_fails m → readable value size →
  list_element_create value size m
  = Ret ((LIST_SUCCESS, Some (brk m)),
         with_new m (OElement (element_of value size)) (requests value)).
Proof.
  intros Hnf Hr. unfold list_element_create.
  rewrite (bind_Ret _ _ _ _ _ (malloc_eq _ Hnf)). cbn [negb].
  destruct value as [v|]; [|reflexivity].
  rewrite (bind_Ret _ _ _ _ _ (malloc_eq _ (never_fails_bump _ Hnf))). cbn [negb].
  rewrite bind_eq. unfold lift. rewrite (memcpy_eq _ _ Hr). reflexivity.
Qed.

Lemma load_list_element_eq (m : memory) (a : addr) (e : list_element_t) :
  heap m !! a = Some (OElement e) → load_element (Ptr a) m = Ret (e, m).
Proof. intros H. unfold load_element. rewrite bind_eq. unfold load. rewrite H. reflexivity. Qed.

Lemma element_ok_copy (e : list_element_t) :
  element_ok e → element_of (el_value e) (el_size e) = e.
Proof.
  intros Hok. destruct e as [n [v|]]; [|reflexivity].
  unfold element_of, copy_of. cbn [el_size el_value]. f_equal. f_equal.
  apply take_ge. specialize (Hok v eq_refl). cbn [el_size] in Hok. lia.
Qed.

Lemma list_element_clone_eq (m : memory) (a : addr) (e : list_element_t) :
  never_fails m → heap m !! a = Some (OElement e) → element_ok e →
  list_element_clone (Ptr a) m
  = Ret ((LIST_SUCCESS, Some (brk m)), with_new m (OElement e) (requests (el_value e))).
Proof.
  intros Hnf Ha Hok. unfold list_element_clone.
  rewrite (bind_Ret _ _ _ _ _ (malloc_eq _ Hnf)). cbn [negb].
  rewrite (bind_Ret _ _ _ _ _ (load_list_element_eq (bump m) _ _ Ha)).
  pose proof (element_ok_copy e Hok) as Hcopy.
  destruct e as [n [v|]]; cbn [el_value el_size] in *; [|reflexivity].
  rewrite (bind_Ret _ _ _ _ _ (malloc_eq _ (never_fails_bump _ Hnf))). cbn [negb].
  rewrite bind_eq. unfold lift. rewrite memcpy_eq.
  - unfold element_of, copy_of in Hcopy. injection Hcopy as Hcopy.
    rewrite Hcopy. reflexivity.
  - specialize (Hok v eq_refl). cbn [el_size] in Hok. lia.
Qed.

Lemma allocator_ok_fresh (m : memory) (a : addr) (o : object) :
  allocator_ok m → heap m !! a = Some o → a ≠ brk m.
Proof. intros Hok Ha ->. rewrite Hok in Ha by lia. discriminate. Qed.

Lemma allocator_ok_with_new (m : memory) (o : object) (k : nat) :
  allocator_ok m → allocator_ok (with_new m o k).
Proof.
  intros Hok a Ha. cbn [with_new heap brk] in *.
  rewrite lookup_insert_ne by lia. apply Hok. lia.
Qed.

Lemma allocator_ok_store_list (m : memory) (list_ : addr) (l l' : list_t) :
  allocator_ok m → heap m !! list_ = Some (OList l) → allocator_ok (store_list m list_ l').
Proof.
  intros Hok Hl a Ha. cbn [store_list heap brk] in *.
  rewrite lookup_insert_ne; [apply Hok, Ha|].
  intros ->. rewrite Hok in Hl by exact Ha. discriminate.
Qed.

(** ** [list_append] *)

Lemma with_new_lookup_old (m : memory) (o o' : object) (k : nat) (a : addr) :
  allocator_ok m → heap m !! a = Some o → heap (with_new m o' k) !! a = Some o.
Proof.
  intros Hok Ha. cbn [with_new heap].
  rewrite lookup_insert_ne; [exact Ha|]. intros E. exact (allocator_ok_fresh _ _ _ Hok Ha (eq_sym E)).
Qed.

Lemma list_append_not_full (m : memory) (list_ : addr) (l : list_t)
    (value : option bytes) (size : Z) :
  heap m !! list_ = Some (OList l) →
  slots_ok l →
  ArrayList.size l < capacity l →
  capacity l < 2 ^ 63 →
  never_fails m → allocator_ok m → readable value size →
  list_append (Some list_) value size m
  = Ret (LIST_SUCCESS,
         store_list (with_new m (OElement (element_of value size)) (requests value)) list_
           (set_items (set_size l (ArrayList.size l + 1))
              (<[Z.to_nat (ArrayList.size l) := Ptr (brk m)]> (items l)))).
Proof.
  intros Hl [Hsize Hlen] Hfull Hint Hnf Hok Hr. unfold list_append.
  rewrite (bind_Ret _ _ _ _ _ (load_list_eq _ _ _ Hl)).
  replace (ArrayList.size l =? capacity l) with false by (symmetry; lia).
  rewrite bind_eq, ret_eq. cbn [is_success negb].
  rewrite (bind_Ret _ _ _ _ _ (list_element_create_eq _ _ _ Hnf Hr)). cbn [is_success negb].
  pose proof (with_new_lookup_old m _ (OElement (element_of value size)) (requests value)
                _ Hok Hl) as Hl1.
  rewrite (bind_Ret _ _ _ _ _ (load_list_eq _ _ _ Hl1)).
  rewrite (bind_Ret _ _ _ _ _ (write_size_eq _ _ _ _ Hl1)).
  rewrite int64_small by lia.
  remember (set_size l (ArrayList.size l + 1)) as l1 eqn:El1.
  assert (Hb : 0 <= ArrayList.size l < Z.of_nat (length (items l1)))
    by (rewrite El1; cbn [items set_size]; lia).
  rewrite (bind_Ret _ _ _ _ _
             (set_item_eq _ _ l1 (ArrayList.size l) (local (Some (brk m)))
                (store_list_lookup _ _ _) Hb)).
  rewrite store_list_twice. subst l1. reflexivity.
Qed.

Lemma list_append_full (m : memory) (list_ : addr) (l : list_t)
    (value : option bytes) (size : Z) :
  heap m !! list_ = Some (OList l) →
  slots_ok l →
  ArrayList.size l = capacity l →
  1 <= capacity l →
  capacity l * 2 < 2 ^ 63 →
  never_fails m →
  list_append (Some list_) value size m
  = list_append (Some list_) value size
      (store_list (bump m) list_ (grown l (capacity l * 2))).
Proof.
  intros Hl Hok Hfull Hcap Hint Hnf. unfold list_append.
  rewrite (bind_Ret _ _ _ _ _ (load_list_eq _ _ _ Hl)).
  replace (ArrayList.size l =? capacity l) with true by (symmetry; lia).
  rewrite int64_small by lia.
  rewrite (bind_Ret _ _ _ _ _
             (list_realloc_capacity_grows _ _ _ (capacity l * 2) Hl Hok
                ltac:(lia) ltac:(lia) Hnf)).
  rewrite (bind_Ret _ _ _ _ _ (load_list_eq _ _ _ (store_list_lookup _ _ _))).
  cbn [grown ArrayList.size capacity].
  replace (ArrayList.size l =? capacity l * 2) with false by (symmetry; lia).
  reflexivity.
Qed.

Lemma store_with_new_lookup_new (m : memory) (list_ : addr) (l : list_t) (o : object) (k : nat) :
  list_ ≠ brk m → heap (store_list (with_new m o k) list_ l) !! brk m = Some o.
Proof.
  intros H. cbn [store_list with_new heap].
  rewrite lookup_insert_ne by exact H. apply lookup_insert_eq.
Qed.

Lemma store_with_new_lookup_other (m : memory) (list_ : addr) (l : list_t) (o : object)
    (k : nat) (a : addr) :
  a ≠ list_ → a ≠ brk m → heap (store_list (with_new m o k) list_ l) !! a = heap m !! a.
Proof.
  intros H1 H2. cbn [store_list with_new heap].
  rewrite !lookup_insert_ne by congruence. reflexivity.
Qed.

Lemma store_list_lookup_other (m : memory) (list_ : addr) (l : list_t) (a : addr) :
  a ≠ list_ → heap (store_list m list_ l) !! a = heap m !! a.
Proof. intros H. cbn [store_list heap]. apply lookup_insert_ne. congruence. Qed.

Lemma take_insert_next {A} (a : list A) (n : nat) (x : A) :
  (n < length a)%nat → take (S n) (<[n := x]> a) = take n a ++ [x].
Proof.
  intros H. apply list_eq. intros k.
  destruct (decide (k < n)%nat) as [Hk|Hk].
  - rewrite lookup_take_lt, list_lookup_insert_ne by lia.
    rewrite lookup_app_l by (rewrite length_take; lia).
    rewrite lookup_take_lt by lia. reflexivity.
  - destruct (decide (k = n)) as [->|Hne].
    + rewrite lookup_take_lt, list_lookup_insert_eq by lia.
      rewrite lookup_app_r by (rewrite length_take; lia).
      rewrite length_take. replace (n - n `min` length a)%nat with 0%nat by lia. reflexivity.
    + rewrite lookup_take_ge by lia.
      rewrite lookup_ge_None_2; [reflexivity|].
      rewrite length_app, length_take. simpl. lia.
Qed.

End ArrayListOps.

(** [list_reverse] puts the slots below the size in the opposite order and
    touches nothing else: not the slots from the size on, not the elements;
    the same call once more gives the memory it started from. *)
Theorem list_reverse_reverses_the_slots_in_use
    (m : ArrayList.memory) (list_ : addr) (l : ArrayList.list_t) :
  heap m !! list_ = Some (ArrayList.OList l) →
  ArrayListOps.slots_ok l →
  ArrayList.list_reverse (Some list_) m
  = Ret (ArrayList.LIST_SUCCESS,
         ArrayListOps.store_list m list_
           (ArrayList.set_items l
              (reverse (ArrayList.live_items l)
               ++ drop (Z.to_nat (ArrayList.size l)) (ArrayList.items l))))
  ∧ ArrayList.list_reverse (Some list_)
      (ArrayListOps.store_list m list_
         (ArrayList.set_items l
            (reverse (ArrayList.live_items l)
             ++ drop (Z.to_nat (ArrayList.size l)) (ArrayList.items l))))
    = Ret (ArrayList.LIST_SUCCESS, m).
Proof.
  intros Hl Hok. split; [apply ArrayListOps.list_reverse_run; assumption|].
  destruct Hok as [Hsize Hlen].
  assert (Htake : length (ArrayList.live_items l) = Z.to_nat (ArrayList.size l))
    by (unfold ArrayList.live_items; rewrite length_take; lia).
  rewrite (ArrayListOps.list_reverse_run _ list_ _ (ArrayListOps.store_list_lookup _ _ _)).
  - rewrite ArrayListOps.store_list_twice, ArrayListOps.set_items_twice.
    change (ArrayList.items (ArrayList.set_items l ?a)) with a.
    change (ArrayList.size (ArrayList.set_items l ?a)) with (ArrayList.size l).
    rewrite take_app_length' by (rewrite length_reverse, Htake; reflexivity).
    rewrite drop_app_length' by (rewrite length_reverse, Htake; reflexivity).
    rewrite reverse_involutive. unfold ArrayList.live_items.
    rewrite take_drop, ArrayListOps.set_items_same, (ArrayListOps.store_list_same _ _ _ Hl).
    reflexivity.
  - split; [exact Hsize|]. cbn [ArrayList.items ArrayList.set_items ArrayList.capacity].
    rewrite length_app, length_reverse, Htake, length_drop. lia.
Qed.

(** [list_swap] with two indices below the size exchanges the two slots and
    touches nothing else; the same call once more gives the memory it
    started from. *)
Theorem list_swap_exchanges_two_slots
    (m : ArrayList.memory) (list_ : addr) (l : ArrayList.list_t) (index1 index2 : Z) :
  heap m !! list_ = Some (ArrayList.OList l) →
  ArrayListOps.slots_ok l →
  0 <= index1 < ArrayList.size l →
  0 <= index2 < ArrayList.size l →
  ArrayList.list_swap (Some list_) index1 index2 m
  = Ret (ArrayList.LIST_SUCCESS,
         ArrayListOps.store_list m list_
           (ArrayList.set_items l
              (ArrayListOps.exchange (ArrayList.items l) (Z.to_nat index1) (Z.to_nat index2))))
  ∧ ArrayList.list_swap (Some list_) index1 index2
      (ArrayListOps.store_list m list_
         (ArrayList.set_items l
            (ArrayListOps.exchange (ArrayList.items l) (Z.to_nat index1) (Z.to_nat index2))))
    = Ret (ArrayList.LIST_SUCCESS, m).
Proof.
  intros Hl Hok H1 H2. split; [apply ArrayListOps.list_swap_run; assumption|].
  destruct Hok as [Hsize Hlen].
  rewrite (ArrayListOps.list_swap_run _ list_ _ index1 index2
             (ArrayListOps.store_list_lookup _ _ _)).
  - rewrite ArrayListOps.store_list_twice, ArrayListOps.set_items_twice.
    change (ArrayList.items (ArrayList.set_items l ?a)) with a.
    rewrite ArrayListOps.exchange_twice by lia.
    rewrite ArrayListOps.set_items_same, (ArrayListOps.store_list_same _ _ _ Hl).
    reflexivity.
  - split; [exact Hsize|]. cbn [ArrayList.items ArrayList.set_items ArrayList.capacity].
    rewrite ArrayListOps.exchange_length. exact Hlen.
  - exact H1.
  - exact H2.
Qed.

(** [list_resize] to a larger capacity, one whose slots take fewer than 2^64
    bytes (the size [realloc] is asked for is eight times the capacity, in
    [size_t]), when the allocator grants the request: the call keeps the
    size and every slot, sets the new slots to null except the last one,
    which stays as [realloc] left it, and changes nothing else. *)
Theorem list_resize_to_a_larger_capacity
    (m : ArrayList.memory) (list_ : addr) (l : ArrayList.list_t) (capacity : Z) :
  heap m !! list_ = Some (ArrayList.OList l) →
  ArrayListOps.slots_ok l →
  1 <= capacity →
  ArrayList.capacity l < capacity →
  8 * capacity < 2 ^ 64 →
  ArrayListOps.never_fails m →
  ArrayList.list_resize (Some list_) capacity m
  = Ret (ArrayList.LIST_SUCCESS,
         ArrayListOps.store_list (ArrayListOps.bump m) list_
           {| ArrayList.size := ArrayList.size l;
              ArrayList.capacity := capacity;
              ArrayList.items :=
                ArrayList.items l
                ++ replicate (Z.to_nat (capacity - ArrayList.capacity l - 1)) ArrayList.NULL
                ++ [ArrayList.Wild];
              ArrayList.equalityFunction := ArrayList.equalityFunction l;
              ArrayList.sortingFunction := ArrayList.sortingFunction l |}).
Proof.
  intros Hl Hok Hc1 Hc Hbytes Hnf. unfold ArrayList.list_resize.
  replace (capacity <? 1) with false by (symmetry; lia).
  rewrite (bind_Ret _ _ _ _ _ (ArrayListFacts.load_list_eq _ _ _ Hl)).
  replace (capacity =? ArrayList.capacity l) with false by (symmetry; lia).
  rewrite (bind_Ret _ _ _ _ _
             (ArrayListOps.list_realloc_capacity_grows _ _ _ capacity Hl Hok Hc1 Hc Hnf)).
  reflexivity.
Qed.

(** [list_append] on a list whose fields agree, with an allocator that
    grants every request: the value is copied into a new element, the element
    goes behind the ones in use, and the size goes up by one; the capacity
    doubles when the list was full and stays otherwise.  The elements that
    were in the list are not touched. *)
Theorem list_append_adds_at_the_end
    (m : ArrayList.memory) (list_ : addr) (l : ArrayList.list_t)
    (value : option bytes) (size : Z) :
  heap m !! list_ = Some (ArrayList.OList l) →
  ArrayListOps.slots_ok l →
  1 <= ArrayList.capacity l →
  ArrayList.capacity l * 2 < 2 ^ 63 →
  ArrayListOps.never_fails m →
  ArrayListOps.allocator_ok m →
  ArrayListOps.readable value size →
  ∃ (m' : ArrayList.memory) (l' : ArrayList.list_t),
    ArrayList.list_append (Some list_) value size m = Ret (ArrayList.LIST_SUCCESS, m')
    ∧ heap m' !! list_ = Some (ArrayList.OList l')
    ∧ ArrayList.live_items l' = ArrayList.live_items l ++ [ArrayList.Ptr (brk m)]
    ∧ ArrayList.size l' = ArrayList.size l + 1
    ∧ ArrayList.capacity l'
      = (if ArrayList.size l =? ArrayList.capacity l
         then ArrayList.capacity l * 2 else ArrayList.capacity l)
    ∧ heap m !! brk m = None
    ∧ heap m' !! brk m = Some (ArrayList.OElement (ArrayListOps.element_of value size))
    ∧ (∀ a, a ≠ list_ → a ≠ brk m → heap m' !! a = heap m !! a)
    ∧ ArrayListOps.slots_ok l'
    ∧ ArrayListOps.never_fails m'
    ∧ ArrayListOps.allocator_ok m'.
Proof.
  intros Hl Hok Hcap Hint Hnf Hal Hr.
  pose proof Hok as [Hsize Hlen].
  pose proof (ArrayListOps.allocator_ok_fresh _ _ _ Hal Hl) as Hfresh.
  destruct (decide (ArrayList.size l = ArrayList.capacity l)) as [Hfull|Hfull].
  - set (l0 := ArrayListOps.grown l (ArrayList.capacity l * 2)).
    set (m0 := ArrayListOps.store_list (ArrayListOps.bump m) list_ l0).
    assert (Hl0 : heap m0 !! list_ = Some (ArrayList.OList l0))
      by apply ArrayListOps.store_list_lookup.
    assert (Hlen0 : Z.of_nat (length (ArrayList.items l0)) = ArrayList.capacity l * 2).
    { unfold l0. cbn [ArrayListOps.grown ArrayList.items].
      rewrite !length_app, length_replicate. simpl. lia. }
    assert (Hok0 : ArrayListOps.slots_ok l0).
    { split; [unfold l0; cbn [ArrayListOps.grown ArrayList.size ArrayList.capacity]; lia|].
      exact Hlen0. }
    assert (Hal0 : ArrayListOps.allocator_ok m0).
    { apply (ArrayListOps.allocator_ok_store_list (ArrayListOps.bump m) _ l); assumption. }
    rewrite (ArrayListOps.list_append_full _ _ _ _ _ Hl Hok Hfull Hcap Hint Hnf).
    fold l0. fold m0.
    rewrite (ArrayListOps.list_append_not_full m0 list_ l0 value size Hl0 Hok0
               ltac:(unfold l0; cbn [ArrayListOps.grown ArrayList.size ArrayList.capacity]; lia)
               ltac:(unfold l0; cbn [ArrayListOps.grown ArrayList.capacity]; lia)
               Hnf Hal0 Hr).
    eexists _, _. split; [reflexivity|].
    split; [apply ArrayListOps.store_list_lookup|].
    replace (ArrayList.size l =? ArrayList.capacity l) with true by (symmetry; lia).
    split_and!.
    + unfold ArrayList.live_items.
      cbn [ArrayList.size ArrayList.items ArrayList.set_items ArrayList.set_size
           ArrayListOps.grown l0].
      replace (Z.to_nat (ArrayList.size l + 1)) with (S (Z.to_nat (ArrayList.size l))) by lia.
      rewrite ArrayListOps.take_insert_next
        by (rewrite !length_app, length_replicate; simpl; lia).
      rewrite take_app_le by lia. reflexivity.
    + reflexivity.
    + reflexivity.
    + apply Hal. reflexivity.
    + apply (ArrayListOps.store_with_new_lookup_new m0). exact Hfresh.
    + intros a Ha Hb. rewrite (ArrayListOps.store_with_new_lookup_other m0) by assumption.
      apply (ArrayListOps.store_list_lookup_other (ArrayListOps.bump m)). exact Ha.
    + split; cbn [ArrayList.size ArrayList.capacity ArrayList.items ArrayList.set_items
                  ArrayList.set_size ArrayListOps.grown l0].
      * lia.
      * rewrite length_insert. exact Hlen0.
    + exact Hnf.
    + apply (ArrayListOps.allocator_ok_store_list _ _ l0).
      * apply ArrayListOps.allocator_ok_with_new. exact Hal0.
      * apply ArrayListOps.with_new_lookup_old; assumption.
  - rewrite (ArrayListOps.list_append_not_full m list_ l value size Hl Hok
               ltac:(lia) ltac:(lia) Hnf Hal Hr).
    eexists _, _. split; [reflexivity|].
    split; [apply ArrayListOps.store_list_lookup|].
    replace (ArrayList.size l =? ArrayList.capacity l) with false by (symmetry; lia).
    split_and!.
    + unfold ArrayList.live_items.
      cbn [ArrayList.size ArrayList.items ArrayList.set_items ArrayList.set_size].
      replace (Z.to_nat (ArrayList.size l + 1)) with (S (Z.to_nat (ArrayList.size l))) by lia.
      rewrite ArrayListOps.take_insert_next by lia. reflexivity.
    + reflexivity.
    + reflexivity.
    + apply Hal. reflexivity.
    + apply ArrayListOps.store_with_new_lookup_new. exact Hfresh.
    + intros a Ha Hb. apply ArrayListOps.store_with_new_lookup_other; assumption.
    + split; cbn [ArrayList.size ArrayList.capacity ArrayList.items ArrayList.set_items
                  ArrayList.set_size].
      * lia.
      * rewrite length_insert. exact Hlen.
    + exact Hnf.
    + apply (ArrayListOps.allocator_ok_store_list _ _ l).
      * apply ArrayListOps.allocator_ok_with_new. exact Hal.
      * apply ArrayListOps.with_new_lookup_old; assumption.
Qed.

(** [list_get] of an index below the size whose slot holds an element, with
    an allocator that grants every request, returns a new element that is
    equal to the one in the list (same size, same bytes), and changes nothing
    that was in memory: the caller gets a copy. *)
Theorem list_get_returns_a_copy
    (m : ArrayList.memory) (list_ : addr) (l : ArrayList.list_t) (index : Z)
    (a : addr) (e : ArrayList.list_element_t) :
  heap m !! list_ = Some (ArrayList.OList l) →
  ArrayListOps.slots_ok l →
  0 <= index < ArrayList.size l →
  ArrayList.items l !! Z.to_nat index = Some (ArrayList.Ptr a) →
  heap m !! a = Some (ArrayList.OElement e) →
  ArrayList.element_ok e →
  ArrayListOps.never_fails m →
  ArrayListOps.allocator_ok m →
  ∃ m' : ArrayList.memory,
    ArrayList.list_get (Some list_) index m
      = Ret ((ArrayList.LIST_SUCCESS, Some (ArrayList.Ptr (brk m))), m')
    ∧ heap m !! brk m = None
    ∧ heap m' = <[brk m := ArrayList.OElement e]> (heap m).
Proof.
  intros Hl [Hsize Hlen] Hi Hp Ha He Hnf Hal. unfold ArrayList.list_get.
  rewrite (bind_Ret _ _ _ _ _ (ArrayListFacts.load_list_eq _ _ _ Hl)).
  replace ((index >=? ArrayList.size l) || (index <? 0)) with false by (symmetry; lia).
  rewrite (bind_Ret _ _ _ _ _ (ArrayListSlots.get_item_eq _ _ _ index _ Hl ltac:(lia) Hp)).
  rewrite (bind_Ret _ _ _ _ _ (ArrayListOps.list_element_clone_eq _ _ _ Hnf Ha He)).
  cbn [ArrayList.is_success negb ArrayList.local].
  eexists. split; [reflexivity|]. split; [apply Hal; reflexivity | reflexivity].
Qed.

(** [list_set] of an index below the size whose slot holds an element, with
    a value of at least [size] bytes and a size that is not 0: the element
    then holds the first [size] bytes of the value, and nothing else is
    changed; [list_get] of the same index then returns a copy of those bytes.
    The conditions: the fields of the list agree with its slots; with the
    size the element has already, the element has a buffer (the code copies
    into it); no allocation fails; and nothing lives at or above the address
    the next object gets. *)
Theorem list_set_then_get
    (m : ArrayList.memory) (list_ : addr) (l : ArrayList.list_t) (index : Z)
    (a : addr) (e : ArrayList.list_element_t) (v : bytes) (size : Z) :
  heap m !! list_ = Some (ArrayList.OList l) →
  ArrayListOps.slots_ok l →
  0 <= index < ArrayList.size l →
  ArrayList.items l !! Z.to_nat index = Some (ArrayList.Ptr a) →
  heap m !! a = Some (ArrayList.OElement e) →
  0 < size <= Z.of_nat (length v) →
  (size = ArrayList.el_size e → ArrayList.el_value e ≠ None) →
  ArrayListOps.never_fails m →
  ArrayListOps.allocator_ok m →
  ∃ m' m'' : ArrayList.memory,
    ArrayList.list_set (Some list_) index (Some v) size m = Ret (ArrayList.LIST_SUCCESS, m')
    ∧ heap m' = <[a := ArrayList.OElement (ArrayListOps.element_of (Some v) size)]> (heap m)
    ∧ ArrayList.list_get (Some list_) index m'
      = Ret ((ArrayList.LIST_SUCCESS, Some (ArrayList.Ptr (brk m'))), m'')
    ∧ heap m'' !! brk m'
      = Some (ArrayList.OElement
                {| ArrayList.el_size := size;
                   ArrayList.el_value := Some (take (Z.to_nat size) v) |}).
Proof.
  intros Hl Hok Hi Hp Ha Hsize Hsame Hnf Hal.
  pose proof Hok as [Hs Hlen].
  assert (Hne : a ≠ list_) by (intros ->; congruence).
  assert (Hset : ∃ m', ArrayList.list_set (Some list_) index (Some v) size m
                       = Ret (ArrayList.LIST_SUCCESS, m')
                     ∧ heap m'
                       = <[a := ArrayList.OElement (ArrayListOps.element_of (Some v) size)]>
                           (heap m)
                     ∧ brk m' = brk m ∧ alloc_ok m' = alloc_ok m).
  { assert (Hes : ∃ m', ArrayList.list_element_set (ArrayList.Ptr a) (Some v) size m
                          = Ret (ArrayList.LIST_SUCCESS, m')
                        ∧ heap m'
                          = <[a := ArrayList.OElement (ArrayListOps.element_of (Some v) size)]>
                              (heap m)
                        ∧ brk m' = brk m ∧ alloc_ok m' = alloc_ok m).
    { unfold ArrayList.list_element_set.
      rewrite (bind_Ret _ _ _ _ _ (ArrayListOps.load_list_element_eq _ _ _ Ha)).
      destruct (size =? ArrayList.el_size e) eqn:E; cbn [negb].
      - apply Z.eqb_eq in E. specialize (Hsame E).
        destruct (ArrayList.el_value e) as [old|]; [|congruence].
        rewrite bind_eq. unfold lift. rewrite ArrayListOps.memcpy_eq by lia.
        cbv beta iota. rewrite bind_eq. unfold store. rewrite Ha.
        eexists. split; [reflexivity|]. split_and!; reflexivity.
      - rewrite (bind_Ret _ _ _ _ _ (ArrayListOps.malloc_eq _ Hnf)). cbn [negb].
        rewrite bind_eq. unfold lift. rewrite ArrayListOps.memcpy_eq by lia.
        cbv beta iota. rewrite bind_eq. unfold store. cbn [ArrayListOps.bump heap]. rewrite Ha.
        eexists. split; [reflexivity|]. split_and!; reflexivity. }
    destruct Hes as (m' & Hes & Hfacts).
    exists m'. split; [|exact Hfacts].
    unfold ArrayList.list_set.
    rewrite (bind_Ret _ _ _ _ _ (ArrayListFacts.load_list_eq _ _ _ Hl)).
    replace ((index >=? ArrayList.size l) || (index <? 0)) with false by (symmetry; lia).
    replace (size =? 0) with false by (symmetry; lia).
    rewrite (bind_Ret _ _ _ _ _ (ArrayListSlots.get_item_eq _ _ _ index _ Hl ltac:(lia) Hp)).
    cbv beta iota. rewrite (bind_Ret _ _ _ _ _ Hes). reflexivity. }
  destruct Hset as (m' & Hrun & Hheap & Hbrk & Hallocs).
  assert (Hel : ArrayList.element_ok (ArrayListOps.element_of (Some v) size)).
  { intros data H. cbn in H. injection H as <-. cbn. rewrite length_take. lia. }
  destruct (list_get_returns_a_copy m' list_ l index a
              (ArrayListOps.element_of (Some v) size))
    as (m'' & Hget & _ & Hheap''); try assumption.
  - rewrite Hheap, lookup_insert_ne by exact Hne. exact Hl.
  - rewrite Hheap. apply lookup_insert_eq.
  - intros k. rewrite Hallocs. apply Hnf.
  - intros b Hb. rewrite Hheap. rewrite Hbrk in Hb.
    rewrite lookup_insert_ne; [apply Hal, Hb|].
    intros ->. rewrite Hal in Ha by exact Hb. discriminate.
  - exists m', m''. split; [exact Hrun|]. split; [exact Hheap|]. split; [exact Hget|].
    rewrite Hheap''. apply lookup_insert_eq.
Qed.

(** * The array list: a walk with the iterator *)

Module ArrayListWalk.
Import ArrayList ArrayListFacts ArrayListSlots ArrayListOps.

(** A caller that steps an iterator [n] times and notes after each step the
    result of [list_iterator_next], the index and the element of the
    iterator. *)
Fixpoint visit (n : nat) (iterator : addr) : C (list (list_result_t * Z * pointer)) :=
  match n with
  | O => mret []
  | S n' =>
      result ← list_iterator_next (Some iterator);
      it ← load_iterator iterator;
      rest ← visit n' iterator;
      mret ((result, index it, element it) :: rest)
  end.

(** The notes of a walk over the slots [ps], the first of which has the
    index [i]. *)
Fixpoint steps (i : Z) (ps : list pointer) : list (list_result_t * Z * pointer) :=
  match ps with
  | [] => []
  | p :: ps' => (LIST_SUCCESS, i, p) :: steps (i + 1) ps'
  end.

(** The memory with the iterator at another place. *)
Definition store_iterator (m : memory) (iterator : addr) (it : list_iterator_t) : memory :=
  Mem (<[iterator := OIterator it]> (heap m)) (brk m) (alloc_count m) (alloc_ok m).

Lemma store_iterator_twice (m : memory) (iterator : addr) (it1 it2 : list_iterator_t) :
  store_iterator (store_iterator m iterator it1) iterator it2 = store_iterator m iterator it2.
Proof.
  unfold store_iterator. cbn [heap brk alloc_count alloc_ok].
  rewrite insert_insert_eq. reflexivity.
Qed.

Lemma store_iterator_same (m : memory) (iterator : addr) (it : list_iterator_t) :
  heap m !! iterator = Some (OIterator it) → store_iterator m iterator it = m.
Proof. intros H. unfold store_iterator. rewrite insert_id by exact H. destruct m; reflexivity. Qed.

Lemma load_iterator_eq (m : memory) (iterator : addr) (it : list_iterator_t) :
  heap m !! iterator = Some (OIterator it) → load_iterator iterator m = Ret (it, m).
Proof. intros H. unfold load_iterator. rewrite bind_eq. unfold load. rewrite H. reflexivity. Qed.

Lemma store_iterator_eq (m : memory) (iterator : addr) (it it' : list_iterator_t) :
  heap m !! iterator = Some (OIterator it) →
  store iterator (OIterator it') m = Ret (tt, store_iterator m iterator it').
Proof. intros H. unfold store. rewrite H. reflexivity. Qed.

Lemma visit_S (n : nat) (iterator : addr) :
  visit (S n) iterator
  = (result ← list_iterator_next (Some iterator);
     it ← load_iterator iterator;
     rest ← visit n iterator;
     mret ((result, index it, element it) :: rest)).
Proof. reflexivity. Qed.

(** From an iterator that stands on the index [i], the walk visits the slots
    after [i] and then meets the end. *)
Lemma visit_from (m : memory) (iterator list_ : addr) (l : list_t) (ps : list pointer) :
  ∀ (i : Z) (p p0 : pointer),
  heap m !! iterator
    = Some (OIterator {| it_list := Some list_; index := -1; element := NULL |}) →
  heap m !! list_ = Some (OList l) →
  slots_ok l →
  0 <= i < size l →
  drop (Z.to_nat (i + 1)) (live_items l) = ps →
  visit (S (length ps)) iterator
    (store_iterator m iterator {| it_list := Some list_; index := i; element := p |})
  = Ret (steps (i + 1) ps ++ [(LIST_INDEX_OUT_OF_RANGE_ERROR, -1, NULL)], m).
Proof.
  induction ps as [|q ps IH]; intros i p p0 Hit Hl Hok Hi Hps.
  - assert (Hlast : i + 1 >= size l).
    { apply (f_equal length) in Hps. unfold live_items in Hps.
      rewrite length_drop, length_take in Hps. destruct Hok. simpl in Hps. lia. }
    cbn [length]. rewrite visit_S. unfold list_iterator_next.
    assert (Hne : iterator ≠ list_) by (intros ->; congruence).
    set (m1 := store_iterator m iterator _).
    assert (Hit1 : heap m1 !! iterator
                   = Some (OIterator {| it_list := Some list_; index := i; element := p |}))
      by apply lookup_insert_eq.
    assert (Hl1 : heap m1 !! list_ = Some (OList l))
      by (unfold m1; cbn [store_iterator heap]; rewrite lookup_insert_ne by exact Hne; exact Hl).
    rewrite bind_eq. rewrite (bind_Ret _ _ _ _ _ (load_iterator_eq _ _ _ Hit1)).
    cbn [it_list index element].
    replace (i =? -1) with false by (symmetry; lia).
    rewrite (bind_Ret _ _ _ _ _ (load_list_eq _ _ _ Hl1)).
    replace (i + 1 >=? size l) with true by (symmetry; lia).
    rewrite (bind_Ret _ _ _ _ _ (store_iterator_eq _ _ _ _ Hit1)).
    rewrite ret_eq. unfold m1. rewrite store_iterator_twice.
    rewrite (store_iterator_same _ _ _ Hit).
    rewrite (bind_Ret _ _ _ _ _ (load_iterator_eq _ _ _ Hit)). reflexivity.
  - assert (Hnext : i + 1 < size l ∧ items l !! Z.to_nat (i + 1) = Some q
                    ∧ drop (Z.to_nat (i + 1 + 1)) (live_items l) = ps).
    { destruct Hok as [Hs Hlen].
      assert (Hlen' := f_equal length Hps). unfold live_items in Hlen'.
      rewrite length_drop, length_take in Hlen'. simpl in Hlen'.
      split; [lia|]. split.
      - assert (Hq : drop (Z.to_nat (i + 1)) (live_items l) !! 0%nat = Some q)
          by (rewrite Hps; reflexivity).
        rewrite lookup_drop, Nat.add_0_r in Hq.
        unfold live_items in Hq. rewrite lookup_take_lt in Hq by lia. exact Hq.
      - replace (Z.to_nat (i + 1 + 1)) with (Z.to_nat (i + 1) + 1)%nat by lia.
        rewrite <- drop_drop, Hps. reflexivity. }
    destruct Hnext as (Hlt & Hq & Hps').
    rewrite visit_S. change (length (q :: ps)) with (S (length ps)). cbn [steps].
    unfold list_iterator_next.
    assert (Hne : iterator ≠ list_) by (intros ->; congruence).
    set (m1 := store_iterator m iterator _).
    assert (Hit1 : heap m1 !! iterator
                   = Some (OIterator {| it_list := Some list_; index := i; element := p |}))
      by apply lookup_insert_eq.
    assert (Hl1 : heap m1 !! list_ = Some (OList l))
      by (unfold m1; cbn [store_iterator heap]; rewrite lookup_insert_ne by exact Hne; exact Hl).
    rewrite bind_eq. rewrite (bind_Ret _ _ _ _ _ (load_iterator_eq _ _ _ Hit1)).
    cbn [it_list index element].
    replace (i =? -1) with false by (symmetry; lia).
    rewrite (bind_Ret _ _ _ _ _ (load_list_eq _ _ _ Hl1)).
    replace (i + 1 >=? size l) with false by (symmetry; lia).
    rewrite (bind_Ret _ _ _ _ _ (get_item_eq _ _ _ (i + 1) _ Hl1 ltac:(lia) Hq)).
    rewrite (bind_Ret _ _ _ _ _ (store_iterator_eq _ _ _ _ Hit1)).
    rewrite ret_eq. unfold m1. rewrite store_iterator_twice.
    rewrite (bind_Ret _ _ _ _ _ (load_iterator_eq _ _ _ (lookup_insert_eq _ _ _))).
    cbn [index element].
    rewrite (bind_Ret _ _ _ _ _ (IH (i + 1) q p0 Hit Hl Hok ltac:(lia) Hps')).
    reflexivity.
Qed.

End ArrayListWalk.

(** A walk over a list that is not empty: from the rewound state,
    [list_iterator_next] succeeds once for each slot in use, standing on the
    indices 0, 1, ... in order with the element of the slot, and the call
    after the last slot returns [LIST_INDEX_OUT_OF_RANGE_ERROR] and rewinds
    the iterator; the walk leaves the memory as it found it. *)
Theorem list_iterator_visits_every_slot_in_order
    (m : ArrayList.memory) (iterator list_ : addr) (l : ArrayList.list_t) :
  heap m !! iterator
    = Some (ArrayList.OIterator
              {| ArrayList.it_list := Some list_; ArrayList.index := -1;
                 ArrayList.element := ArrayList.NULL |}) →
  heap m !! list_ = Some (ArrayList.OList l) →
  ArrayListOps.slots_ok l →
  1 <= ArrayList.size l →
  ArrayListWalk.visit (S (Z.to_nat (ArrayList.size l))) iterator m
  = Ret (ArrayListWalk.steps 0 (ArrayList.live_items l)
         ++ [(ArrayList.LIST_INDEX_OUT_OF_RANGE_ERROR, -1, ArrayList.NULL)], m).
Proof.
  intros Hit Hl Hok Hsize. pose proof Hok as [Hs Hlen].
  destruct (ArrayList.live_items l) as [|p ps] eqn:Hlive.
  { apply (f_equal length) in Hlive. unfold ArrayList.live_items in Hlive.
    rewrite length_take in Hlive. simpl in Hlive. lia. }
  assert (Hn : Z.to_nat (ArrayList.size l) = S (length ps)).
  { apply (f_equal length) in Hlive. unfold ArrayList.live_items in Hlive.
    rewrite length_take in Hlive. simpl in Hlive. lia. }
  assert (Hp : ArrayList.items l !! Z.to_nat 0 = Some p).
  { assert (H0 : ArrayList.live_items l !! 0%nat = Some p) by (rewrite Hlive; reflexivity).
    unfold ArrayList.live_items in H0. rewrite lookup_take_lt in H0 by lia. exact H0. }
  rewrite Hn. rewrite ArrayListWalk.visit_S. cbn [ArrayListWalk.steps].
  assert (Hne : iterator ≠ list_) by (intros ->; congruence).
  unfold ArrayList.list_iterator_next.
  rewrite bind_eq. rewrite (bind_Ret _ _ _ _ _ (ArrayListWalk.load_iterator_eq _ _ _ Hit)).
  cbn [ArrayList.it_list ArrayList.index]. change (-1 =? -1) with true. cbv iota.
  rewrite (bind_Ret _ _ _ _ _ (ArrayListSlots.get_item_eq _ _ _ 0 _ Hl ltac:(lia) Hp)).
  rewrite (bind_Ret _ _ _ _ _ (ArrayListWalk.store_iterator_eq _ _ _ _ Hit)).
  rewrite ret_eq.
  rewrite (bind_Ret _ _ _ _ _ (ArrayListWalk.load_iterator_eq _ _ _ (lookup_insert_eq _ _ _))).
  cbn [ArrayList.index ArrayList.element].
  rewrite (bind_Ret _ _ _ _ _
             (ArrayListWalk.visit_from m iterator list_ l ps 0 p ArrayList.NULL
                Hit Hl Hok ltac:(lia) ltac:(rewrite Hlive; reflexivity))).
  reflexivity.
Qed.

(** * The array list: searching *)

Module ArrayListSearch.
Import ArrayList ArrayListFacts ArrayListSlots ArrayListOps.

(** The test the three search functions make on an element: it has the size
    that is looked for, and the equality function of the list returns 0 for
    its value and the value that is looked for. *)
Definition found (f : list_custom_equality_function_t) (value : option bytes) (size : Z)
    (e : list_element_t) : bool :=
  (el_size e =? size)
  && match f (el_value e) value (el_size e) with
     | Ret c => c =? 0
     | _ => false
     end.

(** The equality function returns on the elements the search compares. *)
Definition comparable (f : list_custom_equality_function_t) (value : option bytes) (size : Z)
    (es : list list_element_t) : Prop :=
  ∀ e, e ∈ es → el_size e = size → ∃ c, f (el_value e) value (el_size e) = Ret c.

Lemma element_at_Some (h : gmap addr object) (p : pointer) (e : list_element_t) :
  element_at h p = Some e → ∃ a, p = Ptr a ∧ h !! a = Some (OElement e).
Proof.
  destruct p as [|a|]; try discriminate. cbn [element_at].
  destruct (h !! a) as [[| x |]|] eqn:E; try discriminate.
  intros [= <-]. eauto.
Qed.

(** The slots in use of a list whose elements are [es]. *)
Lemma live_element (h : gmap addr object) (l : list_t) (es : list list_element_t) (i : Z) :
  elements h l = Some <$> es →
  slots_ok l →
  0 <= i < size l →
  ∃ a e, items l !! Z.to_nat i = Some (Ptr a)
         ∧ h !! a = Some (OElement e)
         ∧ es !! Z.to_nat i = Some e.
Proof.
  intros Hes [Hs Hlen] Hi. unfold elements, live_items in Hes.
  assert (Hlook := f_equal (λ x, x !! Z.to_nat i) Hes). cbv beta in Hlook.
  rewrite !list_lookup_fmap, lookup_take_lt in Hlook by lia.
  destruct (items l !! Z.to_nat i) as [p|] eqn:Hp;
    [|apply lookup_ge_None in Hp; lia].
  destruct (es !! Z.to_nat i) as [e|] eqn:He; cbn in Hlook; [|discriminate].
  injection Hlook as Hat. apply element_at_Some in Hat as (a & -> & Ha). eauto.
Qed.

Lemma elements_length (h : gmap addr object) (l : list_t) (es : list list_element_t) :
  elements h l = Some <$> es → slots_ok l → Z.of_nat (length es) = size l.
Proof.
  intros Hes [Hs Hlen]. apply (f_equal length) in Hes.
  unfold elements, live_items in Hes. rewrite !length_fmap, length_take in Hes. lia.
Qed.

Lemma equality_of_eq (m : memory) (list_ : addr) (l : list_t) f :
  heap m !! list_ = Some (OList l) → equalityFunction l = Fn f →
  equality_of list_ m = Ret (f, m).
Proof.
  intros Hl Hf. unfold equality_of.
  rewrite (bind_Ret _ _ _ _ _ (load_list_eq _ _ _ Hl)), Hf. reflexivity.
Qed.

(** One round of the three search loops. *)
Lemma compare_slot (m : memory) (list_ : addr) (l : list_t) f (es : list list_element_t)
    (value : option bytes) (size i : Z) (e : list_element_t)
    {A} (k : bool → C A) :
  heap m !! list_ = Some (OList l) →
  equalityFunction l = Fn f →
  elements (heap m) l = Some <$> es →
  slots_ok l →
  comparable f value size es →
  0 <= i < ArrayList.size l →
  es !! Z.to_nat i = Some e →
  (p ← get_item list_ i; e ← load_element p;
   if negb (el_size e =? size) then k false else
   f ← equality_of list_;
   c ← lift (f (el_value e) value (el_size e));
   if c =? 0 then k true else k false) m
  = k (found f value size e) m.
Proof.
  intros Hl Hf Hes Hok Hcmp Hi He.
  destruct (live_element _ _ _ i Hes Hok Hi) as (a & e' & Hp & Ha & He').
  rewrite He in He'. injection He' as <-.
  rewrite (bind_Ret _ _ _ _ _ (get_item_eq _ _ _ i _ Hl ltac:(lia) Hp)).
  rewrite (bind_Ret _ _ _ _ _ (load_list_element_eq _ _ _ Ha)).
  unfold found. destruct (el_size e =? size) eqn:Esize; cbn [negb andb]; [|reflexivity].
  rewrite (bind_Ret _ _ _ _ _ (equality_of_eq _ _ _ _ Hl Hf)).
  destruct (Hcmp e (list_elem_of_lookup_2 _ _ _ He) ltac:(lia)) as [c Hc].
  rewrite bind_eq. unfold lift. rewrite Hc. destruct (c =? 0); reflexivity.
Qed.

End ArrayListSearch.

(** [list_find_first] on a list whose fields agree with its slots, whose
    equality function is set and whose slots in use hold the elements [es],
    the equality function returning a result on every element of the size
    that is looked for; with a start index below the size and a size above 0:
    it changes nothing, and it returns success with the least index from the
    start index on whose element passes the test, or
    [LIST_ELEMENT_NOT_FOUND_ERROR] with -1 when no element from there on
    passes it. *)
Theorem list_find_first_finds_the_first
    (m : ArrayList.memory) (list_ : addr) (l : ArrayList.list_t)
    (f : ArrayList.list_custom_equality_function_t) (es : list ArrayList.list_element_t)
    (startIndex : Z) (value : option bytes) (size : Z) :
  heap m !! list_ = Some (ArrayList.OList l) →
  ArrayList.equalityFunction l = Fn f →
  ArrayList.elements (heap m) l = Some <$> es →
  ArrayListOps.slots_ok l →
  ArrayListSearch.comparable f value size es →
  0 <= startIndex < ArrayList.size l →
  0 < size →
  (∃ i e, ArrayList.list_find_first (Some list_) startIndex value size m
            = Ret ((ArrayList.LIST_SUCCESS, Some i), m)
          ∧ startIndex <= i
          ∧ es !! Z.to_nat i = Some e
          ∧ ArrayListSearch.found f value size e = true
          ∧ ∀ j e', startIndex <= j < i → es !! Z.to_nat j = Some e' →
                    ArrayListSearch.found f value size e' = false)
  ∨ (ArrayList.list_find_first (Some list_) startIndex value size m
       = Ret ((ArrayList.LIST_ELEMENT_NOT_FOUND_ERROR, Some (-1)), m)
     ∧ ∀ j e', startIndex <= j → es !! Z.to_nat j = Some e' →
               ArrayListSearch.found f value size e' = false).
Proof.
  intros Hl Hf Hes Hok Hcmp Hstart Hsize.
  pose proof (ArrayListSearch.elements_length _ _ _ Hes Hok) as Hlen.
  unfold ArrayList.list_find_first.
  rewrite (bind_Ret _ _ _ _ _ (ArrayListFacts.load_list_eq _ _ _ Hl)).
  replace ((startIndex >=? ArrayList.size l) || (startIndex <? 0)) with false
    by (symmetry; lia).
  replace (size <=? 0) with false by (symmetry; lia).
  cbv zeta. replace (if startIndex >? 0 then startIndex else 0) with startIndex
    by (destruct (startIndex >? 0) eqn:E; lia).
  unfold for_up.
  destruct (for_loop_search
              (λ k (_ : unit) mk,
                 mk = m ∧ ∀ j e', startIndex <= j < startIndex + Z.of_nat k →
                                  es !! Z.to_nat j = Some e' →
                                  ArrayListSearch.found f value size e' = false)
              (λ k (x : ArrayList.list_result_t * option Z) mk,
                 mk = m ∧ x = (ArrayList.LIST_SUCCESS, Some (startIndex + Z.of_nat k))
                 ∧ (∃ e, es !! Z.to_nat (startIndex + Z.of_nat k) = Some e
                         ∧ ArrayListSearch.found f value size e = true)
                 ∧ ∀ j e', startIndex <= j < startIndex + Z.of_nat k →
                           es !! Z.to_nat j = Some e' →
                           ArrayListSearch.found f value size e' = false)
              (Z.to_nat (ArrayList.size l - startIndex)) startIndex 1 tt
              (λ i _,
                 p ← ArrayList.get_item list_ i; e ← ArrayList.load_element p;
                 if negb (ArrayList.el_size e =? size) then mret (inl tt) else
                 f ← ArrayList.equality_of list_;
                 c ← lift (f (ArrayList.el_value e) value (ArrayList.el_size e));
                 if c =? 0 then mret (inr (ArrayList.LIST_SUCCESS, Some i)) else mret (inl tt))
              m) as (r & m' & Hrun & Hpost).
  - split; [reflexivity|]. intros j e' Hj. lia.
  - intros k [] mk Hk [-> Hnone].
    destruct (lookup_lt_is_Some_2 es (Z.to_nat (startIndex + Z.of_nat k * 1)) ltac:(lia))
      as [e He].
    rewrite (ArrayListSearch.compare_slot m list_ l f es value size
               (startIndex + Z.of_nat k * 1) e
               (λ b : bool, if b then mret (inr (ArrayList.LIST_SUCCESS,
                                                 Some (startIndex + Z.of_nat k * 1)))
                            else mret (inl tt))
               Hl Hf Hes Hok Hcmp ltac:(lia) He).
    destruct (ArrayListSearch.found f value size e) eqn:Efound.
    + eexists (inr _), m. split; [reflexivity|].
      split; [reflexivity|]. split; [do 3 f_equal; lia|]. split.
      * exists e. split; [|exact Efound]. rewrite <- He. f_equal. lia.
      * exact Hnone.
    + exists (inl tt), m. split; [reflexivity|]. split; [reflexivity|].
      intros j e' Hj He'.
      destruct (decide (j = startIndex + Z.of_nat k)) as [->|Hne].
      * replace (startIndex + Z.of_nat k * 1) with (startIndex + Z.of_nat k) in He by lia.
        rewrite He in He'. injection He' as <-. exact Efound.
      * apply (Hnone j); [lia | exact He'].
  - rewrite (bind_Ret _ _ _ _ _ Hrun). destruct r as [[]|x].
    + right. destruct Hpost as [-> Hnone]. split; [reflexivity|].
      intros j e' Hj He'. apply (Hnone j); [|exact He'].
      apply lookup_lt_Some in He'. lia.
    + left. destruct Hpost as (k & Hk & -> & -> & (e & He & Hfound) & Hnone).
      exists (startIndex + Z.of_nat k), e. split; [reflexivity|].
      split; [lia|]. split; [exact He|]. split; [exact Hfound | exact Hnone].
Qed.

(** [list_find_last] under the same conditions: it changes nothing, and it
    returns success with the greatest index from the start index on whose
    element passes the test, or [LIST_ELEMENT_NOT_FOUND_ERROR] with -1 when
    no element from there on passes it. *)
Theorem list_find_last_finds_the_last
    (m : ArrayList.memory) (list_ : addr) (l : ArrayList.list_t)
    (f : ArrayList.list_custom_equality_function_t) (es : list ArrayList.list_element_t)
    (startIndex : Z) (value : option bytes) (size : Z) :
  heap m !! list_ = Some (ArrayList.OList l) →
  ArrayList.equalityFunction l = Fn f →
  ArrayList.elements (heap m) l = Some <$> es →
  ArrayListOps.slots_ok l →
  ArrayListSearch.comparable f value size es →
  0 <= startIndex < ArrayList.size l →
  0 < size →
  (∃ i e, ArrayList.list_find_last (Some list_) startIndex value size m
            = Ret ((ArrayList.LIST_SUCCESS, Some i), m)
          ∧ startIndex <= i
          ∧ es !! Z.to_nat i = Some e
          ∧ ArrayListSearch.found f value size e = true
          ∧ ∀ j e', i < j → es !! Z.to_nat j = Some e' →
                    ArrayListSearch.found f value size e' = false)
  ∨ (ArrayList.list_find_last (Some list_) startIndex value size m
       = Ret ((ArrayList.LIST_ELEMENT_NOT_FOUND_ERROR, Some (-1)), m)
     ∧ ∀ j e', startIndex <= j → es !! Z.to_nat j = Some e' →
               ArrayListSearch.found f value size e' = false).
Proof.
  intros Hl Hf Hes Hok Hcmp Hstart Hsize.
  pose proof (ArrayListSearch.elements_length _ _ _ Hes Hok) as Hlen.
  unfold ArrayList.list_find_last.
  rewrite (bind_Ret _ _ _ _ _ (ArrayListFacts.load_list_eq _ _ _ Hl)).
  replace ((startIndex >=? ArrayList.size l) || (startIndex <? 0)) with false
    by (symmetry; lia).
  replace (size <=? 0) with false by (symmetry; lia).
  unfold for_up.
  destruct (for_loop_run
              (λ k (index : Z) mk,
                 mk = m
                 ∧ ((index = -1
                     ∧ ∀ j e', startIndex <= j < startIndex + Z.of_nat k →
                               es !! Z.to_nat j = Some e' →
                               ArrayListSearch.found f value size e' = false)
                    ∨ (startIndex <= index < startIndex + Z.of_nat k
                       ∧ (∃ e, es !! Z.to_nat index = Some e
                               ∧ ArrayListSearch.found f value size e = true)
                       ∧ ∀ j e', index < j < startIndex + Z.of_nat k →
                                 es !! Z.to_nat j = Some e' →
                                 ArrayListSearch.found f value size e' = false)))
              (Z.to_nat (ArrayList.size l - startIndex)) startIndex 1 (-1)
              (λ i index,
                 p ← ArrayList.get_item list_ i; e ← ArrayList.load_element p;
                 if negb (ArrayList.el_size e =? size) then mret (inl index) else
                 f ← ArrayList.equality_of list_;
                 c ← lift (f (ArrayList.el_value e) value (ArrayList.el_size e));
                 if c =? 0 then mret (inl i) else mret (inl index))
              m) as (index & m' & Hrun & -> & Hpost).
  - split; [reflexivity|]. left. split; [reflexivity|]. intros j e' Hj. lia.
  - intros k index mk Hk [-> Hinv].
    destruct (lookup_lt_is_Some_2 es (Z.to_nat (startIndex + Z.of_nat k * 1)) ltac:(lia))
      as [e He].
    rewrite (ArrayListSearch.compare_slot m list_ l f es value size
               (startIndex + Z.of_nat k * 1) e
               (λ b : bool, if b then mret (inl (startIndex + Z.of_nat k * 1))
                            else mret (inl index))
               Hl Hf Hes Hok Hcmp ltac:(lia) He).
    replace (startIndex + Z.of_nat k * 1) with (startIndex + Z.of_nat k) in * by lia.
    destruct (ArrayListSearch.found f value size e) eqn:Efound.
    + exists (startIndex + Z.of_nat k), m. split; [reflexivity|].
      split; [reflexivity|]. right. split; [lia|]. split; [eauto|].
      intros j e' Hj. lia.
    + exists index, m. split; [reflexivity|]. split; [reflexivity|].
      destruct Hinv as [[-> Hnone] | (Hi & Hfound & Hnone)].
      * left. split; [reflexivity|]. intros j e' Hj He'.
        destruct (decide (j = startIndex + Z.of_nat k)) as [->|Hne].
        -- rewrite He in He'. injection He' as <-. exact Efound.
        -- apply (Hnone j); [lia | exact He'].
      * right. split; [lia|]. split; [exact Hfound|]. intros j e' Hj He'.
        destruct (decide (j = startIndex + Z.of_nat k)) as [->|Hne].
        -- rewrite He in He'. injection He' as <-. exact Efound.
        -- apply (Hnone j); [lia | exact He'].
  - rewrite (bind_Ret _ _ _ _ _ Hrun).
    destruct Hpost as [[-> Hnone] | (Hi & (e & He & Hfound) & Hnone)].
    + right. split; [reflexivity|]. intros j e' Hj He'. apply (Hnone j); [|exact He'].
      apply lookup_lt_Some in He'. lia.
    + left. exists index, e. replace (index =? -1) with false by (symmetry; lia).
      split; [reflexivity|]. split; [lia|]. split; [exact He|]. split; [exact Hfound|].
      intros j e' Hj He'. apply (Hnone j); [|exact He'].
      apply lookup_lt_Some in He'. lia.
Qed.

(** [list_includes] on a list whose fields agree with its slots, whose
    equality function is set and whose slots in use hold the elements [es],
    the equality function returning a result on every element of the size
    that is looked for: it changes nothing, and it returns success when an
    element passes the test and [LIST_ELEMENT_NOT_FOUND_ERROR] when none
    does. *)
Theorem list_includes_tells_whether_an_element_matches
    (m : ArrayList.memory) (list_ : addr) (l : ArrayList.list_t)
    (f : ArrayList.list_custom_equality_function_t) (es : list ArrayList.list_element_t)
    (value : option bytes) (size : Z) :
  heap m !! list_ = Some (ArrayList.OList l) →
  ArrayList.equalityFunction l = Fn f →
  ArrayList.elements (heap m) l = Some <$> es →
  ArrayListOps.slots_ok l →
  ArrayListSearch.comparable f value size es →
  (ArrayList.list_includes (Some list_) value size m = Ret (ArrayList.LIST_SUCCESS, m)
   ∧ ∃ e, e ∈ es ∧ ArrayListSearch.found f value size e = true)
  ∨ (ArrayList.list_includes (Some list_) value size m
       = Ret (ArrayList.LIST_ELEMENT_NOT_FOUND_ERROR, m)
     ∧ ∀ e, e ∈ es → ArrayListSearch.found f value size e = false).
Proof.
  intros Hl Hf Hes Hok Hcmp.
  pose proof (ArrayListSearch.elements_length _ _ _ Hes Hok) as Hlen.
  pose proof Hok as [Hs _].
  unfold ArrayList.list_includes.
  rewrite (bind_Ret _ _ _ _ _ (ArrayListFacts.load_list_eq _ _ _ Hl)).
  unfold for_up.
  destruct (for_loop_search
              (λ k (_ : unit) mk,
                 mk = m ∧ ∀ j e', 0 <= j < Z.of_nat k → es !! Z.to_nat j = Some e' →
                                  ArrayListSearch.found f value size e' = false)
              (λ k (x : ArrayList.list_result_t) mk,
                 mk = m ∧ x = ArrayList.LIST_SUCCESS
                 ∧ ∃ e, e ∈ es ∧ ArrayListSearch.found f value size e = true)
              (Z.to_nat (ArrayList.size l - 0)) 0 1 tt
              (λ i _,
                 p ← ArrayList.get_item list_ i; e ← ArrayList.load_element p;
                 if negb (ArrayList.el_size e =? size) then mret (inl tt) else
                 f ← ArrayList.equality_of list_;
                 c ← lift (f (ArrayList.el_value e) value (ArrayList.el_size e));
                 if c =? 0 then mret (inr ArrayList.LIST_SUCCESS) else mret (inl tt))
              m) as (r & m' & Hrun & Hpost).
  - split; [reflexivity|]. intros j e' Hj. lia.
  - intros k [] mk Hk [-> Hnone].
    destruct (lookup_lt_is_Some_2 es (Z.to_nat (0 + Z.of_nat k * 1)) ltac:(lia)) as [e He].
    rewrite (ArrayListSearch.compare_slot m list_ l f es value size (0 + Z.of_nat k * 1) e
               (λ b : bool, if b then mret (inr ArrayList.LIST_SUCCESS) else mret (inl tt))
               Hl Hf Hes Hok Hcmp ltac:(lia) He).
    destruct (ArrayListSearch.found f value size e) eqn:Efound.
    + exists (inr ArrayList.LIST_SUCCESS), m. split; [reflexivity|].
      split; [reflexivity|]. split; [reflexivity|].
      exists e. split; [exact (list_elem_of_lookup_2 _ _ _ He) | exact Efound].
    + exists (inl tt), m. split; [reflexivity|]. split; [reflexivity|].
      intros j e' Hj He'.
      destruct (decide (j = Z.of_nat k)) as [->|Hne].
      * replace (Z.to_nat (0 + Z.of_nat k * 1)) with (Z.to_nat (Z.of_nat k)) in He by lia.
        rewrite He in He'. injection He' as <-. exact Efound.
      * apply (Hnone j); [lia | exact He'].
  - rewrite (bind_Ret _ _ _ _ _ Hrun). destruct r as [[]|x].
    + right. destruct Hpost as [-> Hnone]. split; [reflexivity|].
      intros e He. apply list_elem_of_lookup_1 in He as [i Hi].
      apply (Hnone (Z.of_nat i)).
      * apply lookup_lt_Some in Hi. lia.
      * rewrite Nat2Z.id. exact Hi.
    + left. destruct Hpost as (k & Hk & -> & -> & Hex). split; [reflexivity | exact Hex].
Qed.

(** * The array list: removing *)

Module ArrayListRemove.
Import ArrayList ArrayListFacts ArrayListSlots ArrayListOps.

(** The memory without the object at [a]. *)
Definition free_at (m : memory) (a : addr) : memory :=
  Mem (delete a (heap m)) (brk m) (alloc_count m) (alloc_ok m).

(** [list_element_free] has a defined result on the null pointer only. *)
Lemma list_element_free_not_null (p : pointer) (m : memory) :
  p ≠ NULL → list_element_free p m = Undef.
Proof.
  destruct p as [|a|]; intros Hp; [congruence | | reflexivity].
  apply list_element_free_of_a_pointer.
Qed.

Lemma list_element_free_returns (p p' : pointer) (m m' : memory) (r : list_result_t) :
  list_element_free p m = Ret ((r, p'), m') →
  p = NULL ∧ r = LIST_INVALID_PARAMS_ERROR ∧ p' = NULL ∧ m' = m.
Proof.
  destruct p as [|a|]; intros H.
  - inversion H. auto.
  - rewrite list_element_free_of_a_pointer in H. discriminate.
  - discriminate.
Qed.

Lemma list_remove_not_null (m : memory) (list_ : addr) (l : list_t) (index : Z)
    (p : pointer) :
  heap m !! list_ = Some (OList l) →
  0 <= index < capacity l →
  items l !! Z.to_nat index = Some p →
  p ≠ NULL →
  list_remove (Some list_) index m = Undef.
Proof.
  intros Hl Hi Hp Hnull. unfold list_remove.
  rewrite (bind_Ret _ _ _ _ _ (load_list_eq _ _ _ Hl)).
  replace ((index >=? capacity l) || (index <? 0)) with false by (symmetry; lia).
  rewrite (bind_Ret _ _ _ _ _ (get_item_eq _ _ _ index _ Hl ltac:(lia) Hp)).
  rewrite bind_eq, (list_element_free_not_null p m Hnull). reflexivity.
Qed.

Lemma list_remove_result (list : option addr) (index : Z) (m m' : memory)
    (r : list_result_t) :
  list_remove list index m = Ret (r, m') → r ≠ LIST_SUCCESS.
Proof.
  unfold list_remove. intros H. destruct list as [list_|]; [|inversion H; discriminate].
  inv_bind H. destruct ((index >=? capacity a) || (index <? 0)); [inversion H; discriminate|].
  inv_bind H. inv_bind H. destruct a1 as [freeResult p'].
  apply list_element_free_returns in H2 as (_ & -> & _ & _).
  inv_bind H. cbn [is_success negb] in H. inversion H. discriminate.
Qed.

End ArrayListRemove.

(** [list_remove] of an index below the capacity whose slot is not null has
    no defined result: [list_element_free] frees the element the slot points
    to and then writes the fields [value] and [size] of the element it has
    freed.  So [list_remove] has no defined run that ends in
    [LIST_SUCCESS]: a call whose behaviour is defined returns an error. *)
Theorem list_remove_writes_through_the_freed_element
    (m : ArrayList.memory) (list_ : addr) (l : ArrayList.list_t) (index : Z)
    (p : ArrayList.pointer) :
  heap m !! list_ = Some (ArrayList.OList l) →
  0 <= index < ArrayList.capacity l →
  ArrayList.items l !! Z.to_nat index = Some p →
  p ≠ ArrayList.NULL →
  ArrayList.list_remove (Some list_) index m = Undef
  ∧ ∀ (list' : option addr) (index' : Z) (m0 m' : ArrayList.memory)
      (r : ArrayList.list_result_t),
      ArrayList.list_remove list' index' m0 = Ret (r, m') → r ≠ ArrayList.LIST_SUCCESS.
Proof.
  intros Hl Hi Hp Hnull. split.
  - exact (ArrayListRemove.list_remove_not_null m list_ l index p Hl Hi Hp Hnull).
  - exact ArrayListRemove.list_remove_result.
Qed.

(** * The array list: clearing and freeing *)

Module ArrayListClear.
Import ArrayList ArrayListFacts ArrayListSlots ArrayListOps ArrayListRemove.

(** The heap without the objects at the addresses [addresses]. *)
Definition without (h : gmap addr object) (addresses : list addr) : gmap addr object :=
  foldl (λ h a, delete a h) h addresses.

Lemma without_lookup (h : gmap addr object) (addresses : list addr) (a : addr) :
  without h addresses !! a = if decide (a ∈ addresses) then None else h !! a.
Proof.
  revert h. induction addresses as [|b bs IH]; intros h; cbn [without foldl].
  - case_decide; [set_solver | reflexivity].
  - fold (without (delete b h) bs). rewrite IH.
    destruct (decide (a = b)) as [->|Hne].
    + rewrite lookup_delete_eq. repeat case_decide; try reflexivity; set_solver.
    + rewrite lookup_delete_ne by congruence.
      repeat case_decide; try reflexivity; set_solver.
Qed.

Lemma without_snoc (h : gmap addr object) (addresses : list addr) (a : addr) :
  without h (addresses ++ [a]) = delete a (without h addresses).
Proof. unfold without. rewrite foldl_app. reflexivity. Qed.

(** The memory after [k] rounds of the loop of [list_free] on a list whose
    slots in use point to the elements at [addresses]. *)
Definition cleared (m : memory) (list_ : addr) (l : list_t) (addresses : list addr) (k : nat)
    : memory :=
  Mem (<[list_ := OList (set_items l (replicate k NULL ++ drop k (items l)))]>
         (without (heap m) (take k addresses)))
      (brk m) (alloc_count m) (alloc_ok m).

Lemma cleared_lookup_list (m : memory) (list_ : addr) (l : list_t) (addresses : list addr)
    (k : nat) :
  heap (cleared m list_ l addresses k) !! list_
  = Some (OList (set_items l (replicate k NULL ++ drop k (items l)))).
Proof. apply lookup_insert_eq. Qed.

Lemma cleared_0 (m : memory) (list_ : addr) (l : list_t) (addresses : list addr) :
  heap m !! list_ = Some (OList l) → cleared m list_ l addresses 0 = m.
Proof.
  intros Hl. unfold cleared. cbn [replicate take app without foldl]. rewrite drop_0.
  rewrite set_items_same, insert_id by exact Hl. destruct m; reflexivity.
Qed.

Lemma replicate_drop_insert (k : nat) (a : list pointer) :
  (k < length a)%nat →
  <[k := NULL]> (replicate k NULL ++ drop k a) = replicate (S k) NULL ++ drop (S k) a.
Proof.
  intros Hk. rewrite insert_app_r_alt by (rewrite length_replicate; lia).
  rewrite length_replicate, Nat.sub_diag.
  destruct (lookup_lt_is_Some_2 a k Hk) as [x Hx].
  rewrite (drop_S a x k Hx). cbn [list_insert].
  rewrite (replicate_S_end k), <- app_assoc. reflexivity.
Qed.

(** The slots in use point to elements, each to one of its own. *)
Definition owns (m : memory) (l : list_t) (addresses : list addr) : Prop :=
  live_items l = Ptr <$> addresses
  ∧ NoDup addresses
  ∧ ∀ a, a ∈ addresses → ∃ e, heap m !! a = Some (OElement e).

(** One round: the element of slot [k] is freed and the slot is cleared. *)
Lemma cleared_step (m : memory) (list_ : addr) (l : list_t) (addresses : list addr)
    (k : nat) (a : addr) :
  heap m !! list_ = Some (OList l) →
  slots_ok l →
  owns m l addresses →
  addresses !! k = Some a →
  let mk := cleared m list_ l addresses k in
  get_item list_ (Z.of_nat k) mk = Ret (Ptr a, mk)
  ∧ (∃ e, heap mk !! a = Some (OElement e))
  ∧ set_item list_ (Z.of_nat k) NULL (free_at mk a) = Ret (tt, cleared m list_ l addresses (S k)).
Proof.
  intros Hl [Hsize Hlen] (Hlive & Hnd & Hel) Ha mk.
  assert (Hk : (k < length addresses)%nat) by (apply lookup_lt_Some in Ha; exact Ha).
  assert (Hn : length addresses = Z.to_nat (size l)).
  { apply (f_equal length) in Hlive. unfold live_items in Hlive.
    rewrite length_take, length_fmap in Hlive. lia. }
  assert (Hitem : items l !! k = Some (Ptr a)).
  { assert (H : live_items l !! k = Some (Ptr a))
      by (rewrite Hlive, list_lookup_fmap, Ha; reflexivity).
    unfold live_items in H. rewrite lookup_take_lt in H by lia. exact H. }
  assert (Hin : a ∈ addresses) by (apply list_elem_of_lookup_2 in Ha; exact Ha).
  destruct (Hel a Hin) as [e He].
  assert (Hne : a ≠ list_) by (intros ->; congruence).
  assert (Hnot : a ∉ take k addresses).
  { intros Hin'. apply list_elem_of_lookup_1 in Hin' as [j Hj].
    assert (Hjk : (j < k)%nat) by (apply lookup_lt_Some in Hj; rewrite length_take in Hj; lia).
    rewrite lookup_take_lt in Hj by lia.
    pose proof (NoDup_lookup _ _ _ _ Hnd Hj Ha). lia. }
  split; [|split].
  - apply (get_item_eq _ _ _ (Z.of_nat k) _ (cleared_lookup_list _ _ _ _ _)); [lia|].
    cbn [items set_items]. rewrite Nat2Z.id.
    rewrite lookup_app_r by (rewrite length_replicate; lia).
    rewrite length_replicate, lookup_drop. rewrite <- Hitem. f_equal. lia.
  - exists e. unfold mk, cleared. cbn [heap].
    rewrite lookup_insert_ne by congruence. rewrite without_lookup.
    case_decide; [contradiction | exact He].
  - assert (Hl' : heap (free_at mk a) !! list_
                  = Some (OList (set_items l (replicate k NULL ++ drop k (items l))))).
    { unfold free_at, mk, cleared. cbn [heap].
      rewrite lookup_delete_ne by exact Hne. apply lookup_insert_eq. }
    rewrite (set_item_eq _ _ _ (Z.of_nat k) NULL Hl')
      by (cbn [items set_items]; rewrite length_app, length_replicate, length_drop; lia).
    f_equal. f_equal. unfold store_list, free_at, mk, cleared.
    cbn [heap brk alloc_count alloc_ok]. f_equal.
    rewrite set_items_twice. cbn [items set_items]. rewrite Nat2Z.id.
    rewrite replicate_drop_insert by lia.
    rewrite (take_S_r _ _ _ Ha), without_snoc.
    rewrite delete_insert_ne by exact Hne. rewrite insert_insert_eq. reflexivity.
Qed.

(** The first slot that is not null. *)
Lemma first_not_null (a : list pointer) :
  (∃ p, p ∈ a ∧ p ≠ NULL) →
  ∃ k p, a !! k = Some p ∧ p ≠ NULL ∧ ∀ j, (j < k)%nat → a !! j = Some NULL.
Proof.
  induction a as [|x a IH]; intros (p & Hin & Hp); [inversion Hin|].
  destruct (decide (x = NULL)) as [->|Hx].
  - apply elem_of_cons in Hin as [->|Hin]; [congruence|].
    destruct (IH (ex_intro _ p (conj Hin Hp))) as (k & q & Hq & Hne & Hbefore).
    exists (S k), q. split; [exact Hq|]. split; [exact Hne|].
    intros [|j] Hj; [reflexivity|]. apply Hbefore. lia.
  - exists 0%nat, x. split; [reflexivity|]. split; [exact Hx|]. intros j Hj. lia.
Qed.

(** On slots that are null, [list_clear] has only the size to set. *)
Lemma list_clear_of_null_slots (m : memory) (list_ : addr) (l : list_t) :
  heap m !! list_ = Some (OList l) →
  slots_ok l →
  (∀ p, p ∈ live_items l → p = NULL) →
  list_clear (Some list_) m = Ret (LIST_SUCCESS, store_list m list_ (set_size l 0)).
Proof.
  intros Hl [Hsize Hlen] Hnull. unfold list_clear.
  rewrite (bind_Ret _ _ _ _ _ (load_list_eq _ _ _ Hl)).
  unfold for_up. rewrite Z.sub_0_r.
  destruct (for_loop_run
              (λ k (_ : unit) mk, mk = m)
              (Z.to_nat (size l)) 0 1 tt
              (λ i _,
                 p ← get_item list_ i;
                 '(_, p') ← list_element_free p;
                 set_item list_ i p';;
                 mret (inl tt)) m) as ([] & m' & Hrun & ->).
  - reflexivity.
  - intros k [] mk Hk ->. exists tt, m. split; [|reflexivity].
    replace (0 + Z.of_nat k * 1) with (Z.of_nat k) by lia.
    assert (Hitem : items l !! Z.to_nat (Z.of_nat k) = Some NULL).
    { rewrite Nat2Z.id.
      destruct (lookup_lt_is_Some_2 (items l) k ltac:(lia)) as [p Hp].
      rewrite Hp. f_equal. apply Hnull. unfold live_items.
      apply (list_elem_of_lookup_2 _ k). rewrite lookup_take_lt by lia. exact Hp. }
    rewrite (bind_Ret _ _ _ _ _ (get_item_eq _ _ _ (Z.of_nat k) _ Hl ltac:(lia) Hitem)).
    cbn [list_element_free]. rewrite bind_eq, ret_eq.
    rewrite (bind_Ret _ _ _ _ _ (set_item_same _ _ _ (Z.of_nat k) _ Hl ltac:(lia) Hitem)).
    reflexivity.
  - rewrite (bind_Ret _ _ _ _ _ Hrun).
    rewrite (bind_Ret _ _ _ _ _ (write_size_eq _ _ _ _ Hl)). reflexivity.
Qed.

(** At the first slot in use that is not null, [list_clear] calls
    [list_element_free] on it. *)
Lemma list_clear_of_a_pointer (m : memory) (list_ : addr) (l : list_t) :
  heap m !! list_ = Some (OList l) →
  slots_ok l →
  (∃ p, p ∈ live_items l ∧ p ≠ NULL) →
  list_clear (Some list_) m = Undef.
Proof.
  intros Hl [Hsize Hlen] Hsome.
  destruct (first_not_null _ Hsome) as (k & p & Hp & Hne & Hbefore).
  assert (Hk : (k < Z.to_nat (size l))%nat).
  { apply lookup_lt_Some in Hp. unfold live_items in Hp. rewrite length_take in Hp. lia. }
  assert (Hitems : ∀ j q, (j <= k)%nat → live_items l !! j = Some q →
                          items l !! Z.to_nat (Z.of_nat j) = Some q).
  { intros j q Hj Hq. rewrite Nat2Z.id. unfold live_items in Hq.
    rewrite lookup_take_lt in Hq by lia. exact Hq. }
  unfold list_clear.
  rewrite (bind_Ret _ _ _ _ _ (load_list_eq _ _ _ Hl)).
  unfold for_up. rewrite Z.sub_0_r.
  rewrite bind_eq. unfold loop_end, M_bind.
  rewrite (for_loop_undefined (λ _ (_ : unit) mk, mk = m) k); try reflexivity; [exact Hk | |].
  - intros j [] mk Hj ->. exists tt, m. split; [|reflexivity].
    replace (0 + Z.of_nat j * 1) with (Z.of_nat j) by lia.
    pose proof (Hitems j NULL ltac:(lia) (Hbefore j Hj)) as Hitem.
    rewrite (bind_Ret _ _ _ _ _ (get_item_eq _ _ _ (Z.of_nat j) _ Hl ltac:(lia) Hitem)).
    cbn [list_element_free]. rewrite bind_eq, ret_eq.
    rewrite (bind_Ret _ _ _ _ _ (set_item_same _ _ _ (Z.of_nat j) _ Hl ltac:(lia) Hitem)).
    reflexivity.
  - intros [] mk ->.
    replace (0 + Z.of_nat k * 1) with (Z.of_nat k) by lia.
    pose proof (Hitems k p ltac:(lia) Hp) as Hitem.
    rewrite (bind_Ret _ _ _ _ _ (get_item_eq _ _ _ (Z.of_nat k) _ Hl ltac:(lia) Hitem)).
    rewrite bind_eq, (list_element_free_not_null p m Hne). reflexivity.
Qed.

End ArrayListClear.

(** [list_clear] has a defined result only when there is nothing to free.
    On a list whose slots in use are all null it returns [LIST_SUCCESS] and
    sets the size to 0, and nothing else changes.  As soon as a slot in use
    is not null, the call has no defined result: [list_element_free] frees
    the element and then writes the fields [value] and [size] of the element
    it has freed. *)
Theorem list_clear_returns_only_on_null_slots
    (m : ArrayList.memory) (list_ : addr) (l : ArrayList.list_t) :
  heap m !! list_ = Some (ArrayList.OList l) →
  ArrayListOps.slots_ok l →
  ((∀ p, p ∈ ArrayList.live_items l → p = ArrayList.NULL) →
   ArrayList.list_clear (Some list_) m
   = Ret (ArrayList.LIST_SUCCESS,
          ArrayListOps.store_list m list_ (ArrayList.set_size l 0)))
  ∧ ((∃ p, p ∈ ArrayList.live_items l ∧ p ≠ ArrayList.NULL) →
     ArrayList.list_clear (Some list_) m = Undef).
Proof.
  intros Hl Hok. split.
  - exact (ArrayListClear.list_clear_of_null_slots m list_ l Hl Hok).
  - exact (ArrayListClear.list_clear_of_a_pointer m list_ l Hl Hok).
Qed.

(** [list_free] on a list whose slots in use point to elements, each to one
    of its own, frees every element and the list itself, and changes nothing
    else; the handle it gives back is null.  (Its loop frees the elements
    itself, after the writes to their fields.) *)
Theorem list_free_frees_the_elements_and_the_list
    (m : ArrayList.memory) (list_ : addr) (l : ArrayList.list_t) (addresses : list addr) :
  heap m !! list_ = Some (ArrayList.OList l) →
  ArrayListOps.slots_ok l →
  ArrayListClear.owns m l addresses →
  ∃ m' : ArrayList.memory,
    ArrayList.list_free (Some list_) m = Ret ((ArrayList.LIST_SUCCESS, None), m')
    ∧ heap m' !! list_ = None
    ∧ (∀ a, a ∈ addresses → heap m' !! a = None)
    ∧ (∀ a, a ∉ addresses → a ≠ list_ → heap m' !! a = heap m !! a).
Proof.
  intros Hl Hok Hown. pose proof Hok as [Hsize Hlen].
  pose proof Hown as (Hlive & Hnd & Hel).
  assert (Hn : length addresses = Z.to_nat (ArrayList.size l)).
  { apply (f_equal length) in Hlive. unfold ArrayList.live_items in Hlive.
    rewrite length_take, length_fmap in Hlive. lia. }
  unfold ArrayList.list_free.
  rewrite (bind_Ret _ _ _ _ _ (ArrayListFacts.load_list_eq _ _ _ Hl)).
  unfold for_up. rewrite Z.sub_0_r.
  destruct (for_loop_run
              (λ k (_ : unit) mk, mk = ArrayListClear.cleared m list_ l addresses k)
              (Z.to_nat (ArrayList.size l)) 0 1 tt
              (λ i _,
                 element ← ArrayList.get_item list_ i;
                 match element with
                 | ArrayList.NULL => mret (inl tt)
                 | ArrayList.Ptr a =>
                     ArrayList.load_element element;; free a;;
                     ArrayList.set_item list_ i ArrayList.NULL;; mret (inl tt)
                 | ArrayList.Wild => undef
                 end) m) as ([] & m' & Hrun & ->).
  - symmetry. apply ArrayListClear.cleared_0. exact Hl.
  - intros k [] mk Hk ->. exists tt. eexists. split; [|reflexivity].
    destruct (lookup_lt_is_Some_2 addresses k ltac:(lia)) as [a Ha].
    destruct (ArrayListClear.cleared_step m list_ l addresses k a Hl Hok Hown Ha)
      as (Hget & [e He] & Hset).
    replace (0 + Z.of_nat k * 1) with (Z.of_nat k) by lia.
    rewrite (bind_Ret _ _ _ _ _ Hget).
    rewrite (bind_Ret _ _ _ _ _ (ArrayListOps.load_list_element_eq _ _ _ He)).
    rewrite bind_eq. unfold free at 1. rewrite He.
    fold (ArrayListRemove.free_at (ArrayListClear.cleared m list_ l addresses k) a).
    rewrite (bind_Ret _ _ _ _ _ Hset). reflexivity.
  - rewrite (bind_Ret _ _ _ _ _ Hrun).
    rewrite bind_eq. unfold free. rewrite ArrayListClear.cleared_lookup_list.
    eexists. split; [reflexivity|]. cbn [heap ArrayListClear.cleared].
    split; [apply lookup_delete_eq|].
    assert (Hheap : ∀ a, a ≠ list_ →
              delete list_
                (<[list_ := ArrayList.OList
                     (ArrayList.set_items l
                        (replicate (Z.to_nat (ArrayList.size l)) ArrayList.NULL
                         ++ drop (Z.to_nat (ArrayList.size l)) (ArrayList.items l)))]>
                   (ArrayListClear.without (heap m)
                      (take (Z.to_nat (ArrayList.size l)) addresses))) !! a
              = if decide (a ∈ addresses) then None else heap m !! a).
    { intros a Ha. rewrite lookup_delete_ne, lookup_insert_ne by congruence.
      rewrite ArrayListClear.without_lookup, take_ge by lia. reflexivity. }
    split.
    + intros a Ha. rewrite Hheap.
      * case_decide; [reflexivity | contradiction].
      * intros ->. destruct (Hel _ Ha) as [e He]. congruence.
    + intros a Ha Hne. rewrite Hheap by exact Hne.
      case_decide; [contradiction | reflexivity].
Qed.


(** * Loops that put fresh elements in the slots of a list *)

Module ArrayListFill.
Import ArrayList ArrayListFacts ArrayListSlots ArrayListOps.

(** The memory [mk] after the elements [es] were allocated one after the
    other from the memory [m0] on, at the addresses [new], and stored in the
    slots from [n] on of the list at [t], which was [l0] in [m0]. *)
Definition filled (m0 : memory) (t : addr) (l0 : list_t) (n : nat)
    (new : list addr) (es : list list_element_t) (mk : memory) : Prop :=
  length new = length es
  ∧ NoDup new
  ∧ heap mk !! t
    = Some (OList (set_items l0
                     (take n (items l0) ++ (Ptr <$> new)
                      ++ drop (n + length new) (items l0))))
  ∧ never_fails mk
  ∧ allocator_ok mk
  ∧ (brk m0 <= brk mk)%positive
  ∧ (∀ i a, new !! i = Some a →
       (brk m0 <= a < brk mk)%positive ∧ heap mk !! a = OElement <$> es !! i)
  ∧ (∀ a, a ∉ new → a ≠ t → heap mk !! a = heap m0 !! a).

Lemma filled_0 (m0 : memory) (t : addr) (l0 : list_t) (n : nat) :
  heap m0 !! t = Some (OList l0) → never_fails m0 → allocator_ok m0 →
  filled m0 t l0 n [] [] m0.
Proof.
  intros Hl Hnf Hok. unfold filled.
  split_and!; try done; try lia; try apply NoDup_nil_2.
  rewrite Hl. do 2 f_equal. cbn [fmap list_fmap length app].
  rewrite Nat.add_0_r, take_drop. symmetry. apply set_items_same.
Qed.

Lemma insert_middle_next {A} (a mid : list A) (n : nat) (x : A) :
  (n + length mid < length a)%nat →
  <[(n + length mid)%nat := x]> (take n a ++ mid ++ drop (n + length mid) a)
  = take n a ++ (mid ++ [x]) ++ drop (n + length (mid ++ [x])) a.
Proof.
  intros H.
  assert (Hn : length (take n a) = n) by (rewrite length_take; lia).
  rewrite insert_app_r_alt by lia. rewrite Hn.
  rewrite insert_app_r_alt by lia.
  replace (n + length mid - n - length mid)%nat with 0%nat by lia.
  destruct (lookup_lt_is_Some_2 a (n + length mid) H) as [y Hy].
  rewrite (drop_S _ _ _ Hy). cbn [insert list_insert].
  rewrite length_app. cbn [length].
  replace (n + (length mid + 1))%nat with (S (n + length mid)) by lia.
  rewrite <- app_assoc. reflexivity.
Qed.

(** One round: an element is allocated and its address stored in the next
    slot. *)
Lemma filled_step (m0 : memory) (t : addr) (l0 : list_t) (n : nat)
    (new : list addr) (es : list list_element_t) (mk : memory)
    (e : list_element_t) (r : nat) :
  filled m0 t l0 n new es mk →
  (n + length new < length (items l0))%nat →
  ∃ lk, heap mk !! t = Some (OList lk)
        ∧ (n + length new < length (items lk))%nat
        ∧ filled m0 t l0 n (new ++ [brk mk]) (es ++ [e])
            (store_list (with_new mk (OElement e) r) t
               (set_items lk (<[(n + length new)%nat := Ptr (brk mk)]> (items lk)))).
Proof.
  intros (Hlen & Hnd & Hl & Hnf & Hok & Hbrk & Hnew & Hframe) Hn.
  eexists. split; [exact Hl|].
  assert (Hbelow : ∀ a, a ∈ new → (a < brk mk)%positive).
  { intros a Ha. apply list_elem_of_lookup in Ha as [i Hi].
    destruct (Hnew _ _ Hi) as [? _]. lia. }
  assert (Ht : t ≠ brk mk).
  { exact (allocator_ok_fresh _ _ _ Hok Hl). }
  split.
  { cbn [items set_items]. rewrite !length_app, length_take, length_fmap, length_drop. lia. }
  unfold filled. split_and!.
  - rewrite !length_app, Hlen. reflexivity.
  - apply NoDup_app. split_and!; [exact Hnd | | apply NoDup_singleton].
    intros a Ha Hin. apply list_elem_of_singleton in Hin. subst a.
    specialize (Hbelow _ Ha). lia.
  - rewrite store_list_lookup. do 2 f_equal.
    rewrite set_items_twice. f_equal. cbn [items set_items].
    rewrite <- (length_fmap Ptr new).
    rewrite insert_middle_next by (rewrite length_fmap; lia).
    rewrite !length_app, length_fmap, fmap_app. reflexivity.
  - exact Hnf.
  - eapply allocator_ok_store_list.
    + apply allocator_ok_with_new, Hok.
    + apply with_new_lookup_old; [exact Hok | exact Hl].
  - cbn [store_list with_new brk]. lia.
  - intros i a Hi. cbn [store_list with_new brk].
    destruct (decide (i < length new)%nat) as [Hlt|Hge].
    + rewrite lookup_app_l in Hi by exact Hlt.
      destruct (Hnew _ _ Hi) as [Hb Ha]. split; [lia|].
      rewrite lookup_app_l by lia.
      rewrite store_with_new_lookup_other; [exact Ha| |lia].
      intros E. rewrite E in Ha. pose proof (eq_trans (eq_sym Ha) Hl) as H.
      destruct (es !! i); discriminate.
    + unfold addr in *. rewrite lookup_app_r in Hi by lia.
      assert (i = length new) as ->.
      { apply lookup_lt_Some in Hi. cbn [length] in Hi. lia. }
      rewrite Nat.sub_diag in Hi. injection Hi as <-.
      split; [lia|].
      rewrite lookup_app_r by lia. rewrite Hlen, Nat.sub_diag.
      apply store_with_new_lookup_new, Ht.
  - intros a Ha Hat.
    rewrite store_with_new_lookup_other.
    + apply Hframe; [|exact Hat]. intros Hin. apply Ha, elem_of_app. left. exact Hin.
    + exact Hat.
    + intros ->. apply Ha, elem_of_app. right. apply list_elem_of_singleton. reflexivity.
Qed.

End ArrayListFill.

(** [list_fill] when no allocation fails: every slot from the size up to the
    capacity gets an element of its own, a copy of the value, at an address
    that was free; the size becomes the capacity; the elements the list had
    and everything else in memory stay as they were. *)
Theorem list_fill_fills_the_slots_left
    (m : ArrayList.memory) (list_ : addr) (l : ArrayList.list_t)
    (value : option bytes) (size : Z) :
  heap m !! list_ = Some (ArrayList.OList l) →
  ArrayListOps.slots_ok l →
  ArrayListOps.never_fails m →
  ArrayListOps.allocator_ok m →
  ArrayListOps.readable value size →
  ∃ (m' : ArrayList.memory) (new : list addr),
    ArrayList.list_fill (Some list_) value size m = Ret (ArrayList.LIST_SUCCESS, m')
    ∧ heap m' !! list_
      = Some (ArrayList.OList
                (ArrayList.set_size
                   (ArrayList.set_items l
                      (ArrayList.live_items l ++ (ArrayList.Ptr <$> new)))
                   (ArrayList.capacity l)))
    ∧ length new = Z.to_nat (ArrayList.capacity l - ArrayList.size l)
    ∧ NoDup new
    ∧ (∀ a, a ∈ new →
         heap m !! a = None
         ∧ heap m' !! a = Some (ArrayList.OElement (ArrayListOps.element_of value size)))
    ∧ (∀ a, a ∉ new → a ≠ list_ → heap m' !! a = heap m !! a).
Proof.
  intros Hl Hslots Hnf Hok Hr. pose proof Hslots as [Hsize Hlen].
  unfold ArrayList.list_fill.
  rewrite (bind_Ret _ _ _ _ _ (ArrayListFacts.load_list_eq _ _ _ Hl)).
  unfold for_up.
  remember (Z.to_nat (ArrayList.size l)) as n eqn:En.
  remember (ArrayListOps.element_of value size) as e eqn:Ee.
  destruct (for_loop_search
              (λ k (_ : unit) mk,
                 ∃ new, length new = k
                        ∧ ArrayListFill.filled m list_ l n new (replicate k e) mk)
              (λ _ (_ : ArrayList.list_result_t) _, False)
              (Z.to_nat (ArrayList.capacity l - ArrayList.size l)) (ArrayList.size l) 1 tt
              (λ i _,
                 '(result, element) ← ArrayList.list_element_create value size;
                 if negb (ArrayList.is_success result) then mret (inr result) else
                 ArrayList.set_item list_ i (ArrayList.local element);; mret (inl tt))
              m) as (r & m' & Hrun & Hfinal).
  - exists []. split; [reflexivity|]. apply ArrayListFill.filled_0; assumption.
  - intros k [] mk Hk (new & Hnew & Hfilled).
    pose proof Hfilled as (_ & _ & _ & Hnfk & _).
    destruct (ArrayListFill.filled_step _ _ _ _ _ _ _ e (ArrayListOps.requests value)
                Hfilled ltac:(lia)) as (lk & Hlk & Hb & Hnext).
    exists (inl tt). eexists. split.
    + rewrite (bind_Ret _ _ _ _ _ (ArrayListOps.list_element_create_eq _ _ _ Hnfk Hr)).
      cbn [ArrayList.is_success negb ArrayList.local].
      rewrite (bind_Ret _ _ _ _ _
                 (ArrayListOps.set_item_eq _ _ lk (ArrayList.size l + Z.of_nat k * 1) _
                    (ArrayListOps.with_new_lookup_old _ _ _ _ _
                       ltac:(apply Hfilled) Hlk)
                    ltac:(lia))).
      rewrite ret_eq. reflexivity.
    + exists (new ++ [brk mk]). split; [rewrite length_app; cbn [length]; lia|].
      replace (replicate (S k) e) with (replicate k e ++ [e])
        by (symmetry; apply replicate_S_end).
      replace (Z.to_nat (ArrayList.size l + Z.of_nat k * 1)) with (n + length new)%nat by lia.
      rewrite <- Ee. exact Hnext.
  - rewrite (bind_Ret _ _ _ _ _ Hrun).
    destruct r as [[]|x]; [|destruct Hfinal as (? & _ & [])].
    destruct Hfinal as (new & Hnew & Hlenes & Hnd & Hl' & _ & _ & _ & Hel & Hframe).
    rewrite (bind_Ret _ _ _ _ _ (ArrayListOps.write_size_eq _ _ _ _ Hl')).
    rewrite ret_eq.
    eexists. exists new. split; [reflexivity|]. split_and!.
    + rewrite ArrayListOps.store_list_lookup. do 3 f_equal.
      rewrite drop_ge by lia. rewrite app_nil_r. unfold ArrayList.live_items.
      rewrite <- En. reflexivity.
    + exact Hnew.
    + exact Hnd.
    + intros a Ha. apply list_elem_of_lookup in Ha as [i Hi].
      destruct (Hel _ _ Hi) as [Hb Ha]. split; [apply Hok; lia|].
      rewrite ArrayListOps.store_list_lookup_other.
      * etrans; [exact Ha|]. rewrite lookup_replicate_2; [reflexivity|].
        apply lookup_lt_Some in Hi. unfold addr in *. lia.
      * intros ->. rewrite Hok in Hl by lia. discriminate.
    + intros a Ha Hne. rewrite ArrayListOps.store_list_lookup_other by exact Hne.
      apply Hframe; assumption.
Qed.

Module ArrayListCopy.
Import ArrayList ArrayListFacts ArrayListSlots ArrayListOps ArrayListFill ArrayListSearch.

(** What was in memory before the loop is there after it. *)
Lemma filled_old (m0 : memory) (t : addr) (l0 : list_t) (n : nat)
    (new : list addr) (es : list list_element_t) (mk : memory) (a : addr) (o : object) :
  filled m0 t l0 n new es mk → allocator_ok m0 →
  heap m0 !! a = Some o → a ≠ t → heap mk !! a = Some o.
Proof.
  intros (_ & _ & _ & _ & _ & _ & Hnew & Hframe) Hok Ha Hne.
  rewrite Hframe; [exact Ha | | exact Hne].
  intros Hin. apply list_elem_of_lookup in Hin as [i Hi].
  destruct (Hnew _ _ Hi) as [Hb _]. rewrite Hok in Ha by lia. discriminate.
Qed.

(** One round of the loops that clone the elements of the list at [source]
    into the slots of the list at [t]. *)
Lemma clone_slot (m0 : memory) (t : addr) (l0 : list_t) (n : nat)
    (new : list addr) (done : list list_element_t) (mk : memory)
    (source : addr) (l : list_t) (es : list list_element_t) (i j : Z) (e : list_element_t) :
  filled m0 t l0 n new done mk →
  allocator_ok m0 →
  heap m0 !! t = Some (OList l0) →
  (n + length new < length (items l0))%nat →
  j = Z.of_nat (n + length new) →
  heap m0 !! source = Some (OList l) →
  source ≠ t →
  elements (heap m0) l = Some <$> es →
  slots_ok l →
  Forall element_ok es →
  0 <= i < size l →
  es !! Z.to_nat i = Some e →
  ∃ m', (p ← get_item source i;
         '(_, elementClone) ← list_element_clone p;
         set_item t j (local elementClone);;
         mret (inl tt : unit + Empty_set)) mk = Ret (inl tt, m')
        ∧ filled m0 t l0 n (new ++ [brk mk]) (done ++ [e]) m'.
Proof.
  intros Hfilled Hok0 Ht0 Hn -> Hsource Hne Hes Hslots Hall Hi He.
  destruct (live_element _ _ _ i Hes Hslots Hi) as (a & e' & Hp & Ha & He').
  rewrite He in He'. injection He' as <-.
  pose proof Hfilled as (_ & _ & _ & Hnfk & Hokk & _).
  assert (Hat : a ≠ t).
  { intros E. rewrite E in Ha. pose proof (eq_trans (eq_sym Ha) Ht0). discriminate. }
  pose proof (filled_old _ _ _ _ _ _ _ _ _ Hfilled Hok0 Hsource Hne) as Hsource'.
  pose proof (filled_old _ _ _ _ _ _ _ _ _ Hfilled Hok0 Ha Hat) as Ha'.
  destruct (filled_step _ _ _ _ _ _ _ e (requests (el_value e)) Hfilled Hn)
    as (lk & Hlk & Hb & Hnext).
  eexists. split; [|exact Hnext].
  destruct Hslots as [Hs Hlen].
  rewrite (bind_Ret _ _ _ _ _ (get_item_eq _ _ _ i _ Hsource' ltac:(lia) Hp)).
  assert (Heok : element_ok e).
  { rewrite Forall_forall in Hall. apply Hall. eapply list_elem_of_lookup_2, He. }
  rewrite (bind_Ret _ _ _ _ _ (list_element_clone_eq _ _ _ Hnfk Ha' Heok)).
  cbn [local].
  rewrite (bind_Ret _ _ _ _ _
             (set_item_eq _ _ lk (Z.of_nat (n + length new)) _
                (with_new_lookup_old _ _ _ _ _ Hokk Hlk) ltac:(lia))).
  rewrite ret_eq, Nat2Z.id. reflexivity.
Qed.

(** The elements of a list are the same in a memory that keeps what the
    first one holds. *)
Lemma elements_kept (h h' : gmap addr object) (l : list_t) (es : list list_element_t) :
  (∀ a o, h !! a = Some o → h' !! a = Some o) →
  elements h l = Some <$> es → elements h' l = Some <$> es.
Proof.
  intros Hkeep Hes. rewrite <- Hes. unfold elements. apply list_fmap_ext.
  intros i p Hp.
  assert (Hat := f_equal (λ x, x !! i) Hes). cbv beta in Hat.
  unfold elements in Hat. rewrite !list_lookup_fmap, Hp in Hat.
  destruct (es !! i) as [e|]; [|discriminate]. cbn in Hat. injection Hat as Hat.
  rewrite Hat. apply element_at_Some in Hat as (a & -> & Ha).
  cbn [element_at]. rewrite (Hkeep _ _ Ha). reflexivity.
Qed.

(** The whole loop: the elements of the list at [source] are cloned one
    after the other into the slots from [n] on of the list at [t]. *)
Lemma clone_loop (m0 : memory) (t : addr) (l0 : list_t) (n : nat) (slot : Z → Z)
    (source : addr) (l : list_t) (es : list list_element_t) :
  never_fails m0 →
  allocator_ok m0 →
  heap m0 !! t = Some (OList l0) →
  (n + length es <= length (items l0))%nat →
  (∀ i, slot i = Z.of_nat n + i) →
  heap m0 !! source = Some (OList l) →
  source ≠ t →
  elements (heap m0) l = Some <$> es →
  slots_ok l →
  Forall element_ok es →
  ∃ m' new,
    loop_end (for_loop (Z.to_nat (size l)) 0 1 tt
                (λ i _,
                   p ← get_item source i;
                   '(_, elementClone) ← list_element_clone p;
                   set_item t (slot i) (local elementClone);;
                   mret (inl tt))) m0 = Ret (tt, m')
    ∧ filled m0 t l0 n new es m'.
Proof.
  intros Hnf Hok Ht Hroom Hslot Hsource Hne Hes Hslots Hall.
  pose proof (elements_length _ _ _ Hes Hslots) as Hn.
  destruct (for_loop_run
              (λ k (_ : unit) mk,
                 ∃ new, length new = k ∧ filled m0 t l0 n new (take k es) mk)
              (Z.to_nat (size l)) 0 1 tt
              (λ i _,
                 p ← get_item source i;
                 '(_, elementClone) ← list_element_clone p;
                 set_item t (slot i) (local elementClone);;
                 mret (inl tt)) m0) as ([] & m' & Hrun & Hfinal).
  - exists []. split; [reflexivity|]. apply filled_0; assumption.
  - intros k [] mk Hk (new & Hnew & Hfilled).
    destruct (lookup_lt_is_Some_2 es k ltac:(lia)) as [e He].
    destruct (clone_slot m0 t l0 n new (take k es) mk source l es
                (0 + Z.of_nat k * 1) (slot (0 + Z.of_nat k * 1)) e Hfilled Hok Ht)
      as (m' & Hbody & Hnext); try assumption.
    + lia.
    + rewrite Hslot. lia.
    + lia.
    + replace (Z.to_nat (0 + Z.of_nat k * 1)) with k by lia. exact He.
    + exists tt, m'. split; [exact Hbody|].
      exists (new ++ [brk mk]). split; [rewrite length_app; cbn [length]; lia|].
      rewrite (take_S_r _ _ _ He). exact Hnext.
  - destruct Hfinal as (new & Hnew & Hfilled).
    rewrite take_ge in Hfilled by lia. eauto.
Qed.

End ArrayListCopy.

(** [list_clone] when no allocation fails: the clone is a new list with the
    size and the capacity of the original and with elements of its own, equal
    to the original's one by one and at addresses that were free; its slots
    from the size on are null and its two function pointers are left unset;
    the original and everything else in memory stay as they were. *)
Theorem list_clone_copies_every_element
    (m : ArrayList.memory) (list_ : addr) (l : ArrayList.list_t)
    (es : list ArrayList.list_element_t) :
  heap m !! list_ = Some (ArrayList.OList l) →
  ArrayListOps.slots_ok l →
  ArrayList.elements (heap m) l = Some <$> es →
  Forall ArrayList.element_ok es →
  ArrayListOps.never_fails m →
  ArrayListOps.allocator_ok m →
  ∃ (m' : ArrayList.memory) (listClone : addr) (new : list addr),
    let clone :=
      {| ArrayList.size := ArrayList.size l;
         ArrayList.capacity := ArrayList.capacity l;
         ArrayList.items :=
           (ArrayList.Ptr <$> new)
           ++ replicate (Z.to_nat (ArrayList.capacity l - ArrayList.size l)) ArrayList.NULL;
         ArrayList.equalityFunction := Unset;
         ArrayList.sortingFunction := Unset |} in
    ArrayList.list_clone (Some list_) m = Ret ((ArrayList.LIST_SUCCESS, Some listClone), m')
    ∧ heap m' !! listClone = Some (ArrayList.OList clone)
    ∧ ArrayList.elements (heap m') clone = Some <$> es
    ∧ NoDup (listClone :: new)
    ∧ (∀ a, a ∈ listClone :: new → heap m !! a = None)
    ∧ (∀ a, a ∉ listClone :: new → heap m' !! a = heap m !! a).
Proof.
  intros Hl Hslots Hes Hall Hnf Hok. pose proof Hslots as [Hsize Hlen].
  pose proof (ArrayListSearch.elements_length _ _ _ Hes Hslots) as Hn.
  unfold ArrayList.list_clone.
  rewrite (bind_Ret _ _ _ _ _ (ArrayListOps.malloc_eq _ Hnf)). cbn [negb].
  rewrite (bind_Ret _ _ _ _ _ (ArrayListFacts.load_list_eq (ArrayListOps.bump m) _ _ Hl)).
  rewrite (bind_Ret _ _ _ _ _
             (ArrayListOps.malloc_eq _ (ArrayListOps.never_fails_bump _ Hnf))). cbn [negb].
  rewrite bind_eq. unfold new at 1. cbv beta iota.
  cbn [ArrayListOps.bump heap brk alloc_count alloc_ok].
  remember {| ArrayList.size := ArrayList.size l;
              ArrayList.capacity := ArrayList.capacity l;
              ArrayList.items := replicate (Z.to_nat (ArrayList.capacity l)) ArrayList.NULL;
              ArrayList.equalityFunction := Unset;
              ArrayList.sortingFunction := Unset |} as c0 eqn:Ec0.
  change (Mem (<[brk m := ArrayList.OList c0]> (heap m)) (Pos.succ (brk m))
            (S (S (alloc_count m))) (alloc_ok m))
    with (ArrayListOps.with_new m (ArrayList.OList c0) 2).
  remember (ArrayListOps.with_new m (ArrayList.OList c0) 2) as m0 eqn:Em0.
  assert (Hnf0 : ArrayListOps.never_fails m0) by (subst m0; exact Hnf).
  assert (Hok0 : ArrayListOps.allocator_ok m0)
    by (subst m0; apply ArrayListOps.allocator_ok_with_new, Hok).
  assert (Hc0 : heap m0 !! brk m = Some (ArrayList.OList c0))
    by (subst m0; apply lookup_insert_eq).
  assert (Hne : list_ ≠ brk m) by exact (ArrayListOps.allocator_ok_fresh _ _ _ Hok Hl).
  assert (Hold : ∀ a, a ≠ brk m → heap m0 !! a = heap m !! a).
  { intros a Ha. subst m0. cbn [ArrayListOps.with_new heap].
    apply lookup_insert_ne. congruence. }
  assert (Hl0 : heap m0 !! list_ = Some (ArrayList.OList l)) by (rewrite Hold; assumption).
  assert (Hes0 : ArrayList.elements (heap m0) l = Some <$> es).
  { rewrite <- Hes. unfold ArrayList.elements. apply list_fmap_ext.
    intros i p Hp. destruct p as [|a|]; try reflexivity. cbn [ArrayList.element_at].
    destruct (decide (a = brk m)) as [->|Ha]; [|rewrite Hold by exact Ha; reflexivity].
    exfalso.
    assert (Hat := f_equal (λ x, x !! i) Hes). cbv beta in Hat.
    unfold ArrayList.elements in Hat. rewrite !list_lookup_fmap, Hp in Hat.
    cbn [fmap option_fmap option_map ArrayList.element_at] in Hat.
    rewrite Hok in Hat by lia.
    destruct (es !! i); discriminate. }
  unfold for_up. rewrite Z.sub_0_r.
  destruct (ArrayListCopy.clone_loop m0 (brk m) c0 0 (λ i, i) list_ l es)
    as (m' & new & Hrun & Hfilled); try assumption.
  { rewrite Ec0. cbn [ArrayList.items]. rewrite length_replicate. lia. }
  { intros i. lia. }
  cbv beta in Hrun.
  assert (Hnew : length new = Z.to_nat (ArrayList.size l))
    by (destruct Hfilled as [-> _]; lia).
  - rewrite (bind_Ret _ _ _ _ _ Hrun), ret_eq.
    pose proof Hfilled as (_ & Hnd & Hc & _ & _ & _ & Hel & Hframe).
    assert (Habove : ∀ a, a ∈ new → (Pos.succ (brk m) <= a)%positive).
    { intros a Ha. apply list_elem_of_lookup in Ha as [i Hi].
      destruct (Hel _ _ Hi) as [Hb _]. rewrite Em0 in Hb.
      cbn [ArrayListOps.with_new brk] in Hb. lia. }
    exists m', (brk m), new. cbv zeta. split; [reflexivity|]. split_and!.
    + rewrite Hc. do 2 f_equal. rewrite Ec0. unfold ArrayList.set_items.
      cbn [ArrayList.size ArrayList.capacity ArrayList.items
           ArrayList.equalityFunction ArrayList.sortingFunction].
      f_equal. rewrite take_0, drop_replicate. cbn [app]. do 2 f_equal. lia.
    + unfold ArrayList.elements, ArrayList.live_items.
      cbn [ArrayList.size ArrayList.items].
      rewrite take_app_length' by (rewrite length_fmap; lia).
      apply list_eq. intros i. rewrite !list_lookup_fmap.
      destruct (new !! i) as [a|] eqn:Hi.
      * destruct (Hel _ _ Hi) as [_ Ha]. cbn [fmap option_fmap option_map ArrayList.element_at].
        unfold addr in *. rewrite Ha. destruct (es !! i) eqn:He; [reflexivity|].
        apply lookup_ge_None in He. apply lookup_lt_Some in Hi. lia.
      * apply lookup_ge_None in Hi.
        rewrite (lookup_ge_None_2 es i) by lia. reflexivity.
    + apply NoDup_cons. split; [|exact Hnd].
      intros Hin. specialize (Habove _ Hin). lia.
    + intros a Ha. apply Hok. apply elem_of_cons in Ha as [->|Ha]; [lia|].
      specialize (Habove _ Ha). lia.
    + intros a Ha. rewrite Hframe.
      * apply Hold. intros ->. apply Ha. left.
      * intros Hin. apply Ha. right. exact Hin.
      * intros ->. apply Ha. left.
Qed.

(** [list_join] of two lists that hold an element between them, when no
    allocation fails: the new list has the equality and sorting functions by
    default, as many slots as the two lists have elements, all in use, with
    copies of the elements of the first list followed by copies of the
    elements of the second, at addresses that were free; the two lists and
    everything else in memory stay as they were. *)
Theorem list_join_copies_both_lists
    (m : ArrayList.memory) (list1 list2 : addr) (l1 l2 : ArrayList.list_t)
    (es1 es2 : list ArrayList.list_element_t) :
  heap m !! list1 = Some (ArrayList.OList l1) →
  heap m !! list2 = Some (ArrayList.OList l2) →
  ArrayListOps.slots_ok l1 →
  ArrayListOps.slots_ok l2 →
  ArrayList.elements (heap m) l1 = Some <$> es1 →
  ArrayList.elements (heap m) l2 = Some <$> es2 →
  Forall ArrayList.element_ok es1 →
  Forall ArrayList.element_ok es2 →
  1 <= ArrayList.size l1 + ArrayList.size l2 < 2 ^ 63 →
  ArrayListOps.never_fails m →
  ArrayListOps.allocator_ok m →
  ∃ (m' : ArrayList.memory) (joinList : addr) (new : list addr),
    let join :=
      {| ArrayList.size := ArrayList.size l1 + ArrayList.size l2;
         ArrayList.capacity := ArrayList.size l1 + ArrayList.size l2;
         ArrayList.items := ArrayList.Ptr <$> new;
         ArrayList.equalityFunction := Fn ArrayList.default_equals;
         ArrayList.sortingFunction := Fn ArrayList.SortDefault |} in
    ArrayList.list_join (Some list1) (Some list2) m
    = Ret ((ArrayList.LIST_SUCCESS, Some joinList), m')
    ∧ heap m' !! joinList = Some (ArrayList.OList join)
    ∧ ArrayList.elements (heap m') join = Some <$> (es1 ++ es2)
    ∧ NoDup (joinList :: new)
    ∧ (∀ a, a ∈ joinList :: new → heap m !! a = None)
    ∧ (∀ a, a ∉ joinList :: new → heap m' !! a = heap m !! a).
Proof.
  intros Hl1 Hl2 Hslots1 Hslots2 Hes1 Hes2 Hall1 Hall2 Hsum Hnf Hok.
  pose proof (ArrayListSearch.elements_length _ _ _ Hes1 Hslots1) as Hn1.
  pose proof (ArrayListSearch.elements_length _ _ _ Hes2 Hslots2) as Hn2.
  unfold ArrayList.list_join.
  rewrite (bind_Ret _ _ _ _ _ (ArrayListFacts.load_list_eq _ _ _ Hl1)).
  rewrite (bind_Ret _ _ _ _ _ (ArrayListFacts.load_list_eq _ _ _ Hl2)).
  rewrite int64_small by lia.
  rewrite bind_eq. unfold ArrayList.list_create at 1.
  rewrite (bind_Ret _ _ _ _ _ (ArrayListOps.malloc_eq _ Hnf)). cbn [negb].
  rewrite (bind_Ret _ _ _ _ _
             (ArrayListOps.malloc_eq _ (ArrayListOps.never_fails_bump _ Hnf))). cbn [negb].
  replace (ArrayList.size l1 + ArrayList.size l2 <? 1) with false by (symmetry; lia).
  rewrite bind_eq. unfold new at 1. cbv beta iota zeta. rewrite ret_eq. cbv beta iota zeta.
  cbn [ArrayListOps.bump heap brk alloc_count alloc_ok].
  match goal with |- context [<[brk m := ArrayList.OList ?x]> (heap m)] =>
    remember x as c0 eqn:Ec0
  end.
  change (Mem (<[brk m := ArrayList.OList c0]> (heap m)) (Pos.succ (brk m))
            (S (S (alloc_count m))) (alloc_ok m))
    with (ArrayListOps.with_new m (ArrayList.OList c0) 2).
  remember (ArrayListOps.with_new m (ArrayList.OList c0) 2) as m0 eqn:Em0.
  assert (Hnf0 : ArrayListOps.never_fails m0) by (subst m0; exact Hnf).
  assert (Hok0 : ArrayListOps.allocator_ok m0)
    by (subst m0; apply ArrayListOps.allocator_ok_with_new, Hok).
  assert (Hc0 : heap m0 !! brk m = Some (ArrayList.OList c0))
    by (subst m0; apply lookup_insert_eq).
  assert (Hne1 : list1 ≠ brk m) by exact (ArrayListOps.allocator_ok_fresh _ _ _ Hok Hl1).
  assert (Hne2 : list2 ≠ brk m) by exact (ArrayListOps.allocator_ok_fresh _ _ _ Hok Hl2).
  assert (Hold : ∀ a o, heap m !! a = Some o → heap m0 !! a = Some o).
  { intros a o Ha. subst m0. eapply ArrayListOps.with_new_lookup_old; eassumption. }
  (* the first loop *)
  unfold for_up. rewrite !Z.sub_0_r.
  destruct (ArrayListCopy.clone_loop m0 (brk m) c0 0 (λ i, i) list1 l1 es1)
    as (m1 & new1 & Hrun1 & Hfilled1); try assumption.
  { rewrite Ec0. cbn [ArrayList.items]. rewrite length_replicate. lia. }
  { intros i. lia. }
  { apply Hold, Hl1. }
  { eapply ArrayListCopy.elements_kept; [exact Hold | exact Hes1]. }
  cbv beta in Hrun1. rewrite (bind_Ret _ _ _ _ _ Hrun1).
  pose proof Hfilled1 as (Hlen1 & Hnd1 & Hc1 & Hnf1 & Hok1 & Hbrk1 & Hel1 & Hframe1).
  assert (Hold1 : ∀ a o, heap m !! a = Some o → heap m1 !! a = Some o).
  { intros a o Ha.
    apply (ArrayListCopy.filled_old _ _ _ _ _ _ _ _ _ Hfilled1 Hok0 (Hold _ _ Ha)).
    exact (ArrayListOps.allocator_ok_fresh _ _ _ Hok Ha). }
  (* the second loop *)
  match type of Hc1 with _ = Some (ArrayList.OList ?x) => remember x as c1 eqn:Ec1 end.
  assert (Hitems1 : ArrayList.items c1
                    = (ArrayList.Ptr <$> new1)
                      ++ replicate (Z.to_nat (ArrayList.size l2)) ArrayList.NULL).
  { rewrite Ec1, Ec0. cbn [ArrayList.items ArrayList.set_items].
    rewrite take_0, drop_replicate. cbn [app]. do 2 f_equal. lia. }
  destruct (ArrayListCopy.clone_loop m1 (brk m) c1 (Z.to_nat (ArrayList.size l1))
              (λ i, ArrayList.size l1 + i) list2 l2 es2)
    as (m2 & new2 & Hrun2 & Hfilled2); try assumption.
  { rewrite Hitems1, length_app, length_fmap, length_replicate. lia. }
  { intros i. destruct Hslots1. lia. }
  { apply Hold1, Hl2. }
  { eapply ArrayListCopy.elements_kept; [exact Hold1 | exact Hes2]. }
  cbv beta in Hrun2. rewrite (bind_Ret _ _ _ _ _ Hrun2).
  pose proof Hfilled2 as (Hlen2 & Hnd2 & Hc2 & Hnf2 & Hok2 & Hbrk2 & Hel2 & Hframe2).
  rewrite (bind_Ret _ _ _ _ _ (ArrayListFacts.load_list_eq _ _ _ Hc2)).
  rewrite (bind_Ret _ _ _ _ _ (ArrayListOps.write_size_eq _ _ _ _ Hc2)), ret_eq.
  assert (Habove1 : ∀ a, a ∈ new1 → (Pos.succ (brk m) <= a < brk m1)%positive).
  { intros a Ha. apply list_elem_of_lookup in Ha as [i Hi].
    destruct (Hel1 _ _ Hi) as [Hb _]. rewrite Em0 in Hb.
    cbn [ArrayListOps.with_new brk] in Hb. lia. }
  assert (Habove2 : ∀ a, a ∈ new2 → (brk m1 <= a)%positive).
  { intros a Ha. apply list_elem_of_lookup in Ha as [i Hi].
    destruct (Hel2 _ _ Hi) as [Hb _]. lia. }
  assert (Hbrk0 : (Pos.succ (brk m) <= brk m1)%positive).
  { rewrite Em0 in Hbrk1. cbn [ArrayListOps.with_new brk] in Hbrk1. exact Hbrk1. }
  eexists. exists (brk m), (new1 ++ new2). cbv zeta. split; [reflexivity|].
  assert (Hitems2 : take (Z.to_nat (ArrayList.size l1)) (ArrayList.items c1)
                    ++ (ArrayList.Ptr <$> new2)
                    ++ drop (Z.to_nat (ArrayList.size l1) + length new2) (ArrayList.items c1)
                    = ArrayList.Ptr <$> (new1 ++ new2)).
  { rewrite Hitems1.
    rewrite take_app_length' by (rewrite length_fmap; lia).
    rewrite drop_ge by (rewrite length_app, length_fmap, length_replicate; lia).
    rewrite app_nil_r, fmap_app. reflexivity. }
  split_and!.
  - rewrite ArrayListOps.store_list_lookup. do 2 f_equal.
    rewrite Hitems2, Ec1, Ec0. reflexivity.
  - unfold ArrayList.elements, ArrayList.live_items.
    cbn [ArrayList.size ArrayList.items ArrayListOps.store_list heap].
    rewrite (take_ge (ArrayList.Ptr <$> new1 ++ new2))
      by (rewrite length_fmap, length_app; lia).
    rewrite !fmap_app. f_equal.
    + apply list_eq. intros i. rewrite !list_lookup_fmap.
      destruct (new1 !! i) as [a|] eqn:Hi.
      * destruct (Hel1 _ _ Hi) as [_ Ha].
        destruct (es1 !! i) as [e|] eqn:He;
          [|apply lookup_ge_None in He; apply lookup_lt_Some in Hi; unfold addr in *; lia].
        cbn [fmap option_fmap option_map ArrayList.element_at] in *.
        assert (Hat : a ≠ brk m) by (specialize (Habove1 a (list_elem_of_lookup_2 _ _ _ Hi)); lia).
        rewrite lookup_insert_ne by congruence.
        rewrite (ArrayListCopy.filled_old _ _ _ _ _ _ _ _ _ Hfilled2 Hok1 Ha Hat).
        reflexivity.
      * apply lookup_ge_None in Hi.
        rewrite (lookup_ge_None_2 es1 i) by (unfold addr in *; lia). reflexivity.
    + apply list_eq. intros i. rewrite !list_lookup_fmap.
      destruct (new2 !! i) as [a|] eqn:Hi.
      * destruct (Hel2 _ _ Hi) as [_ Ha].
        destruct (es2 !! i) as [e|] eqn:He;
          [|apply lookup_ge_None in He; apply lookup_lt_Some in Hi; unfold addr in *; lia].
        cbn [fmap option_fmap option_map ArrayList.element_at] in *.
        assert (Hat : a ≠ brk m) by (specialize (Habove2 a (list_elem_of_lookup_2 _ _ _ Hi)); lia).
        rewrite lookup_insert_ne by congruence.
        unfold addr in *. rewrite Ha. reflexivity.
      * apply lookup_ge_None in Hi.
        rewrite (lookup_ge_None_2 es2 i) by (unfold addr in *; lia). reflexivity.
  - apply NoDup_cons. split.
    + intros Hin. apply elem_of_app in Hin as [Hin|Hin].
      * specialize (Habove1 _ Hin). lia.
      * specialize (Habove2 _ Hin). lia.
    + apply NoDup_app. split_and!; [exact Hnd1 | | exact Hnd2].
      intros a Ha1 Ha2. specialize (Habove1 _ Ha1). specialize (Habove2 _ Ha2). lia.
  - intros a Ha. apply Hok. apply elem_of_cons in Ha as [->|Ha]; [lia|].
    apply elem_of_app in Ha as [Ha|Ha].
    + specialize (Habove1 _ Ha). lia.
    + specialize (Habove2 _ Ha). lia.
  - intros a Ha.
    assert (Hat : a ≠ brk m) by (intros ->; apply Ha; left).
    rewrite ArrayListOps.store_list_lookup_other by exact Hat.
    rewrite Hframe2, Hframe1.
    + subst m0. cbn [ArrayListOps.with_new heap]. apply lookup_insert_ne. congruence.
    + intros Hin. apply Ha. right. apply elem_of_app. left. exact Hin.
    + exact Hat.
    + intros Hin. apply Ha. right. apply elem_of_app. right. exact Hin.
    + exact Hat.
Qed.

(** * The array list: inserting *)

Module ArrayListInsert.
Import ArrayList ArrayListFacts ArrayListSlots ArrayListOps.

(** [items] after [k] rounds of the loop that moves the slots below [top]
    one place up, from the last one down. *)
Fixpoint shift_up (k top : nat) (a : list pointer) : list pointer :=
  match k with
  | O => a
  | S k' =>
      match shift_up k' top a !! (top - 1 - k')%nat with
      | Some q => <[(top - k')%nat := q]> (shift_up k' top a)
      | None => shift_up k' top a
      end
  end.

Lemma shift_up_length (k top : nat) (a : list pointer) :
  length (shift_up k top a) = length a.
Proof.
  induction k as [|k IH]; [reflexivity|]. cbn [shift_up].
  destruct (shift_up k top a !! _); [rewrite length_insert|]; exact IH.
Qed.

Lemma shift_up_lookup (k top : nat) (a : list pointer) (j : nat) :
  (k <= top)%nat → (top < length a)%nat →
  shift_up k top a !! j
  = if decide (top - k < j <= top)%nat then a !! (j - 1)%nat else a !! j.
Proof.
  revert j. induction k as [|k IH]; intros j Hk Htop.
  - cbn [shift_up]. case_decide; [lia | reflexivity].
  - cbn [shift_up]. rewrite (IH (top - 1 - k)%nat) by lia.
    case_decide; [lia|].
    destruct (lookup_lt_is_Some_2 a (top - 1 - k)%nat ltac:(lia)) as [q Hq].
    rewrite Hq.
    destruct (decide (j = top - k)%nat) as [->|Hne].
    + rewrite list_lookup_insert_eq by (rewrite shift_up_length; lia).
      case_decide; [|lia]. rewrite <- Hq. f_equal. lia.
    + rewrite list_lookup_insert_ne by congruence. rewrite IH by lia.
      repeat case_decide; try lia; reflexivity.
Qed.

(** The slots in use after the new pointer is stored at [i]. *)
Lemma shift_up_insert (a : list pointer) (s i : nat) (x : pointer) :
  (i <= s)%nat → (s < length a)%nat →
  take (S s) (<[i := x]> (shift_up (s - i) s a)) = take i (take s a) ++ x :: drop i (take s a).
Proof.
  intros Hi Hs. apply list_eq. intros j.
  destruct (decide (j < S s)%nat) as [Hj|Hj].
  - rewrite lookup_take_lt by lia.
    destruct (decide (j = i)) as [->|Hne].
    + rewrite list_lookup_insert_eq by (rewrite shift_up_length; lia).
      rewrite lookup_app_r by (rewrite !length_take; lia).
      rewrite !length_take. replace (i - i `min` (s `min` length a))%nat with 0%nat by lia.
      reflexivity.
    + rewrite list_lookup_insert_ne by congruence.
      rewrite shift_up_lookup by lia.
      destruct (decide (j < i)%nat) as [Hlt|Hge].
      * case_decide; [lia|].
        rewrite lookup_app_l by (rewrite !length_take; lia).
        rewrite !lookup_take_lt by lia. reflexivity.
      * case_decide; [|lia].
        rewrite lookup_app_r by (rewrite !length_take; lia).
        rewrite !length_take.
        replace (j - i `min` (s `min` length a))%nat with (S (j - i - 1)) by lia.
        change ((x :: ?t) !! S ?n) with (t !! n).
        rewrite lookup_drop, lookup_take_lt by lia.
        f_equal. lia.
  - rewrite lookup_take_ge by lia. symmetry. apply lookup_ge_None.
    rewrite length_app. cbn [length]. rewrite length_drop, !length_take. lia.
Qed.

(** The loop of [list_insert] and [list_prepend]. *)
Lemma shift_loop (m : memory) (list_ : addr) (l : list_t) (top index : Z) :
  heap m !! list_ = Some (OList l) →
  0 <= index <= top →
  top < Z.of_nat (length (items l)) →
  loop_end (for_down (top - 1) index tt (λ i _,
              p ← get_item list_ i; set_item list_ (i + 1) p;; mret (inl tt))) m
  = Ret (tt, store_list m list_
               (set_items l (shift_up (Z.to_nat (top - index)) (Z.to_nat top) (items l)))).
Proof.
  intros Hl Hi Htop. unfold for_down.
  replace (Z.to_nat (top - 1 - index + 1)) with (Z.to_nat (top - index)) by lia.
  destruct (for_loop_run
              (λ k (_ : unit) mk,
                 mk = store_list m list_ (set_items l (shift_up k (Z.to_nat top) (items l))))
              (Z.to_nat (top - index)) (top - 1) (-1) tt
              (λ i _, p ← get_item list_ i; set_item list_ (i + 1) p;; mret (inl tt)) m)
    as ([] & m' & Hrun & ->).
  - cbn [shift_up]. rewrite set_items_same. symmetry. apply store_list_same, Hl.
  - intros k [] mk Hk ->. exists tt. eexists. split; [|reflexivity].
    remember (set_items l (shift_up k (Z.to_nat top) (items l))) as lk eqn:Elk.
    assert (Hlenk : length (items lk) = length (items l))
      by (rewrite Elk; cbn [items set_items]; apply shift_up_length).
    destruct (item_lookup lk (top - 1 + Z.of_nat k * -1) ltac:(lia)) as [q Hq].
    rewrite (bind_Ret _ _ _ _ _
               (get_item_eq _ _ lk (top - 1 + Z.of_nat k * -1) q
                  (store_list_lookup _ _ _) ltac:(lia) Hq)).
    rewrite (bind_Ret _ _ _ _ _
               (set_item_eq _ _ lk (top - 1 + Z.of_nat k * -1 + 1) q
                  (store_list_lookup _ _ _) ltac:(lia))).
    rewrite store_list_twice, ret_eq. do 3 f_equal. subst lk.
    rewrite set_items_twice. f_equal. cbn [shift_up].
    change (items (set_items l ?x)) with x in Hq.
    replace (Z.to_nat (top - 1 + Z.of_nat k * -1)) with (Z.to_nat top - 1 - k)%nat in Hq
      by lia.
    rewrite Hq. f_equal. lia.
  - exact Hrun.
Qed.

Lemma store_new_store (m : memory) (list_ : addr) (l1 l2 : list_t) (o : object) (k : nat) :
  list_ ≠ brk m →
  store_list (with_new (store_list m list_ l1) o k) list_ l2
  = store_list (with_new m o k) list_ l2.
Proof.
  intros H. unfold store_list, with_new. cbn [heap brk alloc_count alloc_ok]. f_equal.
  rewrite (insert_insert_ne _ list_ (brk m)) by congruence.
  rewrite insert_insert_eq. apply insert_insert_ne. congruence.
Qed.

(** The memory after an insertion at [index]. *)
Definition inserted (m : memory) (list_ : addr) (l : list_t) (index : Z)
    (value : option bytes) (size : Z) (k : nat) : memory :=
  store_list (with_new m (OElement (element_of value size)) k) list_
    (set_size
       (set_items l
          (<[Z.to_nat index := Ptr (brk m)]>
             (shift_up (Z.to_nat (ArrayList.size l - index)) (Z.to_nat (ArrayList.size l))
                (items l))))
       (ArrayList.size l + 1)).

Lemma list_insert_room (m : memory) (list_ : addr) (l : list_t) (index : Z)
    (value : option bytes) (size : Z) :
  heap m !! list_ = Some (OList l) →
  slots_ok l →
  0 <= index <= ArrayList.size l →
  ArrayList.size l < capacity l →
  ArrayList.size l < 2 ^ 31 →
  never_fails m → allocator_ok m → readable value size →
  list_insert (Some list_) index value size m
  = Ret (LIST_SUCCESS, inserted m list_ l index value size (requests value)).
Proof.
  intros Hl [Hsize Hlen] Hi Hroom Hint Hnf Hok Hr. unfold list_insert.
  pose proof (allocator_ok_fresh _ _ _ Hok Hl) as Hfresh.
  rewrite (bind_Ret _ _ _ _ _ (load_list_eq _ _ _ Hl)).
  replace ((index >? ArrayList.size l) || (index <? 0)) with false by (symmetry; lia).
  replace (ArrayList.size l =? capacity l) with false by (symmetry; lia).
  rewrite bind_eq, ret_eq. cbn [is_success negb].
  rewrite (bind_Ret _ _ _ _ _ (load_list_eq _ _ _ Hl)).
  rewrite int32_small by lia.
  rewrite (bind_Ret _ _ _ _ _ (shift_loop _ _ _ (ArrayList.size l) index Hl ltac:(lia) ltac:(lia))).
  remember (set_items l (shift_up (Z.to_nat (ArrayList.size l - index))
                           (Z.to_nat (ArrayList.size l)) (items l))) as l1 eqn:El1.
  rewrite (bind_Ret _ _ _ _ _
             (list_element_create_eq _ _ _ (never_fails_store_list _ list_ l1 Hnf) Hr)).
  assert (Hlen1 : length (items l1) = length (items l))
    by (rewrite El1; cbn [items set_items]; apply shift_up_length).
  cbn [store_list brk].
  assert (Hl1 : heap (with_new (store_list m list_ l1) (OElement (element_of value size))
                        (requests value)) !! list_ = Some (OList l1)).
  { cbn [with_new store_list heap brk]. rewrite lookup_insert_ne by congruence.
    apply lookup_insert_eq. }
  rewrite (bind_Ret _ _ _ _ _ (set_item_eq _ _ l1 index _ Hl1 ltac:(lia))).
  rewrite store_new_store by exact Hfresh.
  rewrite (bind_Ret _ _ _ _ _ (load_list_eq _ _ _ (store_list_lookup _ _ _))).
  rewrite (bind_Ret _ _ _ _ _ (write_size_eq _ _ _ _ (store_list_lookup _ _ _))).
  rewrite store_list_twice, ret_eq. unfold inserted. do 3 f_equal.
  rewrite El1. cbn [ArrayList.size set_items items]. rewrite int64_small by lia. reflexivity.
Qed.

Lemma list_insert_full (m : memory) (list_ : addr) (l : list_t) (index : Z)
    (value : option bytes) (size : Z) :
  heap m !! list_ = Some (OList l) →
  slots_ok l →
  0 <= index <= ArrayList.size l →
  ArrayList.size l = capacity l →
  1 <= capacity l →
  capacity l * 2 < 2 ^ 63 →
  never_fails m →
  list_insert (Some list_) index value size m
  = list_insert (Some list_) index value size
      (store_list (bump m) list_ (grown l (capacity l * 2))).
Proof.
  intros Hl Hok Hi Hfull Hcap Hint Hnf. unfold list_insert.
  rewrite (bind_Ret _ _ _ _ _ (load_list_eq _ _ _ Hl)).
  rewrite (bind_Ret _ _ _ _ _ (load_list_eq _ _ _ (store_list_lookup _ _ _))).
  cbn [grown ArrayList.size capacity].
  replace ((index >? ArrayList.size l) || (index <? 0)) with false by (symmetry; lia).
  replace (ArrayList.size l =? capacity l) with true by (symmetry; lia).
  replace (ArrayList.size l =? capacity l * 2) with false by (symmetry; lia).
  rewrite int64_small by lia.
  rewrite (bind_Ret _ _ _ _ _
             (list_realloc_capacity_grows _ _ _ (capacity l * 2) Hl Hok
                ltac:(lia) ltac:(lia) Hnf)).
  reflexivity.
Qed.

(** What the memory after an insertion holds. *)
Lemma inserted_spec (m : memory) (list_ : addr) (l : list_t) (index : Z)
    (value : option bytes) (size : Z) (k : nat) :
  heap m !! list_ = Some (OList l) →
  slots_ok l →
  0 <= index <= ArrayList.size l →
  ArrayList.size l < capacity l →
  allocator_ok m →
  ∃ l', heap (inserted m list_ l index value size k) !! list_ = Some (OList l')
        ∧ live_items l'
          = take (Z.to_nat index) (live_items l)
            ++ Ptr (brk m) :: drop (Z.to_nat index) (live_items l)
        ∧ ArrayList.size l' = ArrayList.size l + 1
        ∧ capacity l' = capacity l
        ∧ equalityFunction l' = equalityFunction l
        ∧ sortingFunction l' = sortingFunction l
        ∧ slots_ok l'
        ∧ heap (inserted m list_ l index value size k) !! brk m
          = Some (OElement (element_of value size))
        ∧ (∀ a, a ≠ list_ → a ≠ brk m →
             heap (inserted m list_ l index value size k) !! a = heap m !! a).
Proof.
  intros Hl [Hsize Hlen] Hi Hroom Hok.
  pose proof (allocator_ok_fresh _ _ _ Hok Hl) as Hfresh.
  eexists. split; [apply store_list_lookup|].
  cbn [ArrayList.size capacity items set_size set_items equalityFunction sortingFunction].
  split_and!; try reflexivity.
  - unfold live_items. cbn [ArrayList.size items set_size set_items].
    replace (Z.to_nat (ArrayList.size l + 1)) with (S (Z.to_nat (ArrayList.size l))) by lia.
    replace (Z.to_nat (ArrayList.size l - index))
      with (Z.to_nat (ArrayList.size l) - Z.to_nat index)%nat by lia.
    apply shift_up_insert; lia.
  - split; cbn [ArrayList.size capacity items set_size set_items]; [lia|].
    rewrite length_insert, shift_up_length. exact Hlen.
  - apply store_with_new_lookup_new, Hfresh.
  - intros a Ha Hb. apply store_with_new_lookup_other; assumption.
Qed.

Lemma list_prepend_room (m : memory) (list_ : addr) (l : list_t)
    (value : option bytes) (size : Z) :
  heap m !! list_ = Some (OList l) →
  slots_ok l →
  ArrayList.size l < capacity l →
  capacity l < 2 ^ 63 →
  never_fails m → allocator_ok m → readable value size →
  list_prepend (Some list_) value size m
  = Ret (LIST_SUCCESS, inserted (bump m) list_ l 0 value size (requests value)).
Proof.
  intros Hl [Hsize Hlen] Hroom Hint Hnf Hok Hr. unfold list_prepend.
  pose proof (allocator_ok_fresh _ _ _ Hok Hl) as Hfresh.
  rewrite (bind_Ret _ _ _ _ _ (load_list_eq _ _ _ Hl)).
  replace (ArrayList.size l =? capacity l) with false by (symmetry; lia).
  rewrite bind_eq, ret_eq. cbn [is_success negb].
  rewrite (bind_Ret _ _ _ _ _ (load_list_eq _ _ _ Hl)).
  rewrite (bind_Ret _ _ _ _ _ (shift_loop _ _ _ (ArrayList.size l) 0 Hl ltac:(lia) ltac:(lia))).
  remember (set_items l (shift_up (Z.to_nat (ArrayList.size l - 0))
                           (Z.to_nat (ArrayList.size l)) (items l))) as l1 eqn:El1.
  rewrite (bind_Ret _ _ _ _ _ (malloc_eq _ (never_fails_store_list _ list_ l1 Hnf))).
  change (bump (store_list m list_ l1)) with (store_list (bump m) list_ l1).
  rewrite (bind_Ret _ _ _ _ _
             (list_element_create_eq _ _ _
                (never_fails_store_list _ list_ l1 (never_fails_bump _ Hnf)) Hr)).
  cbn [is_success negb local].
  assert (Hlen1 : length (items l1) = length (items l))
    by (rewrite El1; cbn [items set_items]; apply shift_up_length).
  cbn [store_list brk].
  assert (Hl1 : heap (with_new (store_list (bump m) list_ l1)
                        (OElement (element_of value size)) (requests value)) !! list_
                = Some (OList l1)).
  { cbn [with_new store_list bump heap brk]. rewrite lookup_insert_ne by congruence.
    apply lookup_insert_eq. }
  rewrite (bind_Ret _ _ _ _ _ (set_item_eq _ _ l1 0 _ Hl1 ltac:(lia))).
  rewrite store_new_store by exact Hfresh.
  rewrite (bind_Ret _ _ _ _ _ (load_list_eq _ _ _ (store_list_lookup _ _ _))).
  rewrite (bind_Ret _ _ _ _ _ (write_size_eq _ _ _ _ (store_list_lookup _ _ _))).
  rewrite store_list_twice, ret_eq. unfold inserted. do 3 f_equal.
  rewrite El1. cbn [ArrayList.size set_items items]. rewrite int64_small by lia. reflexivity.
Qed.

Lemma list_prepend_full (m : memory) (list_ : addr) (l : list_t)
    (value : option bytes) (size : Z) :
  heap m !! list_ = Some (OList l) →
  slots_ok l →
  ArrayList.size l = capacity l →
  1 <= capacity l →
  capacity l * 2 < 2 ^ 63 →
  never_fails m →
  list_prepend (Some list_) value size m
  = list_prepend (Some list_) value size
      (store_list (bump m) list_ (grown l (capacity l * 2))).
Proof.
  intros Hl Hok Hfull Hcap Hint Hnf. unfold list_prepend.
  rewrite (bind_Ret _ _ _ _ _ (load_list_eq _ _ _ Hl)).
  rewrite (bind_Ret _ _ _ _ _ (load_list_eq _ _ _ (store_list_lookup _ _ _))).
  cbn [grown ArrayList.size capacity].
  replace (ArrayList.size l =? capacity l) with true by (symmetry; lia).
  replace (ArrayList.size l =? capacity l * 2) with false by (symmetry; lia).
  rewrite int64_small by lia.
  rewrite (bind_Ret _ _ _ _ _
             (list_realloc_capacity_grows _ _ _ (capacity l * 2) Hl Hok
                ltac:(lia) ltac:(lia) Hnf)).
  reflexivity.
Qed.

End ArrayListInsert.

(** [list_insert] of an index from 0 to the size, when no allocation fails:
    the slots in use from the index on move one place up and the slot at the
    index gets a new element, a copy of the value, at an address that was
    free; the size goes up by one and the capacity doubles when the list was
    full.  The elements the list had and everything else in memory stay as
    they were. *)
Theorem list_insert_puts_the_element_at_the_index
    (m : ArrayList.memory) (list_ : addr) (l : ArrayList.list_t) (index : Z)
    (value : option bytes) (size : Z) :
  heap m !! list_ = Some (ArrayList.OList l) →
  ArrayListOps.slots_ok l →
  0 <= index <= ArrayList.size l →
  1 <= ArrayList.capacity l →
  ArrayList.size l < 2 ^ 31 →
  ArrayList.capacity l * 2 < 2 ^ 63 →
  ArrayListOps.never_fails m →
  ArrayListOps.allocator_ok m →
  ArrayListOps.readable value size →
  ∃ (m' : ArrayList.memory) (l' : ArrayList.list_t),
    ArrayList.list_insert (Some list_) index value size m = Ret (ArrayList.LIST_SUCCESS, m')
    ∧ heap m' !! list_ = Some (ArrayList.OList l')
    ∧ ArrayList.live_items l'
      = take (Z.to_nat index) (ArrayList.live_items l)
        ++ ArrayList.Ptr (brk m) :: drop (Z.to_nat index) (ArrayList.live_items l)
    ∧ ArrayList.size l' = ArrayList.size l + 1
    ∧ ArrayList.capacity l'
      = (if ArrayList.size l =? ArrayList.capacity l
         then ArrayList.capacity l * 2 else ArrayList.capacity l)
    ∧ heap m !! brk m = None
    ∧ heap m' !! brk m = Some (ArrayList.OElement (ArrayListOps.element_of value size))
    ∧ (∀ a, a ≠ list_ → a ≠ brk m → heap m' !! a = heap m !! a).
Proof.
  intros Hl Hok Hi Hcap Hint32 Hint Hnf Hal Hr.
  pose proof Hok as [Hsize Hlen].
  destruct (decide (ArrayList.size l = ArrayList.capacity l)) as [Hfull|Hfull].
  - set (l0 := ArrayListOps.grown l (ArrayList.capacity l * 2)).
    set (m0 := ArrayListOps.store_list (ArrayListOps.bump m) list_ l0).
    assert (Hl0 : heap m0 !! list_ = Some (ArrayList.OList l0))
      by apply ArrayListOps.store_list_lookup.
    assert (Hok0 : ArrayListOps.slots_ok l0).
    { split; unfold l0; cbn [ArrayListOps.grown ArrayList.size ArrayList.capacity
                              ArrayList.items]; [lia|].
      rewrite !length_app, length_replicate. simpl. lia. }
    assert (Hal0 : ArrayListOps.allocator_ok m0).
    { apply (ArrayListOps.allocator_ok_store_list (ArrayListOps.bump m) _ l); assumption. }
    assert (Hlive0 : ArrayList.live_items l0 = ArrayList.live_items l).
    { unfold ArrayList.live_items, l0. cbn [ArrayListOps.grown ArrayList.size ArrayList.items].
      apply take_app_le. lia. }
    rewrite (ArrayListInsert.list_insert_full _ _ _ _ _ _ Hl Hok Hi Hfull Hcap Hint Hnf).
    fold l0. fold m0.
    rewrite (ArrayListInsert.list_insert_room m0 list_ l0 index value size Hl0 Hok0 Hi
               ltac:(unfold l0; cbn [ArrayListOps.grown ArrayList.size ArrayList.capacity]; lia)
               Hint32 Hnf Hal0 Hr).
    destruct (ArrayListInsert.inserted_spec m0 list_ l0 index value size
                (ArrayListOps.requests value) Hl0 Hok0 Hi
                ltac:(unfold l0; cbn [ArrayListOps.grown ArrayList.size ArrayList.capacity]; lia)
                Hal0)
      as (l' & Hl' & Hlive & Hsize' & Hcap' & _ & _ & _ & Hnew & Hframe).
    exists (ArrayListInsert.inserted m0 list_ l0 index value size (ArrayListOps.requests value)), l'.
    replace (ArrayList.size l =? ArrayList.capacity l) with true by (symmetry; lia).
    split_and!; try assumption; try reflexivity.
    + rewrite Hlive, Hlive0. reflexivity.
    + apply Hal. reflexivity.
    + intros a Ha Hb. rewrite Hframe by assumption.
      apply (ArrayListOps.store_list_lookup_other (ArrayListOps.bump m)). exact Ha.
  - rewrite (ArrayListInsert.list_insert_room m list_ l index value size Hl Hok Hi
               ltac:(lia) Hint32 Hnf Hal Hr).
    destruct (ArrayListInsert.inserted_spec m list_ l index value size
                (ArrayListOps.requests value) Hl Hok Hi ltac:(lia) Hal)
      as (l' & Hl' & Hlive & Hsize' & Hcap' & _ & _ & _ & Hnew & Hframe).
    exists (ArrayListInsert.inserted m list_ l index value size (ArrayListOps.requests value)), l'.
    replace (ArrayList.size l =? ArrayList.capacity l) with false by (symmetry; lia).
    split_and!; try assumption; try reflexivity.
    apply Hal. reflexivity.
Qed.

(** [list_prepend] when no allocation fails: the slots in use move one place
    up and the first slot gets a new element, a copy of the value, at an
    address that was free; the size goes up by one and the capacity doubles
    when the list was full.  The elements the list had and everything else
    in memory stay as they were.  The function asks the allocator for one
    block more than the element takes. *)
Theorem list_prepend_adds_at_the_front
    (m : ArrayList.memory) (list_ : addr) (l : ArrayList.list_t)
    (value : option bytes) (size : Z) :
  heap m !! list_ = Some (ArrayList.OList l) →
  ArrayListOps.slots_ok l →
  1 <= ArrayList.capacity l →
  ArrayList.capacity l * 2 < 2 ^ 63 →
  ArrayListOps.never_fails m →
  ArrayListOps.allocator_ok m →
  ArrayListOps.readable value size →
  ∃ (m' : ArrayList.memory) (l' : ArrayList.list_t),
    ArrayList.list_prepend (Some list_) value size m = Ret (ArrayList.LIST_SUCCESS, m')
    ∧ heap m' !! list_ = Some (ArrayList.OList l')
    ∧ ArrayList.live_items l' = ArrayList.Ptr (brk m) :: ArrayList.live_items l
    ∧ ArrayList.size l' = ArrayList.size l + 1
    ∧ ArrayList.capacity l'
      = (if ArrayList.size l =? ArrayList.capacity l
         then ArrayList.capacity l * 2 else ArrayList.capacity l)
    ∧ heap m !! brk m = None
    ∧ heap m' !! brk m = Some (ArrayList.OElement (ArrayListOps.element_of value size))
    ∧ (∀ a, a ≠ list_ → a ≠ brk m → heap m' !! a = heap m !! a)
    ∧ alloc_count m'
      = (ArrayListOps.requests value + 1
         + (if (ArrayList.size l =? ArrayList.capacity l)%Z then 1 else 0)
         + alloc_count m)%nat.
Proof.
  intros Hl Hok Hcap Hint Hnf Hal Hr.
  pose proof Hok as [Hsize Hlen].
  destruct (decide (ArrayList.size l = ArrayList.capacity l)) as [Hfull|Hfull].
  - set (l0 := ArrayListOps.grown l (ArrayList.capacity l * 2)).
    set (m0 := ArrayListOps.store_list (ArrayListOps.bump m) list_ l0).
    assert (Hl0 : heap m0 !! list_ = Some (ArrayList.OList l0))
      by apply ArrayListOps.store_list_lookup.
    assert (Hok0 : ArrayListOps.slots_ok l0).
    { split; unfold l0; cbn [ArrayListOps.grown ArrayList.size ArrayList.capacity
                              ArrayList.items]; [lia|].
      rewrite !length_app, length_replicate. simpl. lia. }
    assert (Hal0 : ArrayListOps.allocator_ok m0).
    { apply (ArrayListOps.allocator_ok_store_list (ArrayListOps.bump m) _ l); assumption. }
    assert (Hlive0 : ArrayList.live_items l0 = ArrayList.live_items l).
    { unfold ArrayList.live_items, l0. cbn [ArrayListOps.grown ArrayList.size ArrayList.items].
      apply take_app_le. lia. }
    rewrite (ArrayListInsert.list_prepend_full _ _ _ _ _ Hl Hok Hfull Hcap Hint Hnf).
    fold l0. fold m0.
    rewrite (ArrayListInsert.list_prepend_room m0 list_ l0 value size Hl0 Hok0
               ltac:(unfold l0; cbn [ArrayListOps.grown ArrayList.size ArrayList.capacity]; lia)
               ltac:(unfold l0; cbn [ArrayListOps.grown ArrayList.capacity]; lia)
               Hnf Hal0 Hr).
    destruct (ArrayListInsert.inserted_spec (ArrayListOps.bump m0) list_ l0 0 value size
                (ArrayListOps.requests value) Hl0 Hok0
                ltac:(unfold l0; cbn [ArrayListOps.grown ArrayList.size]; lia)
                ltac:(unfold l0; cbn [ArrayListOps.grown ArrayList.size ArrayList.capacity]; lia)
                Hal0)
      as (l' & Hl' & Hlive & Hsize' & Hcap' & _ & _ & _ & Hnew & Hframe).
    eexists _, l'. split; [reflexivity|].
    replace (ArrayList.size l =? ArrayList.capacity l) with true by (symmetry; lia).
    split_and!; try assumption.
    + rewrite Hlive, Hlive0. reflexivity.
    + apply Hal. reflexivity.
    + intros a Ha Hb. rewrite Hframe by assumption.
      apply (ArrayListOps.store_list_lookup_other (ArrayListOps.bump m)). exact Ha.
    + cbn [ArrayListInsert.inserted ArrayListOps.store_list ArrayListOps.with_new
           ArrayListOps.bump alloc_count m0]. lia.
  - rewrite (ArrayListInsert.list_prepend_room m list_ l value size Hl Hok
               ltac:(lia) ltac:(lia) Hnf Hal Hr).
    destruct (ArrayListInsert.inserted_spec (ArrayListOps.bump m) list_ l 0 value size
                (ArrayListOps.requests value) Hl Hok ltac:(lia) ltac:(lia) Hal)
      as (l' & Hl' & Hlive & Hsize' & Hcap' & _ & _ & _ & Hnew & Hframe).
    eexists _, l'. split; [reflexivity|].
    replace (ArrayList.size l =? ArrayList.capacity l) with false by (symmetry; lia).
    split_and!; try assumption.
    + apply Hal. reflexivity.
    + cbn [ArrayListInsert.inserted ArrayListOps.store_list ArrayListOps.with_new
           ArrayListOps.bump alloc_count]. lia.
Qed.


(** * The array list: what the default sort keeps *)

Module ArrayListShuffle.
Import ArrayList ArrayListFacts ArrayListSlots ArrayListOps ArrayListSearch.

(** The equality function returns on the elements, whichever of their sizes
    it is given. *)
Definition always_compares (f : list_custom_equality_function_t)
    (es : list list_element_t) : Prop :=
  ∀ e1 e2 e3, e1 ∈ es → e2 ∈ es → e3 ∈ es →
    ∃ c, f (el_value e1) (el_value e2) (el_size e3) = Ret c.

Section Shuffle.
Variables (m : memory) (list_ : addr) (l : list_t).
Variables (f : list_custom_equality_function_t) (es : list list_element_t).
Hypothesis Hl : heap m !! list_ = Some (OList l).
Hypothesis Hslots : slots_ok l.
Hypothesis Hf : equalityFunction l = Fn f.
Hypothesis Hes : elements (heap m) l = Some <$> es.
Hypothesis Hcmp : always_compares f es.

(** Slots that hold the pointers of the list in some order below the size,
    and what the list has from the size on. *)
Definition shuffled (a : list pointer) : Prop :=
  length a = length (items l)
  ∧ take (Z.to_nat (size l)) a ≡ₚ live_items l
  ∧ drop (Z.to_nat (size l)) a = drop (Z.to_nat (size l)) (items l).

(** The memories the sort goes through: only the slots of the list differ
    from [m], and they are shuffled. *)
Definition arranged (mk : memory) : Prop :=
  ∃ a, mk = store_list m list_ (set_items l a) ∧ shuffled a.

(** A computation that returns from every such memory, in such a memory,
    with a result that satisfies [Q]. *)
Definition keeps {A} (Q : A → Prop) (c : C A) : Prop :=
  ∀ mk, arranged mk → ∃ x mk', c mk = Ret (x, mk') ∧ arranged mk' ∧ Q x.

Lemma arranged_start : arranged m.
Proof.
  exists (items l). split.
  - rewrite set_items_same. symmetry. apply store_list_same, Hl.
  - split; [reflexivity|]. split; reflexivity.
Qed.

Lemma keeps_ret {A} (Q : A → Prop) (x : A) : Q x → keeps Q (mret x).
Proof. intros HQ mk Hmk. exists x, mk. auto. Qed.

Lemma keeps_bind {A B} (Q : A → Prop) (R : B → Prop) (c : C A) (k : A → C B) :
  keeps Q c → (∀ x, Q x → keeps R (k x)) → keeps R (c ≫= k).
Proof.
  intros Hc Hk mk Hmk.
  destruct (Hc mk Hmk) as (x & m1 & Hrun & Hm1 & HQ).
  destruct (Hk x HQ m1 Hm1) as (y & m2 & Hrun2 & Hm2 & HR).
  exists y, m2. rewrite (bind_Ret _ _ _ _ _ Hrun). auto.
Qed.

Lemma keeps_loop {A} (I : nat → A → Prop) (n : nat) (i step : Z) (acc : A)
    (body : Z → A → C (A + Empty_set)) :
  I 0%nat acc →
  (∀ k acc, (k < n)%nat → I k acc →
     keeps (λ r, match r with inl acc' => I (S k) acc' | inr _ => False end)
       (body (i + Z.of_nat k * step) acc)) →
  keeps (I n) (loop_end (for_loop n i step acc body)).
Proof.
  intros H0 Hbody mk Hmk.
  destruct (for_loop_run (λ k acc mk, arranged mk ∧ I k acc) n i step acc body mk)
    as (acc' & m' & Hrun & Hm' & HI).
  - auto.
  - intros k acc1 m1 Hk [Hm1 HI].
    destruct (Hbody k acc1 Hk HI m1 Hm1) as ([acc2|[]] & m2 & Hrun & Hm2 & HI2).
    eauto.
  - eauto.
Qed.

(** A slot in use points to one of the elements. *)
Lemma live_slot (p : pointer) :
  p ∈ live_items l → ∃ a e, p = Ptr a ∧ heap m !! a = Some (OElement e) ∧ e ∈ es.
Proof.
  intros Hp. apply list_elem_of_lookup in Hp as [i Hi].
  assert (Hat := f_equal (λ x, x !! i) Hes). cbv beta in Hat.
  unfold elements in Hat. rewrite !list_lookup_fmap, Hi in Hat.
  destruct (es !! i) as [e|] eqn:He; [|discriminate]. cbn in Hat. injection Hat as Hat.
  apply element_at_Some in Hat as (a & -> & Ha).
  exists a, e. split; [reflexivity|]. split; [exact Ha|].
  eapply list_elem_of_lookup_2, He.
Qed.

Lemma arranged_lookup_list (mk : memory) :
  arranged mk → ∃ a, heap mk !! list_ = Some (OList (set_items l a)) ∧ shuffled a
                     ∧ mk = store_list m list_ (set_items l a).
Proof. intros (a & -> & Ha). exists a. split; [apply store_list_lookup | auto]. Qed.

Lemma arranged_lookup_element (mk : memory) (a : addr) (e : list_element_t) :
  arranged mk → heap m !! a = Some (OElement e) → heap mk !! a = Some (OElement e).
Proof.
  intros (a' & -> & _) Ha. rewrite store_list_lookup_other; [exact Ha|].
  intros E. rewrite E in Ha. pose proof (eq_trans (eq_sym Ha) Hl). discriminate.
Qed.

Lemma keeps_get_item (i : Z) :
  0 <= i < size l →
  keeps (λ p, ∃ a e, p = Ptr a ∧ heap m !! a = Some (OElement e) ∧ e ∈ es)
    (get_item list_ i).
Proof.
  intros Hi mk Hmk. destruct Hslots as [Hsize Hlen].
  destruct (arranged_lookup_list mk Hmk) as (a & Ha & (Hlena & Hperm & Hdrop) & _).
  destruct (lookup_lt_is_Some_2 a (Z.to_nat i) ltac:(lia)) as [p Hp].
  exists p, mk. split; [|split; [exact Hmk|]].
  - apply (get_item_eq _ _ (set_items l a) i p Ha); [lia | exact Hp].
  - apply live_slot. rewrite <- Hperm.
    apply (list_elem_of_lookup_2 _ (Z.to_nat i)). rewrite lookup_take_lt by lia. exact Hp.
Qed.

Lemma keeps_load_element (a : addr) (e : list_element_t) :
  heap m !! a = Some (OElement e) → keeps (λ x, x = e) (load_element (Ptr a)).
Proof.
  intros Ha mk Hmk. exists e, mk. split; [|auto].
  apply load_list_element_eq, arranged_lookup_element; assumption.
Qed.

Lemma keeps_equality_of : keeps (λ g, g = f) (equality_of list_).
Proof.
  intros mk Hmk. destruct (arranged_lookup_list mk Hmk) as (a & Ha & _).
  exists f, mk. split; [|auto]. apply (equality_of_eq _ _ _ _ Ha). exact Hf.
Qed.

Lemma keeps_lift {A} (e : exec A) : (∃ c, e = Ret c) → keeps (λ _, True) (lift e).
Proof. intros [c ->] mk Hmk. exists c, mk. auto. Qed.

Lemma shuffled_exchange (a : list pointer) (i j : nat) :
  shuffled a → (i < Z.to_nat (size l))%nat → (j < Z.to_nat (size l))%nat →
  shuffled (exchange a i j).
Proof.
  intros (Hlen & Hperm & Hdrop) Hi Hj. destruct Hslots as [Hsize Hlenl].
  unfold exchange.
  destruct (lookup_lt_is_Some_2 a i ltac:(lia)) as [x Hx].
  destruct (lookup_lt_is_Some_2 a j ltac:(lia)) as [y Hy].
  rewrite Hx, Hy. split_and!.
  - rewrite !length_insert. exact Hlen.
  - rewrite !take_insert_lt by lia. rewrite <- Hperm.
    apply Permutation_insert_swap; rewrite lookup_take_lt by lia; assumption.
  - rewrite !drop_insert_lt by lia. exact Hdrop.
Qed.

(** [list_swap], whatever the indices: out of range, it changes nothing. *)
Lemma keeps_swap (i j : Z) : keeps (λ _, True) (list_swap (Some list_) i j).
Proof.
  intros mk Hmk. destruct Hslots as [Hsize Hlen].
  destruct (arranged_lookup_list mk Hmk) as (a & Ha & Hsh & ->).
  pose proof Hsh as (Hlena & _).
  destruct (decide (0 <= i < size l ∧ 0 <= j < size l)) as [[Hi Hj]|Hout].
  - eexists _, _. split; [|split; [|exact I]].
    + apply (list_swap_run _ _ (set_items l a) i j Ha); [|exact Hi|exact Hj].
      split; [exact Hsize|]. cbn [items set_items capacity]. lia.
    + exists (exchange a (Z.to_nat i) (Z.to_nat j)). split.
      * rewrite store_list_twice. reflexivity.
      * apply shuffled_exchange; [exact Hsh | lia | lia].
  - exists LIST_INDEX_OUT_OF_RANGE_ERROR. eexists. split; [|split; [exact Hmk|exact I]].
    unfold list_swap. rewrite (bind_Ret _ _ _ _ _ (load_list_eq _ _ _ Ha)).
    cbn [size set_items].
    destruct ((i >=? size l) || (i <? 0)) eqn:E1; [reflexivity|].
    destruct ((j >=? size l) || (j <? 0)) eqn:E2; [reflexivity|].
    lia.
Qed.

Lemma keeps_compare_items (a b : Z) :
  0 <= a < size l → 0 <= b < size l → keeps (λ _, True) (compare_items list_ a b).
Proof.
  intros Ha Hb. unfold compare_items.
  apply (keeps_bind _ _ _ _ keeps_equality_of). intros ? ->.
  apply (keeps_bind _ _ _ _ (keeps_get_item a Ha)). intros ? (xa & ea & -> & Hxa & Hea).
  apply (keeps_bind _ _ _ _ (keeps_load_element _ _ Hxa)). intros ? ->.
  apply (keeps_bind _ _ _ _ (keeps_get_item b Hb)). intros ? (xb & eb & -> & Hxb & Heb).
  apply (keeps_bind _ _ _ _ (keeps_load_element _ _ Hxb)). intros ? ->.
  apply keeps_lift, Hcmp; assumption.
Qed.

(** The swap of two slots under a condition. *)
Lemma keeps_swap_if (a b : Z) (test : bool) :
  keeps (λ _, True) (if test then list_swap (Some list_) a b;; mret tt else mret tt).
Proof.
  destruct test; [|apply keeps_ret; exact I].
  apply (keeps_bind _ _ _ _ (keeps_swap a b)). intros _ _. apply keeps_ret. exact I.
Qed.

(** [partition] returns an index of the range, below its last one. *)
Lemma partition_keeps (low high : Z) (ascending : bool) :
  0 <= low → low < high → high < size l →
  keeps (λ p, low <= p <= high - 1) (partition list_ low high ascending).
Proof.
  intros Hlow Hlt Hhigh. unfold partition.
  apply (keeps_bind (λ _, True)).
  - destruct (high - low + 1 >=? 3); [|apply keeps_ret; exact I].
    cbv zeta.
    assert (Hmid : low <= low + Z.quot (high - low) 2 <= high).
    { rewrite Z.quot_div_nonneg by lia.
      pose proof (Z.div_pos (high - low) 2 ltac:(lia) ltac:(lia)).
      pose proof (Z.div_le_upper_bound (high - low) 2 (high - low) ltac:(lia) ltac:(lia)).
      lia. }
    remember (low + Z.quot (high - low) 2) as mid eqn:Emid.
    apply (keeps_bind _ _ _ _ (keeps_compare_items low mid ltac:(lia) ltac:(lia))).
    intros c1 _. apply (keeps_bind _ _ _ _ (keeps_swap_if low mid _)). intros _ _.
    apply (keeps_bind _ _ _ _ (keeps_compare_items low high ltac:(lia) ltac:(lia))).
    intros c2 _. apply (keeps_bind _ _ _ _ (keeps_swap_if low high _)). intros _ _.
    apply (keeps_bind _ _ _ _ (keeps_compare_items mid high ltac:(lia) ltac:(lia))).
    intros c3 _. apply (keeps_bind _ _ _ _ (keeps_swap_if mid high _)). intros _ _.
    apply (keeps_bind _ _ _ _ (keeps_swap mid (high - 1))). intros _ _.
    apply keeps_ret. exact I.
  - intros _ _.
    apply (keeps_bind _ _ _ _ (keeps_get_item (high - 1) ltac:(lia))).
    intros ? (xp & pivot & -> & Hxp & Hpivot).
    apply (keeps_bind _ _ _ _ (keeps_load_element _ _ Hxp)). intros ? ->.
    apply (keeps_bind (λ i, low - 1 <= i <= high - 2)).
    + unfold for_up.
      assert (Hn : Z.of_nat (Z.to_nat (high - 1 - low)) = high - 1 - low) by lia.
      revert Hn. generalize (Z.to_nat (high - 1 - low)). intros n Hn.
      match goal with |- keeps _ (loop_end (for_loop n ?i ?step ?acc ?body)) =>
        assert (Hloop : keeps (λ i, low - 1 <= i <= low - 1 + Z.of_nat n)
                          (loop_end (for_loop n i step acc body)))
      end.
      { apply (keeps_loop (λ k i, low - 1 <= i <= low - 1 + Z.of_nat k)); [lia|].
        intros k i Hk Hi.
        apply (keeps_bind _ _ _ _ keeps_equality_of). intros ? ->.
        apply (keeps_bind _ _ _ _ (keeps_get_item (low + Z.of_nat k * 1) ltac:(lia))).
        intros ? (xj & ej & -> & Hxj & Hej).
        apply (keeps_bind _ _ _ _ (keeps_load_element _ _ Hxj)). intros ? ->.
        apply (keeps_bind _ _ _ _ (keeps_lift _ (Hcmp ej pivot pivot Hej Hpivot Hpivot))).
        intros c _.
        match goal with |- context [if ?b then _ else _] => destruct b end.
        - apply (keeps_bind _ _ _ _ (keeps_swap _ _)). intros _ _.
          apply keeps_ret. lia.
        - apply keeps_ret. lia. }
      intros mk Hmk. destruct (Hloop mk Hmk) as (i & mk' & Hrun & Hmk' & Hi).
      exists i, mk'. split; [exact Hrun|]. split; [exact Hmk'|]. lia.
    + intros i Hi.
      apply (keeps_bind _ _ _ _ (keeps_swap _ _)). intros _ _.
      apply keeps_ret. lia.
Qed.

(** [quicksort] returns when its fuel is above the length of the range. *)
Lemma quicksort_keeps (fuel : nat) (low high : Z) (ascending : bool) :
  size l < 2 ^ 31 →
  0 <= low → high < size l → high - low < Z.of_nat fuel →
  keeps (λ _, True) (quicksort fuel list_ low high ascending).
Proof.
  intros Hint. revert low high.
  induction fuel as [|fuel IH]; intros low high Hlow Hhigh Hfuel.
  - cbn [quicksort]. replace (low <? high) with false by (symmetry; lia).
    apply keeps_ret. exact I.
  - cbn [quicksort]. destruct (low <? high) eqn:E; [|apply keeps_ret; exact I].
    apply Z.ltb_lt in E.
    apply (keeps_bind _ _ _ _ (partition_keeps low high ascending Hlow E Hhigh)).
    intros p Hp. cbv zeta. rewrite int32_small by lia.
    apply (keeps_bind (λ _, True)).
    + apply IH; lia.
    + intros _ _. apply IH; lia.
Qed.

Lemma default_sort_keeps (ascending : bool) :
  size l < 2 ^ 31 →
  ∃ a, default_sort list_ ascending m
       = Ret (LIST_SUCCESS, store_list m list_ (set_items l a))
       ∧ shuffled a.
Proof.
  intros Hint. destruct Hslots as [Hsize Hlen]. unfold default_sort.
  rewrite (bind_Ret _ _ _ _ _ (load_list_eq _ _ _ Hl)).
  destruct (quicksort_keeps (Z.to_nat (size l)) 0 (size l - 1) ascending Hint
              ltac:(lia) ltac:(lia) ltac:(lia) m arranged_start)
    as ([] & m' & Hrun & (a & -> & Ha) & _).
  rewrite (bind_Ret _ _ _ _ _ Hrun). eauto.
Qed.

End Shuffle.

End ArrayListShuffle.

(** [list_sort] of a list that has the default sorting function and fewer
    than 2^31 elements, with an equality function that returns on them:
    the call returns [LIST_SUCCESS] and changes only the slots of the list.
    The slots in use hold the same pointers as before, in some order: no
    element is lost, duplicated or written to; the slots from the size on
    stay as they were. *)
Theorem list_sort_by_default_permutes_the_slots
    (custom_sort : positive → addr → bool → ArrayList.C ArrayList.list_result_t)
    (m : ArrayList.memory) (list_ : addr) (l : ArrayList.list_t)
    (f : ArrayList.list_custom_equality_function_t) (es : list ArrayList.list_element_t)
    (ascending : bool) :
  heap m !! list_ = Some (ArrayList.OList l) →
  ArrayListOps.slots_ok l →
  ArrayList.size l < 2 ^ 31 →
  ArrayList.sortingFunction l = Fn ArrayList.SortDefault →
  ArrayList.equalityFunction l = Fn f →
  ArrayList.elements (heap m) l = Some <$> es →
  ArrayListShuffle.always_compares f es →
  ∃ a : list ArrayList.pointer,
    ArrayList.list_sort custom_sort (Some list_) ascending m
    = Ret (ArrayList.LIST_SUCCESS,
           ArrayListOps.store_list m list_ (ArrayList.set_items l a))
    ∧ length a = length (ArrayList.items l)
    ∧ take (Z.to_nat (ArrayList.size l)) a ≡ₚ ArrayList.live_items l
    ∧ drop (Z.to_nat (ArrayList.size l)) a
      = drop (Z.to_nat (ArrayList.size l)) (ArrayList.items l).
Proof.
  intros Hl Hslots Hint Hsort Hf Hes Hcmp. unfold ArrayList.list_sort.
  rewrite (bind_Ret _ _ _ _ _ (ArrayListFacts.load_list_eq _ _ _ Hl)).
  destruct ((ArrayList.size l =? 0) || (ArrayList.size l =? 1)).
  - exists (ArrayList.items l). split_and!; try reflexivity.
    rewrite ArrayListOps.set_items_same, (ArrayListOps.store_list_same _ _ _ Hl).
    reflexivity.
  - rewrite Hsort.
    exact (ArrayListShuffle.default_sort_keeps m list_ l f es Hl Hslots Hf Hes Hcmp
             ascending Hint).
Qed.

(** * The array list: popping *)

Module ArrayListPop.
Import ArrayList ArrayListFacts ArrayListSlots ArrayListOps ArrayListRemove.

Lemma list_pop_of_an_element (m : memory) (list_ : addr) (l : list_t) (index : Z)
    (a : addr) (e : list_element_t) :
  heap m !! list_ = Some (OList l) →
  0 <= index < capacity l →
  items l !! Z.to_nat index = Some (Ptr a) →
  heap m !! a = Some (OElement e) →
  element_ok e →
  never_fails m →
  list_pop (Some list_) index m = Undef.
Proof.
  intros Hl Hi Hp Ha Heok Hnf. unfold list_pop.
  rewrite (bind_Ret _ _ _ _ _ (load_list_eq _ _ _ Hl)).
  replace ((index >=? capacity l) || (index <? 0)) with false by (symmetry; lia).
  rewrite (bind_Ret _ _ _ _ _ (get_item_eq _ _ _ index _ Hl ltac:(lia) Hp)).
  rewrite (bind_Ret _ _ _ _ _ (list_element_clone_eq _ _ _ Hnf Ha Heok)).
  cbn [is_success negb].
  rewrite bind_eq, list_element_free_of_a_pointer. reflexivity.
Qed.

Lemma list_pop_result (list : option addr) (index : Z) (m m' : memory)
    (r : list_result_t) (out : option pointer) :
  list_pop list index m = Ret ((r, out), m') → r ≠ LIST_SUCCESS.
Proof.
  unfold list_pop. intros H. destruct list as [list_|]; [|inversion H; discriminate].
  inv_bind H. destruct ((index >=? capacity a) || (index <? 0)); [inversion H; discriminate|].
  inv_bind H. inv_bind H. destruct a1 as [cloneResult element].
  apply list_element_clone_result in H2 as [-> | ->]; cbn [is_success negb] in H.
  - inversion H. discriminate.
  - inv_bind H. destruct a1 as [freeResult p'].
    match goal with
    | Hf : list_element_free _ _ = Ret _ |- _ =>
        apply list_element_free_returns in Hf as (_ & -> & _ & _)
    end.
    inv_bind H. cbn [is_success negb] in H. inversion H. discriminate.
Qed.

End ArrayListPop.

(** [list_pop] of an index below the capacity whose slot holds a well-formed
    element, when no allocation fails, has no defined result: the call makes
    its copy of the element and then frees the element with
    [list_element_free], which writes the fields [value] and [size] of the
    element it has freed.  So [list_pop] has no defined run that ends in
    [LIST_SUCCESS]: a call whose behaviour is defined returns an error. *)
Theorem list_pop_writes_through_the_freed_element
    (m : ArrayList.memory) (list_ : addr) (l : ArrayList.list_t) (index : Z)
    (a : addr) (e : ArrayList.list_element_t) :
  heap m !! list_ = Some (ArrayList.OList l) →
  0 <= index < ArrayList.capacity l →
  ArrayList.items l !! Z.to_nat index = Some (ArrayList.Ptr a) →
  heap m !! a = Some (ArrayList.OElement e) →
  ArrayList.element_ok e →
  ArrayListOps.never_fails m →
  ArrayList.list_pop (Some list_) index m = Undef
  ∧ ∀ (list' : option addr) (index' : Z) (m0 m' : ArrayList.memory)
      (r : ArrayList.list_result_t) (out : option ArrayList.pointer),
      ArrayList.list_pop list' index' m0 = Ret ((r, out), m') → r ≠ ArrayList.LIST_SUCCESS.
Proof.
  intros Hl Hi Hp Ha Heok Hnf. split.
  - exact (ArrayListPop.list_pop_of_an_element m list_ l index a e Hl Hi Hp Ha Heok Hnf).
  - exact ArrayListPop.list_pop_result.
Qed.


(** * The linked list: reversing *)

Module LinkedListOps.
Import LinkedList LinkedListFacts LinkedListSort.

(** The list object is none of the nodes of a chain. *)
Lemma chain_not_list (h : gmap addr object) (p : option addr) (ns : list addr)
    (list_ : addr) (l : linked_list_t) :
  chain h p ns → h !! list_ = Some (OList l) → list_ ∉ ns.
Proof.
  intros Hc Hl Hin. destruct (chain_nodes _ _ _ _ Hc Hin) as [n Hn]. congruence.
Qed.

(** The element of a node is the same after writes to [next] fields. *)
Lemma element_at_relinked_eq (h h' : gmap addr object) (a : addr) :
  relinked h h' → element_at h' a = element_at h a.
Proof.
  intros Hr. unfold element_at.
  assert (He : ∀ e, match h' !! e with Some (OElement x) => Some x | _ => None end
                    = match h !! e with Some (OElement x) => Some x | _ => None end).
  { intros e. destruct (Hr e) as [-> | (k & k' & -> & -> & _)]; reflexivity. }
  destruct (Hr a) as [-> | (n & n' & -> & -> & ->)].
  - destruct (h !! a) as [[|n| |]|]; try reflexivity.
    destruct (element n); [apply He | reflexivity].
  - destruct (element n); [apply He | reflexivity].
Qed.

Lemma reverse_loop_spec (m : memory) (rest : list addr) :
  ∀ (fuel : nat) (h : gmap addr object) (prev cur : option addr) (done : list addr),
  chain h cur rest → chain h prev done →
  (∀ a, a ∈ rest → a ∉ done) →
  (length rest <= fuel)%nat →
  ∃ h', reverse_loop fuel prev cur (with_heap m h)
        = Ret (hd_error (reverse rest ++ done), with_heap m h')
        ∧ chain h' (hd_error (reverse rest ++ done)) (reverse rest ++ done)
        ∧ relinked h h'
        ∧ unchanged_outside rest h h'.
Proof.
  induction rest as [|a rest IH]; intros fuel h prev cur done Hc Hd Hdis Hfuel.
  - inversion Hc; subst. exists h. change (reverse [] ++ done) with done.
    rewrite <- (chain_head _ _ _ Hd).
    split; [destruct fuel; reflexivity|]. split; [exact Hd|].
    split; [apply relinked_refl | apply unchanged_outside_refl].
  - pose proof (chain_NoDup _ _ _ Hc) as Hnd. apply NoDup_cons in Hnd as [Ha Hnd].
    inversion Hc as [|a' n ns' Hn Hc']; subst.
    destruct fuel as [|fuel]; [simpl in Hfuel; lia|].
    cbn [reverse_loop].
    rewrite (bind_Ret _ _ _ _ _ (load_node_eq (with_heap m h) _ _ Hn)).
    rewrite (bind_Ret _ _ _ _ _ (write_next_eq (with_heap m h) _ _ prev Hn)).
    change (with_heap (with_heap m h) ?x) with (with_heap m x).
    cbn [heap with_heap].
    destruct (IH fuel (relink h a n prev) (Some a) (next n) (a :: done))
      as (h' & Hrun & Hc2 & Hr & Hu).
    + apply chain_relink; assumption.
    + apply (chain_cons _ a {| next := prev; element := element n |}).
      * apply lookup_insert_eq.
      * apply chain_relink; [exact Hd|]. apply Hdis. left.
    + intros b Hb Hin. apply elem_of_cons in Hin as [->|Hin]; [contradiction|].
      apply (Hdis b); [right; exact Hb | exact Hin].
    + simpl in Hfuel. lia.
    + exists h'. rewrite reverse_cons, <- app_assoc. cbn [app].
      split; [exact Hrun|]. split; [exact Hc2|]. split.
      * apply (relinked_trans _ (relink h a n prev)); [apply relinked_relink, Hn | exact Hr].
      * apply (unchanged_outside_trans [a] rest _ _ (relink h a n prev));
          [apply unchanged_outside_relink; left | exact Hu | |].
        -- intros b Hb. apply list_elem_of_singleton in Hb as ->. left.
        -- intros b Hb. right. exact Hb.
Qed.

End LinkedListOps.

(** [linked_list_reverse] of a list whose nodes are a chain: the chain is
    the same nodes in the opposite order; the head of the list becomes the
    last node and its tail the node that was the head.  The nodes keep their
    elements and nothing else in memory changes.  An empty list is left as
    it is. *)
Theorem linked_list_reverse_turns_the_chain_around
    (m : LinkedList.memory) (linkedList : addr) (l : LinkedList.linked_list_t)
    (ns : list addr) :
  heap m !! linkedList = Some (LinkedList.OList l) →
  LinkedList.chain (heap m) (LinkedList.head l) ns →
  ∃ m' : LinkedList.memory,
    LinkedList.linked_list_reverse (Some linkedList) m
    = Ret (LinkedList.LINKED_LIST_SUCCESS, m')
    ∧ heap m' !! linkedList
      = Some (LinkedList.OList
                (match ns with
                 | [] => l
                 | _ => LinkedList.set_head (LinkedList.set_tail l (LinkedList.head l))
                          (last ns)
                 end))
    ∧ LinkedList.chain (heap m') (last ns) (reverse ns)
    ∧ (∀ a, a ∈ ns → LinkedList.element_at (heap m') a = LinkedList.element_at (heap m) a)
    ∧ (∀ a, a ∉ ns → a ≠ linkedList → heap m' !! a = heap m !! a).
Proof.
  intros Hl Hc. unfold LinkedList.linked_list_reverse.
  rewrite (bind_Ret _ _ _ _ _ (LinkedListFacts.load_linked_list_eq _ _ _ Hl)).
  pose proof (LinkedListSort.chain_head _ _ _ Hc) as Hhead.
  destruct ns as [|a ns].
  - rewrite Hhead. exists m. split_and!; try reflexivity; [exact Hl | constructor].
  - cbn [hd_error] in Hhead. rewrite Hhead.
    rewrite (bind_Ret LinkedList.heap_size _ m m (stdpp.base.size (heap m))) by reflexivity.
    pose proof (LinkedListSort.chain_length _ _ _ Hc) as Hlen.
    destruct (LinkedListOps.reverse_loop_spec m (a :: ns) (S (stdpp.base.size (heap m)))
                (heap m) None (Some a) [])
      as (h' & Hrun & Hc' & Hr & Hu).
    + rewrite <- Hhead. exact Hc.
    + constructor.
    + intros b _ Hb. inversion Hb.
    + lia.
    + rewrite LinkedListSort.with_heap_same, app_nil_r in Hrun.
      rewrite app_nil_r in Hc'.
      rewrite (bind_Ret _ _ _ _ _ Hrun).
      pose proof (LinkedListOps.chain_not_list _ _ _ _ _ Hc Hl) as Hout.
      assert (Hl' : heap (LinkedListSort.with_heap m h') !! linkedList
                    = Some (LinkedList.OList l)) by (cbn; rewrite Hu; assumption).
      rewrite (bind_Ret _ _ _ _ _ (LinkedListSort.write_tail_eq _ _ _ (Some a) Hl')).
      rewrite (bind_Ret _ _ _ _ _
                 (LinkedListSort.write_head_eq _ linkedList
                    (LinkedList.set_tail l (Some a)) _ (lookup_insert_eq _ _ _))).
      assert (Hlast : hd_error (reverse (a :: ns)) = last (a :: ns)).
      { rewrite <- (reverse_involutive (a :: ns)) at 2. rewrite last_reverse.
        destruct (reverse (a :: ns)); reflexivity. }
      eexists. split; [reflexivity|]. cbn [heap LinkedListSort.with_heap].
      rewrite Hlast in *. split_and!.
      * rewrite insert_insert_eq, lookup_insert_eq. reflexivity.
      * apply (LinkedListSort.chain_unchanged h'); [exact Hc'|].
        intros b Hb. rewrite insert_insert_eq. apply lookup_insert_ne.
        intros ->. apply Hout. apply elem_of_reverse. exact Hb.
      * intros b Hb. rewrite insert_insert_eq.
        rewrite <- (LinkedListOps.element_at_relinked_eq (heap m) h' b Hr).
        unfold LinkedList.element_at.
        assert (Hb' : b ≠ linkedList) by (intros ->; contradiction).
        rewrite lookup_insert_ne by congruence.
        destruct (h' !! b) as [[|n| |]|]; try reflexivity.
        destruct (LinkedList.element n) as [e|]; [|reflexivity].
        destruct (decide (e = linkedList)) as [->|He].
        -- rewrite lookup_insert_eq. cbn in Hl'. rewrite Hl'. reflexivity.
        -- rewrite lookup_insert_ne by congruence. reflexivity.
      * intros b Hb Hne. rewrite insert_insert_eq, lookup_insert_ne by congruence.
        apply Hu, Hb.
Qed.

(** * The linked list: loops over the nodes *)

Module LinkedListWalk.
Import LinkedList LinkedListFacts LinkedListSort.

Section Walk.
Context {A R : Type}.

(** A loop over the nodes [ns] whose body keeps an invariant, leaves the node
    it stands on in place with its successor, or leaves the function with a
    result that satisfies [Q], returns when it has fuel for every node. *)
Lemma walk_nodes (ns : list addr) :
  ∀ (I : nat → A → memory → Prop) (Q : nat → R → memory → Prop)
    (fuel : nat) (p : option addr) (acc : A)
    (body : addr → A → C (option addr * A + R)) (m : memory),
  (length ns <= fuel)%nat →
  p = hd_error ns →
  I 0%nat acc m →
  (∀ k a acc mk, ns !! k = Some a → I k acc mk →
     ∃ r mk', body a acc mk = Ret (r, mk')
              ∧ match r with
                | inl (node', acc') =>
                    node' = Some a
                    ∧ (∃ n, heap mk' !! a = Some (ONode n)
                            ∧ next n = hd_error (drop (S k) ns))
                    ∧ I (S k) acc' mk'
                | inr x => Q k x mk'
                end) →
  ∃ r m', walk fuel p acc body m = Ret (r, m')
          ∧ match r with
            | inl acc' => I (length ns) acc' m'
            | inr x => ∃ k, (k < length ns)%nat ∧ Q k x m'
            end.
Proof.
  induction ns as [|a ns IH]; intros I Q fuel p acc body m Hfuel -> H0 Hbody.
  - exists (inl acc), m. split; [destruct fuel; reflexivity | exact H0].
  - destruct fuel as [|fuel]; [simpl in Hfuel; lia|].
    cbn [hd_error walk].
    destruct (Hbody 0%nat a acc m eq_refl H0) as (r & m1 & Hr & Hpost).
    rewrite (bind_Ret _ _ _ _ _ Hr).
    destruct r as [[node' acc1]|x].
    + destruct Hpost as (-> & (n & Hn & Hnext) & H1).
      rewrite (bind_Ret _ _ _ _ _ (load_node_eq _ _ _ Hn)).
      destruct (IH (λ k, I (S k)) (λ k, Q (S k)) fuel (next n) acc1 body m1)
        as (r & m' & Hrun & Hfinal).
      * simpl in Hfuel. lia.
      * exact Hnext.
      * exact H1.
      * intros k b acc' mk Hb HI. exact (Hbody (S k) b acc' mk Hb HI).
      * exists r, m'. split; [exact Hrun|].
        destruct r as [acc'|y]; [exact Hfinal|].
        destruct Hfinal as (k & Hk & HQ). exists (S k). split; [simpl; lia | exact HQ].
    + exists (inr x), m1. split; [reflexivity|]. exists 0%nat. split; [simpl; lia | exact Hpost].
Qed.

End Walk.

(** The node at a place of a chain, and where its [next] leads. *)
Lemma chain_lookup (h : gmap addr object) (p : option addr) (ns : list addr)
    (k : nat) (a : addr) :
  chain h p ns → ns !! k = Some a →
  ∃ n, h !! a = Some (ONode n) ∧ next n = hd_error (drop (S k) ns).
Proof.
  intros Hc. revert k. induction Hc as [|b n ns Hb Hc IH]; intros k Hk; [discriminate|].
  destruct k as [|k].
  - injection Hk as <-. exists n. split; [exact Hb|].
    rewrite (chain_head _ _ _ Hc). reflexivity.
  - apply (IH k Hk).
Qed.

(** The heap without the objects at some addresses. *)
Definition removed (h : gmap addr object) (addresses : list addr) : gmap addr object :=
  foldr delete h addresses.

Lemma removed_lookup (h : gmap addr object) (addresses : list addr) (a : addr) :
  removed h addresses !! a = if decide (a ∈ addresses) then None else h !! a.
Proof.
  induction addresses as [|x xs IH]; cbn [removed foldr].
  - destruct (decide (a ∈ [])) as [H|_]; [inversion H | reflexivity].
  - fold (removed h xs). destruct (decide (x = a)) as [->|Hne].
    + rewrite lookup_delete_eq.
      destruct (decide (a ∈ a :: xs)) as [_|H]; [reflexivity|]. exfalso. apply H. left.
    + rewrite lookup_delete_ne by exact Hne. rewrite IH.
      destruct (decide (a ∈ xs)) as [Hin|Hout];
        destruct (decide (a ∈ x :: xs)) as [Hin'|Hout']; try reflexivity.
      * exfalso. apply Hout'. right. exact Hin.
      * apply elem_of_cons in Hin' as [->|]; [congruence | contradiction].
Qed.

(** The nodes [ns] hold the elements [es], one each, and all of them are
    different objects. *)
Definition owns (h : gmap addr object) (ns es : list addr) : Prop :=
  length es = length ns
  ∧ NoDup (ns ++ es)
  ∧ ∀ i a e, ns !! i = Some a → es !! i = Some e →
      ∃ n x, h !! a = Some (ONode n) ∧ element n = Some e ∧ h !! e = Some (OElement x).

(** What the loop of [linked_list_clear] and [linked_list_free] has freed
    when it stands on the node [k]: the nodes before the one before it, and
    their elements. *)
Definition freed (ns es : list addr) (k : nat) : list addr :=
  take (k - 1) ns ++ take (k - 1) es.

Lemma freed_spec (ns es : list addr) (k : nat) (b : addr) :
  b ∈ freed ns es k ↔ ∃ i, (i < k - 1)%nat ∧ (ns !! i = Some b ∨ es !! i = Some b).
Proof.
  unfold freed. rewrite elem_of_app, !elem_of_take. split.
  - intros [(i & Hi & Hlt)|(i & Hi & Hlt)]; exists i; auto.
  - intros (i & Hlt & [Hi|Hi]); [left | right]; exists i; auto.
Qed.

Lemma owns_node (h : gmap addr object) (ns es : list addr) (i j : nat) (a : addr) :
  owns h ns es → ns !! i = Some a → (ns !! j = Some a → i = j) ∧ es !! j ≠ Some a.
Proof.
  intros (_ & Hnd & _) Ha. apply NoDup_app in Hnd as (Hnd & Hdis & _). split.
  - intros Hj. exact (NoDup_lookup _ _ _ _ Hnd Ha Hj).
  - intros Hj. apply (Hdis a); eapply list_elem_of_lookup_2; eassumption.
Qed.

Lemma owns_element (h : gmap addr object) (ns es : list addr) (i j : nat) (e : addr) :
  owns h ns es → es !! i = Some e → (es !! j = Some e → i = j) ∧ ns !! j ≠ Some e.
Proof.
  intros (_ & Hnd & _) He. apply NoDup_app in Hnd as (_ & Hdis & Hnd). split.
  - intros Hj. exact (NoDup_lookup _ _ _ _ Hnd He Hj).
  - intros Hj. apply (Hdis e); eapply list_elem_of_lookup_2; eassumption.
Qed.

Lemma linked_list_element_free_eq (m : memory) (e : addr) (x : linked_list_element_t) :
  heap m !! e = Some (OElement x) →
  linked_list_element_free (Some e) m
  = Ret ((LINKED_LIST_SUCCESS, None), with_heap m (delete e (heap m))).
Proof.
  intros He. unfold linked_list_element_free.
  rewrite (bind_Ret _ _ _ _ _ (load_element_eq _ _ _ He)).
  rewrite bind_eq. unfold free. rewrite He. reflexivity.
Qed.

(** [linked_list_node_free] of a node that holds an element. *)
Lemma linked_list_node_free_eq (m : memory) (a e : addr) (n : linked_list_node_t)
    (x : linked_list_element_t) :
  heap m !! a = Some (ONode n) → element n = Some e → heap m !! e = Some (OElement x) →
  linked_list_node_free (Some a) m
  = Ret ((LINKED_LIST_SUCCESS, None), with_heap m (delete a (delete e (heap m)))).
Proof.
  intros Ha Hel He.
  assert (Hae : e ≠ a) by (intros ->; congruence).
  unfold linked_list_node_free.
  rewrite (bind_Ret _ _ _ _ _ (load_node_eq _ _ _ Ha)), Hel.
  rewrite (bind_Ret _ _ _ _ _ (linked_list_element_free_eq _ _ _ He)).
  rewrite bind_eq. unfold free. cbn [heap with_heap].
  rewrite lookup_delete_ne by congruence. rewrite Ha. reflexivity.
Qed.

Lemma free_previous_nodes_spec (m : memory) (p : option addr) (ns es : list addr) :
  chain (heap m) p ns →
  owns (heap m) ns es →
  ∃ m', free_previous_nodes p m = Ret (inl (last ns), m')
        ∧ ∀ a, heap m' !! a
               = if decide (a ∈ freed ns es (length ns)) then None else heap m !! a.
Proof.
  intros Hc Howns. pose proof Howns as (Hlen & Hnd & Hown).
  unfold free_previous_nodes, for_nodes.
  rewrite (bind_Ret heap_size _ m m (stdpp.base.size (heap m))) by reflexivity.
  pose proof (chain_length _ _ _ Hc) as Hfuel.
  destruct (walk_nodes ns
              (λ k acc mk,
                 acc = match k with O => None | S k' => ns !! k' end
                 ∧ ∀ a, heap mk !! a
                        = if decide (a ∈ freed ns es k) then None else heap m !! a)
              (λ _ (_ : linked_list_result_t) _, False)
              (S (stdpp.base.size (heap m))) p None
              (λ node previousNode,
                 match previousNode with
                 | Some _ =>
                     '(nodeFreeResult, _) ← linked_list_node_free previousNode;
                     if negb (is_success nodeFreeResult) then mret (inr nodeFreeResult)
                     else mret (inl (Some node, Some node))
                 | None => mret (inl (Some node, Some node))
                 end) m) as (r & m' & Hrun & Hfinal).
  - lia.
  - apply (chain_head _ _ _ Hc).
  - split; [reflexivity|]. intros a.
    destruct (decide (a ∈ freed ns es 0)) as [H|_]; [|reflexivity].
    apply freed_spec in H as (i & Hi & _). lia.
  - intros k a acc mk Ha [-> Hheap].
    destruct (chain_lookup _ _ _ _ _ Hc Ha) as (n & Hn & Hnext).
    assert (Hak : ∀ j, (j <= S k)%nat → a ∉ freed ns es j).
    { intros j Hj Hin. apply freed_spec in Hin as (i & Hi & [Hin|Hin]).
      - destruct (owns_node _ _ _ k i a Howns Ha) as [Heq _]. specialize (Heq Hin). lia.
      - destruct (owns_node _ _ _ k i a Howns Ha) as [_ Hne]. contradiction. }
    assert (Hkeep : ∀ mk', (∀ c, heap mk' !! c
                                 = if decide (c ∈ freed ns es (S k)) then None
                                   else heap m !! c) →
              ∃ n0, heap mk' !! a = Some (ONode n0)
                    ∧ next n0 = hd_error (drop (S k) ns)).
    { intros mk' H'. exists n. split; [|exact Hnext]. rewrite H'.
      destruct (decide (a ∈ freed ns es (S k))) as [H|_]; [|exact Hn].
      exfalso. exact (Hak (S k) ltac:(lia) H). }
    destruct k as [|k].
    + exists (inl (Some a, Some a)), mk. split; [reflexivity|].
      split; [reflexivity|].
      assert (Hsame : ∀ c, heap mk !! c
                           = if decide (c ∈ freed ns es 1) then None else heap m !! c).
      { intros c. rewrite Hheap.
        destruct (decide (c ∈ freed ns es 0)) as [H|_];
          [apply freed_spec in H as (i & Hi & _); lia|].
        destruct (decide (c ∈ freed ns es 1)) as [H|_];
          [apply freed_spec in H as (i & Hi & _); lia | reflexivity]. }
      split; [exact (Hkeep mk Hsame)|]. split; [symmetry; exact Ha | exact Hsame].
    + destruct (lookup_lt_is_Some_2 ns k) as [b Hb];
        [apply lookup_lt_Some in Ha; lia|].
      destruct (lookup_lt_is_Some_2 es k) as [e He];
        [apply lookup_lt_Some in Ha; lia|].
      destruct (Hown _ _ _ Hb He) as (nb & x & Hnb & Hel & Hx).
      assert (Hbk : b ∉ freed ns es (S k)).
      { intros Hin. apply freed_spec in Hin as (i & Hi & [Hin|Hin]).
        - destruct (owns_node _ _ _ k i b Howns Hb) as [Heq _]. specialize (Heq Hin). lia.
        - destruct (owns_node _ _ _ k i b Howns Hb) as [_ Hne]. contradiction. }
      assert (Hek : e ∉ freed ns es (S k)).
      { intros Hin. apply freed_spec in Hin as (i & Hi & [Hin|Hin]).
        - destruct (owns_element _ _ _ k i e Howns He) as [_ Hne]. contradiction.
        - destruct (owns_element _ _ _ k i e Howns He) as [Heq _]. specialize (Heq Hin). lia. }
      assert (Hb' : heap mk !! b = Some (ONode nb)).
      { rewrite Hheap. destruct (decide (b ∈ freed ns es (S k))); [contradiction | exact Hnb]. }
      assert (He' : heap mk !! e = Some (OElement x)).
      { rewrite Hheap. destruct (decide (e ∈ freed ns es (S k))); [contradiction | exact Hx]. }
      rewrite Hb.
      exists (inl (Some a, Some a)).
      exists (with_heap mk (delete b (delete e (heap mk)))). split.
      * rewrite (bind_Ret _ _ _ _ _ (linked_list_node_free_eq _ _ _ _ _ Hb' Hel He')).
        reflexivity.
      * split; [reflexivity|].
        assert (Hnew : ∀ c, heap (with_heap mk (delete b (delete e (heap mk)))) !! c
                            = if decide (c ∈ freed ns es (S (S k))) then None
                              else heap m !! c).
        { intros c. cbn [heap with_heap].
          destruct (decide (c = b)) as [->|Hcb].
          { rewrite lookup_delete_eq.
            destruct (decide (b ∈ freed ns es (S (S k)))) as [_|H]; [reflexivity|].
            exfalso. apply H, freed_spec. exists k. split; [lia | auto]. }
          rewrite lookup_delete_ne by congruence.
          destruct (decide (c = e)) as [->|Hce].
          { rewrite lookup_delete_eq.
            destruct (decide (e ∈ freed ns es (S (S k)))) as [_|H]; [reflexivity|].
            exfalso. apply H, freed_spec. exists k. split; [lia | auto]. }
          rewrite lookup_delete_ne by congruence. rewrite Hheap.
          destruct (decide (c ∈ freed ns es (S k))) as [H1|H1];
            destruct (decide (c ∈ freed ns es (S (S k)))) as [H2|H2]; try reflexivity.
          - exfalso. apply H2. apply freed_spec in H1 as (i & Hi & Hc1).
            apply freed_spec. exists i. split; [lia | exact Hc1].
          - exfalso. apply freed_spec in H2 as (i & Hi & Hc2).
            destruct (decide (i = k)) as [->|Hik].
            + destruct Hc2 as [Hc2|Hc2]; congruence.
            + apply H1, freed_spec. exists i. split; [lia | exact Hc2]. }
        split; [exact (Hkeep _ Hnew)|]. split; [symmetry; exact Ha | exact Hnew].
  - rewrite Hrun. destruct r as [acc|x]; [|destruct Hfinal as (? & _ & [])].
    destruct Hfinal as [-> Hheap]. exists m'. split; [|exact Hheap].
    do 2 f_equal. f_equal. destruct ns as [|a ns _] using rev_ind; [reflexivity|].
    rewrite length_app, last_snoc. cbn [length].
    replace (length ns + 1)%nat with (S (length ns)) by lia.
    rewrite lookup_app_r, Nat.sub_diag by lia. reflexivity.
Qed.

End LinkedListWalk.

Module LinkedListClear.
Import LinkedList LinkedListFacts LinkedListSort LinkedListWalk.

Lemma write_count_eq (m : memory) (list : addr) (l : linked_list_t) (n : Z) :
  heap m !! list = Some (OList l) →
  write_count list n m = Ret (tt, with_heap m (<[list := OList (set_count l n)]> (heap m))).
Proof.
  intros H. unfold write_count.
  rewrite (bind_Ret _ _ _ _ _ (load_linked_list_eq _ _ _ H)).
  unfold store. rewrite H. reflexivity.
Qed.

(** What is freed is a node or an element. *)
Lemma freed_owned (h : gmap addr object) (ns es : list addr) (k : nat) (a : addr) :
  owns h ns es → a ∈ freed ns es k →
  ∃ o, h !! a = Some o ∧ match o with ONode _ | OElement _ => True | _ => False end.
Proof.
  intros (Hlen & _ & Hown) Hin. apply freed_spec in Hin as (i & _ & Hi).
  assert (Hlt : (i < length ns)%nat).
  { destruct Hi as [Hi|Hi]; apply lookup_lt_Some in Hi; lia. }
  destruct (lookup_lt_is_Some_2 ns i Hlt) as [b Hb].
  destruct (lookup_lt_is_Some_2 es i ltac:(lia)) as [e He].
  destruct (Hown _ _ _ Hb He) as (n & x & Hn & _ & Hx).
  destruct Hi as [Hi|Hi].
  - assert (a = b) as -> by congruence. exists (ONode n). split; [exact Hn | exact I].
  - assert (a = e) as -> by congruence. exists (OElement x). split; [exact Hx | exact I].
Qed.

(** The last node and its element are not among the freed objects. *)
Lemma last_not_freed (h : gmap addr object) (ns es : list addr) (a : addr) :
  owns h ns es → last ns = Some a ∨ last es = Some a → a ∉ freed ns es (length ns).
Proof.
  intros Howns Hlast Hin. pose proof Howns as (Hlen & _ & _).
  apply freed_spec in Hin as (i & Hi & Hin).
  rewrite !last_lookup in Hlast. rewrite Hlen in Hlast.
  destruct Hlast as [Hl|Hl].
  - destruct (owns_node _ _ _ _ i a Howns Hl) as [Heq Hne].
    destruct Hin as [Hin|Hin]; [specialize (Heq Hin); lia | contradiction].
  - destruct (owns_element _ _ _ _ i a Howns Hl) as [Heq Hne].
    destruct Hin as [Hin|Hin]; [contradiction | specialize (Heq Hin); lia].
Qed.

End LinkedListClear.

(** [linked_list_clear] of a list whose nodes are a chain and hold an element
    each: the call returns success and sets head and tail to null and the
    size to 0, but its loop frees a node only when it stands on the next
    one, so that the last node and its element are never freed: they stay in
    memory with nothing that points to them.  All the other nodes and
    elements are freed, and nothing else changes. *)
Theorem linked_list_clear_leaves_the_last_node
    (m : LinkedList.memory) (linkedList : addr) (l : LinkedList.linked_list_t)
    (ns es : list addr) :
  heap m !! linkedList = Some (LinkedList.OList l) →
  LinkedList.chain (heap m) (LinkedList.head l) ns →
  LinkedListWalk.owns (heap m) ns es →
  ∃ m' : LinkedList.memory,
    LinkedList.linked_list_clear (Some linkedList) m
    = Ret (LinkedList.LINKED_LIST_SUCCESS, m')
    ∧ heap m' !! linkedList
      = Some (LinkedList.OList
                (LinkedList.set_count
                   (LinkedList.set_tail (LinkedList.set_head l None) None) 0))
    ∧ (∀ a, a ∈ take (length ns - 1) ns ++ take (length ns - 1) es → heap m' !! a = None)
    ∧ (∀ a, last ns = Some a ∨ last es = Some a → heap m' !! a = heap m !! a)
    ∧ (∀ a, a ∉ ns ++ es → a ≠ linkedList → heap m' !! a = heap m !! a).
Proof.
  intros Hl Hc Howns. unfold LinkedList.linked_list_clear.
  rewrite (bind_Ret _ _ _ _ _ (LinkedListFacts.load_linked_list_eq _ _ _ Hl)).
  destruct (LinkedListWalk.free_previous_nodes_spec m _ ns es Hc Howns)
    as (m1 & Hrun & Hheap).
  rewrite (bind_Ret _ _ _ _ _ Hrun).
  assert (Hout : linkedList ∉ LinkedListWalk.freed ns es (length ns)).
  { intros Hin. destruct (LinkedListClear.freed_owned _ _ _ _ _ Howns Hin) as (o & Ho & Hk).
    rewrite Hl in Ho. injection Ho as <-. exact Hk. }
  assert (Hl1 : heap m1 !! linkedList = Some (LinkedList.OList l)).
  { rewrite Hheap. destruct (decide _); [contradiction | exact Hl]. }
  rewrite (bind_Ret _ _ _ _ _ (LinkedListSort.write_head_eq _ _ _ None Hl1)).
  rewrite (bind_Ret _ _ _ _ _
             (LinkedListSort.write_tail_eq _ linkedList (LinkedList.set_head l None) None
                (lookup_insert_eq _ _ _))).
  rewrite (bind_Ret _ _ _ _ _
             (LinkedListClear.write_count_eq _ linkedList
                (LinkedList.set_tail (LinkedList.set_head l None) None) 0
                (lookup_insert_eq _ _ _))).
  eexists. split; [reflexivity|]. cbn [heap LinkedListSort.with_heap].
  rewrite !insert_insert_eq.
  assert (Hother : ∀ a, a ≠ linkedList →
            <[linkedList := LinkedList.OList
                (LinkedList.set_count
                   (LinkedList.set_tail (LinkedList.set_head l None) None) 0)]>
              (heap m1) !! a
            = if decide (a ∈ LinkedListWalk.freed ns es (length ns)) then None
              else heap m !! a).
  { intros a Ha. rewrite lookup_insert_ne by congruence. apply Hheap. }
  split_and!.
  - apply lookup_insert_eq.
  - intros a Ha. rewrite Hother.
    + destruct (decide _) as [_|H]; [reflexivity | contradiction].
    + intros ->. contradiction.
  - intros a Ha.
    pose proof (LinkedListClear.last_not_freed _ _ _ _ Howns Ha) as Hnot.
    rewrite Hother.
    + destruct (decide _); [contradiction | reflexivity].
    + intros ->. destruct Howns as (Hlen & _ & Hown).
      rewrite !last_lookup in Ha.
      destruct Ha as [Ha|Ha].
      * destruct (lookup_lt_is_Some_2 es (pred (length ns))) as [e He].
        { apply lookup_lt_Some in Ha. lia. }
        destruct (Hown _ _ _ Ha He) as (n & x & Hn & _). congruence.
      * destruct (lookup_lt_is_Some_2 ns (pred (length es))) as [b Hb].
        { apply lookup_lt_Some in Ha. lia. }
        destruct (Hown _ _ _ Hb Ha) as (n & x & _ & _ & Hx). congruence.
  - intros a Ha Hne. rewrite Hother by exact Hne.
    destruct (decide _) as [Hin|_]; [|reflexivity].
    exfalso. apply Ha. unfold LinkedListWalk.freed in Hin.
    apply elem_of_app in Hin as [Hin|Hin]; apply elem_of_app; [left | right];
      apply elem_of_take in Hin as (i & Hi & _); eapply list_elem_of_lookup_2, Hi.
Qed.

(** [linked_list_free] has the same loop: it frees the list and every node
    and element but the last node and its element, which stay in memory when
    the list is gone. *)
Theorem linked_list_free_leaves_the_last_node
    (m : LinkedList.memory) (linkedList : addr) (l : LinkedList.linked_list_t)
    (ns es : list addr) :
  heap m !! linkedList = Some (LinkedList.OList l) →
  LinkedList.chain (heap m) (LinkedList.head l) ns →
  LinkedListWalk.owns (heap m) ns es →
  ∃ m' : LinkedList.memory,
    LinkedList.linked_list_free (Some linkedList) m
    = Ret ((LinkedList.LINKED_LIST_SUCCESS, None), m')
    ∧ heap m' !! linkedList = None
    ∧ (∀ a, a ∈ take (length ns - 1) ns ++ take (length ns - 1) es → heap m' !! a = None)
    ∧ (∀ a, last ns = Some a ∨ last es = Some a → heap m' !! a = heap m !! a)
    ∧ (∀ a, a ∉ ns ++ es → a ≠ linkedList → heap m' !! a = heap m !! a).
Proof.
  intros Hl Hc Howns. unfold LinkedList.linked_list_free.
  rewrite (bind_Ret _ _ _ _ _ (LinkedListFacts.load_linked_list_eq _ _ _ Hl)).
  destruct (LinkedListWalk.free_previous_nodes_spec m _ ns es Hc Howns)
    as (m1 & Hrun & Hheap).
  rewrite (bind_Ret _ _ _ _ _ Hrun).
  assert (Hout : linkedList ∉ LinkedListWalk.freed ns es (length ns)).
  { intros Hin. destruct (LinkedListClear.freed_owned _ _ _ _ _ Howns Hin) as (o & Ho & Hk).
    rewrite Hl in Ho. injection Ho as <-. exact Hk. }
  assert (Hl1 : heap m1 !! linkedList = Some (LinkedList.OList l)).
  { rewrite Hheap. destruct (decide _); [contradiction | exact Hl]. }
  rewrite bind_eq. unfold free. rewrite Hl1.
  eexists. split; [reflexivity|]. cbn [heap].
  assert (Hother : ∀ a, a ≠ linkedList →
            delete linkedList (heap m1) !! a
            = if decide (a ∈ LinkedListWalk.freed ns es (length ns)) then None
              else heap m !! a).
  { intros a Ha. rewrite lookup_delete_ne by congruence. apply Hheap. }
  split_and!.
  - apply lookup_delete_eq.
  - intros a Ha. rewrite Hother.
    + destruct (decide _) as [_|H]; [reflexivity | contradiction].
    + intros ->. contradiction.
  - intros a Ha.
    pose proof (LinkedListClear.last_not_freed _ _ _ _ Howns Ha) as Hnot.
    rewrite Hother.
    + destruct (decide _); [contradiction | reflexivity].
    + intros ->. destruct Howns as (Hlen & _ & Hown).
      rewrite !last_lookup in Ha.
      destruct Ha as [Ha|Ha].
      * destruct (lookup_lt_is_Some_2 es (pred (length ns))) as [e He].
        { apply lookup_lt_Some in Ha. lia. }
        destruct (Hown _ _ _ Ha He) as (n & x & Hn & _). congruence.
      * destruct (lookup_lt_is_Some_2 ns (pred (length es))) as [b Hb].
        { apply lookup_lt_Some in Ha. lia. }
        destruct (Hown _ _ _ Hb Ha) as (n & x & _ & _ & Hx). congruence.
  - intros a Ha Hne. rewrite Hother by exact Hne.
    destruct (decide _) as [Hin|_]; [|reflexivity].
    exfalso. apply Ha. unfold LinkedListWalk.freed in Hin.
    apply elem_of_app in Hin as [Hin|Hin]; apply elem_of_app; [left | right];
      apply elem_of_take in Hin as (i & Hi & _); eapply list_elem_of_lookup_2, Hi.
Qed.

(** * The linked list: searching *)

Module LinkedListSearch.
Import LinkedList LinkedListFacts LinkedListSort LinkedListWalk.

(** The test [linked_list_find_first] makes on an element: the equality
    function of the list returns 0 for its value, the value that is looked
    for and the size that is given. *)
Definition matches (f : linked_list_custom_equality_function_t) (value : option bytes)
    (size : Z) (x : linked_list_element_t) : bool :=
  match f (LinkedList.value x) value size with
  | Ret c => c =? 0
  | _ => false
  end.

(** The equality function returns on the elements. *)
Definition comparable (f : linked_list_custom_equality_function_t) (value : option bytes)
    (size : Z) (es : list linked_list_element_t) : Prop :=
  ∀ x, x ∈ es → ∃ c, f (LinkedList.value x) value size = Ret c.

Lemma element_at_node (h : gmap addr object) (a : addr) (x : linked_list_element_t) :
  element_at h a = Some x →
  ∃ n e, h !! a = Some (ONode n) ∧ element n = Some e ∧ h !! e = Some (OElement x).
Proof.
  unfold element_at.
  destruct (h !! a) as [[|n| |]|] eqn:Ha; try discriminate.
  destruct (element n) as [e|] eqn:He; try discriminate.
  destruct (h !! e) as [[| |y|]|] eqn:Hy; try discriminate.
  intros [= <-]. exists n, e. auto.
Qed.

(** The element of a node of a list whose elements are [es]. *)
Lemma node_element (h : gmap addr object) (ns : list addr) (es : list linked_list_element_t)
    (k : nat) (a : addr) :
  element_at h <$> ns = Some <$> es → ns !! k = Some a →
  ∃ x, es !! k = Some x ∧ element_at h a = Some x.
Proof.
  intros Hes Ha. assert (Hat := f_equal (λ l, l !! k) Hes). cbv beta in Hat.
  rewrite !list_lookup_fmap, Ha in Hat.
  destruct (es !! k) as [x|]; [|discriminate]. injection Hat as Hat. eauto.
Qed.

Lemma node_equals_eq (m : memory) (list_ : addr) (l : linked_list_t) f (a : addr)
    (x : linked_list_element_t) (value : option bytes) (size : Z) :
  heap m !! list_ = Some (OList l) →
  equalityFunction l = Fn f →
  element_at (heap m) a = Some x →
  (∃ c, f (LinkedList.value x) value size = Ret c) →
  node_equals list_ a value size m = Ret (matches f value size x, m).
Proof.
  intros Hl Hf Hx [c Hc]. apply element_at_node in Hx as (n & e & Hn & He & Hx).
  unfold node_equals, matches.
  rewrite (bind_Ret _ _ _ _ _ (load_linked_list_eq _ _ _ Hl)).
  rewrite (bind_Ret _ _ _ _ _ (load_node_eq _ _ _ Hn)), He.
  rewrite (bind_Ret _ _ _ _ _ (load_element_eq _ _ _ Hx)).
  rewrite Hf, Hc. reflexivity.
Qed.

End LinkedListSearch.

(** [linked_list_find_first] on a list whose nodes are a chain and hold the
    elements [es], whose equality function is set and returns a result on
    the value of every element with the value and the size that are given;
    with a start index in the range of the list: it changes nothing and
    returns the first index, from the start index on, of an element for
    which the equality function returns 0 (the sizes of the elements are not
    looked at); when there is none it returns
    [LINKED_LIST_ELEMENT_NOT_FOUND_ERROR] and the index -1. *)
Theorem linked_list_find_first_finds_the_first
    (m : LinkedList.memory) (linkedList : addr) (l : LinkedList.linked_list_t)
    (f : LinkedList.linked_list_custom_equality_function_t)
    (ns : list addr) (es : list LinkedList.linked_list_element_t)
    (startFromIndex : Z) (value : option bytes) (size : Z) :
  heap m !! linkedList = Some (LinkedList.OList l) →
  LinkedList.equalityFunction l = Fn f →
  LinkedList.chain (heap m) (LinkedList.head l) ns →
  LinkedList.element_at (heap m) <$> ns = Some <$> es →
  LinkedListSearch.comparable f value size es →
  0 <= startFromIndex < LinkedList.count l →
  (∃ i x, LinkedList.linked_list_find_first (Some linkedList) startFromIndex value size m
            = Ret ((LinkedList.LINKED_LIST_SUCCESS, Some i), m)
          ∧ startFromIndex <= i
          ∧ es !! Z.to_nat i = Some x
          ∧ LinkedListSearch.matches f value size x = true
          ∧ ∀ j x', startFromIndex <= j < i → es !! Z.to_nat j = Some x' →
                    LinkedListSearch.matches f value size x' = false)
  ∨ (LinkedList.linked_list_find_first (Some linkedList) startFromIndex value size m
       = Ret ((LinkedList.LINKED_LIST_ELEMENT_NOT_FOUND_ERROR, Some (-1)), m)
     ∧ ∀ j x', startFromIndex <= j → es !! Z.to_nat j = Some x' →
               LinkedListSearch.matches f value size x' = false).
Proof.
  intros Hl Hf Hc Hes Hcmp Hstart. unfold LinkedList.linked_list_find_first.
  rewrite (bind_Ret _ _ _ _ _ (LinkedListFacts.load_linked_list_eq _ _ _ Hl)).
  replace ((startFromIndex >=? LinkedList.count l) || (startFromIndex <? 0)) with false
    by (symmetry; lia).
  pose proof (LinkedListSort.chain_length _ _ _ Hc) as Hfuel.
  destruct (LinkedListWalk.walk_nodes ns
              (λ k index mk,
                 mk = m ∧ index = Z.of_nat k
                 ∧ ∀ j x', startFromIndex <= j < Z.of_nat k → es !! Z.to_nat j = Some x' →
                           LinkedListSearch.matches f value size x' = false)
              (λ k (r : LinkedList.linked_list_result_t * option Z) mk,
                 mk = m ∧ r = (LinkedList.LINKED_LIST_SUCCESS, Some (Z.of_nat k))
                 ∧ startFromIndex <= Z.of_nat k
                 ∧ (∃ x, es !! k = Some x ∧ LinkedListSearch.matches f value size x = true)
                 ∧ ∀ j x', startFromIndex <= j < Z.of_nat k → es !! Z.to_nat j = Some x' →
                           LinkedListSearch.matches f value size x' = false)
              (S (stdpp.base.size (heap m))) (LinkedList.head l) 0
              (λ node index,
                 if index <? startFromIndex then mret (inl (Some node, index + 1)) else
                 eq ← LinkedList.node_equals linkedList node value size;
                 if eq : bool then mret (inr (LinkedList.LINKED_LIST_SUCCESS, Some index))
                 else mret (inl (Some node, index + 1))) m)
    as (r & m' & Hrun & Hfinal).
  - lia.
  - apply (LinkedListSort.chain_head _ _ _ Hc).
  - split; [reflexivity|]. split; [reflexivity|]. intros j x' Hj. lia.
  - intros k a index mk Ha (-> & -> & Hnone).
    destruct (LinkedListSearch.node_element _ _ _ _ _ Hes Ha) as (x & Hx & Hat).
    pose proof (LinkedListWalk.chain_lookup _ _ _ _ _ Hc Ha) as Hnode.
    destruct (Z.of_nat k <? startFromIndex) eqn:Ebefore.
    + exists (inl (Some a, Z.of_nat k + 1)), m. split; [reflexivity|].
      split; [reflexivity|]. split; [exact Hnode|].
      split; [reflexivity|]. split; [lia|]. intros j x' Hj. lia.
    + rewrite (bind_Ret _ _ _ _ _
                 (LinkedListSearch.node_equals_eq _ _ _ _ _ _ value size Hl Hf Hat
                    (Hcmp x (list_elem_of_lookup_2 _ _ _ Hx)))).
      destruct (LinkedListSearch.matches f value size x) eqn:Ematch.
      * exists (inr (LinkedList.LINKED_LIST_SUCCESS, Some (Z.of_nat k))), m.
        split; [reflexivity|]. split; [reflexivity|]. split; [reflexivity|].
        split; [lia|]. split; [eauto | exact Hnone].
      * exists (inl (Some a, Z.of_nat k + 1)), m. split; [reflexivity|].
        split; [reflexivity|]. split; [exact Hnode|].
        split; [reflexivity|]. split; [lia|]. intros j x' Hj Hx'.
        destruct (decide (j = Z.of_nat k)) as [->|Hne].
        -- rewrite Nat2Z.id in Hx'. congruence.
        -- apply (Hnone j x'); [lia | exact Hx'].
  - rewrite (bind_Ret (LinkedList.for_nodes _ _ _) _ _ _ _ Hrun). destruct r as [index|x].
    + destruct Hfinal as (-> & -> & Hnone). right. split; [reflexivity|].
      intros j x' Hj Hx'. apply (Hnone j x'); [|exact Hx'].
      apply lookup_lt_Some in Hx'.
      assert (length es = length ns)
        by (apply (f_equal length) in Hes; rewrite !length_fmap in Hes; lia).
      lia.
    + destruct Hfinal as (k & Hk & -> & -> & Hge & (y & Hy & Hmatch) & Hnone).
      left. exists (Z.of_nat k), y. rewrite Nat2Z.id. auto.
Qed.

(** * The linked list: walking with an iterator *)

Module LinkedListIterate.
Import LinkedList LinkedListFacts LinkedListSort.

(** A caller that steps an iterator [n] times and notes after each step the
    result of [linked_list_iterator_next], the index and the node of the
    iterator. *)
Fixpoint visit (n : nat) (iterator : addr)
    : C (list (linked_list_result_t * Z * option addr)) :=
  match n with
  | O => mret []
  | S n' =>
      result ← linked_list_iterator_next (Some iterator);
      it ← load_iterator iterator;
      rest ← visit n' iterator;
      mret ((result, index it, node it) :: rest)
  end.

(** The notes of a walk over the nodes [ns], the first of which has the
    index [i]. *)
Fixpoint steps (i : Z) (ns : list addr) : list (linked_list_result_t * Z * option addr) :=
  match ns with
  | [] => []
  | a :: ns' => (LINKED_LIST_SUCCESS, i, Some a) :: steps (i + 1) ns'
  end.

(** The memory with the iterator at another place. *)
Definition store_iterator (m : memory) (iterator : addr) (it : linked_list_iterator_t)
    : memory :=
  with_heap m (<[iterator := OIterator it]> (heap m)).

Lemma linked_store_iterator_twice (m : memory) (iterator : addr)
    (it1 it2 : linked_list_iterator_t) :
  store_iterator (store_iterator m iterator it1) iterator it2 = store_iterator m iterator it2.
Proof.
  unfold store_iterator, with_heap. cbn [heap brk alloc_count alloc_ok].
  rewrite insert_insert_eq. reflexivity.
Qed.

Lemma linked_store_iterator_same (m : memory) (iterator : addr) (it : linked_list_iterator_t) :
  heap m !! iterator = Some (OIterator it) → store_iterator m iterator it = m.
Proof.
  intros H. unfold store_iterator. rewrite insert_id by exact H. apply with_heap_same.
Qed.

Lemma load_linked_iterator_eq (m : memory) (iterator : addr) (it : linked_list_iterator_t) :
  heap m !! iterator = Some (OIterator it) → load_iterator iterator m = Ret (it, m).
Proof. intros H. unfold load_iterator. rewrite bind_eq. unfold load. rewrite H. reflexivity. Qed.

Lemma linked_store_iterator_eq (m : memory) (iterator : addr)
    (it it' : linked_list_iterator_t) :
  heap m !! iterator = Some (OIterator it) →
  store iterator (OIterator it') m = Ret (tt, store_iterator m iterator it').
Proof. intros H. unfold store. rewrite H. reflexivity. Qed.

Lemma linked_visit_S (n : nat) (iterator : addr) :
  visit (S n) iterator
  = (result ← linked_list_iterator_next (Some iterator);
     it ← load_iterator iterator;
     rest ← visit n iterator;
     mret ((result, index it, node it) :: rest)).
Proof. reflexivity. Qed.

(** From an iterator that stands on the node [a], the walk visits the nodes
    after [a] and then meets the end. *)
Lemma linked_visit_from (m : memory) (iterator : addr) (list_ : option addr)
    (ps : list addr) :
  ∀ (i : Z) (a : addr),
  heap m !! iterator = Some (OIterator {| it_list := list_; index := -1; node := None |}) →
  chain (heap m) (Some a) (a :: ps) →
  0 <= i → i + Z.of_nat (length ps) + 1 < 2 ^ 63 →
  visit (S (length ps)) iterator
    (store_iterator m iterator {| it_list := list_; index := i; node := Some a |})
  = Ret (steps (i + 1) ps ++ [(LINKED_LIST_INDEX_OUT_OF_RANGE_ERROR, -1, None)], m).
Proof.
  induction ps as [|b ps IH]; intros i a Hit Hc Hi Hint;
    inversion Hc as [|a' n ns' Hn Hc']; subst;
    assert (Hne : iterator ≠ a) by (intros ->; congruence);
    rewrite linked_visit_S; unfold linked_list_iterator_next;
    set (m1 := store_iterator m iterator _);
    assert (Hit1 : heap m1 !! iterator
                   = Some (OIterator {| it_list := list_; index := i; node := Some a |}))
      by apply lookup_insert_eq;
    assert (Hn1 : heap m1 !! a = Some (ONode n))
      by (unfold m1; cbn [store_iterator with_heap heap];
          rewrite lookup_insert_ne by exact Hne; exact Hn);
    rewrite bind_eq; rewrite (bind_Ret _ _ _ _ _ (load_linked_iterator_eq _ _ _ Hit1));
    cbn [it_list index node];
    rewrite (bind_Ret _ _ _ _ _ (load_node_eq _ _ _ Hn1)).
  - revert Hc'. destruct (next n) as [b|]; intros Hc'; inversion Hc'.
    rewrite (bind_Ret _ _ _ _ _ (linked_store_iterator_eq _ _ _ _ Hit1)).
    rewrite ret_eq. unfold m1. rewrite linked_store_iterator_twice.
    rewrite (linked_store_iterator_same _ _ _ Hit).
    rewrite (bind_Ret _ _ _ _ _ (load_linked_iterator_eq _ _ _ Hit)). reflexivity.
  - revert Hc'. destruct (next n) as [b'|]; intros Hc'; inversion Hc'; subst.
    rewrite (bind_Ret _ _ _ _ _ (linked_store_iterator_eq _ _ _ _ Hit1)).
    rewrite ret_eq. unfold m1. rewrite linked_store_iterator_twice.
    rewrite (bind_Ret _ _ _ _ _ (load_linked_iterator_eq _ _ _ (lookup_insert_eq _ _ _))).
    cbn [index node]. change (length (b :: ps)) with (S (length ps)) in *.
    rewrite int64_small by lia.
    rewrite (bind_Ret _ _ _ _ _
               (IH (i + 1) b Hit Hc' ltac:(lia) ltac:(lia))).
    reflexivity.
Qed.

End LinkedListIterate.

(** A walk over a linked list that is not empty: from the rewound state,
    [linked_list_iterator_next] succeeds once for each node of the chain,
    standing on the indices 0, 1, ... and on the nodes in order, and the
    call after the last node returns [LINKED_LIST_INDEX_OUT_OF_RANGE_ERROR]
    and rewinds the iterator; the walk leaves the memory as it found it. *)
Theorem linked_list_iterator_visits_every_node_in_order
    (m : LinkedList.memory) (iterator linkedList : addr) (l : LinkedList.linked_list_t)
    (ns : list addr) :
  heap m !! iterator
    = Some (LinkedList.OIterator
              {| LinkedList.it_list := Some linkedList; LinkedList.index := -1;
                 LinkedList.node := None |}) →
  heap m !! linkedList = Some (LinkedList.OList l) →
  LinkedList.chain (heap m) (LinkedList.head l) ns →
  ns ≠ [] →
  Z.of_nat (length ns) < 2 ^ 63 →
  LinkedListIterate.visit (S (length ns)) iterator m
  = Ret (LinkedListIterate.steps 0 ns
         ++ [(LinkedList.LINKED_LIST_INDEX_OUT_OF_RANGE_ERROR, -1, None)], m).
Proof.
  intros Hit Hl Hc Hns Hint. destruct ns as [|a ps]; [contradiction|].
  pose proof (LinkedListSort.chain_head _ _ _ Hc) as Hhead. cbn [hd_error] in Hhead.
  change (length (a :: ps)) with (S (length ps)) in *.
  rewrite LinkedListIterate.linked_visit_S. cbn [LinkedListIterate.steps].
  unfold LinkedList.linked_list_iterator_next.
  rewrite bind_eq.
  rewrite (bind_Ret _ _ _ _ _ (LinkedListIterate.load_linked_iterator_eq _ _ _ Hit)).
  cbn [LinkedList.it_list LinkedList.node].
  rewrite (bind_Ret _ _ _ _ _ (LinkedListFacts.load_linked_list_eq _ _ _ Hl)).
  rewrite (bind_Ret _ _ _ _ _ (LinkedListIterate.linked_store_iterator_eq _ _ _ _ Hit)).
  rewrite ret_eq.
  rewrite (bind_Ret _ _ _ _ _
             (LinkedListIterate.load_linked_iterator_eq _ _ _ (lookup_insert_eq _ _ _))).
  cbn [LinkedList.index LinkedList.node]. rewrite Hhead.
  rewrite (bind_Ret _ _ _ _ _
             (LinkedListIterate.linked_visit_from m iterator (Some linkedList) ps 0 a Hit
                ltac:(rewrite <- Hhead; exact Hc) ltac:(lia) ltac:(lia))).
  reflexivity.
Qed.

(** * The linked list: making nodes *)

Module LinkedListAlloc.
Import LinkedList LinkedListFacts LinkedListSort.

(** The allocator grants every request. *)
Definition never_fails (m : memory) : Prop := ∀ k, alloc_ok m k = true.

(** Nothing lives at or above the address the next object gets. *)
Definition allocator_ok (m : memory) : Prop :=
  ∀ a, (brk m <= a)%positive → heap m !! a = None.

(** What [memcpy] reads: [size] bytes of the value, when there is one. *)
Definition readable (value : option bytes) (size : Z) : Prop :=
  match value with
  | None => True
  | Some v => 0 <= size <= Z.of_nat (length v)
  end.

(** The element made from [value] and [size]. *)
Definition element_of (value : option bytes) (size : Z) : linked_list_element_t :=
  {| LinkedList.value := match value with
                         | None => None
                         | Some v => Some (take (Z.to_nat size) v)
                         end;
     LinkedList.size := size |}.

Definition requests (value : option bytes) : nat :=
  match value with None => 2 | Some _ => 3 end.

(** The memory after [linked_list_node_create]: the element is at the first
    free address and the node at the next one. *)
Definition with_node (m : memory) (value : option bytes) (size : Z) (next : option addr)
    : memory :=
  Mem (<[Pos.succ (brk m) := ONode {| next := next; element := Some (brk m) |}]>
         (<[brk m := OElement (element_of value size)]> (heap m)))
      (Pos.succ (Pos.succ (brk m))) (requests value + alloc_count m) (alloc_ok m).

Lemma linked_list_node_create_eq (m : memory) (value : option bytes) (size : Z)
    (next : option addr) :
  never_fails m → readable value size →
  linked_list_node_create value size next m
  = Ret ((LINKED_LIST_SUCCESS, Some (Pos.succ (brk m))), with_node m value size next).
Proof.
  intros Hnf Hr. unfold linked_list_node_create.
  rewrite bind_eq. unfold malloc at 1. rewrite Hnf. cbv beta iota. cbn [negb].
  destruct value as [v|].
  - rewrite bind_eq. rewrite bind_eq. unfold malloc at 1. cbn [alloc_ok alloc_count].
    rewrite Hnf. cbv beta iota. cbn [negb].
    rewrite bind_eq. unfold lift. unfold memcpy.
    cbn [readable] in Hr.
    replace ((0 <=? size) && (size <=? Z.of_nat (length v))) with true by (symmetry; lia).
    cbv beta iota. rewrite ret_eq. cbv beta iota.
    rewrite bind_eq. unfold malloc at 1. cbn [alloc_ok alloc_count].
    rewrite Hnf. reflexivity.
  - rewrite bind_eq, ret_eq. cbv beta iota.
    rewrite bind_eq. unfold malloc at 1. cbn [alloc_ok alloc_count].
    rewrite Hnf. reflexivity.
Qed.

Lemma with_node_lookup_old (m : memory) (value : option bytes) (size : Z)
    (next : option addr) (a : addr) (o : object) :
  allocator_ok m → heap m !! a = Some o → heap (with_node m value size next) !! a = Some o.
Proof.
  intros Hok Ha. cbn [with_node heap].
  assert ((a < brk m)%positive).
  { destruct (decide (a < brk m)%positive) as [H|H]; [exact H|].
    rewrite Hok in Ha by lia. discriminate. }
  rewrite !lookup_insert_ne by lia. exact Ha.
Qed.

Lemma with_node_lookup_other (m : memory) (value : option bytes) (size : Z)
    (next : option addr) (a : addr) :
  a ≠ brk m → a ≠ Pos.succ (brk m) →
  heap (with_node m value size next) !! a = heap m !! a.
Proof. intros H1 H2. cbn [with_node heap]. rewrite !lookup_insert_ne by congruence. reflexivity. Qed.

(** A chain is a chain of a heap that has its nodes. *)
Lemma chain_kept (h h' : gmap addr object) (p : option addr) (ns : list addr) :
  chain h p ns → (∀ a o, h !! a = Some o → h' !! a = Some o) → chain h' p ns.
Proof.
  intros Hc Hkeep. apply (chain_unchanged h); [exact Hc|].
  intros a Ha. destruct (chain_nodes _ _ _ _ Hc Ha) as [n Hn].
  rewrite Hn. apply Hkeep, Hn.
Qed.

(** The element of a node is the same in a heap that has the node and the
    element. *)
Lemma element_at_kept (h h' : gmap addr object) (a : addr) :
  (∀ b, h !! b ≠ None → h' !! b = h !! b) →
  h !! a ≠ None → (∀ n e, h !! a = Some (ONode n) → element n = Some e → h !! e ≠ None) →
  element_at h' a = element_at h a.
Proof.
  intros Hkeep Ha He. unfold element_at. rewrite (Hkeep a Ha).
  destruct (h !! a) as [[|n| |]|] eqn:E; try reflexivity.
  destruct (element n) as [e|] eqn:Ee; [|reflexivity].
  rewrite (Hkeep e (He n e eq_refl Ee)). reflexivity.
Qed.

End LinkedListAlloc.

(** [linked_list_prepend] when no allocation fails: a new node, with a new
    element that is a copy of the value, becomes the head of the list and
    points to the node that was the head; it becomes the tail as well when
    the list was empty.  The size goes up by one; the node and the element
    are at addresses that were free, and nothing else changes. *)
Theorem linked_list_prepend_puts_a_node_in_front
    (m : LinkedList.memory) (linkedList : addr) (l : LinkedList.linked_list_t)
    (ns : list addr) (value : option bytes) (size : Z) :
  heap m !! linkedList = Some (LinkedList.OList l) →
  LinkedList.chain (heap m) (LinkedList.head l) ns →
  - 2 ^ 63 <= LinkedList.count l + 1 < 2 ^ 63 →
  LinkedListAlloc.never_fails m →
  LinkedListAlloc.allocator_ok m →
  LinkedListAlloc.readable value size →
  ∃ m' : LinkedList.memory,
    let node := Pos.succ (brk m) in
    LinkedList.linked_list_prepend (Some linkedList) value size m
    = Ret (LinkedList.LINKED_LIST_SUCCESS, m')
    ∧ heap m' !! linkedList
      = Some (LinkedList.OList
                {| LinkedList.head := Some node;
                   LinkedList.tail :=
                     match LinkedList.head l with
                     | None => Some node
                     | Some _ => LinkedList.tail l
                     end;
                   LinkedList.count := LinkedList.count l + 1;
                   LinkedList.equalityFunction := LinkedList.equalityFunction l;
                   LinkedList.sortingFunction := LinkedList.sortingFunction l |})
    ∧ LinkedList.chain (heap m') (Some node) (node :: ns)
    ∧ LinkedList.element_at (heap m') node = Some (LinkedListAlloc.element_of value size)
    ∧ heap m !! brk m = None
    ∧ heap m !! node = None
    ∧ (∀ a, a ≠ linkedList → a ≠ brk m → a ≠ node → heap m' !! a = heap m !! a).
Proof.
  intros Hl Hc Hint Hnf Hok Hr. cbv zeta.
  assert (Hfresh : (linkedList < brk m)%positive).
  { destruct (decide (linkedList < brk m)%positive) as [H|H]; [exact H|].
    rewrite Hok in Hl by lia. discriminate. }
  unfold LinkedList.linked_list_prepend.
  rewrite (bind_Ret _ _ _ _ _ (LinkedListFacts.load_linked_list_eq _ _ _ Hl)).
  rewrite (bind_Ret _ _ _ _ _
             (LinkedListAlloc.linked_list_node_create_eq _ _ _ (LinkedList.head l) Hnf Hr)).
  cbn [LinkedList.is_success negb].
  remember (LinkedListAlloc.with_node m value size (LinkedList.head l)) as m1 eqn:Em1.
  assert (Hl1 : heap m1 !! linkedList = Some (LinkedList.OList l))
    by (rewrite Em1; apply LinkedListAlloc.with_node_lookup_old; assumption).
  remember {| LinkedList.head := Some (Pos.succ (brk m));
              LinkedList.tail :=
                match LinkedList.head l with
                | None => Some (Pos.succ (brk m))
                | Some _ => LinkedList.tail l
                end;
              LinkedList.count := LinkedList.count l;
              LinkedList.equalityFunction := LinkedList.equalityFunction l;
              LinkedList.sortingFunction := LinkedList.sortingFunction l |} as lx eqn:Elx.
  assert (Hrun : (match LinkedList.head l with
                  | None => LinkedList.write_head linkedList (Some (Pos.succ (brk m)));;
                            LinkedList.write_tail linkedList (Some (Pos.succ (brk m)))
                  | Some _ => LinkedList.write_head linkedList (Some (Pos.succ (brk m)))
                  end) m1
                 = Ret (tt, LinkedListSort.with_heap m1
                              (<[linkedList := LinkedList.OList lx]> (heap m1)))).
  { rewrite Elx. destruct (LinkedList.head l) as [h0|].
    - apply (LinkedListSort.write_head_eq _ _ _ _ Hl1).
    - rewrite (bind_Ret _ _ _ _ _ (LinkedListSort.write_head_eq _ _ _ _ Hl1)).
      rewrite (LinkedListSort.write_tail_eq _ linkedList _ _ (lookup_insert_eq _ _ _)).
      cbn [heap LinkedListSort.with_heap]. rewrite insert_insert_eq. reflexivity. }
  rewrite (bind_Ret _ _ _ _ _ Hrun).
  rewrite (bind_Ret _ _ _ _ _
             (LinkedListFacts.load_linked_list_eq _ linkedList lx (lookup_insert_eq _ _ _))).
  rewrite (bind_Ret _ _ _ _ _
             (LinkedListClear.write_count_eq _ linkedList lx _ (lookup_insert_eq _ _ _))).
  eexists. split; [reflexivity|].
  cbn [heap LinkedListSort.with_heap]. rewrite insert_insert_eq.
  assert (Hnode : heap m1 !! Pos.succ (brk m)
                  = Some (LinkedList.ONode {| LinkedList.next := LinkedList.head l;
                                              LinkedList.element := Some (brk m) |}))
    by (rewrite Em1; apply lookup_insert_eq).
  assert (Helem : heap m1 !! brk m
                  = Some (LinkedList.OElement (LinkedListAlloc.element_of value size))).
  { rewrite Em1. cbn [LinkedListAlloc.with_node heap].
    rewrite lookup_insert_ne by lia. apply lookup_insert_eq. }
  split_and!.
  - rewrite lookup_insert_eq. rewrite Elx. cbn [LinkedList.set_count LinkedList.count
      LinkedList.head LinkedList.tail LinkedList.equalityFunction LinkedList.sortingFunction].
    rewrite int64_small by lia. reflexivity.
  - apply (LinkedList.chain_cons _ _ {| LinkedList.next := LinkedList.head l;
                                       LinkedList.element := Some (brk m) |}).
    + rewrite lookup_insert_ne by lia. exact Hnode.
    + cbn [LinkedList.next]. apply (LinkedListSort.chain_unchanged (heap m)); [exact Hc|].
      intros a Ha. destruct (LinkedListSort.chain_nodes _ _ _ _ Hc Ha) as [n Hn].
      assert (Hbelow : (a < brk m)%positive).
      { destruct (decide (a < brk m)%positive) as [H|H]; [exact H|].
        rewrite Hok in Hn by lia. discriminate. }
      rewrite lookup_insert_ne by (intros ->; congruence).
      rewrite Em1. apply LinkedListAlloc.with_node_lookup_other; lia.
  - unfold LinkedList.element_at. rewrite lookup_insert_ne by lia.
    unfold addr in *. rewrite Hnode.
    cbn [LinkedList.element]. rewrite lookup_insert_ne by lia. rewrite Helem. reflexivity.
  - apply Hok. lia.
  - apply Hok. lia.
  - intros a H1 H2 H3. rewrite lookup_insert_ne by congruence.
    rewrite Em1. apply LinkedListAlloc.with_node_lookup_other; assumption.
Qed.

Module LinkedListAppend.
Import LinkedList LinkedListFacts LinkedListSort LinkedListAlloc.

(** A chain with one more node behind its last one. *)
Lemma chain_snoc (h h' : gmap addr object) (p : option addr) (ns : list addr)
    (a : addr) (na : linked_list_node_t) :
  chain h p ns →
  a ∉ ns →
  h' !! a = Some (ONode na) → next na = None →
  (∀ b, b ∈ ns → last ns ≠ Some b → h' !! b = h !! b) →
  (∀ t nt, last ns = Some t → h !! t = Some (ONode nt) →
           h' !! t = Some (ONode {| next := Some a; element := element nt |})) →
  chain h' (match p with None => Some a | Some _ => p end) (ns ++ [a]).
Proof.
  intros Hc Ha Hna Hnext. pose proof (chain_NoDup _ _ _ Hc) as Hnd.
  induction Hc as [|x n rest Hx Hc IH]; intros Hsame Hlast.
  - apply (chain_cons _ a na); [exact Hna|]. rewrite Hnext. constructor.
  - apply NoDup_cons in Hnd as [Hxr Hnd]. cbn [app].
    assert (Hax : a ∉ rest) by (intros H; apply Ha; right; exact H).
    destruct rest as [|y rest].
    + inversion Hc; subst.
      apply (chain_cons _ x {| next := Some a; element := element n |}).
      * apply (Hlast x n eq_refl Hx).
      * cbn [next app]. apply (chain_cons _ a na); [exact Hna|]. rewrite Hnext. constructor.
    + apply (chain_cons _ x n).
      * rewrite Hsame; [exact Hx | left|].
        change (last (x :: y :: rest)) with (last (y :: rest)).
        intros Hl. apply Hxr. apply last_Some_elem_of. exact Hl.
      * specialize (IH Hax Hnd).
        rewrite (chain_head _ _ _ Hc) in IH |- *. cbn [hd_error] in IH |- *.
        apply IH.
        -- intros b Hb Hl. apply Hsame; [right; exact Hb | exact Hl].
        -- intros t nt Ht. apply Hlast. exact Ht.
Qed.

End LinkedListAppend.

(** [linked_list_append] on a list whose tail is the last node of its chain,
    when no allocation fails: a new node, with a new element that is a copy
    of the value, is linked behind the last node and becomes the tail; it
    becomes the head as well when the list was empty.  The size goes up by
    one; the node and the element are at addresses that were free; of what
    was in memory only the list and the [next] field of the last node
    change. *)
Theorem linked_list_append_puts_a_node_at_the_end
    (m : LinkedList.memory) (linkedList : addr) (l : LinkedList.linked_list_t)
    (ns : list addr) (value : option bytes) (size : Z) :
  heap m !! linkedList = Some (LinkedList.OList l) →
  LinkedList.chain (heap m) (LinkedList.head l) ns →
  LinkedList.tail l = last ns →
  - 2 ^ 63 <= LinkedList.count l + 1 < 2 ^ 63 →
  LinkedListAlloc.never_fails m →
  LinkedListAlloc.allocator_ok m →
  LinkedListAlloc.readable value size →
  ∃ m' : LinkedList.memory,
    let node := Pos.succ (brk m) in
    LinkedList.linked_list_append (Some linkedList) value size m
    = Ret (LinkedList.LINKED_LIST_SUCCESS, m')
    ∧ heap m' !! linkedList
      = Some (LinkedList.OList
                {| LinkedList.head :=
                     match LinkedList.head l with
                     | None => Some node
                     | Some _ => LinkedList.head l
                     end;
                   LinkedList.tail := Some node;
                   LinkedList.count := LinkedList.count l + 1;
                   LinkedList.equalityFunction := LinkedList.equalityFunction l;
                   LinkedList.sortingFunction := LinkedList.sortingFunction l |})
    ∧ LinkedList.chain (heap m')
        (match LinkedList.head l with None => Some node | Some _ => LinkedList.head l end)
        (ns ++ [node])
    ∧ LinkedList.element_at (heap m') node = Some (LinkedListAlloc.element_of value size)
    ∧ (∀ a x, a ∈ ns → LinkedList.element_at (heap m) a = Some x →
              LinkedList.element_at (heap m') a = Some x)
    ∧ heap m !! brk m = None
    ∧ heap m !! node = None
    ∧ (∀ a, a ≠ linkedList → a ≠ brk m → a ≠ node → last ns ≠ Some a →
            heap m' !! a = heap m !! a).
Proof.
  intros Hl Hc Htail Hint Hnf Hok Hr. cbv zeta.
  assert (Hbelow : ∀ a o, heap m !! a = Some o → (a < brk m)%positive).
  { intros a o Ha. destruct (decide (a < brk m)%positive) as [H|H]; [exact H|].
    rewrite Hok in Ha by lia. discriminate. }
  pose proof (Hbelow _ _ Hl) as Hfresh.
  unfold LinkedList.linked_list_append.
  rewrite (bind_Ret _ _ _ _ _
             (LinkedListAlloc.linked_list_node_create_eq _ _ _ None Hnf Hr)).
  cbn [LinkedList.is_success negb].
  remember (LinkedListAlloc.with_node m value size None) as m1 eqn:Em1.
  assert (Hold : ∀ a, a ≠ brk m → a ≠ Pos.succ (brk m) → heap m1 !! a = heap m !! a).
  { intros a H1 H2. rewrite Em1. apply LinkedListAlloc.with_node_lookup_other; assumption. }
  assert (Hl1 : heap m1 !! linkedList = Some (LinkedList.OList l))
    by (rewrite Hold by lia; exact Hl).
  assert (Hnode : heap m1 !! Pos.succ (brk m)
                  = Some (LinkedList.ONode {| LinkedList.next := None;
                                              LinkedList.element := Some (brk m) |}))
    by (rewrite Em1; apply lookup_insert_eq).
  assert (Helem : heap m1 !! brk m
                  = Some (LinkedList.OElement (LinkedListAlloc.element_of value size))).
  { rewrite Em1. cbn [LinkedListAlloc.with_node heap].
    rewrite lookup_insert_ne by lia. apply lookup_insert_eq. }
  rewrite (bind_Ret _ _ _ _ _ (LinkedListFacts.load_linked_list_eq _ _ _ Hl1)).
  remember {| LinkedList.head :=
                match LinkedList.head l with
                | None => Some (Pos.succ (brk m))
                | Some _ => LinkedList.head l
                end;
              LinkedList.tail := Some (Pos.succ (brk m));
              LinkedList.count := LinkedList.count l;
              LinkedList.equalityFunction := LinkedList.equalityFunction l;
              LinkedList.sortingFunction := LinkedList.sortingFunction l |} as lx eqn:Elx.
  assert (Hrun : ∃ h1,
            (match LinkedList.head l with
             | None => LinkedList.write_head linkedList (Some (Pos.succ (brk m)));;
                       LinkedList.write_tail linkedList (Some (Pos.succ (brk m)))
             | Some _ => LinkedList.write_next (LinkedList.tail l) (Some (Pos.succ (brk m)));;
                         LinkedList.write_tail linkedList (Some (Pos.succ (brk m)))
             end) m1
            = Ret (tt, LinkedListSort.with_heap m1 (<[linkedList := LinkedList.OList lx]> h1))
            ∧ (∀ a, last ns ≠ Some a → h1 !! a = heap m1 !! a)
            ∧ (∀ t nt, last ns = Some t → heap m !! t = Some (LinkedList.ONode nt) →
                 h1 !! t = Some (LinkedList.ONode {| LinkedList.next := Some (Pos.succ (brk m));
                                                     LinkedList.element := LinkedList.element nt |}))).
  { pose proof (LinkedListSort.chain_head _ _ _ Hc) as Hhead.
    destruct ns as [|x ns'] using rev_ind.
    - cbn [hd_error] in Hhead. rewrite Hhead in *. exists (heap m1).
      rewrite (bind_Ret _ _ _ _ _ (LinkedListSort.write_head_eq _ _ _ _ Hl1)).
      rewrite (LinkedListSort.write_tail_eq _ linkedList _ _ (lookup_insert_eq _ _ _)).
      cbn [heap LinkedListSort.with_heap]. rewrite insert_insert_eq.
      split; [rewrite Elx; reflexivity|]. split; [reflexivity|].
      intros t nt Ht. discriminate.
    - clear IHns'. rewrite last_snoc in *.
      assert (Hx : x ∈ ns' ++ [x]) by (apply elem_of_app; right; left).
      destruct (LinkedListSort.chain_nodes _ _ _ _ Hc Hx) as [nx Hnx].
      assert (Hnx1 : heap m1 !! x = Some (LinkedList.ONode nx)).
      { pose proof (Hbelow _ _ Hnx). rewrite Hold by lia. exact Hnx. }
      assert (Hsome : ∃ h0, LinkedList.head l = Some h0).
      { rewrite Hhead. destruct ns'; cbn; eauto. }
      destruct Hsome as [h0 Hh0]. rewrite Hh0 in *. rewrite Htail.
      exists (LinkedListSort.relink (heap m1) x nx (Some (Pos.succ (brk m)))).
      rewrite (bind_Ret _ _ _ _ _ (LinkedListSort.write_next_eq _ _ _ _ Hnx1)).
      assert (Hxl : x ≠ linkedList) by (intros ->; congruence).
      rewrite (LinkedListSort.write_tail_eq _ linkedList l _).
      + cbn [heap LinkedListSort.with_heap].
        split; [rewrite Elx; unfold LinkedList.set_tail; rewrite Hh0; reflexivity|]. split.
        * intros a Ha. unfold LinkedListSort.relink. apply lookup_insert_ne. congruence.
        * intros t nt [= <-] Ht. assert (nt = nx) as -> by congruence.
          apply lookup_insert_eq.
      + cbn [heap LinkedListSort.with_heap]. unfold LinkedListSort.relink.
        rewrite lookup_insert_ne by congruence. exact Hl1. }
  destruct Hrun as (h1 & Hrun & Hsame & Hlast).
  rewrite (bind_Ret _ _ _ _ _ Hrun).
  rewrite (bind_Ret _ _ _ _ _
             (LinkedListFacts.load_linked_list_eq _ linkedList lx (lookup_insert_eq _ _ _))).
  rewrite (bind_Ret _ _ _ _ _
             (LinkedListClear.write_count_eq _ linkedList lx _ (lookup_insert_eq _ _ _))).
  eexists. split; [reflexivity|].
  cbn [heap LinkedListSort.with_heap]. rewrite insert_insert_eq.
  pose proof (LinkedListOps.chain_not_list _ _ _ _ _ Hc Hl) as Hout.
  assert (Hnew : ∀ a, a ∈ ns → (a < brk m)%positive).
  { intros a Ha. destruct (LinkedListSort.chain_nodes _ _ _ _ Hc Ha) as [n Hn].
    exact (Hbelow _ _ Hn). }
  assert (Hnotlast : ∀ a, (brk m <= a)%positive → last ns ≠ Some a).
  { intros a Ha Hla. apply last_Some_elem_of in Hla. specialize (Hnew _ Hla). lia. }
  assert (Hlook : ∀ a, a ≠ linkedList → last ns ≠ Some a →
            <[linkedList := LinkedList.OList
                (LinkedList.set_count lx (int64 (LinkedList.count lx + 1)))]> h1 !! a
            = heap m1 !! a).
  { intros a H1 H2. rewrite lookup_insert_ne by congruence. apply Hsame, H2. }
  split_and!.
  - rewrite lookup_insert_eq. rewrite Elx. cbn [LinkedList.set_count LinkedList.count
      LinkedList.head LinkedList.tail LinkedList.equalityFunction LinkedList.sortingFunction].
    rewrite int64_small by lia. reflexivity.
  - apply (LinkedListAppend.chain_snoc (heap m) _ _ _ _
             {| LinkedList.next := None; LinkedList.element := Some (brk m) |} Hc).
    + intros Hin. specialize (Hnew _ Hin). lia.
    + rewrite Hlook by (try apply Hnotlast; lia). exact Hnode.
    + reflexivity.
    + intros b Hb Hlb. specialize (Hnew _ Hb).
      rewrite Hlook; [apply Hold; lia | intros ->; contradiction | exact Hlb].
    + intros t nt Ht Hnt. rewrite lookup_insert_ne; [exact (Hlast t nt Ht Hnt)|].
      intros ->. congruence.
  - unfold LinkedList.element_at.
    rewrite Hlook by (try apply Hnotlast; lia).
    unfold addr in *. rewrite Hnode. cbn [LinkedList.element].
    rewrite Hlook by (try apply Hnotlast; lia). rewrite Helem. reflexivity.
  - intros a x Ha Hx.
    apply LinkedListSearch.element_at_node in Hx as (n & e & Hn & He & Hx).
    unfold LinkedList.element_at.
    assert (Ha' : ∃ n', <[linkedList := LinkedList.OList
                           (LinkedList.set_count lx (int64 (LinkedList.count lx + 1)))]> h1
                        !! a = Some (LinkedList.ONode n')
                        ∧ LinkedList.element n' = Some e).
    { destruct (decide (last ns = Some a)) as [Hla|Hla].
      - eexists. rewrite lookup_insert_ne by (intros ->; contradiction).
        split; [exact (Hlast a n Hla Hn) | exact He].
      - exists n. rewrite Hlook; [|intros ->; contradiction | exact Hla].
        specialize (Hnew _ Ha). rewrite Hold by lia. auto. }
    destruct Ha' as (n' & -> & ->).
    rewrite Hlook.
    + pose proof (Hbelow _ _ Hx). rewrite Hold by lia. rewrite Hx. reflexivity.
    + intros ->. congruence.
    + intros Hle. apply last_Some_elem_of in Hle.
      destruct (LinkedListSort.chain_nodes _ _ _ _ Hc Hle) as [ne Hne]. congruence.
  - apply Hok. lia.
  - apply Hok. lia.
  - intros a H1 H2 H3 H4. rewrite Hlook by assumption. apply Hold; assumption.
Qed.

Module LinkedListCopy.
Import LinkedList LinkedListFacts LinkedListSort LinkedListAlloc.

Lemma linked_list_element_clone_eq (m : memory) (e : addr) (x : linked_list_element_t) :
  never_fails m → heap m !! e = Some (OElement x) → element_ok x →
  ∃ k, linked_list_element_clone (Some e) m
       = Ret ((LINKED_LIST_SUCCESS, Some (brk m)),
              Mem (<[brk m := OElement x]> (heap m)) (Pos.succ (brk m))
                (k + alloc_count m) (alloc_ok m)).
Proof.
  intros Hnf He Hok. unfold linked_list_element_clone.
  rewrite bind_eq. unfold malloc at 1. rewrite Hnf. cbv beta iota. cbn [negb].
  rewrite (bind_Ret _ _ _ _ _
             (load_element_eq (Mem (heap m) (brk m) (S (alloc_count m)) (alloc_ok m))
                _ _ He)).
  destruct x as [[v|] n]; cbn [LinkedList.value LinkedList.size].
  - exists 2%nat.
    rewrite bind_eq. unfold malloc at 1. cbn [alloc_ok alloc_count]. rewrite Hnf.
    cbv beta iota. cbn [negb].
    rewrite bind_eq. unfold lift, memcpy.
    specialize (Hok v eq_refl). cbn [LinkedList.size] in Hok.
    replace ((0 <=? n) && (n <=? Z.of_nat (length v))) with true by (symmetry; lia).
    rewrite take_ge by lia. reflexivity.
  - exists 1%nat. reflexivity.
Qed.

End LinkedListCopy.

(** [linked_list_get] of an index below the size of a list whose nodes are a
    chain, the node at the index holding a well-formed element, when no
    allocation fails: the call returns a pointer to a new element that is
    equal to the one of the node, at an address that was free, and changes
    nothing that was in memory. *)
Theorem linked_list_get_returns_a_copy
    (m : LinkedList.memory) (linkedList : addr) (l : LinkedList.linked_list_t)
    (ns : list addr) (index : Z) (a : addr) (x : LinkedList.linked_list_element_t) :
  heap m !! linkedList = Some (LinkedList.OList l) →
  LinkedList.chain (heap m) (LinkedList.head l) ns →
  0 <= index < LinkedList.count l →
  ns !! Z.to_nat index = Some a →
  LinkedList.element_at (heap m) a = Some x →
  LinkedList.element_ok x →
  LinkedListAlloc.never_fails m →
  LinkedListAlloc.allocator_ok m →
  ∃ m' : LinkedList.memory,
    LinkedList.linked_list_get (Some linkedList) index m
    = Ret ((LinkedList.LINKED_LIST_SUCCESS, Some (brk m)), m')
    ∧ heap m !! brk m = None
    ∧ heap m' = <[brk m := LinkedList.OElement x]> (heap m).
Proof.
  intros Hl Hc Hindex Ha Hx Hxok Hnf Hok. unfold LinkedList.linked_list_get.
  rewrite (bind_Ret _ _ _ _ _ (LinkedListFacts.load_linked_list_eq _ _ _ Hl)).
  replace ((index >=? LinkedList.count l) || (index <? 0)) with false by (symmetry; lia).
  pose proof (LinkedListSort.chain_length _ _ _ Hc) as Hfuel.
  apply LinkedListSearch.element_at_node in Hx as (n & e & Hn & He & Hx).
  destruct (LinkedListCopy.linked_list_element_clone_eq m e x Hnf Hx Hxok) as [k Hclone].
  destruct (LinkedListWalk.walk_nodes ns
              (λ k currentIndex mk,
                 mk = m ∧ currentIndex = Z.of_nat k ∧ Z.of_nat k <= index)
              (λ _ (r : LinkedList.linked_list_result_t * option addr) mk,
                 r = (LinkedList.LINKED_LIST_SUCCESS, Some (brk m))
                 ∧ heap mk = <[brk m := LinkedList.OElement x]> (heap m))
              (S (stdpp.base.size (heap m))) (LinkedList.head l) 0
              (λ node currentIndex,
                 if currentIndex =? index then
                   n ← LinkedList.load_node (Some node);
                   '(cloneResult, elementClone) ←
                     LinkedList.linked_list_element_clone (LinkedList.element n);
                   if negb (LinkedList.is_success cloneResult)
                   then mret (inr (cloneResult, None))
                   else mret (inr (LinkedList.LINKED_LIST_SUCCESS, elementClone))
                 else mret (inl (Some node, currentIndex + 1))) m)
    as (r & m' & Hrun & Hfinal).
  - lia.
  - apply (LinkedListSort.chain_head _ _ _ Hc).
  - split; [reflexivity|]. split; [reflexivity | lia].
  - intros j b currentIndex mk Hb (-> & -> & Hj).
    destruct (Z.of_nat j =? index) eqn:E.
    + apply Z.eqb_eq in E. assert (b = a) as ->.
      { rewrite <- E, Nat2Z.id in Ha. congruence. }
      eexists (inr _), _. split.
      * rewrite (bind_Ret _ _ _ _ _ (LinkedListSort.load_node_eq _ _ _ Hn)), He.
        rewrite (bind_Ret _ _ _ _ _ Hclone). reflexivity.
      * cbn [heap]. auto.
    + exists (inl (Some b, Z.of_nat j + 1)), m. split; [reflexivity|].
      split; [reflexivity|].
      split; [exact (LinkedListWalk.chain_lookup _ _ _ _ _ Hc Hb)|].
      split; [reflexivity|]. split; [lia|]. apply Z.eqb_neq in E. lia.
  - rewrite (bind_Ret (LinkedList.for_nodes _ _ _) _ _ _ _ Hrun).
    destruct r as [currentIndex|y].
    + destruct Hfinal as (_ & _ & Hge). apply lookup_lt_Some in Ha. lia.
    + destruct Hfinal as (_ & _ & -> & Hheap).
      exists m'. split; [reflexivity|]. split; [apply Hok; lia | exact Hheap].
Qed.

(** * The linked list: removing a node *)

Module LinkedListRemove.
Import LinkedList LinkedListFacts LinkedListSort LinkedListWalk.

Lemma linked_list_node_get_eq (m : memory) (list_ : addr) (l : linked_list_t)
    (ns : list addr) (index : Z) (p : addr) :
  heap m !! list_ = Some (OList l) →
  chain (heap m) (head l) ns →
  0 <= index < count l →
  ns !! Z.to_nat index = Some p →
  linked_list_node_get (Some list_) index m = Ret ((LINKED_LIST_SUCCESS, Some p), m).
Proof.
  intros Hl Hc Hindex Hp. unfold linked_list_node_get.
  rewrite (bind_Ret _ _ _ _ _ (load_linked_list_eq _ _ _ Hl)).
  replace ((index >=? count l) || (index <? 0)) with false by (symmetry; lia).
  pose proof (chain_length _ _ _ Hc) as Hfuel.
  destruct (walk_nodes ns
              (λ k currentIndex mk,
                 mk = m ∧ currentIndex = Z.of_nat k ∧ Z.of_nat k <= index)
              (λ _ (r : linked_list_result_t * option addr) mk,
                 mk = m ∧ r = (LINKED_LIST_SUCCESS, Some p))
              (S (stdpp.base.size (heap m))) (head l) 0
              (λ node currentIndex,
                 if currentIndex =? index then mret (inr (LINKED_LIST_SUCCESS, Some node))
                 else mret (inl (Some node, currentIndex + 1))) m)
    as (r & m' & Hrun & Hfinal).
  - lia.
  - apply (chain_head _ _ _ Hc).
  - split; [reflexivity|]. split; [reflexivity | lia].
  - intros j b currentIndex mk Hb (-> & -> & Hj).
    destruct (Z.of_nat j =? index) eqn:E.
    + apply Z.eqb_eq in E. assert (b = p) as ->.
      { rewrite <- E, Nat2Z.id in Hp. congruence. }
      eexists (inr _), _. split; [reflexivity|]. auto.
    + exists (inl (Some b, Z.of_nat j + 1)), m. split; [reflexivity|].
      split; [reflexivity|].
      split; [exact (chain_lookup _ _ _ _ _ Hc Hb)|].
      split; [reflexivity|]. split; [lia|]. apply Z.eqb_neq in E. lia.
  - rewrite (bind_Ret (for_nodes _ _ _) _ _ _ _ Hrun).
    destruct r as [currentIndex|y].
    + destruct Hfinal as (_ & _ & Hge). apply lookup_lt_Some in Hp. lia.
    + destruct Hfinal as (_ & _ & -> & ->). reflexivity.
Qed.

(** A chain without one of its nodes, the node before it pointing to the
    node after it. *)
Lemma chain_skip (h h' : gmap addr object) (p : option addr) (ns : list addr) :
  chain h p ns →
  ∀ (k : nat) (pr a : addr),
  ns !! k = Some pr → ns !! S k = Some a →
  (∀ b, b ∈ ns → b ≠ pr → b ≠ a → h' !! b = h !! b) →
  (∀ npr na, h !! pr = Some (ONode npr) → h !! a = Some (ONode na) →
             h' !! pr = Some (ONode {| next := next na; element := element npr |})) →
  chain h' p (delete (S k) ns).
Proof.
  intros Hc. pose proof (chain_NoDup _ _ _ Hc) as Hnd.
  induction Hc as [|x n rest Hx Hc IH]; intros k pr a Hpr Ha Hsame Hlink; [discriminate|].
  apply NoDup_cons in Hnd as [Hxr Hnd].
  destruct k as [|k].
  - injection Hpr as <-. cbn in Ha.
    destruct rest as [|a' rest']; [discriminate|]. injection Ha as ->.
    inversion Hc as [|a' na ns' Hna Hc']; subst.
    cbn [delete list_delete].
    apply (chain_cons _ x {| next := next na; element := element n |}).
    + apply (Hlink n na Hx Hna).
    + cbn [next]. apply (chain_unchanged h); [exact Hc'|].
      apply NoDup_cons in Hnd as [Har _].
      intros b Hb. apply Hsame.
      * right. right. exact Hb.
      * intros ->. apply Hxr. right. exact Hb.
      * intros ->. contradiction.
  - cbn in Hpr, Ha. change (delete (S (S k)) (x :: rest)) with (x :: delete (S k) rest).
    apply (chain_cons _ x n).
    + rewrite Hsame; [exact Hx | left | |].
      * intros ->. apply Hxr. eapply list_elem_of_lookup_2, Hpr.
      * intros ->. apply Hxr. eapply list_elem_of_lookup_2, Ha.
    + apply (IH Hnd k pr a Hpr Ha).
      * intros b Hb. apply Hsame. right. exact Hb.
      * exact Hlink.
Qed.

(** The heap after the node [a], which holds the element [e], is taken out
    of the list: the list object is [l'], the node and the element are
    gone, the node [pred] before it, if there is one, points to [nxt], and
    the rest is as it was. *)
Definition unlinked (h : gmap addr object) (list_ a e : addr) (pred nxt : option addr)
    (l' : linked_list_t) (h' : gmap addr object) : Prop :=
  ∀ b, h' !! b
       = if decide (b = list_) then Some (OList l')
         else if decide (b = a ∨ b = e) then None
         else if decide (pred = Some b) then
           match h !! b with
           | Some (ONode nb) => Some (ONode {| next := nxt; element := element nb |})
           | o => o
           end
         else h !! b.


(** The lookups of a heap written as inserts and deletes. *)
Ltac look_up :=
  repeat first
    [ rewrite lookup_insert_eq
    | rewrite lookup_delete_eq
    | rewrite lookup_insert_ne by congruence
    | rewrite lookup_delete_ne by congruence ].

(** The list object after the removal of the node at [i]. *)
Definition shortened (l : linked_list_t) (ns : list addr) (i : nat) : linked_list_t :=
  {| head := hd_error (delete i ns);
     tail := last (delete i ns);
     count := count l - 1;
     equalityFunction := equalityFunction l;
     sortingFunction := sortingFunction l |}.

Definition before_it (ns : list addr) (i : nat) : option addr :=
  match i with O => None | S k => ns !! k end.

Definition after_it (ns : list addr) (i : nat) : option addr := hd_error (drop (S i) ns).

(** A list in order, and one of its nodes with its element. *)
Definition removable (m : memory) (list_ : addr) (l : linked_list_t) (ns es : list addr)
    (index : Z) (a e : addr) : Prop :=
  heap m !! list_ = Some (OList l)
  ∧ chain (heap m) (head l) ns
  ∧ tail l = last ns
  ∧ count l = Z.of_nat (length ns)
  ∧ count l < 2 ^ 63
  ∧ 0 <= index < count l
  ∧ owns (heap m) ns es
  ∧ ns !! Z.to_nat index = Some a
  ∧ es !! Z.to_nat index = Some e.

Lemma removed_node (m : memory) (list_ : addr) (l : linked_list_t) (ns es : list addr)
    (index : Z) (a e : addr) :
  removable m list_ l ns es index a e →
  ∃ n x, heap m !! a = Some (ONode n) ∧ element n = Some e
         ∧ heap m !! e = Some (OElement x) ∧ next n = after_it ns (Z.to_nat index)
         ∧ a ≠ list_ ∧ e ≠ list_ ∧ a ≠ e.
Proof.
  intros (Hl & Hc & _ & _ & _ & _ & Howns & Ha & He).
  pose proof Howns as (_ & _ & Hown).
  destruct (Hown _ _ _ Ha He) as (n & x & Hn & Hel & Hx).
  destruct (chain_lookup _ _ _ _ _ Hc Ha) as (n' & Hn' & Hnext).
  assert (n' = n) as -> by congruence.
  exists n, x. split_and!; try assumption.
  - intros E. rewrite E, Hl in Hn. discriminate.
  - intros E. rewrite E, Hl in Hx. discriminate.
  - intros E. rewrite E, Hx in Hn. discriminate.
Qed.

Lemma remove_only_node (m : memory) (list_ : addr) (l : linked_list_t) (ns es : list addr)
    (index : Z) (a e : addr) :
  removable m list_ l ns es index a e →
  count l = 1 →
  ∃ h', linked_list_remove (Some list_) index m
        = Ret (LINKED_LIST_SUCCESS, with_heap m h')
        ∧ unlinked (heap m) list_ a e (before_it ns (Z.to_nat index))
            (after_it ns (Z.to_nat index)) (shortened l ns (Z.to_nat index)) h'.
Proof.
  intros Hrem Hone.
  destruct (removed_node _ _ _ _ _ _ _ _ Hrem)
    as (n & x & Hn & Hel & Hx & Hnext & Hal & Hel' & Hae).
  destruct Hrem as (Hl & Hc & Htail & Hcount & Hmax & Hindex & Howns & Ha & He).
  assert (Hindex0 : index = 0) by lia. subst index.
  assert (Hns : ns = [a]).
  { destruct ns as [|b [|c rest]]; cbn in Hcount; try lia.
    change (Some b = Some a) in Ha. injection Ha as ->. reflexivity. }
  subst ns.
  pose proof (chain_head _ _ _ Hc) as Hhead. cbn in Hhead.
  unfold linked_list_remove.
  rewrite (bind_Ret _ _ _ _ _ (load_linked_list_eq _ _ _ Hl)).
  rewrite !uint64_small by lia.
  replace (0 >=? count l) with false by (symmetry; lia).
  replace (count l =? 1) with true by (symmetry; lia).
  rewrite Hhead.
  rewrite (bind_Ret _ _ _ _ _ (linked_list_node_free_eq _ _ _ _ _ Hn Hel Hx)).
  assert (Hl1 : heap (with_heap m (delete a (delete e (heap m)))) !! list_ = Some (OList l)).
  { cbn [heap with_heap]. look_up. exact Hl. }
  rewrite (bind_Ret _ _ _ _ _ (write_head_eq _ _ _ None Hl1)).
  cbn [is_success negb].
  rewrite (bind_Ret _ _ _ _ _ (load_linked_list_eq _ list_ _ (lookup_insert_eq _ _ _))).
  rewrite (bind_Ret _ _ _ _ _
             (LinkedListClear.write_count_eq _ list_ _ _ (lookup_insert_eq _ _ _))).
  rewrite (bind_Ret _ _ _ _ _ (write_head_eq _ list_ _ None (lookup_insert_eq _ _ _))).
  rewrite (bind_Ret _ _ _ _ _ (write_tail_eq _ list_ _ None (lookup_insert_eq _ _ _))).
  rewrite ret_eq. cbn [heap with_heap]. rewrite !insert_insert_eq.
  eexists. split; [reflexivity|].
  intros b. unfold before_it, after_it, shortened.
  cbn [Z.to_nat delete list_delete hd_error last drop].
  destruct (decide (b = list_)) as [->|Hbl].
  { look_up. cbn [set_head set_tail set_count head tail count equalityFunction
                  sortingFunction]. rewrite int64_small by lia. reflexivity. }
  destruct (decide (b = a ∨ b = e)) as [[->| ->]|Hb].
  { look_up. reflexivity. }
  { look_up. reflexivity. }
  destruct (decide (None = Some b)) as [?|_]; [discriminate|].
  assert (b ≠ a ∧ b ≠ e) as [? ?] by tauto. look_up. reflexivity.
Qed.


Lemma last_delete_before {A} (ns : list A) (i : nat) :
  (S i < length ns)%nat → last (delete i ns) = last ns.
Proof.
  intros H. rewrite !last_lookup.
  rewrite length_delete by (apply lookup_lt_is_Some; lia).
  rewrite list_lookup_delete_ge by lia. f_equal. lia.
Qed.

Lemma last_delete_last {A} (ns : list A) (i : nat) :
  S (S i) = length ns → last (delete (S i) ns) = ns !! i.
Proof.
  intros H. rewrite !last_lookup.
  rewrite length_delete by (apply lookup_lt_is_Some; lia).
  rewrite list_lookup_delete_lt by lia. f_equal. lia.
Qed.

Lemma head_delete_later {A} (ns : list A) (i : nat) :
  hd_error (delete (S i) ns) = hd_error ns.
Proof. destruct ns; reflexivity. Qed.

Lemma remove_first_node (m : memory) (list_ : addr) (l : linked_list_t) (ns es : list addr)
    (index : Z) (a e : addr) :
  removable m list_ l ns es index a e →
  count l ≠ 1 → index = 0 →
  ∃ h', linked_list_remove (Some list_) index m
        = Ret (LINKED_LIST_SUCCESS, with_heap m h')
        ∧ unlinked (heap m) list_ a e (before_it ns (Z.to_nat index))
            (after_it ns (Z.to_nat index)) (shortened l ns (Z.to_nat index)) h'.
Proof.
  intros Hrem Hmany ->.
  destruct (removed_node _ _ _ _ _ _ _ _ Hrem)
    as (n & x & Hn & Hel & Hx & Hnext & Hal & Hel' & Hae).
  destruct Hrem as (Hl & Hc & Htail & Hcount & Hmax & Hindex & Howns & Ha & He).
  change (Z.to_nat 0) with 0%nat in *.
  destruct ns as [|a' rest]; [discriminate|].
  change (Some a' = Some a) in Ha. injection Ha as ->.
  pose proof (chain_head _ _ _ Hc) as Hhead. cbn [hd_error] in Hhead.
  unfold linked_list_remove.
  rewrite (bind_Ret _ _ _ _ _ (load_linked_list_eq _ _ _ Hl)).
  rewrite !uint64_small by lia.
  replace (0 >=? count l) with false by (symmetry; lia).
  replace (count l =? 1) with false by (symmetry; lia).
  change (0 =? 0) with true. cbv iota zeta. rewrite Hhead.
  rewrite (bind_Ret _ _ _ _ _ (load_node_eq _ _ _ Hn)).
  rewrite (bind_Ret _ _ _ _ _ (write_head_eq _ _ _ (next n) Hl)).
  rewrite (bind_Ret _ _ _ _ _
             (LinkedListClear.write_count_eq _ list_ _ _ (lookup_insert_eq _ _ _))).
  cbn [heap with_heap]. rewrite insert_insert_eq.
  match goal with |- context [with_heap _ ?h] => remember h as h1 eqn:Eh1 end.
  assert (Hn1 : heap (with_heap m h1) !! a = Some (ONode n))
    by (cbn [heap with_heap]; rewrite Eh1; look_up; exact Hn).
  assert (Hx1 : heap (with_heap m h1) !! e = Some (OElement x))
    by (cbn [heap with_heap]; rewrite Eh1; look_up; exact Hx).
  change (with_heap (with_heap (with_heap m ?a) ?b) h1) with (with_heap m h1).
  rewrite (bind_Ret _ _ _ _ _ (linked_list_node_free_eq _ _ _ _ _ Hn1 Hel Hx1)).
  cbn [is_success negb heap with_heap]. rewrite ret_eq.
  eexists. split; [reflexivity|].
  intros b. unfold before_it, after_it, shortened. rewrite Eh1.
  cbn [delete list_delete drop] in *.
  destruct (decide (b = list_)) as [->|Hbl].
  { look_up. rewrite int64_small by lia. do 2 f_equal.
    assert (rest ≠ []) by (intros ->; cbn in Hcount; lia).
    unfold set_count, set_head.
    cbn [head tail count equalityFunction sortingFunction]. f_equal.
    - unfold after_it in Hnext. exact Hnext.
    - rewrite Htail. destruct rest; [contradiction | reflexivity]. }
  destruct (decide (b = a ∨ b = e)) as [[->| ->]|Hb].
  { look_up. reflexivity. }
  { look_up. reflexivity. }
  destruct (decide (None = Some b)) as [?|_]; [discriminate|].
  assert (b ≠ a ∧ b ≠ e) as [? ?] by tauto. look_up. reflexivity.
Qed.

(** The node before the one that is removed. *)
Lemma node_before (m : memory) (list_ : addr) (l : linked_list_t) (ns es : list addr)
    (index : Z) (a e : addr) (k : nat) :
  removable m list_ l ns es index a e →
  Z.to_nat index = S k →
  ∃ p np, ns !! k = Some p ∧ heap m !! p = Some (ONode np)
          ∧ p ≠ a ∧ p ≠ e ∧ p ≠ list_.
Proof.
  intros (Hl & Hc & _ & _ & _ & _ & Howns & Ha & He) Hk. rewrite Hk in Ha, He.
  destruct (lookup_lt_is_Some_2 ns k) as [p Hp]; [apply lookup_lt_Some in Ha; lia|].
  destruct (chain_nodes _ _ _ _ Hc (list_elem_of_lookup_2 _ _ _ Hp)) as [np Hnp].
  exists p, np. split_and!; try assumption.
  - intros ->. destruct (owns_node _ _ _ k (S k) a Howns Hp) as [Heq _].
    specialize (Heq Ha). lia.
  - intros ->. destruct (owns_node _ _ _ k (S k) e Howns Hp) as [_ Hne]. contradiction.
  - intros E. rewrite E, Hl in Hnp. discriminate.
Qed.

Lemma remove_last_node (m : memory) (list_ : addr) (l : linked_list_t) (ns es : list addr)
    (index : Z) (a e : addr) :
  removable m list_ l ns es index a e →
  count l ≠ 1 → index = count l - 1 →
  ∃ h', linked_list_remove (Some list_) index m
        = Ret (LINKED_LIST_SUCCESS, with_heap m h')
        ∧ unlinked (heap m) list_ a e (before_it ns (Z.to_nat index))
            (after_it ns (Z.to_nat index)) (shortened l ns (Z.to_nat index)) h'.
Proof.
  intros Hrem Hmany Hlast.
  destruct (removed_node _ _ _ _ _ _ _ _ Hrem)
    as (n & x & Hn & Hel & Hx & Hnext & Hal & Hel' & Hae).
  assert (Hk : ∃ k, Z.to_nat index = S k).
  { destruct Hrem as (_ & _ & _ & _ & _ & Hindex & _). exists (Z.to_nat (index - 1)). lia. }
  destruct Hk as [k Hk].
  destruct (node_before _ _ _ _ _ _ _ _ k Hrem Hk) as (p & np & Hp & Hnp & Hpa & Hpe & Hpl).
  destruct Hrem as (Hl & Hc & Htail & Hcount & Hmax & Hindex & Howns & Ha & He).
  assert (Hlen : length ns = S (S k)) by lia.
  assert (Htl : tail l = Some a).
  { rewrite Htail, last_lookup, Hlen. cbn [pred]. rewrite <- Hk. exact Ha. }
  unfold linked_list_remove.
  rewrite (bind_Ret _ _ _ _ _ (load_linked_list_eq _ _ _ Hl)).
  rewrite !uint64_small by lia.
  replace (index >=? count l) with false by (symmetry; lia).
  replace (count l =? 1) with false by (symmetry; lia).
  replace (index =? 0) with false by (symmetry; lia).
  replace (index =? count l - 1) with true by (symmetry; lia).
  cbv zeta. rewrite !int64_small by lia.
  rewrite (bind_Ret _ _ _ _ _
             (linked_list_node_get_eq _ _ _ ns (index - 1) p Hl Hc ltac:(lia)
                ltac:(replace (Z.to_nat (index - 1)) with k by lia; exact Hp))).
  cbn [is_success negb].
  rewrite (bind_Ret _ _ _ _ _ (write_next_eq _ _ _ None Hnp)).
  assert (Hl1 : heap (with_heap m (relink (heap m) p np None)) !! list_ = Some (OList l)).
  { cbn [heap with_heap]. unfold relink. look_up. exact Hl. }
  rewrite (bind_Ret _ _ _ _ _ (write_tail_eq _ _ _ (Some p) Hl1)).
  rewrite (bind_Ret _ _ _ _ _
             (LinkedListClear.write_count_eq _ list_ _ _ (lookup_insert_eq _ _ _))).
  cbn [heap with_heap]. rewrite insert_insert_eq.
  match goal with |- context [with_heap _ (<[list_ := ?o]> ?h)] =>
    remember (<[list_ := o]> h) as h1 eqn:Eh1
  end.
  assert (Hn1 : heap (with_heap m h1) !! a = Some (ONode n))
    by (cbn [heap with_heap]; rewrite Eh1; unfold relink; look_up; exact Hn).
  assert (Hx1 : heap (with_heap m h1) !! e = Some (OElement x))
    by (cbn [heap with_heap]; rewrite Eh1; unfold relink; look_up; exact Hx).
  rewrite Htl.
  change (with_heap (with_heap (with_heap ?m0 ?a0) ?b0) h1) with (with_heap m0 h1).
  rewrite (bind_Ret _ _ _ _ _ (linked_list_node_free_eq _ _ _ _ _ Hn1 Hel Hx1)).
  cbn [is_success negb heap with_heap]. rewrite ret_eq.
  eexists. split; [reflexivity|].
  intros b. unfold before_it, after_it, shortened. rewrite Eh1, Hk, Hp. unfold relink.
  rewrite drop_ge by lia. cbn [hd_error].
  destruct (decide (b = list_)) as [->|Hbl].
  { look_up. do 2 f_equal.
    unfold set_count, set_tail.
    cbn [head tail count equalityFunction sortingFunction]. f_equal.
    - rewrite head_delete_later. apply (chain_head _ _ _ Hc).
    - rewrite last_delete_last by lia. symmetry. exact Hp. }
  destruct (decide (b = a ∨ b = e)) as [[->| ->]|Hb].
  { look_up. reflexivity. }
  { look_up. reflexivity. }
  assert (b ≠ a ∧ b ≠ e) as [? ?] by tauto.
  destruct (decide (Some p = Some b)) as [[= <-]|Hbp].
  { look_up. unfold addr in *. rewrite Hnp. reflexivity. }
  assert (p ≠ b) by congruence. look_up. reflexivity.
Qed.

Lemma remove_middle_node (m : memory) (list_ : addr) (l : linked_list_t) (ns es : list addr)
    (index : Z) (a e : addr) :
  removable m list_ l ns es index a e →
  index ≠ 0 → index ≠ count l - 1 →
  ∃ h', linked_list_remove (Some list_) index m
        = Ret (LINKED_LIST_SUCCESS, with_heap m h')
        ∧ unlinked (heap m) list_ a e (before_it ns (Z.to_nat index))
            (after_it ns (Z.to_nat index)) (shortened l ns (Z.to_nat index)) h'.
Proof.
  intros Hrem Hfirst Hlast.
  destruct (removed_node _ _ _ _ _ _ _ _ Hrem)
    as (n & x & Hn & Hel & Hx & Hnext & Hal & Hel' & Hae).
  assert (Hk : ∃ k, Z.to_nat index = S k).
  { destruct Hrem as (_ & _ & _ & _ & _ & Hindex & _). exists (Z.to_nat (index - 1)). lia. }
  destruct Hk as [k Hk].
  destruct (node_before _ _ _ _ _ _ _ _ k Hrem Hk) as (p & np & Hp & Hnp & Hpa & Hpe & Hpl).
  destruct Hrem as (Hl & Hc & Htail & Hcount & Hmax & Hindex & Howns & Ha & He).
  unfold linked_list_remove.
  rewrite (bind_Ret _ _ _ _ _ (load_linked_list_eq _ _ _ Hl)).
  rewrite !uint64_small by lia.
  replace (index >=? count l) with false by (symmetry; lia).
  replace (count l =? 1) with false by (symmetry; lia).
  replace (index =? 0) with false by (symmetry; lia).
  replace (index =? count l - 1) with false by (symmetry; lia).
  pose proof (chain_length _ _ _ Hc) as Hfuel.
  destruct (walk_nodes ns
              (λ j (acc : Z * option addr) mk,
                 mk = m ∧ acc = (Z.of_nat j, before_it ns j) ∧ Z.of_nat j <= index)
              (λ _ (r : linked_list_result_t) mk,
                 r = LINKED_LIST_SUCCESS
                 ∧ ∃ h', mk = with_heap m h'
                         ∧ unlinked (heap m) list_ a e (before_it ns (Z.to_nat index))
                             (after_it ns (Z.to_nat index))
                             (shortened l ns (Z.to_nat index)) h')
              (S (stdpp.base.size (heap m))) (head l) (0, None)
              (λ current '(currentIndex, lastNode),
                 if uint64 currentIndex =? index then
                   c ← load_node (Some current);
                   write_next lastNode (next c);;
                   l ← load_list list_;
                   write_count list_ (int64 (count l - 1));;
                   '(freeResult, _) ← linked_list_node_free (Some current);
                   if negb (is_success freeResult) then mret (inr freeResult) else
                   mret (inr LINKED_LIST_SUCCESS)
                 else mret (inl (Some current, (currentIndex + 1, Some current)))) m)
    as (r & m' & Hrun & Hfinal).
  - lia.
  - apply (chain_head _ _ _ Hc).
  - split; [reflexivity|]. split; [reflexivity | lia].
  - intros j b acc mk Hb (-> & -> & Hj).
    pose proof (lookup_lt_Some _ _ _ Hb) as Hjlen.
    rewrite uint64_small by lia.
    destruct (Z.of_nat j =? index) eqn:E.
    + apply Z.eqb_eq in E. assert (j = S k) as -> by lia.
      assert (b = a) as -> by (rewrite Hk in Ha; congruence).
      cbn [before_it]. rewrite Hp.
      rewrite (bind_Ret _ _ _ _ _ (load_node_eq _ _ _ Hn)).
      rewrite (bind_Ret _ _ _ _ _ (write_next_eq _ _ _ (next n) Hnp)).
      assert (Hl1 : heap (with_heap m (relink (heap m) p np (next n))) !! list_
                    = Some (OList l)).
      { cbn [heap with_heap]. unfold relink. look_up. exact Hl. }
      rewrite (bind_Ret _ _ _ _ _ (load_linked_list_eq _ _ _ Hl1)).
      rewrite (bind_Ret _ _ _ _ _ (LinkedListClear.write_count_eq _ list_ _ _ Hl1)).
      cbn [heap with_heap].
      match goal with |- context [with_heap _ (<[list_ := ?o]> ?h)] =>
        remember (<[list_ := o]> h) as h1 eqn:Eh1
      end.
      assert (Hn1 : heap (with_heap m h1) !! a = Some (ONode n))
        by (cbn [heap with_heap]; rewrite Eh1; unfold relink; look_up; exact Hn).
      assert (Hx1 : heap (with_heap m h1) !! e = Some (OElement x))
        by (cbn [heap with_heap]; rewrite Eh1; unfold relink; look_up; exact Hx).
      change (with_heap (with_heap ?m0 ?a0) h1) with (with_heap m0 h1).
      rewrite (bind_Ret _ _ _ _ _ (linked_list_node_free_eq _ _ _ _ _ Hn1 Hel Hx1)).
      cbn [is_success negb heap with_heap]. rewrite ret_eq.
      eexists (inr _), _. split; [reflexivity|]. split; [reflexivity|].
      eexists. split; [reflexivity|].
      intros b. unfold shortened. rewrite Eh1, Hk. cbn [before_it]. rewrite Hp, <- Hk, <- Hnext.
      unfold relink.
      destruct (decide (b = list_)) as [->|Hbl].
      { look_up. rewrite int64_small by lia. do 2 f_equal.
        unfold set_count.
        cbn [head tail count equalityFunction sortingFunction]. f_equal.
        - rewrite Hk, head_delete_later. apply (chain_head _ _ _ Hc).
        - rewrite last_delete_before by lia. exact Htail. }
      destruct (decide (b = a ∨ b = e)) as [[->| ->]|Hb'].
      { look_up. reflexivity. }
      { look_up. reflexivity. }
      assert (b ≠ a ∧ b ≠ e) as [? ?] by tauto.
      destruct (decide (Some p = Some b)) as [[= <-]|Hbp].
      { look_up. unfold addr in *. rewrite Hnp. reflexivity. }
      assert (p ≠ b) by congruence. look_up. reflexivity.
    + apply Z.eqb_neq in E.
      exists (inl (Some b, (Z.of_nat j + 1, Some b))), m. split; [reflexivity|].
      split; [reflexivity|].
      split; [exact (chain_lookup _ _ _ _ _ Hc Hb)|].
      split; [reflexivity|]. split; [|lia].
      cbn [before_it]. rewrite Hb. f_equal. lia.
  - rewrite (bind_Ret (for_nodes _ _ _) _ _ _ _ Hrun).
    destruct r as [acc|y].
    + destruct Hfinal as (_ & _ & Hge). lia.
    + destruct Hfinal as (_ & _ & -> & h' & -> & Hun).
      exists h'. split; [reflexivity | exact Hun].
Qed.

Lemma unlinked_other (h h' : gmap addr object) (list_ a e : addr) (pred nxt : option addr)
    (l' : linked_list_t) (b : addr) :
  unlinked h list_ a e pred nxt l' h' →
  b ≠ list_ → b ≠ a → b ≠ e → pred ≠ Some b → h' !! b = h !! b.
Proof.
  intros Hun ? ? ? ?. rewrite (Hun b).
  destruct (decide (b = list_)); [contradiction|].
  destruct (decide (b = a ∨ b = e)); [tauto|].
  destruct (decide (pred = Some b)); [contradiction | reflexivity].
Qed.

(** A node of the list other than the removed one is none of the objects
    that the removal deletes or replaces. *)
Lemma other_node (m : memory) (list_ : addr) (l : linked_list_t) (ns es : list addr)
    (index : Z) (a e b : addr) :
  removable m list_ l ns es index a e →
  b ∈ delete (Z.to_nat index) ns →
  b ∈ ns ∧ b ≠ list_ ∧ b ≠ a ∧ b ≠ e.
Proof.
  intros (Hl & Hc & _ & _ & _ & _ & Howns & Ha & He) Hb.
  pose proof (chain_NoDup _ _ _ Hc) as Hnd.
  apply list_elem_of_lookup in Hb as [j Hj].
  assert (Hin : ∃ j', j' ≠ Z.to_nat index ∧ ns !! j' = Some b).
  { destruct (decide (j < Z.to_nat index)%nat).
    - exists j. split; [lia|]. rewrite list_lookup_delete_lt in Hj by lia. exact Hj.
    - exists (S j). split; [lia|]. rewrite list_lookup_delete_ge in Hj by lia. exact Hj. }
  destruct Hin as (j' & Hne & Hj').
  split_and!.
  - eapply list_elem_of_lookup_2, Hj'.
  - intros ->. apply (LinkedListOps.chain_not_list _ _ _ _ _ Hc Hl).
    eapply list_elem_of_lookup_2, Hj'.
  - intros ->. apply Hne. exact (NoDup_lookup _ _ _ _ Hnd Hj' Ha).
  - intros ->. destruct (owns_element _ _ _ _ j' _ Howns He) as [_ Hno]. contradiction.
Qed.

Lemma unlinked_chain (m : memory) (list_ : addr) (l : linked_list_t) (ns es : list addr)
    (index : Z) (a e : addr) (h' : gmap addr object) :
  removable m list_ l ns es index a e →
  unlinked (heap m) list_ a e (before_it ns (Z.to_nat index))
    (after_it ns (Z.to_nat index)) (shortened l ns (Z.to_nat index)) h' →
  chain h' (hd_error (delete (Z.to_nat index) ns)) (delete (Z.to_nat index) ns).
Proof.
  intros Hrem Hun.
  destruct (removed_node _ _ _ _ _ _ _ _ Hrem)
    as (n & x & Hn & Hel & Hx & Hnext & Hal & Hel' & Hae).
  pose proof Hrem as (Hl & Hc & _ & _ & _ & _ & Howns & Ha & He).
  pose proof (chain_NoDup _ _ _ Hc) as Hnd.
  destruct (Z.to_nat index) as [|k] eqn:Hk.
  - destruct ns as [|a' rest]; [discriminate|]. injection Ha as ->.
    cbn [delete list_delete].
    inversion Hc as [|a' n' ns' Hn' Hc' E1 E2]; subst.
    rewrite <- (chain_head _ _ _ Hc').
    apply (chain_unchanged (heap m)); [exact Hc'|].
    intros b Hb.
    destruct (other_node _ _ _ _ _ _ _ _ b Hrem) as (_ & ? & ? & ?).
    { rewrite Hk. exact Hb. }
    apply (unlinked_other _ _ _ _ _ _ _ _ _ Hun); try assumption. discriminate.
  - destruct (node_before _ _ _ _ _ _ _ _ k Hrem Hk) as (p & np & Hp & Hnp & Hpa & Hpe & Hpl).
    rewrite head_delete_later, <- (chain_head _ _ _ Hc).
    apply (chain_skip (heap m) h' _ _ Hc k p a Hp Ha).
    + intros b Hb Hbp Hba.
      apply (unlinked_other _ _ _ _ _ _ _ _ _ Hun); try assumption.
      * intros ->. apply (LinkedListOps.chain_not_list _ _ _ _ _ Hc Hl). exact Hb.
      * intros ->. apply list_elem_of_lookup in Hb as [j Hj].
        destruct (owns_element _ _ _ _ j _ Howns He) as [_ Hno]. contradiction.
      * cbn [before_it]. rewrite Hp. congruence.
    + intros npr na Hnpr Hna. rewrite (Hun p).
      destruct (decide (p = list_)); [contradiction|].
      destruct (decide (p = a ∨ p = e)); [tauto|].
      cbn [before_it]. rewrite Hp.
      destruct (decide (Some p = Some p)); [|congruence].
      unfold addr in *. rewrite Hnpr. do 3 f_equal.
      rewrite <- Hnext. congruence.
Qed.

Lemma unlinked_elements (m : memory) (list_ : addr) (l : linked_list_t) (ns es : list addr)
    (index : Z) (a e b : addr) (h' : gmap addr object) :
  removable m list_ l ns es index a e →
  unlinked (heap m) list_ a e (before_it ns (Z.to_nat index))
    (after_it ns (Z.to_nat index)) (shortened l ns (Z.to_nat index)) h' →
  b ∈ delete (Z.to_nat index) ns →
  element_at h' b = element_at (heap m) b.
Proof.
  intros Hrem Hun Hb.
  destruct (other_node _ _ _ _ _ _ _ _ b Hrem Hb) as (Hin & Hbl & Hba & Hbe).
  pose proof Hrem as (Hl & Hc & _ & _ & _ & _ & Howns & Ha & He).
  apply list_elem_of_lookup in Hin as [j Hj].
  pose proof Howns as (Hlen & Hnd & Hown).
  destruct (lookup_lt_is_Some_2 es j) as [eb Heb].
  { rewrite Hlen. eapply lookup_lt_Some, Hj. }
  destruct (Hown _ _ _ Hj Heb) as (nb & xb & Hnb & Helb & Hxb).
  assert (Hsame : h' !! eb = heap m !! eb).
  { apply (unlinked_other _ _ _ _ _ _ _ _ _ Hun).
    - intros E. rewrite E, Hl in Hxb. discriminate.
    - intros ->. destruct (owns_node _ _ _ _ j _ Howns Ha) as [_ Hno]. contradiction.
    - intros ->. destruct (owns_element _ _ _ _ j _ Howns He) as [Heq _].
      specialize (Heq Heb). subst j. apply Hba.
      unfold addr in *. rewrite Hj in Ha. injection Ha as ->. reflexivity.
    - intros Hpred. destruct (Z.to_nat index) as [|k]; [discriminate|].
      cbn [before_it] in Hpred.
      destruct (owns_node _ _ _ _ j _ Howns Hpred) as [_ Hno]. contradiction. }
  unfold element_at. rewrite (Hun b), Hnb.
  destruct (decide (b = list_)); [contradiction|].
  destruct (decide (b = a ∨ b = e)); [tauto|].
  destruct (decide (before_it ns (Z.to_nat index) = Some b));
    cbn [element]; rewrite Helb, Hsame; reflexivity.
Qed.

End LinkedListRemove.

(** [linked_list_remove] on a list in order, whose count is the number
    of its nodes, whose tail is its last node and whose nodes own one
    element each, removing the node at an index inside the list succeeds,
    whichever of the four branches runs: the list object gets the chain
    without that node as head, tail and count, the remaining nodes are
    linked in their old order, the removed node and its element are freed,
    every remaining node keeps its element, and no object outside the list
    changes. *)
Theorem linked_list_remove_takes_the_node_out
    (m : LinkedList.memory) (linkedList : addr) (l : LinkedList.linked_list_t)
    (ns es : list addr) (index : Z) (a e : addr) :
  heap m !! linkedList = Some (LinkedList.OList l) →
  LinkedList.chain (heap m) (LinkedList.head l) ns →
  LinkedList.tail l = last ns →
  LinkedList.count l = Z.of_nat (length ns) →
  LinkedList.count l < 2 ^ 63 →
  0 <= index < LinkedList.count l →
  LinkedListWalk.owns (heap m) ns es →
  ns !! Z.to_nat index = Some a →
  es !! Z.to_nat index = Some e →
  ∃ m' : LinkedList.memory,
    LinkedList.linked_list_remove (Some linkedList) index m
    = Ret (LinkedList.LINKED_LIST_SUCCESS, m')
    ∧ heap m' !! linkedList
      = Some (LinkedList.OList
                {| LinkedList.head := hd_error (delete (Z.to_nat index) ns);
                   LinkedList.tail := last (delete (Z.to_nat index) ns);
                   LinkedList.count := LinkedList.count l - 1;
                   LinkedList.equalityFunction := LinkedList.equalityFunction l;
                   LinkedList.sortingFunction := LinkedList.sortingFunction l |})
    ∧ LinkedList.chain (heap m') (hd_error (delete (Z.to_nat index) ns))
        (delete (Z.to_nat index) ns)
    ∧ heap m' !! a = None
    ∧ heap m' !! e = None
    ∧ (∀ b, b ∈ delete (Z.to_nat index) ns →
            LinkedList.element_at (heap m') b = LinkedList.element_at (heap m) b)
    ∧ (∀ b, b ∉ ns → b ≠ linkedList → b ≠ e → heap m' !! b = heap m !! b)
    ∧ brk m' = brk m
    ∧ alloc_count m' = alloc_count m.
Proof.
  intros Hl Hc Htail Hcount Hmax Hindex Howns Ha He.
  assert (Hrem : LinkedListRemove.removable m linkedList l ns es index a e)
    by (unfold LinkedListRemove.removable; auto 10).
  destruct (LinkedListRemove.removed_node _ _ _ _ _ _ _ _ Hrem)
    as (n & x & Hn & Hel & Hx & Hnext & Hal & Hel' & Hae).
  assert (Hrun : ∃ h', LinkedList.linked_list_remove (Some linkedList) index m
                       = Ret (LinkedList.LINKED_LIST_SUCCESS, LinkedListSort.with_heap m h')
                       ∧ LinkedListRemove.unlinked (heap m) linkedList a e
                           (LinkedListRemove.before_it ns (Z.to_nat index))
                           (LinkedListRemove.after_it ns (Z.to_nat index))
                           (LinkedListRemove.shortened l ns (Z.to_nat index)) h').
  { destruct (decide (LinkedList.count l = 1)) as [Hone|Hmany].
    { exact (LinkedListRemove.remove_only_node _ _ _ _ _ _ _ _ Hrem Hone). }
    destruct (decide (index = 0)) as [Hfirst|Hlater].
    { exact (LinkedListRemove.remove_first_node _ _ _ _ _ _ _ _ Hrem Hmany Hfirst). }
    destruct (decide (index = LinkedList.count l - 1)) as [Hlast|Hinner].
    { exact (LinkedListRemove.remove_last_node _ _ _ _ _ _ _ _ Hrem Hmany Hlast). }
    exact (LinkedListRemove.remove_middle_node _ _ _ _ _ _ _ _ Hrem Hlater Hinner). }
  destruct Hrun as (h' & Hrun & Hun).
  exists (LinkedListSort.with_heap m h'). split; [exact Hrun|]. cbn [heap LinkedListSort.with_heap brk alloc_count].
  split_and!; try reflexivity.
  - rewrite (Hun linkedList). destruct (decide (linkedList = linkedList)); [|congruence].
    reflexivity.
  - exact (LinkedListRemove.unlinked_chain _ _ _ _ _ _ _ _ _ Hrem Hun).
  - rewrite (Hun a). destruct (decide (a = linkedList)); [contradiction|].
    destruct (decide (a = a ∨ a = e)); [reflexivity | tauto].
  - rewrite (Hun e). destruct (decide (e = linkedList)); [contradiction|].
    destruct (decide (e = a ∨ e = e)); [reflexivity | tauto].
  - intros b Hb. exact (LinkedListRemove.unlinked_elements _ _ _ _ _ _ _ _ _ _ Hrem Hun Hb).
  - intros b Hb Hbl Hbe.
    apply (LinkedListRemove.unlinked_other _ _ _ _ _ _ _ _ _ Hun); try assumption.
    + intros ->. apply Hb. eapply list_elem_of_lookup_2, Ha.
    + intros Hpred. apply Hb. destruct (Z.to_nat index) as [|k]; [discriminate|].
      eapply list_elem_of_lookup_2, Hpred.
Qed.


(** * Exchanging two nodes of a linked list *)

Module LinkedListSwap.
Import LinkedList LinkedListFacts LinkedListSort LinkedListWalk LinkedListRemove.

(** The nodes [ns] with the ones at [i] and [j] exchanged. *)
Definition swapped (ns : list addr) (i j : nat) : list addr :=
  match ns !! i, ns !! j with
  | Some x, Some y => <[j := x]> (<[i := y]> ns)
  | _, _ => ns
  end.

Lemma swapped_lookup (ns : list addr) (i j : nat) (x y : addr) (k : nat) :
  ns !! i = Some x → ns !! j = Some y →
  swapped ns i j !! k
  = if decide (k = j) then Some x else if decide (k = i) then Some y else ns !! k.
Proof.
  intros Hi Hj. unfold swapped. rewrite Hi, Hj.
  destruct (decide (k = j)) as [->|Hkj].
  - apply list_lookup_insert_eq. rewrite length_insert. eapply lookup_lt_Some, Hj.
  - rewrite list_lookup_insert_ne by congruence.
    destruct (decide (k = i)) as [->|Hki].
    + apply list_lookup_insert_eq. eapply lookup_lt_Some, Hi.
    + apply list_lookup_insert_ne. congruence.
Qed.

Lemma swapped_length (ns : list addr) (i j : nat) : length (swapped ns i j) = length ns.
Proof.
  unfold swapped. destruct (ns !! i), (ns !! j); try reflexivity.
  rewrite !length_insert. reflexivity.
Qed.

Lemma swapped_same (ns : list addr) (i : nat) : swapped ns i i = ns.
Proof.
  unfold swapped. destruct (ns !! i) as [x|] eqn:E; [|reflexivity].
  rewrite (list_insert_id ns i x E). exact (list_insert_id ns i x E).
Qed.

Lemma hd_error_lookup {A} (l : list A) : hd_error l = l !! 0%nat.
Proof. destruct l; reflexivity. Qed.

(** Nodes that point to one another in the order of [ns] are a chain. *)
Lemma chain_of_lookups (h : gmap addr object) (ns : list addr) :
  (∀ k a, ns !! k = Some a → ∃ n, h !! a = Some (ONode n) ∧ next n = ns !! S k) →
  chain h (hd_error ns) ns.
Proof.
  induction ns as [|a ns IH]; intros H; [constructor|].
  destruct (H 0%nat a eq_refl) as (n & Hn & Hnext).
  cbn [hd_error]. apply (chain_cons _ a n); [exact Hn|].
  rewrite Hnext. change ((a :: ns) !! 1%nat) with (ns !! 0%nat).
  rewrite <- hd_error_lookup.
  apply IH. intros k b Hb. exact (H (S k) b Hb).
Qed.

(** The loop that walks to the index [i]: the node there and the one before. *)
Lemma node_and_previous_eq (m : memory) (p : option addr) (ns : list addr) (i : nat) :
  chain (heap m) p ns → (i < length ns)%nat →
  node_and_previous p (Z.of_nat i) m = Ret ((before_it ns i, ns !! i), m).
Proof.
  intros Hc Hi. unfold node_and_previous, for_up.
  replace (Z.to_nat (Z.of_nat i - 0)) with i by lia.
  destruct (for_loop_run
              (λ k (acc : option addr * option addr) mk,
                 mk = m ∧ acc = (before_it ns k, ns !! k))
              i 0 1 (None, p)
              (λ (i : Z) '(nodePrevious, node),
                 n ← load_node node; mret (inl (node, next n))) m)
    as (acc & m' & Hrun & -> & ->).
  - split; [reflexivity|]. cbn [before_it].
    rewrite (chain_head _ _ _ Hc), hd_error_lookup. reflexivity.
  - intros k acc mk Hk (-> & ->).
    destruct (lookup_lt_is_Some_2 ns k) as [a Ha]; [lia|].
    destruct (chain_lookup _ _ _ _ _ Hc Ha) as (n & Hn & Hnext).
    rewrite Ha. rewrite (bind_Ret _ _ _ _ _ (load_node_eq _ _ _ Hn)).
    eexists _, _. split; [reflexivity|]. split; [reflexivity|].
    cbn [before_it]. rewrite Ha, Hnext, hd_error_lookup, lookup_drop.
    do 2 f_equal. lia.
  - exact Hrun.
Qed.

(** ** The links of the nodes, as a function *)

(** [N] with the link of [a] set to [q]. *)
Definition upd (N : addr → option addr) (a : addr) (q : option addr)
    : addr → option addr :=
  λ b, if decide (b = a) then q else N b.

(** [N] after [prev->next = q], when there is a node [prev]. *)
Definition link (N : addr → option addr) (prev q : option addr) : addr → option addr :=
  match prev with
  | Some p => upd N p q
  | None => N
  end.

Definition next_of (h : gmap addr object) (a : addr) : option addr :=
  match h !! a with
  | Some (ONode n) => next n
  | _ => None
  end.

Section Links.
Variables (h0 : gmap addr object) (list_ : addr) (l : linked_list_t) (ns : list addr).
Hypothesis Hl : h0 !! list_ = Some (OList l).
Hypothesis Hc : chain h0 (head l) ns.

(** The heap [h] is [h0] with the head [hd] and the tail [tl] in the list
    object and the links [N] in the nodes of the list. *)
Definition linked (hd tl : option addr) (N : addr → option addr)
    (h : gmap addr object) : Prop :=
  h !! list_ = Some (OList (set_tail (set_head l hd) tl))
  ∧ (∀ a, a ∈ ns →
       ∃ n, h0 !! a = Some (ONode n)
            ∧ h !! a = Some (ONode {| next := N a; element := element n |}))
  ∧ (∀ b, b ∉ ns → b ≠ list_ → h !! b = h0 !! b).

Lemma linked_start : linked (head l) (tail l) (next_of h0) h0.
Proof.
  split_and!.
  - rewrite Hl. destruct l. reflexivity.
  - intros a Ha. destruct (chain_nodes _ _ _ _ Hc Ha) as [n Hn].
    exists n. split; [exact Hn|]. unfold next_of. rewrite Hn. destruct n. reflexivity.
  - reflexivity.
Qed.

Lemma linked_write_next (mk : memory) (hd tl : option addr) (N : addr → option addr)
    (a : addr) (q : option addr) :
  linked hd tl N (heap mk) → a ∈ ns →
  ∃ h', write_next (Some a) q mk = Ret (tt, with_heap mk h')
        ∧ linked hd tl (upd N a q) h'.
Proof.
  intros (Hlist & Hnodes & Hframe) Ha.
  destruct (Hnodes a Ha) as (n & Hn0 & Hn).
  eexists. split; [exact (write_next_eq _ _ _ q Hn)|].
  assert (a ≠ list_).
  { intros ->. exact (LinkedListOps.chain_not_list _ _ _ _ _ Hc Hl Ha). }
  unfold relink. cbn [element]. split_and!.
  - rewrite lookup_insert_ne by congruence. exact Hlist.
  - intros b Hb. destruct (Hnodes b Hb) as (nb & Hnb0 & Hnb). unfold upd.
    destruct (decide (b = a)) as [->|Hba].
    + exists n. split; [exact Hn0|]. apply lookup_insert_eq.
    + exists nb. split; [exact Hnb0|]. rewrite lookup_insert_ne by congruence. exact Hnb.
  - intros b Hb Hbl. rewrite lookup_insert_ne; [exact (Hframe b Hb Hbl)|].
    intros ->. contradiction.
Qed.

Lemma linked_write_head (mk : memory) (hd tl : option addr) (N : addr → option addr)
    (q : option addr) :
  linked hd tl N (heap mk) →
  ∃ h', write_head list_ q mk = Ret (tt, with_heap mk h') ∧ linked q tl N h'.
Proof.
  intros (Hlist & Hnodes & Hframe).
  eexists. split; [exact (write_head_eq _ _ _ q Hlist)|].
  split_and!.
  - rewrite lookup_insert_eq. reflexivity.
  - intros b Hb. destruct (Hnodes b Hb) as (nb & Hnb0 & Hnb).
    exists nb. split; [exact Hnb0|]. rewrite lookup_insert_ne; [exact Hnb|].
    intros <-. exact (LinkedListOps.chain_not_list _ _ _ _ _ Hc Hl Hb).
  - intros b Hb Hbl. rewrite lookup_insert_ne by congruence. exact (Hframe b Hb Hbl).
Qed.

Lemma linked_write_tail (mk : memory) (hd tl : option addr) (N : addr → option addr)
    (q : option addr) :
  linked hd tl N (heap mk) →
  ∃ h', write_tail list_ q mk = Ret (tt, with_heap mk h') ∧ linked hd q N h'.
Proof.
  intros (Hlist & Hnodes & Hframe).
  eexists. split; [exact (write_tail_eq _ _ _ q Hlist)|].
  split_and!.
  - rewrite lookup_insert_eq. reflexivity.
  - intros b Hb. destruct (Hnodes b Hb) as (nb & Hnb0 & Hnb).
    exists nb. split; [exact Hnb0|]. rewrite lookup_insert_ne; [exact Hnb|].
    intros <-. exact (LinkedListOps.chain_not_list _ _ _ _ _ Hc Hl Hb).
  - intros b Hb Hbl. rewrite lookup_insert_ne by congruence. exact (Hframe b Hb Hbl).
Qed.

(** [prev->next = q], or [list->head = q] when there is no [prev]. *)
Lemma linked_link (mk : memory) (hd tl : option addr) (N : addr → option addr)
    (prev q : option addr) :
  linked hd tl N (heap mk) →
  (∀ p, prev = Some p → p ∈ ns) →
  ∃ h', match prev with
        | Some _ => write_next prev q
        | None => write_head list_ q
        end mk = Ret (tt, with_heap mk h')
        ∧ linked (match prev with Some _ => hd | None => q end) tl (link N prev q) h'.
Proof.
  intros H Hprev. destruct prev as [p|].
  - exact (linked_write_next mk hd tl N p q H (Hprev p eq_refl)).
  - exact (linked_write_head mk hd tl N q H).
Qed.

Lemma linked_load_node (mk : memory) (hd tl : option addr) (N : addr → option addr)
    (a : addr) :
  linked hd tl N (heap mk) → a ∈ ns →
  ∃ n, load_node (Some a) mk = Ret (n, mk) ∧ next n = N a.
Proof.
  intros (_ & Hnodes & _) Ha. destruct (Hnodes a Ha) as (n & _ & Hn).
  eexists. split; [exact (load_node_eq _ _ _ Hn) | reflexivity].
Qed.

End Links.

(** ** The links after the exchange *)

Lemma link_lookup (ns : list addr) (N : addr → option addr) (i t : nat) (x : addr)
    (q : option addr) :
  NoDup ns → ns !! t = Some x →
  link N (before_it ns i) q x = if decide (S t = i) then q else N x.
Proof.
  intros Hnd Hx. destruct i as [|i]; cbn [before_it link].
  - destruct (decide (S t = 0%nat)); [lia | reflexivity].
  - destruct (ns !! i) as [p|] eqn:E; cbn [link]; unfold upd.
    + destruct (decide (x = p)) as [->|Hne].
      * pose proof (NoDup_lookup _ _ _ _ Hnd Hx E) as ->.
        destruct (decide (S i = S i)); [reflexivity | congruence].
      * destruct (decide (S t = S i)) as [Heq|]; [|reflexivity].
        injection Heq as ->. congruence.
    + destruct (decide (S t = S i)) as [Heq|]; [|reflexivity].
      injection Heq as ->. congruence.
Qed.

(** The links that [linked_list_swap] leaves. *)
Definition swap_links (N : addr → option addr) (ns : list addr) (i j : nat)
    (a1 a2 : addr) : addr → option addr :=
  let N2 := link (link N (before_it ns i) (Some a2)) (before_it ns j) (Some a1) in
  upd (upd N2 a2 (N2 a1)) a1 (N2 a2).

Lemma swap_links_lookup (N : addr → option addr) (ns : list addr) (i j : nat)
    (a1 a2 : addr) :
  NoDup ns → ns !! i = Some a1 → ns !! j = Some a2 → i ≠ j →
  (∀ t x, ns !! t = Some x → N x = ns !! S t) →
  ∀ k a, swapped ns i j !! k = Some a →
         swap_links N ns i j a1 a2 a = swapped ns i j !! S k.
Proof.
  intros Hnd H1 H2 Hij HN.
  assert (HN2 : ∀ t x, ns !! t = Some x →
            link (link N (before_it ns i) (Some a2)) (before_it ns j) (Some a1) x
            = swapped ns i j !! S t).
  { intros t x Hx.
    rewrite (link_lookup ns _ j t x _ Hnd Hx), (link_lookup ns _ i t x _ Hnd Hx).
    rewrite (HN t x Hx), (swapped_lookup ns i j a1 a2 (S t) H1 H2). reflexivity. }
  assert (H12 : a1 ≠ a2).
  { intros ->. apply Hij. exact (NoDup_lookup _ _ _ _ Hnd H1 H2). }
  intros k a Ha. rewrite (swapped_lookup ns i j a1 a2 k H1 H2) in Ha.
  unfold swap_links, upd at 1 2.
  destruct (decide (k = j)) as [->|Hkj].
  - injection Ha as <-. destruct (decide (a1 = a1)); [|congruence].
    exact (HN2 j a2 H2).
  - destruct (decide (k = i)) as [->|Hki].
    + injection Ha as <-. destruct (decide (a2 = a1)); [congruence|].
      destruct (decide (a2 = a2)); [|congruence]. exact (HN2 i a1 H1).
    + destruct (decide (a = a1)) as [->|].
      { destruct Hki. exact (NoDup_lookup _ _ _ _ Hnd Ha H1). }
      destruct (decide (a = a2)) as [->|].
      { destruct Hkj. exact (NoDup_lookup _ _ _ _ Hnd Ha H2). }
      exact (HN2 k a Ha).
Qed.

(** The head that [linked_list_swap] leaves. *)
Definition swap_head (l : linked_list_t) (ns : list addr) (i j : nat) (a1 a2 : addr)
    : option addr :=
  match before_it ns j with
  | Some _ => match before_it ns i with Some _ => head l | None => Some a2 end
  | None => Some a1
  end.

(** The tail that it leaves. *)
Definition swap_tail (l : linked_list_t) (a1 a2 : addr) : option addr :=
  if decide (Some a1 = tail l) then Some a2
  else if decide (Some a2 = tail l) then Some a1
  else tail l.

Lemma before_it_Some (ns : list addr) (i : nat) :
  (i < length ns)%nat → i ≠ 0%nat → ∃ p, before_it ns i = Some p ∧ p ∈ ns.
Proof.
  intros Hi H0. destruct i as [|i]; [congruence|]. cbn [before_it].
  destruct (lookup_lt_is_Some_2 ns i) as [p Hp]; [lia|].
  exists p. split; [exact Hp|]. eapply list_elem_of_lookup_2, Hp.
Qed.

Lemma swap_head_eq (l : linked_list_t) (ns : list addr) (i j : nat) (a1 a2 : addr) :
  head l = hd_error ns → ns !! i = Some a1 → ns !! j = Some a2 → i ≠ j →
  swap_head l ns i j a1 a2 = hd_error (swapped ns i j).
Proof.
  intros Hh H1 H2 Hij. rewrite hd_error_lookup, (swapped_lookup ns i j a1 a2 _ H1 H2).
  unfold swap_head.
  pose proof (lookup_lt_Some _ _ _ H1) as Hi. pose proof (lookup_lt_Some _ _ _ H2) as Hj.
  destruct (decide (0%nat = j)) as [<-|Hj0]; [reflexivity|].
  destruct (before_it_Some ns j Hj ltac:(lia)) as (p2 & -> & _).
  destruct (decide (0%nat = i)) as [<-|Hi0]; [reflexivity|].
  destruct (before_it_Some ns i Hi ltac:(lia)) as (p1 & -> & _).
  rewrite Hh. apply hd_error_lookup.
Qed.

Lemma swap_tail_eq (l : linked_list_t) (ns : list addr) (i j : nat) (a1 a2 : addr) :
  NoDup ns → tail l = last ns → ns !! i = Some a1 → ns !! j = Some a2 → i ≠ j →
  swap_tail l a1 a2 = last (swapped ns i j).
Proof.
  intros Hnd Ht H1 H2 Hij.
  rewrite last_lookup, swapped_length, (swapped_lookup ns i j a1 a2 _ H1 H2).
  unfold swap_tail. rewrite Ht, last_lookup.
  pose proof (lookup_lt_Some _ _ _ H1) as Hi. pose proof (lookup_lt_Some _ _ _ H2) as Hj.
  destruct (decide (Some a1 = ns !! pred (length ns))) as [E1|E1].
  - symmetry in E1. pose proof (NoDup_lookup _ _ _ _ Hnd H1 E1) as <-.
    destruct (decide (i = j)); [contradiction|].
    destruct (decide (i = i)); [reflexivity | congruence].
  - destruct (decide (Some a2 = ns !! pred (length ns))) as [E2|E2].
    + symmetry in E2. pose proof (NoDup_lookup _ _ _ _ Hnd H2 E2) as <-.
      destruct (decide (j = j)); [reflexivity | congruence].
    + destruct (decide (pred (length ns) = j)) as [E|]; [rewrite E, H2 in E2; congruence|].
      destruct (decide (pred (length ns) = i)) as [E|]; [rewrite E, H1 in E1; congruence|].
      reflexivity.
Qed.

(** The run of [linked_list_swap] on two different nodes of a chain. *)
Lemma linked_list_swap_run (m : memory) (list_ : addr) (l : linked_list_t)
    (ns : list addr) (i j : nat) (a1 a2 : addr) :
  heap m !! list_ = Some (OList l) →
  chain (heap m) (head l) ns →
  Z.of_nat (length ns) <= count l →
  ns !! i = Some a1 → ns !! j = Some a2 → i ≠ j →
  Z.of_nat i < count l → Z.of_nat j < count l →
  ∃ h', linked_list_swap (Some list_) (Z.of_nat i) (Z.of_nat j) m
        = Ret (LINKED_LIST_SUCCESS, with_heap m h')
        ∧ linked (heap m) list_ l ns (swap_head l ns i j a1 a2) (swap_tail l a1 a2)
            (swap_links (next_of (heap m)) ns i j a1 a2) h'.
Proof.
  intros Hl Hc Hlen H1 H2 Hij Hi Hj.
  pose proof (lookup_lt_Some _ _ _ H1) as Hi'. pose proof (lookup_lt_Some _ _ _ H2) as Hj'.
  assert (Hin1 : a1 ∈ ns) by (eapply list_elem_of_lookup_2, H1).
  assert (Hin2 : a2 ∈ ns) by (eapply list_elem_of_lookup_2, H2).
  unfold linked_list_swap.
  rewrite (bind_Ret _ _ _ _ _ (load_linked_list_eq _ _ _ Hl)).
  replace ((Z.of_nat i >=? count l) || (Z.of_nat i <? 0)) with false by (symmetry; lia).
  replace ((Z.of_nat j >=? count l) || (Z.of_nat j <? 0)) with false by (symmetry; lia).
  replace (Z.of_nat i =? Z.of_nat j) with false by (symmetry; lia).
  rewrite (bind_Ret _ _ _ _ _ (node_and_previous_eq m _ ns i Hc Hi')).
  rewrite (bind_Ret _ _ _ _ _ (node_and_previous_eq m _ ns j Hc Hj')).
  rewrite H1, H2.
  pose proof (linked_start (heap m) list_ l ns Hl Hc) as L0.
  destruct (linked_link (heap m) list_ l ns Hl Hc m _ _ _ (before_it ns i) (Some a2) L0)
    as (h1 & Hw1 & L1).
  { intros p Hp. destruct i as [|i]; [discriminate|]. eapply list_elem_of_lookup_2, Hp. }
  rewrite (bind_Ret _ _ _ _ _ Hw1).
  destruct (linked_link (heap m) list_ l ns Hl Hc (with_heap m h1) _ _ _
              (before_it ns j) (Some a1) L1) as (h2 & Hw2 & L2).
  { intros p Hp. destruct j as [|j]; [discriminate|]. eapply list_elem_of_lookup_2, Hp. }
  rewrite (bind_Ret _ _ _ _ _ Hw2).
  change (with_heap (with_heap m h1) h2) with (with_heap m h2) in *.
  destruct (linked_load_node (heap m) list_ l ns (with_heap m h2) _ _ _ a2 L2 Hin2)
    as (n2 & Hn2 & Hnext2).
  rewrite (bind_Ret _ _ _ _ _ Hn2). cbv zeta.
  destruct (linked_load_node (heap m) list_ l ns (with_heap m h2) _ _ _ a1 L2 Hin1)
    as (n1 & Hn1 & Hnext1).
  rewrite (bind_Ret _ _ _ _ _ Hn1).
  destruct (linked_write_next (heap m) list_ l ns Hl Hc (with_heap m h2) _ _ _
              a2 (next n1) L2 Hin2) as (h3 & Hw3 & L3).
  rewrite (bind_Ret _ _ _ _ _ Hw3).
  change (with_heap (with_heap m h2) h3) with (with_heap m h3) in *.
  destruct (linked_write_next (heap m) list_ l ns Hl Hc (with_heap m h3) _ _ _
              a1 (next n2) L3 Hin1) as (h4 & Hw4 & L4).
  rewrite (bind_Ret _ _ _ _ _ Hw4).
  change (with_heap (with_heap m h3) h4) with (with_heap m h4) in *.
  rewrite Hnext1, Hnext2 in L4.
  pose proof L4 as (Hlist4 & _ & _).
  rewrite (bind_Ret _ _ _ _ _ (load_linked_list_eq (with_heap m h4) _ _ Hlist4)).
  cbn [tail set_tail set_head].
  assert (Hhead : (match before_it ns j with
                   | Some _ => match before_it ns i with
                               | Some _ => head l
                               | None => Some a2
                               end
                   | None => Some a1
                   end) = swap_head l ns i j a1 a2) by reflexivity.
  rewrite Hhead in L4. unfold swap_tail.
  destruct (decide (Some a1 = tail l)) as [E1|E1].
  - destruct (linked_write_tail (heap m) list_ l ns Hl Hc (with_heap m h4) _ _ _
                (Some a2) L4) as (h5 & Hw5 & L5).
    rewrite (bind_Ret _ _ _ _ _ Hw5). rewrite ret_eq.
    exists h5. split; [reflexivity | exact L5].
  - destruct (decide (Some a2 = tail l)) as [E2|E2].
    + destruct (linked_write_tail (heap m) list_ l ns Hl Hc (with_heap m h4) _ _ _
                  (Some a1) L4) as (h5 & Hw5 & L5).
      rewrite (bind_Ret _ _ _ _ _ Hw5). rewrite ret_eq.
      exists h5. split; [reflexivity | exact L5].
    + rewrite bind_eq, !ret_eq. exists h4. split; [reflexivity | exact L4].
Qed.

End LinkedListSwap.

(** [linked_list_swap] with two indices inside a list in order, whose count
    is the number of its nodes (a number an [int] holds, as the counters of
    the two loops are) and whose tail is its last node: the call returns
    success, the nodes are linked in their old order with the two exchanged,
    the head and the tail of the list follow, every node keeps its element,
    and no object outside the list changes. *)
Theorem linked_list_swap_exchanges_two_nodes
    (m : LinkedList.memory) (linkedList : addr) (l : LinkedList.linked_list_t)
    (ns : list addr) (index1 index2 : Z) :
  heap m !! linkedList = Some (LinkedList.OList l) →
  LinkedList.chain (heap m) (LinkedList.head l) ns →
  LinkedList.tail l = last ns →
  LinkedList.count l = Z.of_nat (length ns) →
  LinkedList.count l < 2 ^ 31 →
  0 <= index1 < LinkedList.count l →
  0 <= index2 < LinkedList.count l →
  ∃ m' : LinkedList.memory,
    let ns' := LinkedListSwap.swapped ns (Z.to_nat index1) (Z.to_nat index2) in
    LinkedList.linked_list_swap (Some linkedList) index1 index2 m
    = Ret (LinkedList.LINKED_LIST_SUCCESS, m')
    ∧ heap m' !! linkedList
      = Some (LinkedList.OList
                (LinkedList.set_tail (LinkedList.set_head l (hd_error ns')) (last ns')))
    ∧ LinkedList.chain (heap m') (hd_error ns') ns'
    ∧ (∀ a, a ∈ ns → LinkedList.element_at (heap m') a = LinkedList.element_at (heap m) a)
    ∧ (∀ b, b ∉ ns → b ≠ linkedList → heap m' !! b = heap m !! b)
    ∧ brk m' = brk m
    ∧ alloc_count m' = alloc_count m.
Proof.
  intros Hl Hc Htail Hcount Hint H1 H2. cbv zeta.
  pose proof (LinkedListSort.chain_NoDup _ _ _ Hc) as Hnd.
  destruct (decide (index1 = index2)) as [<-|Hne].
  { exists m. rewrite LinkedListSwap.swapped_same.
    split_and!; try reflexivity.
    - unfold LinkedList.linked_list_swap.
      rewrite (bind_Ret _ _ _ _ _ (LinkedListFacts.load_linked_list_eq _ _ _ Hl)).
      replace ((index1 >=? LinkedList.count l) || (index1 <? 0)) with false
        by (symmetry; lia).
      rewrite Z.eqb_refl. reflexivity.
    - rewrite Hl, <- Htail, <- (LinkedListSort.chain_head _ _ _ Hc).
      destruct l. reflexivity.
    - rewrite <- (LinkedListSort.chain_head _ _ _ Hc). exact Hc. }
  destruct (lookup_lt_is_Some_2 ns (Z.to_nat index1)) as [a1 Ha1]; [lia|].
  destruct (lookup_lt_is_Some_2 ns (Z.to_nat index2)) as [a2 Ha2]; [lia|].
  assert (Hij : Z.to_nat index1 ≠ Z.to_nat index2) by lia.
  destruct (LinkedListSwap.linked_list_swap_run m linkedList l ns
              (Z.to_nat index1) (Z.to_nat index2) a1 a2 Hl Hc ltac:(lia) Ha1 Ha2 Hij
              ltac:(lia) ltac:(lia)) as (h' & Hrun & Hlist & Hnodes & Hframe).
  rewrite !Z2Nat.id in Hrun by lia.
  rewrite (LinkedListSwap.swap_head_eq l ns _ _ a1 a2
             (LinkedListSort.chain_head _ _ _ Hc) Ha1 Ha2 Hij) in Hlist.
  rewrite (LinkedListSwap.swap_tail_eq l ns _ _ a1 a2 Hnd Htail Ha1 Ha2 Hij) in Hlist.
  exists (LinkedListSort.with_heap m h'). split; [exact Hrun|].
  cbn [heap LinkedListSort.with_heap brk alloc_count].
  split_and!; try reflexivity.
  - exact Hlist.
  - apply LinkedListSwap.chain_of_lookups. intros k a Ha.
    assert (Hin : a ∈ ns).
    { rewrite (LinkedListSwap.swapped_lookup ns _ _ a1 a2 k Ha1 Ha2) in Ha.
      destruct (decide (k = Z.to_nat index2)); [injection Ha as <-|];
        [eapply list_elem_of_lookup_2, Ha1|].
      destruct (decide (k = Z.to_nat index1)); [injection Ha as <-|];
        [eapply list_elem_of_lookup_2, Ha2|].
      eapply list_elem_of_lookup_2, Ha. }
    destruct (Hnodes a Hin) as (n & Hn0 & Hn).
    eexists. split; [exact Hn|]. cbn [LinkedList.next].
    apply (LinkedListSwap.swap_links_lookup _ ns _ _ a1 a2 Hnd Ha1 Ha2 Hij); [|exact Ha].
    intros t x Hx. destruct (LinkedListWalk.chain_lookup _ _ _ _ _ Hc Hx) as (nx & Hnx & Hnext).
    unfold LinkedListSwap.next_of. rewrite Hnx, Hnext, LinkedListSwap.hd_error_lookup.
    rewrite lookup_drop. f_equal. lia.
  - intros a Ha. destruct (Hnodes a Ha) as (n & Hn0 & Hn).
    unfold LinkedList.element_at. rewrite Hn0, Hn. cbn [LinkedList.element].
    destruct (LinkedList.element n) as [e|]; [|reflexivity].
    destruct (decide (e = linkedList)) as [->|Hel].
    { rewrite Hlist, Hl. reflexivity. }
    destruct (decide (e ∈ ns)) as [He|He].
    { destruct (Hnodes e He) as (ne & Hne0 & Hne'). rewrite Hne0, Hne'. reflexivity. }
    rewrite (Hframe e He Hel). reflexivity.
  - exact Hframe.
Qed.


(** * Worked examples *)

Module ArraySamples.
Import ArrayList ArrayListOps.

Definition byte_element (x : Byte.byte) : list_element_t :=
  {| el_size := 1; el_value := Some [x] |}.

(** A list of capacity 4 at address 1 whose two elements, the bytes 02 and
    01, are at the addresses 2 and 3. *)
Definition two : list_t :=
  {| size := 2; capacity := 4;
     items := [Ptr 2%positive; Ptr 3%positive; NULL; NULL];
     equalityFunction := Fn default_equals;
     sortingFunction := Fn SortDefault |}.

Definition two_elements : memory :=
  Mem (<[1%positive := OList two]>
         (<[2%positive := OElement (byte_element Byte.x02)]>
            (<[3%positive := OElement (byte_element Byte.x01)]> ∅)))
      4%positive 0 (λ _, true).

(** The same list with the capacity 2: it is full. *)
Definition full : list_t :=
  {| size := 2; capacity := 2;
     items := [Ptr 2%positive; Ptr 3%positive];
     equalityFunction := Fn default_equals;
     sortingFunction := Fn SortDefault |}.

Definition full_list : memory :=
  Mem (<[1%positive := OList full]>
         (<[2%positive := OElement (byte_element Byte.x02)]>
            (<[3%positive := OElement (byte_element Byte.x01)]> ∅)))
      4%positive 0 (λ _, true).

(** The first list with a rewound iterator over it at address 4. *)
Definition two_elements_iterated : memory :=
  Mem (<[4%positive := OIterator {| it_list := Some 1%positive; index := -1;
                                    element := NULL |}]> (heap two_elements))
      5%positive 0 (λ _, true).

Lemma two_allocator_ok : allocator_ok two_elements.
Proof.
  intros a Ha. cbn [two_elements heap brk] in *.
  rewrite !lookup_insert_ne by lia. apply lookup_empty.
Qed.

Lemma full_allocator_ok : allocator_ok full_list.
Proof.
  intros a Ha. cbn [full_list heap brk] in *.
  rewrite !lookup_insert_ne by lia. apply lookup_empty.
Qed.

Lemma both_element_ok :
  Forall element_ok [byte_element Byte.x02; byte_element Byte.x01].
Proof. repeat constructor; intros data [= <-]; reflexivity. Qed.

Lemma two_owns : ArrayListClear.owns two_elements two [2%positive; 3%positive].
Proof.
  split; [reflexivity|]. split.
  - apply NoDup_cons. split; [|apply NoDup_singleton].
    intros H. apply list_elem_of_singleton in H. discriminate.
  - intros a Ha. apply elem_of_cons in Ha as [->|Ha]; [eexists; reflexivity|].
    apply list_elem_of_singleton in Ha as ->. eexists. reflexivity.
Qed.

Lemma both_comparable (value : bytes) :
  length value = 1%nat →
  ArrayListSearch.comparable default_equals (Some value) 1
    [byte_element Byte.x02; byte_element Byte.x01].
Proof.
  intros Hv e He _. destruct value as [|v [|]]; try discriminate.
  apply elem_of_cons in He as [->|He];
    [|apply list_elem_of_singleton in He as ->];
    cbn [byte_element el_value el_size default_equals memcmp];
    change (1 <=? 0) with false; cbv iota;
    match goal with |- context [Byte.eqb ?x v] => destruct (Byte.eqb x v) end;
    eexists; reflexivity.
Qed.

Lemma both_always_compare :
  ArrayListShuffle.always_compares default_equals
    [byte_element Byte.x02; byte_element Byte.x01].
Proof.
  intros e1 e2 e3 H1 H2 H3.
  apply elem_of_cons in H1 as [->|H1]; [|apply list_elem_of_singleton in H1 as ->];
    (apply elem_of_cons in H2 as [->|H2]; [|apply list_elem_of_singleton in H2 as ->]);
    (apply elem_of_cons in H3 as [->|H3]; [|apply list_elem_of_singleton in H3 as ->]);
    eexists; reflexivity.
Qed.

End ArraySamples.

Module LinkedSamples.
Import LinkedList LinkedListFacts LinkedListSort.

Definition byte_item (x : Byte.byte) : linked_list_element_t :=
  {| value := Some [x]; size := 1 |}.

(** A list at address 1 of two nodes, at the addresses 2 and 4, whose
    elements, the bytes 02 and 01, are at the addresses 3 and 5. *)
Definition pair : linked_list_t :=
  {| head := Some 2%positive; tail := Some 4%positive; count := 2;
     equalityFunction := Fn default_equals;
     sortingFunction := Fn SortDefault |}.

Definition two_nodes : memory :=
  Mem (<[1%positive := OList pair]>
         (<[2%positive := ONode {| next := Some 4%positive; element := Some 3%positive |}]>
            (<[3%positive := OElement (byte_item Byte.x02)]>
               (<[4%positive := ONode {| next := None; element := Some 5%positive |}]>
                  (<[5%positive := OElement (byte_item Byte.x01)]> ∅)))))
      6%positive 0 (λ _, true).

(** The same list with a rewound iterator over it at address 6. *)
Definition two_nodes_iterated : memory :=
  Mem (<[6%positive := OIterator {| it_list := Some 1%positive; index := -1;
                                    node := None |}]> (heap two_nodes))
      7%positive 0 (λ _, true).

Lemma pair_chain : chain (heap two_nodes) (Some 2%positive) [2%positive; 4%positive].
Proof.
  eapply chain_cons; [reflexivity|]. eapply chain_cons; [reflexivity|]. constructor.
Qed.

Lemma pair_chain_iterated :
  chain (heap two_nodes_iterated) (Some 2%positive) [2%positive; 4%positive].
Proof.
  eapply chain_cons; [reflexivity|]. eapply chain_cons; [reflexivity|]. constructor.
Qed.

Lemma pair_owns :
  LinkedListWalk.owns (heap two_nodes) [2%positive; 4%positive] [3%positive; 5%positive].
Proof.
  split; [reflexivity|]. split.
  - apply NoDup_ListNoDup. repeat constructor; cbn; intuition discriminate.
  - intros [|[|i]] a e Ha He; try discriminate;
      injection Ha as <-; injection He as <-; eexists _, _; split_and!; reflexivity.
Qed.

Lemma pair_allocator_ok : LinkedListAlloc.allocator_ok two_nodes.
Proof.
  intros a Ha. cbn [two_nodes heap brk] in *.
  rewrite !lookup_insert_ne by lia. apply lookup_empty.
Qed.

Lemma pair_comparable (v : bytes) :
  length v = 1%nat →
  LinkedListSearch.comparable default_equals (Some v) 1
    [byte_item Byte.x02; byte_item Byte.x01].
Proof.
  intros Hv x Hx. destruct v as [|b [|]]; try discriminate.
  apply elem_of_cons in Hx as [->|Hx];
    [|apply list_elem_of_singleton in Hx as ->];
    cbn [byte_item value size default_equals memcmp];
    change (1 <=? 0) with false; cbv iota;
    match goal with |- context [Byte.eqb ?x b] => destruct (Byte.eqb x b) end;
    eexists; reflexivity.
Qed.

End LinkedSamples.

(** The list of the bytes 02 and 01 reversed, and reversed again. *)
Lemma list_reverse_example :
  ArrayList.list_reverse (Some 1%positive) ArraySamples.two_elements
  = Ret (ArrayList.LIST_SUCCESS,
         ArrayListOps.store_list ArraySamples.two_elements 1%positive
           (ArrayList.set_items ArraySamples.two
              (reverse (ArrayList.live_items ArraySamples.two)
               ++ drop (Z.to_nat (ArrayList.size ArraySamples.two)) (ArrayList.items ArraySamples.two))))
  ∧ ArrayList.list_reverse (Some 1%positive)
      (ArrayListOps.store_list ArraySamples.two_elements 1%positive
         (ArrayList.set_items ArraySamples.two
            (reverse (ArrayList.live_items ArraySamples.two)
             ++ drop (Z.to_nat (ArrayList.size ArraySamples.two)) (ArrayList.items ArraySamples.two))))
    = Ret (ArrayList.LIST_SUCCESS, ArraySamples.two_elements).
Proof.
  apply (list_reverse_reverses_the_slots_in_use ArraySamples.two_elements 1%positive ArraySamples.two).
  - reflexivity.
  - split; simpl; lia.
Defined.

(** The two elements of that list swapped, and swapped back. *)
Lemma list_swap_example :
  ArrayList.list_swap (Some 1%positive) 0 1 ArraySamples.two_elements
  = Ret (ArrayList.LIST_SUCCESS,
         ArrayListOps.store_list ArraySamples.two_elements 1%positive
           (ArrayList.set_items ArraySamples.two
              (ArrayListOps.exchange (ArrayList.items ArraySamples.two) (Z.to_nat 0) (Z.to_nat 1))))
  ∧ ArrayList.list_swap (Some 1%positive) 0 1
      (ArrayListOps.store_list ArraySamples.two_elements 1%positive
         (ArrayList.set_items ArraySamples.two
            (ArrayListOps.exchange (ArrayList.items ArraySamples.two) (Z.to_nat 0) (Z.to_nat 1))))
    = Ret (ArrayList.LIST_SUCCESS, ArraySamples.two_elements).
Proof.
  apply (list_swap_exchanges_two_slots ArraySamples.two_elements 1%positive ArraySamples.two 0 1).
  - reflexivity.
  - split; simpl; lia.
  - simpl; lia.
  - simpl; lia.
Defined.

(** That list resized from 4 slots to 8: the slot 7 is left as it comes. *)
Lemma list_resize_example :
  ArrayList.list_resize (Some 1%positive) 8 ArraySamples.two_elements
  = Ret (ArrayList.LIST_SUCCESS,
         ArrayListOps.store_list (ArrayListOps.bump ArraySamples.two_elements) 1%positive
           {| ArrayList.size := ArrayList.size ArraySamples.two;
              ArrayList.capacity := 8;
              ArrayList.items :=
                ArrayList.items ArraySamples.two
                ++ replicate (Z.to_nat (8 - ArrayList.capacity ArraySamples.two - 1)) ArrayList.NULL
                ++ [ArrayList.Wild];
              ArrayList.equalityFunction := ArrayList.equalityFunction ArraySamples.two;
              ArrayList.sortingFunction := ArrayList.sortingFunction ArraySamples.two |}).
Proof.
  apply (list_resize_to_a_larger_capacity ArraySamples.two_elements 1%positive ArraySamples.two 8).
  - reflexivity.
  - split; simpl; lia.
  - lia.
  - simpl; lia.
  - lia.
  - intros k; reflexivity.
Defined.

(** The byte 05 appended to the full list of two elements. *)
Lemma list_append_example :
  ∃ (m' : ArrayList.memory) (l' : ArrayList.list_t),
    ArrayList.list_append (Some 1%positive) (Some [Byte.x05]) 1 ArraySamples.full_list = Ret (ArrayList.LIST_SUCCESS, m')
    ∧ heap m' !! 1%positive = Some (ArrayList.OList l')
    ∧ ArrayList.live_items l' = ArrayList.live_items ArraySamples.full ++ [ArrayList.Ptr (brk ArraySamples.full_list)]
    ∧ ArrayList.size l' = ArrayList.size ArraySamples.full + 1
    ∧ ArrayList.capacity l'
      = (if ArrayList.size ArraySamples.full =? ArrayList.capacity ArraySamples.full
         then ArrayList.capacity ArraySamples.full * 2 else ArrayList.capacity ArraySamples.full)
    ∧ heap ArraySamples.full_list !! brk ArraySamples.full_list = None
    ∧ heap m' !! brk ArraySamples.full_list = Some (ArrayList.OElement (ArrayListOps.element_of (Some [Byte.x05]) 1))
    ∧ (∀ a, a ≠ 1%positive → a ≠ brk ArraySamples.full_list → heap m' !! a = heap ArraySamples.full_list !! a)
    ∧ ArrayListOps.slots_ok l'
    ∧ ArrayListOps.never_fails m'
    ∧ ArrayListOps.allocator_ok m'.
Proof.
  apply (list_append_adds_at_the_end ArraySamples.full_list 1%positive ArraySamples.full (Some [Byte.x05]) 1).
  - reflexivity.
  - split; simpl; lia.
  - simpl; lia.
  - simpl; lia.
  - intros k; reflexivity.
  - exact ArraySamples.full_allocator_ok.
  - simpl; lia.
Defined.

(** The first element of the list of the bytes 02 and 01. *)
Lemma list_get_example :
  ∃ m' : ArrayList.memory,
    ArrayList.list_get (Some 1%positive) 0 ArraySamples.two_elements
      = Ret ((ArrayList.LIST_SUCCESS, Some (ArrayList.Ptr (brk ArraySamples.two_elements))), m')
    ∧ heap ArraySamples.two_elements !! brk ArraySamples.two_elements = None
    ∧ heap m' = <[brk ArraySamples.two_elements := ArrayList.OElement (ArraySamples.byte_element Byte.x02)]> (heap ArraySamples.two_elements).
Proof.
  apply (list_get_returns_a_copy ArraySamples.two_elements 1%positive ArraySamples.two 0 2%positive (ArraySamples.byte_element Byte.x02)).
  - reflexivity.
  - split; simpl; lia.
  - simpl; lia.
  - reflexivity.
  - reflexivity.
  - intros data [= <-]; reflexivity.
  - intros k; reflexivity.
  - exact ArraySamples.two_allocator_ok.
Defined.

(** The first element of that list set to the bytes 07 08, and read. *)
Lemma list_set_example :
  ∃ m' m'' : ArrayList.memory,
    ArrayList.list_set (Some 1%positive) 0 (Some [Byte.x07; Byte.x08]) 2 ArraySamples.two_elements = Ret (ArrayList.LIST_SUCCESS, m')
    ∧ heap m' = <[2%positive := ArrayList.OElement (ArrayListOps.element_of (Some [Byte.x07; Byte.x08]) 2)]> (heap ArraySamples.two_elements)
    ∧ ArrayList.list_get (Some 1%positive) 0 m'
      = Ret ((ArrayList.LIST_SUCCESS, Some (ArrayList.Ptr (brk m'))), m'')
    ∧ heap m'' !! brk m'
      = Some (ArrayList.OElement
                {| ArrayList.el_size := 2;
                   ArrayList.el_value := Some (take (Z.to_nat 2) [Byte.x07; Byte.x08]) |}).
Proof.
  apply (list_set_then_get ArraySamples.two_elements 1%positive ArraySamples.two 0 2%positive (ArraySamples.byte_element Byte.x02) [Byte.x07; Byte.x08] 2).
  - reflexivity.
  - split; simpl; lia.
  - simpl; lia.
  - reflexivity.
  - reflexivity.
  - simpl; lia.
  - simpl; lia.
  - intros k; reflexivity.
  - exact ArraySamples.two_allocator_ok.
Defined.

(** Three steps of an iterator over the list of two elements. *)
Lemma list_iterator_example :
  ArrayListWalk.visit (S (Z.to_nat (ArrayList.size ArraySamples.two))) 4%positive ArraySamples.two_elements_iterated
  = Ret (ArrayListWalk.steps 0 (ArrayList.live_items ArraySamples.two)
         ++ [(ArrayList.LIST_INDEX_OUT_OF_RANGE_ERROR, -1, ArrayList.NULL)], ArraySamples.two_elements_iterated).
Proof.
  apply (list_iterator_visits_every_slot_in_order ArraySamples.two_elements_iterated 4%positive 1%positive ArraySamples.two).
  - reflexivity.
  - reflexivity.
  - split; simpl; lia.
  - simpl; lia.
Defined.

(** The byte 01 looked for from the start of the list of the bytes 02 and 01. *)
Lemma list_find_first_example :
  (∃ i e, ArrayList.list_find_first (Some 1%positive) 0 (Some [Byte.x01]) 1 ArraySamples.two_elements
            = Ret ((ArrayList.LIST_SUCCESS, Some i), ArraySamples.two_elements)
          ∧ 0 <= i
          ∧ [ArraySamples.byte_element Byte.x02; ArraySamples.byte_element Byte.x01] !! Z.to_nat i = Some e
          ∧ ArrayListSearch.found ArrayList.default_equals (Some [Byte.x01]) 1 e = true
          ∧ ∀ j e', 0 <= j < i → [ArraySamples.byte_element Byte.x02; ArraySamples.byte_element Byte.x01] !! Z.to_nat j = Some e' →
                    ArrayListSearch.found ArrayList.default_equals (Some [Byte.x01]) 1 e' = false)
  ∨ (ArrayList.list_find_first (Some 1%positive) 0 (Some [Byte.x01]) 1 ArraySamples.two_elements
       = Ret ((ArrayList.LIST_ELEMENT_NOT_FOUND_ERROR, Some (-1)), ArraySamples.two_elements)
     ∧ ∀ j e', 0 <= j → [ArraySamples.byte_element Byte.x02; ArraySamples.byte_element Byte.x01] !! Z.to_nat j = Some e' →
               ArrayListSearch.found ArrayList.default_equals (Some [Byte.x01]) 1 e' = false).
Proof.
  apply (list_find_first_finds_the_first ArraySamples.two_elements 1%positive ArraySamples.two ArrayList.default_equals [ArraySamples.byte_element Byte.x02; ArraySamples.byte_element Byte.x01] 0 (Some [Byte.x01]) 1).
  - reflexivity.
  - reflexivity.
  - reflexivity.
  - split; simpl; lia.
  - apply ArraySamples.both_comparable; reflexivity.
  - simpl; lia.
  - lia.
Defined.

(** The same search for the last occurrence. *)
Lemma list_find_last_example :
  (∃ i e, ArrayList.list_find_last (Some 1%positive) 0 (Some [Byte.x01]) 1 ArraySamples.two_elements
            = Ret ((ArrayList.LIST_SUCCESS, Some i), ArraySamples.two_elements)
          ∧ 0 <= i
          ∧ [ArraySamples.byte_element Byte.x02; ArraySamples.byte_element Byte.x01] !! Z.to_nat i = Some e
          ∧ ArrayListSearch.found ArrayList.default_equals (Some [Byte.x01]) 1 e = true
          ∧ ∀ j e', i < j → [ArraySamples.byte_element Byte.x02; ArraySamples.byte_element Byte.x01] !! Z.to_nat j = Some e' →
                    ArrayListSearch.found ArrayList.default_equals (Some [Byte.x01]) 1 e' = false)
  ∨ (ArrayList.list_find_last (Some 1%positive) 0 (Some [Byte.x01]) 1 ArraySamples.two_elements
       = Ret ((ArrayList.LIST_ELEMENT_NOT_FOUND_ERROR, Some (-1)), ArraySamples.two_elements)
     ∧ ∀ j e', 0 <= j → [ArraySamples.byte_element Byte.x02; ArraySamples.byte_element Byte.x01] !! Z.to_nat j = Some e' →
               ArrayListSearch.found ArrayList.default_equals (Some [Byte.x01]) 1 e' = false).
Proof.
  apply (list_find_last_finds_the_last ArraySamples.two_elements 1%positive ArraySamples.two ArrayList.default_equals [ArraySamples.byte_element Byte.x02; ArraySamples.byte_element Byte.x01] 0 (Some [Byte.x01]) 1).
  - reflexivity.
  - reflexivity.
  - reflexivity.
  - split; simpl; lia.
  - apply ArraySamples.both_comparable; reflexivity.
  - simpl; lia.
  - lia.
Defined.

(** The byte 09 is looked for in the list of the bytes 02 and 01. *)
Lemma list_includes_example :
  (ArrayList.list_includes (Some 1%positive) (Some [Byte.x09]) 1 ArraySamples.two_elements = Ret (ArrayList.LIST_SUCCESS, ArraySamples.two_elements)
   ∧ ∃ e, e ∈ [ArraySamples.byte_element Byte.x02; ArraySamples.byte_element Byte.x01] ∧ ArrayListSearch.found ArrayList.default_equals (Some [Byte.x09]) 1 e = true)
  ∨ (ArrayList.list_includes (Some 1%positive) (Some [Byte.x09]) 1 ArraySamples.two_elements
       = Ret (ArrayList.LIST_ELEMENT_NOT_FOUND_ERROR, ArraySamples.two_elements)
     ∧ ∀ e, e ∈ [ArraySamples.byte_element Byte.x02; ArraySamples.byte_element Byte.x01] → ArrayListSearch.found ArrayList.default_equals (Some [Byte.x09]) 1 e = false).
Proof.
  apply (list_includes_tells_whether_an_element_matches ArraySamples.two_elements 1%positive ArraySamples.two ArrayList.default_equals [ArraySamples.byte_element Byte.x02; ArraySamples.byte_element Byte.x01] (Some [Byte.x09]) 1).
  - reflexivity.
  - reflexivity.
  - reflexivity.
  - split; simpl; lia.
  - apply ArraySamples.both_comparable; reflexivity.
Defined.

(** The removal of the first element of that list. *)
Lemma list_remove_example :
  ArrayList.list_remove (Some 1%positive) 0 ArraySamples.two_elements = Undef
  ∧ ∀ (list' : option addr) (index' : Z) (m0 m' : ArrayList.memory)
      (r : ArrayList.list_result_t),
      ArrayList.list_remove list' index' m0 = Ret (r, m') → r ≠ ArrayList.LIST_SUCCESS.
Proof.
  apply (list_remove_writes_through_the_freed_element ArraySamples.two_elements 1%positive ArraySamples.two 0 (ArrayList.Ptr 2%positive)).
  - reflexivity.
  - simpl; lia.
  - reflexivity.
  - discriminate.
Defined.

(** That list, whose two slots in use are not null, cleared. *)
Lemma list_clear_example :
  ((∀ p, p ∈ ArrayList.live_items ArraySamples.two → p = ArrayList.NULL) →
   ArrayList.list_clear (Some 1%positive) ArraySamples.two_elements
   = Ret (ArrayList.LIST_SUCCESS,
          ArrayListOps.store_list ArraySamples.two_elements 1%positive (ArrayList.set_size ArraySamples.two 0)))
  ∧ ((∃ p, p ∈ ArrayList.live_items ArraySamples.two ∧ p ≠ ArrayList.NULL) →
     ArrayList.list_clear (Some 1%positive) ArraySamples.two_elements = Undef).
Proof.
  apply (list_clear_returns_only_on_null_slots ArraySamples.two_elements 1%positive ArraySamples.two).
  - reflexivity.
  - split; simpl; lia.
Defined.

(** That list freed. *)
Lemma list_free_example :
  ∃ m' : ArrayList.memory,
    ArrayList.list_free (Some 1%positive) ArraySamples.two_elements = Ret ((ArrayList.LIST_SUCCESS, None), m')
    ∧ heap m' !! 1%positive = None
    ∧ (∀ a, a ∈ [2%positive; 3%positive] → heap m' !! a = None)
    ∧ (∀ a, a ∉ [2%positive; 3%positive] → a ≠ 1%positive → heap m' !! a = heap ArraySamples.two_elements !! a).
Proof.
  apply (list_free_frees_the_elements_and_the_list ArraySamples.two_elements 1%positive ArraySamples.two [2%positive; 3%positive]).
  - reflexivity.
  - split; simpl; lia.
  - exact ArraySamples.two_owns.
Defined.

(** The two free slots of that list filled with the byte 05. *)
Lemma list_fill_example :
  ∃ (m' : ArrayList.memory) (new : list addr),
    ArrayList.list_fill (Some 1%positive) (Some [Byte.x05]) 1 ArraySamples.two_elements = Ret (ArrayList.LIST_SUCCESS, m')
    ∧ heap m' !! 1%positive
      = Some (ArrayList.OList
                (ArrayList.set_size
                   (ArrayList.set_items ArraySamples.two
                      (ArrayList.live_items ArraySamples.two ++ (ArrayList.Ptr <$> new)))
                   (ArrayList.capacity ArraySamples.two)))
    ∧ length new = Z.to_nat (ArrayList.capacity ArraySamples.two - ArrayList.size ArraySamples.two)
    ∧ NoDup new
    ∧ (∀ a, a ∈ new →
         heap ArraySamples.two_elements !! a = None
         ∧ heap m' !! a = Some (ArrayList.OElement (ArrayListOps.element_of (Some [Byte.x05]) 1)))
    ∧ (∀ a, a ∉ new → a ≠ 1%positive → heap m' !! a = heap ArraySamples.two_elements !! a).
Proof.
  apply (list_fill_fills_the_slots_left ArraySamples.two_elements 1%positive ArraySamples.two (Some [Byte.x05]) 1).
  - reflexivity.
  - split; simpl; lia.
  - intros k; reflexivity.
  - exact ArraySamples.two_allocator_ok.
  - simpl; lia.
Defined.

(** That list cloned. *)
Lemma list_clone_example :
  ∃ (m' : ArrayList.memory) (listClone : addr) (new : list addr),
    let clone :=
      {| ArrayList.size := ArrayList.size ArraySamples.two;
         ArrayList.capacity := ArrayList.capacity ArraySamples.two;
         ArrayList.items :=
           (ArrayList.Ptr <$> new)
           ++ replicate (Z.to_nat (ArrayList.capacity ArraySamples.two - ArrayList.size ArraySamples.two)) ArrayList.NULL;
         ArrayList.equalityFunction := Unset;
         ArrayList.sortingFunction := Unset |} in
    ArrayList.list_clone (Some 1%positive) ArraySamples.two_elements = Ret ((ArrayList.LIST_SUCCESS, Some listClone), m')
    ∧ heap m' !! listClone = Some (ArrayList.OList clone)
    ∧ ArrayList.elements (heap m') clone = Some <$> [ArraySamples.byte_element Byte.x02; ArraySamples.byte_element Byte.x01]
    ∧ NoDup (listClone :: new)
    ∧ (∀ a, a ∈ listClone :: new → heap ArraySamples.two_elements !! a = None)
    ∧ (∀ a, a ∉ listClone :: new → heap m' !! a = heap ArraySamples.two_elements !! a).
Proof.
  apply (list_clone_copies_every_element ArraySamples.two_elements 1%positive ArraySamples.two [ArraySamples.byte_element Byte.x02; ArraySamples.byte_element Byte.x01]).
  - reflexivity.
  - split; simpl; lia.
  - reflexivity.
  - exact ArraySamples.both_element_ok.
  - intros k; reflexivity.
  - exact ArraySamples.two_allocator_ok.
Defined.

(** That list joined with itself. *)
Lemma list_join_example :
  ∃ (m' : ArrayList.memory) (joinList : addr) (new : list addr),
    let join :=
      {| ArrayList.size := ArrayList.size ArraySamples.two + ArrayList.size ArraySamples.two;
         ArrayList.capacity := ArrayList.size ArraySamples.two + ArrayList.size ArraySamples.two;
         ArrayList.items := ArrayList.Ptr <$> new;
         ArrayList.equalityFunction := Fn ArrayList.default_equals;
         ArrayList.sortingFunction := Fn ArrayList.SortDefault |} in
    ArrayList.list_join (Some 1%positive) (Some 1%positive) ArraySamples.two_elements
    = Ret ((ArrayList.LIST_SUCCESS, Some joinList), m')
    ∧ heap m' !! joinList = Some (ArrayList.OList join)
    ∧ ArrayList.elements (heap m') join = Some <$> ([ArraySamples.byte_element Byte.x02; ArraySamples.byte_element Byte.x01] ++ [ArraySamples.byte_element Byte.x02; ArraySamples.byte_element Byte.x01])
    ∧ NoDup (joinList :: new)
    ∧ (∀ a, a ∈ joinList :: new → heap ArraySamples.two_elements !! a = None)
    ∧ (∀ a, a ∉ joinList :: new → heap m' !! a = heap ArraySamples.two_elements !! a).
Proof.
  apply (list_join_copies_both_lists ArraySamples.two_elements 1%positive 1%positive ArraySamples.two ArraySamples.two [ArraySamples.byte_element Byte.x02; ArraySamples.byte_element Byte.x01] [ArraySamples.byte_element Byte.x02; ArraySamples.byte_element Byte.x01]).
  - reflexivity.
  - reflexivity.
  - split; simpl; lia.
  - split; simpl; lia.
  - reflexivity.
  - reflexivity.
  - exact ArraySamples.both_element_ok.
  - exact ArraySamples.both_element_ok.
  - simpl; lia.
  - intros k; reflexivity.
  - exact ArraySamples.two_allocator_ok.
Defined.

(** The byte 05 inserted between the two elements of that list. *)
Lemma list_insert_example :
  ∃ (m' : ArrayList.memory) (l' : ArrayList.list_t),
    ArrayList.list_insert (Some 1%positive) 1 (Some [Byte.x05]) 1 ArraySamples.two_elements = Ret (ArrayList.LIST_SUCCESS, m')
    ∧ heap m' !! 1%positive = Some (ArrayList.OList l')
    ∧ ArrayList.live_items l'
      = take (Z.to_nat 1) (ArrayList.live_items ArraySamples.two)
        ++ ArrayList.Ptr (brk ArraySamples.two_elements) :: drop (Z.to_nat 1) (ArrayList.live_items ArraySamples.two)
    ∧ ArrayList.size l' = ArrayList.size ArraySamples.two + 1
    ∧ ArrayList.capacity l'
      = (if ArrayList.size ArraySamples.two =? ArrayList.capacity ArraySamples.two
         then ArrayList.capacity ArraySamples.two * 2 else ArrayList.capacity ArraySamples.two)
    ∧ heap ArraySamples.two_elements !! brk ArraySamples.two_elements = None
    ∧ heap m' !! brk ArraySamples.two_elements = Some (ArrayList.OElement (ArrayListOps.element_of (Some [Byte.x05]) 1))
    ∧ (∀ a, a ≠ 1%positive → a ≠ brk ArraySamples.two_elements → heap m' !! a = heap ArraySamples.two_elements !! a).
Proof.
  apply (list_insert_puts_the_element_at_the_index ArraySamples.two_elements 1%positive ArraySamples.two 1 (Some [Byte.x05]) 1).
  - reflexivity.
  - split; simpl; lia.
  - simpl; lia.
  - simpl; lia.
  - simpl; lia.
  - simpl; lia.
  - intros k; reflexivity.
  - exact ArraySamples.two_allocator_ok.
  - simpl; lia.
Defined.

(** The byte 05 put in front of the full list of two elements. *)
Lemma list_prepend_example :
  ∃ (m' : ArrayList.memory) (l' : ArrayList.list_t),
    ArrayList.list_prepend (Some 1%positive) (Some [Byte.x05]) 1 ArraySamples.full_list = Ret (ArrayList.LIST_SUCCESS, m')
    ∧ heap m' !! 1%positive = Some (ArrayList.OList l')
    ∧ ArrayList.live_items l' = ArrayList.Ptr (brk ArraySamples.full_list) :: ArrayList.live_items ArraySamples.full
    ∧ ArrayList.size l' = ArrayList.size ArraySamples.full + 1
    ∧ ArrayList.capacity l'
      = (if ArrayList.size ArraySamples.full =? ArrayList.capacity ArraySamples.full
         then ArrayList.capacity ArraySamples.full * 2 else ArrayList.capacity ArraySamples.full)
    ∧ heap ArraySamples.full_list !! brk ArraySamples.full_list = None
    ∧ heap m' !! brk ArraySamples.full_list = Some (ArrayList.OElement (ArrayListOps.element_of (Some [Byte.x05]) 1))
    ∧ (∀ a, a ≠ 1%positive → a ≠ brk ArraySamples.full_list → heap m' !! a = heap ArraySamples.full_list !! a)
    ∧ alloc_count m'
      = (ArrayListOps.requests (Some [Byte.x05]) + 1
         + (if (ArrayList.size ArraySamples.full =? ArrayList.capacity ArraySamples.full)%Z then 1 else 0)
         + alloc_count ArraySamples.full_list)%nat.
Proof.
  apply (list_prepend_adds_at_the_front ArraySamples.full_list 1%positive ArraySamples.full (Some [Byte.x05]) 1).
  - reflexivity.
  - split; simpl; lia.
  - simpl; lia.
  - simpl; lia.
  - intros k; reflexivity.
  - exact ArraySamples.full_allocator_ok.
  - simpl; lia.
Defined.

(** The list of the bytes 02 and 01 sorted with the default functions. *)
Lemma list_sort_example :
  ∃ a : list ArrayList.pointer,
    ArrayList.list_sort (λ _ _ _, mret ArrayList.LIST_SUCCESS) (Some 1%positive) true ArraySamples.two_elements
    = Ret (ArrayList.LIST_SUCCESS,
           ArrayListOps.store_list ArraySamples.two_elements 1%positive (ArrayList.set_items ArraySamples.two a))
    ∧ length a = length (ArrayList.items ArraySamples.two)
    ∧ take (Z.to_nat (ArrayList.size ArraySamples.two)) a ≡ₚ ArrayList.live_items ArraySamples.two
    ∧ drop (Z.to_nat (ArrayList.size ArraySamples.two)) a
      = drop (Z.to_nat (ArrayList.size ArraySamples.two)) (ArrayList.items ArraySamples.two).
Proof.
  apply (list_sort_by_default_permutes_the_slots (λ _ _ _, mret ArrayList.LIST_SUCCESS) ArraySamples.two_elements 1%positive ArraySamples.two ArrayList.default_equals [ArraySamples.byte_element Byte.x02; ArraySamples.byte_element Byte.x01] true).
  - reflexivity.
  - split; simpl; lia.
  - simpl; lia.
  - reflexivity.
  - reflexivity.
  - reflexivity.
  - exact ArraySamples.both_always_compare.
Defined.

(** The first element of that list popped. *)
Lemma list_pop_example :
  ArrayList.list_pop (Some 1%positive) 0 ArraySamples.two_elements = Undef
  ∧ ∀ (list' : option addr) (index' : Z) (m0 m' : ArrayList.memory)
      (r : ArrayList.list_result_t) (out : option ArrayList.pointer),
      ArrayList.list_pop list' index' m0 = Ret ((r, out), m') → r ≠ ArrayList.LIST_SUCCESS.
Proof.
  apply (list_pop_writes_through_the_freed_element ArraySamples.two_elements 1%positive ArraySamples.two 0 2%positive (ArraySamples.byte_element Byte.x02)).
  - reflexivity.
  - simpl; lia.
  - reflexivity.
  - reflexivity.
  - intros data [= <-]; reflexivity.
  - intros k; reflexivity.
Defined.

(** The linked list of the bytes 02 and 01 reversed. *)
Lemma linked_list_reverse_example :
  ∃ m' : LinkedList.memory,
    LinkedList.linked_list_reverse (Some 1%positive) LinkedSamples.two_nodes
    = Ret (LinkedList.LINKED_LIST_SUCCESS, m')
    ∧ heap m' !! 1%positive
      = Some (LinkedList.OList
                (match [2%positive; 4%positive] with
                 | [] => LinkedSamples.pair
                 | _ => LinkedList.set_head (LinkedList.set_tail LinkedSamples.pair (LinkedList.head LinkedSamples.pair))
                          (last [2%positive; 4%positive])
                 end))
    ∧ LinkedList.chain (heap m') (last [2%positive; 4%positive]) (reverse [2%positive; 4%positive])
    ∧ (∀ a, a ∈ [2%positive; 4%positive] → LinkedList.element_at (heap m') a = LinkedList.element_at (heap LinkedSamples.two_nodes) a)
    ∧ (∀ a, a ∉ [2%positive; 4%positive] → a ≠ 1%positive → heap m' !! a = heap LinkedSamples.two_nodes !! a).
Proof.
  apply (linked_list_reverse_turns_the_chain_around LinkedSamples.two_nodes 1%positive LinkedSamples.pair [2%positive; 4%positive]).
  - reflexivity.
  - exact LinkedSamples.pair_chain.
Defined.

(** That linked list cleared. *)
Lemma linked_list_clear_example :
  ∃ m' : LinkedList.memory,
    LinkedList.linked_list_clear (Some 1%positive) LinkedSamples.two_nodes
    = Ret (LinkedList.LINKED_LIST_SUCCESS, m')
    ∧ heap m' !! 1%positive
      = Some (LinkedList.OList
                (LinkedList.set_count
                   (LinkedList.set_tail (LinkedList.set_head LinkedSamples.pair None) None) 0))
    ∧ (∀ a, a ∈ take (length [2%positive; 4%positive] - 1) [2%positive; 4%positive] ++ take (length [2%positive; 4%positive] - 1) [3%positive; 5%positive] → heap m' !! a = None)
    ∧ (∀ a, last [2%positive; 4%positive] = Some a ∨ last [3%positive; 5%positive] = Some a → heap m' !! a = heap LinkedSamples.two_nodes !! a)
    ∧ (∀ a, a ∉ [2%positive; 4%positive] ++ [3%positive; 5%positive] → a ≠ 1%positive → heap m' !! a = heap LinkedSamples.two_nodes !! a).
Proof.
  apply (linked_list_clear_leaves_the_last_node LinkedSamples.two_nodes 1%positive LinkedSamples.pair [2%positive; 4%positive] [3%positive; 5%positive]).
  - reflexivity.
  - exact LinkedSamples.pair_chain.
  - exact LinkedSamples.pair_owns.
Defined.

(** That linked list freed. *)
Lemma linked_list_free_example :
  ∃ m' : LinkedList.memory,
    LinkedList.linked_list_free (Some 1%positive) LinkedSamples.two_nodes
    = Ret ((LinkedList.LINKED_LIST_SUCCESS, None), m')
    ∧ heap m' !! 1%positive = None
    ∧ (∀ a, a ∈ take (length [2%positive; 4%positive] - 1) [2%positive; 4%positive] ++ take (length [2%positive; 4%positive] - 1) [3%positive; 5%positive] → heap m' !! a = None)
    ∧ (∀ a, last [2%positive; 4%positive] = Some a ∨ last [3%positive; 5%positive] = Some a → heap m' !! a = heap LinkedSamples.two_nodes !! a)
    ∧ (∀ a, a ∉ [2%positive; 4%positive] ++ [3%positive; 5%positive] → a ≠ 1%positive → heap m' !! a = heap LinkedSamples.two_nodes !! a).
Proof.
  apply (linked_list_free_leaves_the_last_node LinkedSamples.two_nodes 1%positive LinkedSamples.pair [2%positive; 4%positive] [3%positive; 5%positive]).
  - reflexivity.
  - exact LinkedSamples.pair_chain.
  - exact LinkedSamples.pair_owns.
Defined.

(** The byte 01 looked for from the start of that linked list. *)
Lemma linked_list_find_first_example :
  (∃ i x, LinkedList.linked_list_find_first (Some 1%positive) 0 (Some [Byte.x01]) 1 LinkedSamples.two_nodes
            = Ret ((LinkedList.LINKED_LIST_SUCCESS, Some i), LinkedSamples.two_nodes)
          ∧ 0 <= i
          ∧ [LinkedSamples.byte_item Byte.x02; LinkedSamples.byte_item Byte.x01] !! Z.to_nat i = Some x
          ∧ LinkedListSearch.matches LinkedList.default_equals (Some [Byte.x01]) 1 x = true
          ∧ ∀ j x', 0 <= j < i → [LinkedSamples.byte_item Byte.x02; LinkedSamples.byte_item Byte.x01] !! Z.to_nat j = Some x' →
                    LinkedListSearch.matches LinkedList.default_equals (Some [Byte.x01]) 1 x' = false)
  ∨ (LinkedList.linked_list_find_first (Some 1%positive) 0 (Some [Byte.x01]) 1 LinkedSamples.two_nodes
       = Ret ((LinkedList.LINKED_LIST_ELEMENT_NOT_FOUND_ERROR, Some (-1)), LinkedSamples.two_nodes)
     ∧ ∀ j x', 0 <= j → [LinkedSamples.byte_item Byte.x02; LinkedSamples.byte_item Byte.x01] !! Z.to_nat j = Some x' →
               LinkedListSearch.matches LinkedList.default_equals (Some [Byte.x01]) 1 x' = false).
Proof.
  apply (linked_list_find_first_finds_the_first LinkedSamples.two_nodes 1%positive LinkedSamples.pair LinkedList.default_equals [2%positive; 4%positive] [LinkedSamples.byte_item Byte.x02; LinkedSamples.byte_item Byte.x01] 0 (Some [Byte.x01]) 1).
  - reflexivity.
  - reflexivity.
  - exact LinkedSamples.pair_chain.
  - reflexivity.
  - apply LinkedSamples.pair_comparable; reflexivity.
  - simpl; lia.
Defined.

(** Three steps of an iterator over that linked list. *)
Lemma linked_list_iterator_example :
  LinkedListIterate.visit (S (length [2%positive; 4%positive])) 6%positive LinkedSamples.two_nodes_iterated
  = Ret (LinkedListIterate.steps 0 [2%positive; 4%positive]
         ++ [(LinkedList.LINKED_LIST_INDEX_OUT_OF_RANGE_ERROR, -1, None)], LinkedSamples.two_nodes_iterated).
Proof.
  apply (linked_list_iterator_visits_every_node_in_order LinkedSamples.two_nodes_iterated 6%positive 1%positive LinkedSamples.pair [2%positive; 4%positive]).
  - reflexivity.
  - reflexivity.
  - exact LinkedSamples.pair_chain_iterated.
  - discriminate.
  - simpl; lia.
Defined.

(** The byte 05 put in front of that linked list. *)
Lemma linked_list_prepend_example :
  ∃ m' : LinkedList.memory,
    let node := Pos.succ (brk LinkedSamples.two_nodes) in
    LinkedList.linked_list_prepend (Some 1%positive) (Some [Byte.x05]) 1 LinkedSamples.two_nodes
    = Ret (LinkedList.LINKED_LIST_SUCCESS, m')
    ∧ heap m' !! 1%positive
      = Some (LinkedList.OList
                {| LinkedList.head := Some node;
                   LinkedList.tail :=
                     match LinkedList.head LinkedSamples.pair with
                     | None => Some node
                     | Some _ => LinkedList.tail LinkedSamples.pair
                     end;
                   LinkedList.count := LinkedList.count LinkedSamples.pair + 1;
                   LinkedList.equalityFunction := LinkedList.equalityFunction LinkedSamples.pair;
                   LinkedList.sortingFunction := LinkedList.sortingFunction LinkedSamples.pair |})
    ∧ LinkedList.chain (heap m') (Some node) (node :: [2%positive; 4%positive])
    ∧ LinkedList.element_at (heap m') node = Some (LinkedListAlloc.element_of (Some [Byte.x05]) 1)
    ∧ heap LinkedSamples.two_nodes !! brk LinkedSamples.two_nodes = None
    ∧ heap LinkedSamples.two_nodes !! node = None
    ∧ (∀ a, a ≠ 1%positive → a ≠ brk LinkedSamples.two_nodes → a ≠ node → heap m' !! a = heap LinkedSamples.two_nodes !! a).
Proof.
  apply (linked_list_prepend_puts_a_node_in_front LinkedSamples.two_nodes 1%positive LinkedSamples.pair [2%positive; 4%positive] (Some [Byte.x05]) 1).
  - reflexivity.
  - exact LinkedSamples.pair_chain.
  - simpl; lia.
  - intros k; reflexivity.
  - exact LinkedSamples.pair_allocator_ok.
  - simpl; lia.
Defined.

(** The byte 05 put at the end of that linked list. *)
Lemma linked_list_append_example :
  ∃ m' : LinkedList.memory,
    let node := Pos.succ (brk LinkedSamples.two_nodes) in
    LinkedList.linked_list_append (Some 1%positive) (Some [Byte.x05]) 1 LinkedSamples.two_nodes
    = Ret (LinkedList.LINKED_LIST_SUCCESS, m')
    ∧ heap m' !! 1%positive
      = Some (LinkedList.OList
                {| LinkedList.head :=
                     match LinkedList.head LinkedSamples.pair with
                     | None => Some node
                     | Some _ => LinkedList.head LinkedSamples.pair
                     end;
                   LinkedList.tail := Some node;
                   LinkedList.count := LinkedList.count LinkedSamples.pair + 1;
                   LinkedList.equalityFunction := LinkedList.equalityFunction LinkedSamples.pair;
                   LinkedList.sortingFunction := LinkedList.sortingFunction LinkedSamples.pair |})
    ∧ LinkedList.chain (heap m')
        (match LinkedList.head LinkedSamples.pair with None => Some node | Some _ => LinkedList.head LinkedSamples.pair end)
        ([2%positive; 4%positive] ++ [node])
    ∧ LinkedList.element_at (heap m') node = Some (LinkedListAlloc.element_of (Some [Byte.x05]) 1)
    ∧ (∀ a x, a ∈ [2%positive; 4%positive] → LinkedList.element_at (heap LinkedSamples.two_nodes) a = Some x →
              LinkedList.element_at (heap m') a = Some x)
    ∧ heap LinkedSamples.two_nodes !! brk LinkedSamples.two_nodes = None
    ∧ heap LinkedSamples.two_nodes !! node = None
    ∧ (∀ a, a ≠ 1%positive → a ≠ brk LinkedSamples.two_nodes → a ≠ node → last [2%positive; 4%positive] ≠ Some a →
            heap m' !! a = heap LinkedSamples.two_nodes !! a).
Proof.
  apply (linked_list_append_puts_a_node_at_the_end LinkedSamples.two_nodes 1%positive LinkedSamples.pair [2%positive; 4%positive] (Some [Byte.x05]) 1).
  - reflexivity.
  - exact LinkedSamples.pair_chain.
  - reflexivity.
  - simpl; lia.
  - intros k; reflexivity.
  - exact LinkedSamples.pair_allocator_ok.
  - simpl; lia.
Defined.

(** The second element of that linked list. *)
Lemma linked_list_get_example :
  ∃ m' : LinkedList.memory,
    LinkedList.linked_list_get (Some 1%positive) 1 LinkedSamples.two_nodes
    = Ret ((LinkedList.LINKED_LIST_SUCCESS, Some (brk LinkedSamples.two_nodes)), m')
    ∧ heap LinkedSamples.two_nodes !! brk LinkedSamples.two_nodes = None
    ∧ heap m' = <[brk LinkedSamples.two_nodes := LinkedList.OElement (LinkedSamples.byte_item Byte.x01)]> (heap LinkedSamples.two_nodes).
Proof.
  apply (linked_list_get_returns_a_copy LinkedSamples.two_nodes 1%positive LinkedSamples.pair [2%positive; 4%positive] 1 4%positive (LinkedSamples.byte_item Byte.x01)).
  - reflexivity.
  - exact LinkedSamples.pair_chain.
  - simpl; lia.
  - reflexivity.
  - reflexivity.
  - intros data [= <-]; reflexivity.
  - intros k; reflexivity.
  - exact LinkedSamples.pair_allocator_ok.
Defined.

(** The second node of that linked list removed. *)
Lemma linked_list_remove_example :
  ∃ m' : LinkedList.memory,
    LinkedList.linked_list_remove (Some 1%positive) 1 LinkedSamples.two_nodes
    = Ret (LinkedList.LINKED_LIST_SUCCESS, m')
    ∧ heap m' !! 1%positive
      = Some (LinkedList.OList
                {| LinkedList.head := hd_error (delete (Z.to_nat 1) [2%positive; 4%positive]);
                   LinkedList.tail := last (delete (Z.to_nat 1) [2%positive; 4%positive]);
                   LinkedList.count := LinkedList.count LinkedSamples.pair - 1;
                   LinkedList.equalityFunction := LinkedList.equalityFunction LinkedSamples.pair;
                   LinkedList.sortingFunction := LinkedList.sortingFunction LinkedSamples.pair |})
    ∧ LinkedList.chain (heap m') (hd_error (delete (Z.to_nat 1) [2%positive; 4%positive]))
        (delete (Z.to_nat 1) [2%positive; 4%positive])
    ∧ heap m' !! 4%positive = None
    ∧ heap m' !! 5%positive = None
    ∧ (∀ b, b ∈ delete (Z.to_nat 1) [2%positive; 4%positive] →
            LinkedList.element_at (heap m') b = LinkedList.element_at (heap LinkedSamples.two_nodes) b)
    ∧ (∀ b, b ∉ [2%positive; 4%positive] → b ≠ 1%positive → b ≠ 5%positive → heap m' !! b = heap LinkedSamples.two_nodes !! b)
    ∧ brk m' = brk LinkedSamples.two_nodes
    ∧ alloc_count m' = alloc_count LinkedSamples.two_nodes.
Proof.
  apply (linked_list_remove_takes_the_node_out LinkedSamples.two_nodes 1%positive LinkedSamples.pair [2%positive; 4%positive] [3%positive; 5%positive] 1 4%positive 5%positive).
  - reflexivity.
  - exact LinkedSamples.pair_chain.
  - reflexivity.
  - reflexivity.
  - simpl; lia.
  - simpl; lia.
  - exact LinkedSamples.pair_owns.
  - reflexivity.
  - reflexivity.
Defined.

(** The two nodes of that linked list exchanged. *)
Lemma linked_list_swap_example :
  ∃ m' : LinkedList.memory,
    let ns' := LinkedListSwap.swapped [2%positive; 4%positive] (Z.to_nat 0) (Z.to_nat 1) in
    LinkedList.linked_list_swap (Some 1%positive) 0 1 LinkedSamples.two_nodes
    = Ret (LinkedList.LINKED_LIST_SUCCESS, m')
    ∧ heap m' !! 1%positive
      = Some (LinkedList.OList
                (LinkedList.set_tail (LinkedList.set_head LinkedSamples.pair (hd_error ns')) (last ns')))
    ∧ LinkedList.chain (heap m') (hd_error ns') ns'
    ∧ (∀ a, a ∈ [2%positive; 4%positive] → LinkedList.element_at (heap m') a = LinkedList.element_at (heap LinkedSamples.two_nodes) a)
    ∧ (∀ b, b ∉ [2%positive; 4%positive] → b ≠ 1%positive → heap m' !! b = heap LinkedSamples.two_nodes !! b)
    ∧ brk m' = brk LinkedSamples.two_nodes
    ∧ alloc_count m' = alloc_count LinkedSamples.two_nodes.
Proof.
  apply (linked_list_swap_exchanges_two_nodes LinkedSamples.two_nodes 1%positive LinkedSamples.pair [2%positive; 4%positive] 0 1).
  - reflexivity.
  - exact LinkedSamples.pair_chain.
  - reflexivity.
  - reflexivity.
  - simpl; lia.
  - simpl; lia.
  - simpl; lia.
Defined.

